(** * Attendance event processing engine of the operations dashboard

    A shallow embedding of [src/lib/googleSheets.ts] (row normalisation,
    the event repository, FIFO shift pairing, compliance classification,
    exception detection and the aggregates) together with the properties
    the specification states about it.

    Conventions of the embedding.
    - A JavaScript [Date] is the integer number of milliseconds since the
      epoch ([Z]); [toISOString] is injective on valid dates and is
      represented by that same integer.  Local-time accessors
      ([getHours], [getDate], the [new Date(y, m, d, ...)] constructor,
      [setHours]) read a fixed offset [tz] (milliseconds east of UTC).
    - A JavaScript [number] that is not a timestamp or a count is an exact
      rational ([Q]); [number | null] is [option Q].  Where the rounding
      of the doubles shows in the output, the number is a double
      ([float]): the working-hours total, for which the specification
      asks exact values, is computed a second time on IEEE doubles
      (section "Working hours on doubles"), the hours of the workload
      ranking are doubles, and [parseInt] rounds to the nearest double.
    - A JavaScript string is a [string] of ASCII characters.
    - A [Map] is an association list in insertion order, since the code
      iterates over its maps and the order shows in the output.
    - Reads of the wall clock ([new Date()], [Date.now()]) are the explicit
      argument [now]. *)

From Stdlib Require Import ZArith QArith Qround List String Ascii Bool Lia.
From Stdlib Require Import Permutation Sorted DecimalString.
From Stdlib Require Import Floats.
Import ListNotations.

Local Open Scope string_scope.
Local Open Scope list_scope.
Local Open Scope Z_scope.

(* ================================================================== *)
(** * JavaScript built-ins used by the module *)
(* ================================================================== *)

Module JS.

(** ** Characters and strings *)

(** The ASCII members of the [WhiteSpace] and [LineTerminator] classes,
    which is what [\s] and [String.prototype.trim] remove. *)
Definition isWhiteSpace (c : ascii) : bool :=
  let n := nat_of_ascii c in
  (Nat.leb 9 n && Nat.leb n 13) || Nat.eqb n 32.

Definition isDigit (c : ascii) : bool :=
  let n := nat_of_ascii c in Nat.leb 48 n && Nat.leb n 57.

Definition digitValue (c : ascii) : Z := Z.of_nat (nat_of_ascii c) - 48.

Definition charToUpper (c : ascii) : ascii :=
  let n := nat_of_ascii c in
  if Nat.leb 97 n && Nat.leb n 122 then ascii_of_nat (n - 32) else c.

Definition charToLower (c : ascii) : ascii :=
  let n := nat_of_ascii c in
  if Nat.leb 65 n && Nat.leb n 90 then ascii_of_nat (n + 32) else c.

Arguments isWhiteSpace : simpl never.
Arguments isDigit : simpl never.
Arguments charToUpper : simpl never.
Arguments charToLower : simpl never.

Fixpoint smap (f : ascii -> ascii) (s : string) : string :=
  match s with
  | EmptyString => EmptyString
  | String c s' => String (f c) (smap f s')
  end.

Fixpoint sfilter (f : ascii -> bool) (s : string) : string :=
  match s with
  | EmptyString => EmptyString
  | String c s' => if f c then String c (sfilter f s') else sfilter f s'
  end.

Definition toUpperCase : string -> string := smap charToUpper.
Definition toLowerCase : string -> string := smap charToLower.

(** A string is truthy exactly when it is not empty. *)
Definition truthy (s : string) : bool :=
  match s with EmptyString => false | String _ _ => true end.

Fixpoint trimStart (s : string) : string :=
  match s with
  | EmptyString => EmptyString
  | String c s' => if isWhiteSpace c then trimStart s' else s
  end.

(** [trimEnd] as a right fold: a character is kept when it is not white
    space or when something is kept after it. *)
Fixpoint trimEnd (s : string) : string :=
  match s with
  | EmptyString => EmptyString
  | String c s' =>
      match trimEnd s' with
      | EmptyString => if isWhiteSpace c then EmptyString else String c EmptyString
      | String d t => String c (String d t)
      end
  end.

Definition trim (s : string) : string := trimEnd (trimStart s).

(** [s.replace(/\s+/g, '')]: every maximal run of white space is replaced
    by the empty string, which deletes every white-space character. *)
Definition removeWhiteSpace : string -> string :=
  sfilter (fun c => negb (isWhiteSpace c)).

Fixpoint startsWith (p s : string) : bool :=
  match p, s with
  | EmptyString, _ => true
  | String a p', String b s' => Ascii.eqb a b && startsWith p' s'
  | String _ _, EmptyString => false
  end.

(** [s.includes(p)] *)
Fixpoint includes (p s : string) : bool :=
  startsWith p s ||
  match s with
  | EmptyString => false
  | String _ s' => includes p s'
  end.

Fixpoint sdrop (n : nat) (s : string) : string :=
  match n, s with
  | O, _ => s
  | S n', String _ s' => sdrop n' s'
  | S _, EmptyString => EmptyString
  end.

Fixpoint repeatChar (c : ascii) (n : nat) : string :=
  match n with O => EmptyString | S n' => String c (repeatChar c n') end.

(** [s.padStart(n, c)] for a one-character filler. *)
Definition padStart (n : nat) (c : ascii) (s : string) : string :=
  repeatChar c (n - String.length s) ++ s.

(** [String(z)] for an integer-valued number. *)
Definition stringOfZ (z : Z) : string :=
  NilZero.string_of_int (Z.to_int z).

(** ** Numbers *)

(** [Math.round]: the nearest integer, halves towards plus infinity. *)
Definition Math_round (x : Q) : Z := Qfloor (x + (1 # 2)).

Definition Qgtb (x y : Q) : bool := negb (Qle_bool x y).

(** ** Arrays *)

(** [values[i]] for a possibly negative or too large index. *)
Definition index {A} (l : list A) (i : Z) : option A :=
  if i <? 0 then None else nth_error l (Z.to_nat i).

(** [arr.slice(0, e)]: a negative [e] counts from the end. *)
Definition slice0 {A} (l : list A) (e : Z) : list A :=
  let n := Z.of_nat (List.length l) in
  let k := if e <? 0 then Z.max (n + e) 0 else Z.min e n in
  firstn (Z.to_nat k) l.

(** [Array.prototype.sort] with a comparator.  The language requires the
    sort to be stable, so for a consistent comparator the result is the
    one stable ordering; insertion from the right computes it.  [after a b]
    stands for [compare(a, b) > 0]. *)
Section Sort.
Context {A : Type} (after : A -> A -> bool).

Fixpoint insert (x : A) (l : list A) : list A :=
  match l with
  | [] => [x]
  | y :: l' => if after x y then y :: insert x l' else x :: l
  end.

Definition sort (l : list A) : list A := fold_right insert [] l.

(** [a] may stay in front of [b]: the comparator does not ask for [a]
    after [b]. *)
Definition before (a b : A) : Prop := after a b = false.
End Sort.

(** ** Maps keyed by strings, in insertion order *)

Definition Map (V : Type) := list (string * V).

Fixpoint Map_get {V} (m : Map V) (k : string) : option V :=
  match m with
  | [] => None
  | (k', v) :: m' => if String.eqb k' k then Some v else Map_get m' k
  end.

Definition Map_has {V} (m : Map V) (k : string) : bool :=
  match Map_get m k with Some _ => true | None => false end.

(** [m.set(k, v)]: an existing key keeps its place. *)
Fixpoint Map_set {V} (m : Map V) (k : string) (v : V) : Map V :=
  match m with
  | [] => [(k, v)]
  | (k', v') :: m' =>
      if String.eqb k' k then (k', v) :: m' else (k', v') :: Map_set m' k v
  end.

(** In-place mutation of the value stored under [k]. *)
Fixpoint Map_update {V} (m : Map V) (k : string) (f : V -> V) : Map V :=
  match m with
  | [] => []
  | (k', v) :: m' =>
      if String.eqb k' k then (k', f v) :: m' else (k', v) :: Map_update m' k f
  end.

(** ** Dates *)

Definition msPerDay : Z := 86400000.

(** Day number (days since 1970-01-01) to the civil date (year, month
    1..12, day 1..31) of the proleptic Gregorian calendar. *)
Definition civilFromDays (days : Z) : Z * Z * Z :=
  let z := days + 719468 in
  let era := z / 146097 in
  let doe := z - era * 146097 in
  let yoe := (doe - doe / 1460 + doe / 36524 - doe / 146096) / 365 in
  let doy := doe - (365 * yoe + yoe / 4 - yoe / 100) in
  let mp := (5 * doy + 2) / 153 in
  let d := doy - (153 * mp + 2) / 5 + 1 in
  let m := if mp <? 10 then mp + 3 else mp - 9 in
  let y := yoe + era * 400 + (if m <=? 2 then 1 else 0) in
  (y, m, d).

Definition daysFromCivil (y m d : Z) : Z :=
  let y' := if m <=? 2 then y - 1 else y in
  let era := y' / 400 in
  let yoe := y' - era * 400 in
  let doy := (153 * (if 2 <? m then m - 3 else m + 9) + 2) / 5 + d - 1 in
  let doe := yoe * 365 + yoe / 4 - yoe / 100 + doy in
  era * 146097 + doe - 719468.

Section LocalTime.
Variable tz : Z.

Definition localDay (t : Z) : Z := (t + tz) / msPerDay.
Definition getFullYear (t : Z) : Z := fst (fst (civilFromDays (localDay t))).
(** [getMonth] is zero-based. *)
Definition getMonth (t : Z) : Z := snd (fst (civilFromDays (localDay t))) - 1.
Definition getDate (t : Z) : Z := snd (civilFromDays (localDay t)).
Definition getHours (t : Z) : Z := ((t + tz) / 3600000) mod 24.
Definition getMinutes (t : Z) : Z := ((t + tz) / 60000) mod 60.

(** [new Date(year, monthIndex, day, hours, minutes, seconds)]: fields
    out of range carry over, and a year 0..99 means 1900 + year. *)
Definition Date_local (year monthIndex day hours minutes seconds : Z) : Z :=
  let year' := if (0 <=? year) && (year <=? 99) then 1900 + year else year in
  let ym := year' + monthIndex / 12 in
  let mn := monthIndex mod 12 in
  (daysFromCivil ym (mn + 1) 1 + (day - 1)) * msPerDay
  + hours * 3600000 + minutes * 60000 + seconds * 1000 - tz.

(** [d.setHours(23, 59, 59, 999)] *)
Definition setHours_endOfDay (t : Z) : Z :=
  localDay t * msPerDay + (23 * 3600000 + 59 * 60000 + 59 * 1000 + 999) - tz.
End LocalTime.

End JS.

(* ================================================================== *)
(** * Data model *)
(* ================================================================== *)

(** [CONFIG]: the business rules. *)
Record Config := {
  WORK_START_HOUR : Z;
  WORK_START_MINUTE : Z;
  DISTANCE_THRESHOLD_COMPLIANT : Q;
  DISTANCE_THRESHOLD_WARNING : Q;
  OPEN_SESSION_WARNING_HOURS : Q;
  OPEN_SESSION_CRITICAL_HOURS : Q;
  LATE_GRACE_PERIOD_MINUTES : Z
}.

Definition CONFIG : Config := {|
  WORK_START_HOUR := 9;
  WORK_START_MINUTE := 0;
  DISTANCE_THRESHOLD_COMPLIANT := 50;
  DISTANCE_THRESHOLD_WARNING := 100;
  OPEN_SESSION_WARNING_HOURS := 8;
  OPEN_SESSION_CRITICAL_HOURS := 12;
  LATE_GRACE_PERIOD_MINUTES := 15
|}.

Inductive PunchType := PunchIn | PunchOut.

Record RawPunchRecord := {
  name : string;
  employeeId : string;
  punchType : PunchType;
  location : string;
  timestamp : Z;
  manualLocation : string;
  distanceMeters : option Q
}.

Definition isPunchIn (p : RawPunchRecord) : bool :=
  match punchType p with PunchIn => true | PunchOut => false end.

Definition isPunchOut (p : RawPunchRecord) : bool :=
  match punchType p with PunchOut => true | PunchIn => false end.

Record ColumnMap := {
  col_name : Z;
  col_employeeId : Z;
  col_punchType : Z;
  col_location : Z;
  col_timestamp : Z;
  col_manualLocation : Z;
  col_distance : Z
}.

Record Employee := { emp_id : string; emp_name : string }.

Record ProcessedData := {
  punches : list RawPunchRecord;
  employees : JS.Map Employee;
  punchesByEmployee : JS.Map (list RawPunchRecord);
  punchesByDate : JS.Map (list RawPunchRecord);
  todayPunches : list RawPunchRecord
}.

Record KPIData := {
  activeEmployeesCount : Z;
  totalWorkingHoursToday : Q;
  onSiteCompliancePct : Z;
  exceptionsCount : Z;
  serverTimestamp : Z
}.

Record HourlyActivity := { hour : string; punchIn : Z; punchOut : Z }.

Record EmployeeWorkload := {
  wl_employeeId : string;
  wl_name : string;
  totalHours : float
}.

Inductive ComplianceStatus := compliant | warning | breach | unknown.

Record EmployeeLocation := {
  loc_employeeId : string;
  loc_name : string;
  lat : Q;
  long : Q;
  loc_status : ComplianceStatus;
  loc_timestamp : Z;
  loc_distance : option Q
}.

Inductive ExceptionType :=
  | OpenSession | PunchOutWithoutIn | LocationBreach | LocationMissing.

Inductive ExceptionSeverity := sev_warning | sev_critical.

Inductive ExceptionStatus := st_open | st_resolved | st_dismissed.

(** The four note templates of [calculateExceptions], with the value
    each one interpolates. *)
Inductive Note :=
  | LateArrivalBy (minutesLate : Z)
      (* `Late arrival by ${minutesLate} minutes` *)
  | OpenSessionFor (roundedHours : Z)
      (* `Open session for ${Math.round(hoursOpen)} hours (no punch out)` *)
  | PunchOutWithoutPrecedingIn
      (* 'Punch out without preceding punch in' *)
  | DistanceExceeds (d : Q).
      (* `Distance ${punch.distanceMeters}m exceeds threshold` *)

Record Exception := {
  exc_id : string;
  exc_employeeId : string;
  exc_name : string;
  exc_type : ExceptionType;
  severity : ExceptionSeverity;
  status : ExceptionStatus;
  exc_timestamp : Z;
  locationText : string;
  distance : option Q;
  notes : Note
}.

Record Shift := {
  shiftStart : Z;
  shiftEnd : option Z;
  durationMinutes : option Z;
  distanceStart : option Q;
  distanceEnd : option Q;
  onSiteStart : bool;
  onSiteEnd : option bool
}.

Definition severity_eqb (a b : ExceptionSeverity) : bool :=
  match a, b with
  | sev_warning, sev_warning | sev_critical, sev_critical => true
  | _, _ => false
  end.

(* ================================================================== *)
(** * Row normaliser *)
(* ================================================================== *)

Section Normalizer.
(** Time zone of the host, and the two built-ins whose result on
    arbitrary text is left to the implementation: [Date.parse] (behind
    [new Date(raw)]; [None] is an invalid date) and [parseFloat] ([None]
    is [NaN]). *)
Variable tz : Z.
Variable Date_parse : string -> option Z.
Variable parseFloat : string -> option Q.

(** [parseCSVLine]: the character loop with its three variables. *)
Fixpoint parseCSVLine_loop (line : string) (result : list string)
         (current : string) (inQuotes : bool) : list string :=
  match line with
  | EmptyString => result ++ [JS.trim current]
  | String char rest =>
      if Ascii.eqb char "034" then
        parseCSVLine_loop rest result current (negb inQuotes)
      else if Ascii.eqb char "," && negb inQuotes then
        parseCSVLine_loop rest (result ++ [JS.trim current]) EmptyString inQuotes
      else
        parseCSVLine_loop rest result (current ++ String char EmptyString)%string
          inQuotes
  end.

Definition parseCSVLine (line : string) : list string :=
  parseCSVLine_loop line [] EmptyString false.

(** [/^LYLB/i] *)
Definition startsWithLYLB (s : string) : bool :=
  JS.startsWith "LYLB" (JS.toUpperCase s).

Definition normalizeEmployeeId (raw : string) : string :=
  if negb (JS.truthy raw) then EmptyString
  else
    let normalized := JS.removeWhiteSpace (JS.trim raw) in
    let normalized :=
      if startsWithLYLB normalized then ("AYLB" ++ JS.sdrop 4 normalized)%string
      else normalized in
    JS.toUpperCase normalized.

(** ** [parseTimestamp] *)

Fixpoint numberOfDigits (acc : Z) (s : string) : Z :=
  match s with
  | EmptyString => acc
  | String c s' => numberOfDigits (10 * acc + JS.digitValue c) s'
  end.

(** [\d{1,2}], greedy: two digits first, one digit on backtracking. *)
Definition digits1or2 {T} (s : string) (k : string -> string -> option T)
  : option T :=
  match s with
  | String a (String b r) =>
      if JS.isDigit a then
        if JS.isDigit b then
          match k (String a (String b EmptyString)) r with
          | Some x => Some x
          | None => k (String a EmptyString) (String b r)
          end
        else k (String a EmptyString) (String b r)
      else None
  | String a EmptyString =>
      if JS.isDigit a then k (String a EmptyString) EmptyString else None
  | EmptyString => None
  end.

(** [\d{n}] *)
Fixpoint digitsExactly {T} (n : nat) (acc s : string)
         (k : string -> string -> option T) : option T :=
  match n with
  | O => k acc s
  | S n' =>
      match s with
      | String a r =>
          if JS.isDigit a
          then digitsExactly n' (acc ++ String a EmptyString)%string r k
          else None
      | EmptyString => None
      end
  end.

Definition literal {T} (c : ascii) (s : string) (k : string -> option T)
  : option T :=
  match s with
  | String a r => if Ascii.eqb a c then k r else None
  | EmptyString => None
  end.

(** [\s+], greedy: the longest run first, shorter ones on backtracking. *)
Fixpoint spaces1 {T} (s : string) (k : string -> option T) : option T :=
  match s with
  | String a r =>
      if JS.isWhiteSpace a then
        match spaces1 r k with
        | Some x => Some x
        | None => k r
        end
      else None
  | EmptyString => None
  end.

(** The tail [:?(\d{2})?]: it always matches; the group is undefined
    when two digits do not follow. *)
Definition optionalSeconds (s : string) : option string :=
  let s' := match s with
            | String a r => if Ascii.eqb a ":" then r else s
            | EmptyString => s
            end in
  match s' with
  | String a (String b _) =>
      if JS.isDigit a && JS.isDigit b
      then Some (String a (String b EmptyString)) else None
  | _ => None
  end.

(** One attempt of
    [(\d{1,2})\/(\d{1,2})\/(\d{4})\s+(\d{1,2}):(\d{2}):?(\d{2})?]
    at the head of [s]; the groups in order. *)
Definition ddmmMatchAt (s : string)
  : option (string * string * string * string * string * option string) :=
  digits1or2 s (fun day s1 =>
  literal "/" s1 (fun s2 =>
  digits1or2 s2 (fun month s3 =>
  literal "/" s3 (fun s4 =>
  digitsExactly 4 EmptyString s4 (fun year s5 =>
  spaces1 s5 (fun s6 =>
  digits1or2 s6 (fun hour s7 =>
  literal ":" s7 (fun s8 =>
  digitsExactly 2 EmptyString s8 (fun minute s9 =>
  Some (day, month, year, hour, minute, optionalSeconds s9)))))))))).

(** [raw.match(...)] without anchors: the leftmost position that
    matches. *)
Fixpoint ddmmMatch (s : string)
  : option (string * string * string * string * string * option string) :=
  match ddmmMatchAt s with
  | Some m => Some m
  | None =>
      match s with
      | String _ s' => ddmmMatch s'
      | EmptyString => None
      end
  end.

(** [/^\d{4}-\d{2}-\d{2}/] *)
Definition isoPrefix (s : string) : bool :=
  match
    digitsExactly 4 EmptyString s (fun _ s1 =>
    literal "-" s1 (fun s2 =>
    digitsExactly 2 EmptyString s2 (fun _ s3 =>
    literal "-" s3 (fun s4 =>
    digitsExactly 2 EmptyString s4 (fun _ _ => Some tt)))))
  with
  | Some _ => true
  | None => false
  end.

Definition parseTimestamp_iso (raw : string) : option Z :=
  if isoPrefix raw then Date_parse raw else None.

Definition parseTimestamp (raw : string) : option Z :=
  if negb (JS.truthy raw) then None
  else
    match ddmmMatch raw with
    | Some (day, month, year, hour, minute, second) =>
        let second := match second with Some s => s | None => "0" end in
        let d := numberOfDigits 0 day in
        let m := numberOfDigits 0 month in
        if (1 <=? d) && (d <=? 31) && (1 <=? m) && (m <=? 12) then
          Some (JS.Date_local tz (numberOfDigits 0 year) (m - 1) d
                  (numberOfDigits 0 hour) (numberOfDigits 0 minute)
                  (numberOfDigits 0 second))
        else parseTimestamp_iso raw
    | None => parseTimestamp_iso raw
    end.

(** [values[i] || ''] *)
Definition field (values : list string) (i : Z) : string :=
  match JS.index values i with Some v => v | None => EmptyString end.

Definition parseRow (values : list string) (columnMap : ColumnMap)
  : option RawPunchRecord :=
  let name := field values (col_name columnMap) in
  let employeeIdRaw := field values (col_employeeId columnMap) in
  let punchTypeRaw := field values (col_punchType columnMap) in
  let timestampRaw := field values (col_timestamp columnMap) in
  let employeeId := normalizeEmployeeId employeeIdRaw in
  if negb (JS.truthy name) || negb (JS.truthy employeeId)
     || negb (JS.truthy timestampRaw)
  then None
  else
    let punchType :=
      if JS.includes "out" (JS.toLowerCase punchTypeRaw)
      then PunchOut else PunchIn in
    match parseTimestamp timestampRaw with
    | None => None
    | Some timestamp =>
        let distanceRaw := field values (col_distance columnMap) in
        let distanceMeters :=
          if JS.truthy distanceRaw then parseFloat distanceRaw else None in
        Some {| name := JS.trim name;
                employeeId := employeeId;
                punchType := punchType;
                location := field values (col_location columnMap);
                timestamp := timestamp;
                manualLocation := field values (col_manualLocation columnMap);
                distanceMeters := distanceMeters |}
    end.

(** [headers.indexOf(name)], [-1] when absent. *)
Fixpoint indexOf (headers : list string) (x : string) (i : Z) : Z :=
  match headers with
  | [] => -1
  | h :: headers' => if String.eqb h x then i else indexOf headers' x (i + 1)
  end.

Fixpoint findColumnIndex (headers : list string) (possibleNames : list string)
  : Z :=
  match possibleNames with
  | [] => -1
  | name :: rest =>
      let index := indexOf headers (JS.toLowerCase name) 0 in
      if negb (index =? -1) then index else findColumnIndex headers rest
  end.

(** [text.split('\n')] *)
Fixpoint splitLines (text : string) (current : string) : list string :=
  match text with
  | EmptyString => [current]
  | String c rest =>
      if Ascii.eqb c "010" then current :: splitLines rest EmptyString
      else splitLines rest (current ++ String c EmptyString)%string
  end.

Definition columnMapOf (headers : list string) : ColumnMap := {|
  col_name := findColumnIndex headers ["name"; "employee name"; "employee_name"];
  col_employeeId :=
    findColumnIndex headers ["employee id"; "employee_id"; "employeeid"; "id"];
  col_punchType :=
    findColumnIndex headers ["punch type"; "punch_type"; "punchtype"; "type"];
  col_location := findColumnIndex headers ["location"; "gps"; "coordinates"];
  col_timestamp :=
    findColumnIndex headers ["timestamp"; "time"; "date time"; "datetime"];
  col_manualLocation :=
    findColumnIndex headers
      ["manual location"; "manual_location"; "manuallocation"; "place"];
  col_distance :=
    findColumnIndex headers
      ["distance(m)"; "distance"; "distance_m"; "distancem"]
|}.

Fixpoint parseCSV_rows (lines : list string) (columnMap : ColumnMap)
  : list RawPunchRecord :=
  match lines with
  | [] => []
  | l :: rest =>
      let line := JS.trim l in
      if negb (JS.truthy line) then parseCSV_rows rest columnMap
      else
        match parseRow (parseCSVLine line) columnMap with
        | Some record => record :: parseCSV_rows rest columnMap
        | None => parseCSV_rows rest columnMap
        end
  end.

Definition parseCSV (csvText : string) : list RawPunchRecord :=
  match splitLines csvText EmptyString with
  | header :: ((_ :: _) as rows) =>
      let headers :=
        map (fun h => JS.trim (JS.toLowerCase h)) (parseCSVLine header) in
      parseCSV_rows rows (columnMapOf headers)
  | _ => []
  end.
End Normalizer.

(* ================================================================== *)
(** * Event repository and derivations *)
(* ================================================================== *)

(** [(a, b) => a.timestamp.getTime() - b.timestamp.getTime()] is positive. *)
Definition laterThan (a b : RawPunchRecord) : bool :=
  0 <? timestamp a - timestamp b.

Definition sortByTimestamp : list RawPunchRecord -> list RawPunchRecord :=
  JS.sort laterThan.

(** The grouping idiom
    [if (!m.has(k)) m.set(k, []); m.get(k)!.push(record)]. *)
Definition pushTo (m : JS.Map (list RawPunchRecord)) (k : string)
           (record : RawPunchRecord) : JS.Map (list RawPunchRecord) :=
  let m := if negb (JS.Map_has m k) then JS.Map_set m k [] else m in
  JS.Map_update m k (fun arr => arr ++ [record]).

(** [for (const punch of punches) ...] grouping by employee, as written
    in [calculateWorkingHours], [calculateTopWorkload] and
    [calculateExceptions]. *)
Definition groupByEmployee (punches : list RawPunchRecord)
  : JS.Map (list RawPunchRecord) :=
  fold_left (fun byEmployee punch => pushTo byEmployee (employeeId punch) punch)
            punches [].

(** The inner [for (let j = ...; j < sorted.length; j++)] search: the
    first index from [j] on that holds a punch out, with the record.
    [l] is the part of [sorted] from index [j]. *)
Fixpoint findPunchOutIn (l : list RawPunchRecord) (j : nat)
  : option (nat * RawPunchRecord) :=
  match l with
  | [] => None
  | p :: l' => if isPunchOut p then Some (j, p) else findPunchOutIn l' (S j)
  end.

Definition findPunchOut (sorted : list RawPunchRecord) (j : nat)
  : option (nat * RawPunchRecord) :=
  findPunchOutIn (skipn j sorted) j.

(** The FIFO pairing loop
    [let i = 0; while (i < sorted.length) { ... }], which the module
    writes out three times with different bodies.  [onPair] runs where an
    out is found for the in at [i] (the cursor moves behind the out),
    [onOpen] where none is found, [onOut] at an out under the cursor (it
    receives [i]).  The recursion is on [fuel]; [fifoLoop_fuel] below
    shows that [length sorted] of it is never used up. *)
Section FifoLoop.
Context {State : Type}.
Variable onPair : RawPunchRecord -> RawPunchRecord -> State -> State.
Variable onOpen : RawPunchRecord -> State -> State.
Variable onOut : nat -> RawPunchRecord -> State -> State.

Fixpoint fifoLoop (fuel : nat) (sorted : list RawPunchRecord) (i : nat)
         (st : State) : State :=
  match fuel with
  | O => st
  | S fuel' =>
      match nth_error sorted i with
      | None => st
      | Some punch =>
          if isPunchIn punch then
            match findPunchOut sorted (i + 1) with
            | Some (j, out) =>
                fifoLoop fuel' sorted (j + 1) (onPair punch out st)
            | None => fifoLoop fuel' sorted (i + 1) (onOpen punch st)
            end
          else fifoLoop fuel' sorted (i + 1) (onOut i punch st)
      end
  end.

Definition fifo (sorted : list RawPunchRecord) (st : State) : State :=
  fifoLoop (List.length sorted) sorted 0 st.
End FifoLoop.

(** [calculateWorkingHours]; the two accumulators run across all
    employees. *)
Definition calculateWorkingHours (punches : list RawPunchRecord) : Q * Z :=
  let byEmployee := groupByEmployee punches in
  let '(totalMinutes, openSessions) :=
    fold_left
      (fun acc entry =>
         let sorted := sortByTimestamp (snd entry) in
         fifo
           (fun punch out '(totalMinutes, openSessions) =>
              let duration := timestamp out - timestamp punch in
              (totalMinutes + inject_Z duration / inject_Z (1000 * 60),
               openSessions)%Q)
           (fun _ '(totalMinutes, openSessions) =>
              (totalMinutes, openSessions + 1))
           (fun _ _ acc => acc)
           sorted acc)
      byEmployee (0%Q, 0) in
  ((totalMinutes / 60)%Q, openSessions).

Definition wh_totalHours (r : Q * Z) : Q := fst r.
Definition wh_openSessions (r : Q * Z) : Z := snd r.

Definition hasDistance (p : RawPunchRecord) : bool :=
  match distanceMeters p with Some _ => true | None => false end.

(** [p.distanceMeters! <= limit] on a record that has a distance. *)
Definition distanceAtMost (limit : Q) (p : RawPunchRecord) : bool :=
  match distanceMeters p with Some d => Qle_bool d limit | None => false end.

Definition distanceAbove (limit : Q) (p : RawPunchRecord) : bool :=
  match distanceMeters p with Some d => JS.Qgtb d limit | None => false end.

Definition count {A} (l : list A) : Z := Z.of_nat (List.length l).

Section Engine.
Variable tz : Z.
Variable cfg : Config.

Definition formatDateKey (date : Z) : string :=
  (JS.stringOfZ (JS.getFullYear tz date) ++ "-"
   ++ JS.padStart 2 "0" (JS.stringOfZ (JS.getMonth tz date + 1)) ++ "-"
   ++ JS.padStart 2 "0" (JS.stringOfZ (JS.getDate tz date)))%string.

(** ** [processSheetData] *)

Definition updateEmployees (employees : JS.Map Employee)
           (record : RawPunchRecord) : JS.Map Employee :=
  match JS.Map_get employees (employeeId record) with
  | None =>
      JS.Map_set employees (employeeId record)
        {| emp_id := employeeId record;
           emp_name := if JS.truthy (name record) then name record
                       else employeeId record |}
  | Some existingEmployee =>
      if negb (JS.truthy (emp_name existingEmployee))
         && JS.truthy (name record)
      then JS.Map_update employees (employeeId record)
             (fun e => {| emp_id := emp_id e; emp_name := name record |})
      else if String.eqb (emp_name existingEmployee) (emp_id existingEmployee)
              && JS.truthy (name record)
      then JS.Map_update employees (employeeId record)
             (fun e => {| emp_id := emp_id e; emp_name := name record |})
      else employees
  end.

Definition processRecord (todayStr : string) (acc : ProcessedData)
           (record : RawPunchRecord) : ProcessedData :=
  let dateKey := formatDateKey (timestamp record) in
  {| punches := punches acc;
     employees := updateEmployees (employees acc) record;
     punchesByEmployee :=
       pushTo (punchesByEmployee acc) (employeeId record) record;
     punchesByDate := pushTo (punchesByDate acc) dateKey record;
     todayPunches :=
       if String.eqb dateKey todayStr then todayPunches acc ++ [record]
       else todayPunches acc |}.

Definition processSheetData (now : Z) (records : list RawPunchRecord)
  : ProcessedData :=
  let todayStr := formatDateKey now in
  let sortedRecords := sortByTimestamp records in
  fold_left (processRecord todayStr) sortedRecords
    {| punches := sortedRecords; employees := []; punchesByEmployee := [];
       punchesByDate := []; todayPunches := [] |}.

(** [dateStr || formatDateKey(new Date())] *)
Definition targetDateOf (now : Z) (dateStr : option string) : string :=
  match dateStr with
  | Some s => if JS.truthy s then s else formatDateKey now
  | None => formatDateKey now
  end.

(** [data.punchesByDate.get(targetDate) || []] *)
Definition dayPunchesOf (data : ProcessedData) (targetDate : string)
  : list RawPunchRecord :=
  match JS.Map_get (punchesByDate data) targetDate with
  | Some l => l
  | None => []
  end.

(** ** KPIs *)

Definition lateThreshold : Z :=
  WORK_START_HOUR cfg * 60 + WORK_START_MINUTE cfg
  + LATE_GRACE_PERIOD_MINUTES cfg.

Definition punchMinutesOf (p : RawPunchRecord) : Z :=
  JS.getHours tz (timestamp p) * 60 + JS.getMinutes tz (timestamp p).

(** [firstPunchByEmployee]: the first punch in of each employee, in
    order of first appearance. *)
Definition firstPunchByEmployee (punchIns : list RawPunchRecord)
  : JS.Map RawPunchRecord :=
  fold_left
    (fun m punch =>
       if negb (JS.Map_has m (employeeId punch))
       then JS.Map_set m (employeeId punch) punch else m)
    punchIns [].

Definition countLateArrivals (punches : list RawPunchRecord) : Z :=
  let punchIns := filter isPunchIn punches in
  fold_left
    (fun lateCount entry =>
       if lateThreshold <? punchMinutesOf (snd entry)
       then lateCount + 1 else lateCount)
    (firstPunchByEmployee punchIns) 0.

(** [new Set(ids).size] *)
Definition distinctCount (ids : list string) : Z :=
  count (nodup string_dec ids).

(** [calculateKPIs].  The percentage and the hours total are rounded
    here on exact rationals; the doubles of the code can differ from them
    in the last digit shown ([Ieee.totalWorkingHoursToday] below is the
    hours total as the code computes it). *)
Definition calculateKPIs (now : Z) (data : ProcessedData)
           (dateStr : option string) : KPIData :=
  let targetDate := targetDateOf now dateStr in
  let dayPunches := dayPunchesOf data targetDate in
  let activeEmployeeIds := map employeeId (filter isPunchIn dayPunches) in
  let wh := calculateWorkingHours dayPunches in
  let punchesWithDistance := filter hasDistance dayPunches in
  let compliantPunches :=
    filter (distanceAtMost (DISTANCE_THRESHOLD_COMPLIANT cfg))
           punchesWithDistance in
  let compliancePct :=
    if 0 <? count punchesWithDistance then
      JS.Math_round
        (inject_Z (count compliantPunches)
         / inject_Z (count punchesWithDistance) * 100)%Q
    else 100 in
  let lateArrivals := countLateArrivals dayPunches in
  let locationBreaches :=
    count (filter (distanceAbove (DISTANCE_THRESHOLD_WARNING cfg))
                  punchesWithDistance) in
  let exceptionsCount :=
    wh_openSessions wh + lateArrivals + locationBreaches in
  {| activeEmployeesCount := distinctCount activeEmployeeIds;
     totalWorkingHoursToday :=
       (inject_Z (JS.Math_round (wh_totalHours wh * 10)) / 10)%Q;
     onSiteCompliancePct := compliancePct;
     exceptionsCount := exceptionsCount;
     serverTimestamp := now |}.
End Engine.

(* ================================================================== *)
(** * Working hours on doubles *)
(* ================================================================== *)

(** The arithmetic of [calculateWorkingHours] and of the rounding in
    [calculateKPIs] once more, on binary64 numbers, with the grouping, the
    sort and the pairing loop shared with the definitions above. *)
Module Ieee.

(** An integer as a double (exact below 2^53). *)
Definition ofZ (z : Z) : float :=
  if z <? 0 then PrimFloat.opp (PrimFloat.of_uint63 (Uint63.of_Z (- z)))
  else PrimFloat.of_uint63 (Uint63.of_Z z).

(** The exact value of a finite double. *)
Definition toQ (f : float) : option Q :=
  match Prim2SF f with
  | S754_zero _ => Some 0%Q
  | S754_finite negative m e =>
      let magnitude :=
        if 0 <=? e then inject_Z (Zpos m * 2 ^ e)
        else (Zpos m # Z.to_pos (2 ^ (- e)))%Q in
      Some (if negative then Qopp magnitude else magnitude)
  | S754_infinity _ | S754_nan => None
  end.

(** [Math.round]: NaN, the infinities, the zeros and the doubles without
    a fractional part are returned as they are; a negative number that
    rounds to zero gives the negative zero. *)
Definition Math_round (f : float) : float :=
  match Prim2SF f, toQ f with
  | S754_finite negative _ e, Some q =>
      if 0 <=? e then f
      else
        let n := Qfloor (q + (1 # 2)) in
        if (n =? 0) && negative then PrimFloat.opp PrimFloat.zero else ofZ n
  | _, _ => f
  end.

Definition calculateWorkingHours (punches : list RawPunchRecord) : float * Z :=
  let byEmployee := groupByEmployee punches in
  let '(totalMinutes, openSessions) :=
    fold_left
      (fun acc entry =>
         let sorted := sortByTimestamp (snd entry) in
         fifo
           (fun punch out '(totalMinutes, openSessions) =>
              let duration := timestamp out - timestamp punch in
              (PrimFloat.add totalMinutes
                 (PrimFloat.div (ofZ duration)
                    (PrimFloat.mul (ofZ 1000) (ofZ 60))),
               openSessions))
           (fun _ '(totalMinutes, openSessions) =>
              (totalMinutes, openSessions + 1))
           (fun _ _ acc => acc)
           sorted acc)
      byEmployee (PrimFloat.zero, 0) in
  (PrimFloat.div totalMinutes (ofZ 60), openSessions).

(** The field [totalWorkingHoursToday] of [calculateKPIs]. *)
Definition totalWorkingHoursToday (tz : Z) (now : Z) (data : ProcessedData)
           (dateStr : option string) : float :=
  let targetDate := targetDateOf tz now dateStr in
  let dayPunches := dayPunchesOf data targetDate in
  let totalHours := fst (calculateWorkingHours dayPunches) in
  PrimFloat.div (Math_round (PrimFloat.mul totalHours (ofZ 10))) (ofZ 10).

End Ieee.

Section Derivations.
Variable tz : Z.
Variable cfg : Config.

(** ** Hourly activity *)

Definition hourLabel (h : Z) : string :=
  (JS.padStart 2 "0" (JS.stringOfZ h) ++ ":00")%string.

(** The 24 entries [hourlyMap] is initialised with. *)
Definition initialHourlyMap : JS.Map (Z * Z) :=
  map (fun h => (hourLabel (Z.of_nat h), (0, 0))) (seq 0 24).

(** [parseInt(hour)] on the leading digits of a label. *)
Fixpoint leadingDigits (acc : Z) (s : string) : Z :=
  match s with
  | String c s' =>
      if JS.isDigit c then leadingDigits (10 * acc + JS.digitValue c) s'
      else acc
  | EmptyString => acc
  end.

Definition calculateHourlyActivity (now : Z) (data : ProcessedData)
           (dateStr : option string) : list HourlyActivity :=
  let targetDate := targetDateOf tz now dateStr in
  let dayPunches := dayPunchesOf data targetDate in
  let hourlyMap :=
    fold_left
      (fun hourlyMap punch =>
         let hour := hourLabel (JS.getHours tz (timestamp punch)) in
         JS.Map_update hourlyMap hour
           (fun entry =>
              if isPunchIn punch then (fst entry + 1, snd entry)
              else (fst entry, snd entry + 1)))
      dayPunches initialHourlyMap in
  map (fun e => {| hour := fst e; punchIn := fst (snd e);
                   punchOut := snd (snd e) |})
      (filter (fun e => let h := leadingDigits 0 (fst e) in
                        (6 <=? h) && (h <=? 22))
              hourlyMap).

(** ** Top workload *)

(** [Math.round(totalHours * 10) / 10], in the double arithmetic of the
    code. *)
Definition roundToTenth (totalHours : float) : float :=
  PrimFloat.div (Ieee.Math_round (PrimFloat.mul totalHours (Ieee.ofZ 10)))
    (Ieee.ofZ 10).

(** [(a, b) => b.totalHours - a.totalHours] is positive; a difference
    that is [NaN] counts as zero. *)
Definition fewerHours (a b : EmployeeWorkload) : bool :=
  PrimFloat.ltb PrimFloat.zero (PrimFloat.sub (totalHours b) (totalHours a)).

Definition workloadsOf (data : ProcessedData)
           (byEmployee : JS.Map (list RawPunchRecord))
  : list EmployeeWorkload :=
  fold_left
    (fun workloads entry =>
       let '(empId, empPunches) := entry in
       match JS.Map_get (employees data) empId with
       | None => workloads
       | Some employee =>
           let wh := Ieee.calculateWorkingHours empPunches in
           workloads ++
             [{| wl_employeeId := empId;
                 wl_name := emp_name employee;
                 totalHours := roundToTenth (fst wh) |}]
       end)
    byEmployee [].

Definition calculateTopWorkload (now : Z) (data : ProcessedData)
           (dateStr : option string) (limit : Z) : list EmployeeWorkload :=
  let targetDate := targetDateOf tz now dateStr in
  let dayPunches := dayPunchesOf data targetDate in
  let byEmployee := groupByEmployee dayPunches in
  let workloads := workloadsOf data byEmployee in
  JS.slice0 (JS.sort fewerHours workloads) limit.

(** ** Latest locations *)

(** The status computed in [calculateLatestLocations] from the latest
    punch's distance. *)
Definition complianceStatusOf (distanceMeters : option Q) : ComplianceStatus :=
  match distanceMeters with
  | None => unknown
  | Some d =>
      if Qle_bool d (DISTANCE_THRESHOLD_COMPLIANT cfg) then compliant
      else if Qle_bool d (DISTANCE_THRESHOLD_WARNING cfg) then warning
      else breach
  end.

Section Locations.
(** [parseFloat], with [None] for [NaN]. *)
Variable parseFloat : string -> option Q.

(** [s.split(',')] *)
Fixpoint splitComma (s : string) (current : string) : list string :=
  match s with
  | EmptyString => [current]
  | String c rest =>
      if Ascii.eqb c "," then current :: splitComma rest EmptyString
      else splitComma rest (current ++ String c EmptyString)%string
  end.

Definition parseCoordinates (locationStr : string) : option (Q * Q) :=
  if negb (JS.truthy locationStr) then None
  else
    match map JS.trim (splitComma locationStr EmptyString) with
    | p0 :: p1 :: _ =>
        match parseFloat p0, parseFloat p1 with
        | Some lat, Some long => Some (lat, long)
        | _, _ => None
        end
    | _ => None
    end.

Definition calculateLatestLocations (data : ProcessedData)
  : list EmployeeLocation :=
  fold_left
    (fun locations entry =>
       let '(empId, empPunches) := entry in
       match JS.Map_get (employees data) empId with
       | None => locations
       | Some employee =>
           match last (map Some empPunches) None with
           | None => locations
           | Some latest =>
               match parseCoordinates (location latest) with
               | None => locations
               | Some coords =>
                   locations ++
                     [{| loc_employeeId := empId;
                         loc_name := emp_name employee;
                         lat := fst coords;
                         long := snd coords;
                         loc_status :=
                           complianceStatusOf (distanceMeters latest);
                         loc_timestamp := timestamp latest;
                         loc_distance := distanceMeters latest |}]
               end
           end
       end)
    (punchesByEmployee data) [].
End Locations.

(** ** Exceptions *)

(** [`EXC${String(exceptionId).padStart(5, '0')}`] *)
Definition exceptionIdOf (exceptionId : Z) : string :=
  ("EXC" ++ JS.padStart 5 "0" (JS.stringOfZ exceptionId))%string.

(** [punch.manualLocation || 'Unknown'] *)
Definition locationTextOf (p : RawPunchRecord) : string :=
  if JS.truthy (manualLocation p) then manualLocation p else "Unknown".

(** The state of [calculateExceptions]: the array being filled and the
    counter [exceptionId]. *)
Definition ExcState : Type := list Exception * Z.

(** [exceptions.push({ id: ...(exceptionId++)..., ... })] *)
Definition pushException (employee : Employee) (empId : string)
           (ty : ExceptionType) (sev : ExceptionSeverity)
           (punch : RawPunchRecord) (note : Note) (st : ExcState)
  : ExcState :=
  let '(exceptions, exceptionId) := st in
  (exceptions ++
     [{| exc_id := exceptionIdOf exceptionId;
         exc_employeeId := empId;
         exc_name := emp_name employee;
         exc_type := ty;
         severity := sev;
         status := st_open;
         exc_timestamp := timestamp punch;
         locationText := locationTextOf punch;
         distance := distanceMeters punch;
         notes := note |}],
   exceptionId + 1).

(** [(Date.now() - punch.timestamp.getTime()) / (1000 * 60 * 60)] *)
Definition hoursOpenOf (now : Z) (punch : RawPunchRecord) : Q :=
  (inject_Z (now - timestamp punch) / inject_Z (1000 * 60 * 60))%Q.

(** Late arrival: the first punch in of the employee's day. *)
Definition checkLateArrival (employee : Employee) (empId : string)
           (sorted : list RawPunchRecord) (st : ExcState) : ExcState :=
  match find isPunchIn sorted with
  | None => st
  | Some firstIn =>
      let punchMinutes := punchMinutesOf tz firstIn in
      if lateThreshold cfg <? punchMinutes then
        let minutesLate :=
          punchMinutes - (WORK_START_HOUR cfg * 60 + WORK_START_MINUTE cfg) in
        pushException employee empId OpenSession
          (if 60 <? minutesLate then sev_critical else sev_warning)
          firstIn (LateArrivalBy minutesLate) st
      else st
  end.

(** The body run where no punch out follows the punch in. *)
Definition onOpenSession (now : Z) (employee : Employee) (empId : string)
           (punch : RawPunchRecord) (st : ExcState) : ExcState :=
  let hoursOpen := hoursOpenOf now punch in
  if Qle_bool (OPEN_SESSION_WARNING_HOURS cfg) hoursOpen then
    pushException employee empId OpenSession
      (if Qle_bool (OPEN_SESSION_CRITICAL_HOURS cfg) hoursOpen
       then sev_critical else sev_warning)
      punch (OpenSessionFor (JS.Math_round hoursOpen)) st
  else st.

(** The body run at a punch out under the cursor:
    [sorted.slice(0, i).some(p => p.punchType === 'Punch In')]. *)
Definition onPunchOut (employee : Employee) (empId : string)
           (sorted : list RawPunchRecord) (i : nat)
           (punch : RawPunchRecord) (st : ExcState) : ExcState :=
  let hasPriorIn := existsb isPunchIn (firstn i sorted) in
  if negb hasPriorIn then
    pushException employee empId PunchOutWithoutIn sev_warning punch
      PunchOutWithoutPrecedingIn st
  else st.

Definition checkSessions (now : Z) (employee : Employee) (empId : string)
           (sorted : list RawPunchRecord) (st : ExcState) : ExcState :=
  fifo (fun _ _ st => st)
       (onOpenSession now employee empId)
       (onPunchOut employee empId sorted)
       sorted st.

Definition checkLocationBreaches (employee : Employee) (empId : string)
           (sorted : list RawPunchRecord) (st : ExcState) : ExcState :=
  fold_left
    (fun st punch =>
       match distanceMeters punch with
       | Some d =>
           if JS.Qgtb d (DISTANCE_THRESHOLD_WARNING cfg) then
             pushException employee empId LocationBreach
               (if JS.Qgtb d 200 then sev_critical else sev_warning)
               punch (DistanceExceeds d) st
           else st
       | None => st
       end)
    sorted st.

(** One turn of [for (const [empId, empPunches] of byEmployee)]. *)
Definition employeeExceptions (now : Z) (data : ProcessedData)
           (st : ExcState) (entry : string * list RawPunchRecord)
  : ExcState :=
  let '(empId, empPunches) := entry in
  match JS.Map_get (employees data) empId with
  | None => st
  | Some employee =>
      let sorted := sortByTimestamp empPunches in
      let st := checkLateArrival employee empId sorted st in
      let st := checkSessions now employee empId sorted st in
      checkLocationBreaches employee empId sorted st
  end.

(** The final comparator is positive: critical first, then the most
    recent first. *)
Definition exceptionAfter (a b : Exception) : bool :=
  0 <? (if negb (severity_eqb (severity a) (severity b))
        then (match severity a with sev_critical => -1 | sev_warning => 1 end)
        else exc_timestamp b - exc_timestamp a).

Definition calculateExceptions (now : Z) (data : ProcessedData)
           (dateStr : option string) : list Exception :=
  let targetDate := targetDateOf tz now dateStr in
  let dayPunches := dayPunchesOf data targetDate in
  let byEmployee := groupByEmployee dayPunches in
  let '(exceptions, _) :=
    fold_left (employeeExceptions now data) byEmployee ([], 1) in
  JS.sort exceptionAfter exceptions.

(** ** Employee shifts *)

Section Shifts.
(** [Date.parse], behind [new Date(startDate)]; [None] is an invalid
    date. *)
Variable Date_parse : string -> option Z.

(** [s ? new Date(s) : fallback] *)
Definition dateOr (s : option string) (fallback : Z) : option Z :=
  match s with
  | Some str => if JS.truthy str then Date_parse str else Some fallback
  | None => Some fallback
  end.

Definition given (s : option string) : bool :=
  match s with Some str => JS.truthy str | None => false end.

(** [p.timestamp >= start && p.timestamp <= end]; a comparison with an
    invalid date is false. *)
Definition inRange (start end_ : option Z) (p : RawPunchRecord) : bool :=
  match start, end_ with
  | Some s, Some e => (s <=? timestamp p) && (timestamp p <=? e)
  | _, _ => false
  end.

Definition onSite (d : Q) : bool :=
  Qle_bool d (DISTANCE_THRESHOLD_COMPLIANT cfg).

Definition closedShift (punch shiftEnd : RawPunchRecord) : Shift :=
  {| shiftStart := timestamp punch;
     shiftEnd := Some (timestamp shiftEnd);
     durationMinutes :=
       Some (JS.Math_round
               (inject_Z (timestamp shiftEnd - timestamp punch)
                / inject_Z (1000 * 60))%Q);
     distanceStart := distanceMeters punch;
     distanceEnd := distanceMeters shiftEnd;
     onSiteStart :=
       match distanceMeters punch with
       | Some d => onSite d
       | None => false
       end;
     onSiteEnd := option_map onSite (distanceMeters shiftEnd) |}.

Definition openShift (punch : RawPunchRecord) : Shift :=
  {| shiftStart := timestamp punch;
     shiftEnd := None;
     durationMinutes := None;
     distanceStart := distanceMeters punch;
     distanceEnd := None;
     onSiteStart :=
       match distanceMeters punch with
       | Some d => onSite d
       | None => false
       end;
     onSiteEnd := None |}.

Definition calculateEmployeeShifts (now : Z) (data : ProcessedData)
           (employeeId : string) (startDate endDate : option string)
  : list Shift :=
  let empPunches :=
    match JS.Map_get (punchesByEmployee data) employeeId with
    | Some l => l
    | None => []
    end in
  let filteredPunches :=
    if given startDate || given endDate then
      let start := dateOr startDate 0 in
      let end_ :=
        option_map (JS.setHours_endOfDay tz) (dateOr endDate now) in
      filter (inRange start end_) empPunches
    else empPunches in
  let sorted := sortByTimestamp filteredPunches in
  let shifts :=
    fifo (fun punch shiftEnd shifts => shifts ++ [closedShift punch shiftEnd])
         (fun punch shifts => shifts ++ [openShift punch])
         (fun _ _ shifts => shifts)
         sorted [] in
  rev shifts.
End Shifts.
End Derivations.

(* ================================================================== *)
(** * Unique locations *)
(* ================================================================== *)

Record Location := {
  locationId : string;
  place_name : string;
  place_lat : Q;
  place_long : Q;
  distanceThreshold : Q
}.

(** [s.replace(/\s+/g, '_')]: every maximal run of white space becomes one
    underscore.  [inRun] tells that the character before was white
    space. *)
Fixpoint underscoreRuns (inRun : bool) (s : string) : string :=
  match s with
  | EmptyString => EmptyString
  | String c s' =>
      if JS.isWhiteSpace c then
        if inRun then underscoreRuns true s'
        else String "_" (underscoreRuns true s')
      else String c (underscoreRuns false s')
  end.

(** [getUniqueLocations]: the first punch of each manual location decides
    its entry. *)
Definition getUniqueLocations (cfg : Config) (parseFloat : string -> option Q)
           (data : ProcessedData) : list Location :=
  let locationMap :=
    fold_left
      (fun locationMap punch =>
         if JS.truthy (manualLocation punch)
            && negb (JS.Map_has locationMap (manualLocation punch))
         then
           let coords := parseCoordinates parseFloat (location punch) in
           JS.Map_set locationMap (manualLocation punch)
             {| locationId :=
                  JS.toUpperCase (underscoreRuns false (manualLocation punch));
                place_name := manualLocation punch;
                place_lat := match coords with Some c => fst c | None => 0%Q end;
                place_long := match coords with Some c => snd c | None => 0%Q end;
                distanceThreshold := DISTANCE_THRESHOLD_COMPLIANT cfg |}
         else locationMap)
      (punches data) [] in
  map snd locationMap.

(* ================================================================== *)
(** * Pagination of the exceptions endpoint *)
(* ================================================================== *)

(** The part of [GET /api/exceptions] between [calculateExceptions] and the
    response: the two query parameters are read with [parseInt] and the
    list is cut with [slice].  The numbers here are integers or not
    finite: a finite one is the integer it stands for, and [None] is one
    that is not finite ([NaN], or an infinity, which the response prints
    as [null] like [NaN] and for which [slice] returns the empty list as
    well). *)
Module Route.

(** The double nearest to an integer (ties to even), as [parseInt]
    returns the number that a run of digits spells; below 2^53 it is the
    integer itself.  (Past twenty digits the language lets an
    implementation drop the later digits before rounding; here the
    rounding is exact.) *)
Definition nearestDouble (n : Z) : option Z :=
  match binary_normalize prec emax n 0 false with
  | S754_zero _ => Some 0
  | S754_finite negative m e =>
      let magnitude :=
        if 0 <=? e then Zpos m * 2 ^ e else Zpos m / 2 ^ (- e) in
      Some (if negative then - magnitude else magnitude)
  | S754_infinity _ | S754_nan => None
  end.

(** [parseInt(s, 10)]: leading white space, an optional sign, then the
    longest run of digits; [NaN] when no digit follows. *)
Definition parseInt10 (s : string) : option Z :=
  let s := JS.trimStart s in
  let '(negative, s) :=
    match s with
    | String c r =>
        if Ascii.eqb c "-" then (true, r)
        else if Ascii.eqb c "+" then (false, r)
        else (false, s)
    | EmptyString => (false, s)
    end in
  match s with
  | String c _ =>
      if JS.isDigit c
      then nearestDouble
             (if negative then - leadingDigits 0 s else leadingDigits 0 s)
      else None
  | EmptyString => None
  end.

(** [searchParams.get(name) || fallback] *)
Definition paramOr (value : option string) (fallback : string) : string :=
  match value with
  | Some v => if JS.truthy v then v else fallback
  | None => fallback
  end.

Definition nanSub (a b : option Z) : option Z :=
  match a, b with Some x, Some y => Some (x - y) | _, _ => None end.

Definition nanMul (a b : option Z) : option Z :=
  match a, b with Some x, Some y => Some (x * y) | _, _ => None end.

Definition nanAdd (a b : option Z) : option Z :=
  match a, b with Some x, Some y => Some (x + y) | _, _ => None end.

(** [arr.slice(start, end)]: [NaN] counts as 0, a negative index counts
    from the end, and both ends are clamped to the array. *)
Definition slice {A} (l : list A) (start end_ : option Z) : list A :=
  let len := Z.of_nat (List.length l) in
  let integer x := match x with Some v => v | None => 0 end in
  let clamp v := if v <? 0 then Z.max (len + v) 0 else Z.min v len in
  let from := clamp (integer start) in
  let final := clamp (integer end_) in
  firstn (Z.to_nat (final - from)) (skipn (Z.to_nat from) l).

Record ExceptionsPage := {
  pg_total : Z;
  pg_page : option Z;
  pg_limit : option Z;
  pg_items : list Exception
}.

(** The response for the numbers [page] and [limit]. *)
Definition pageOf (allExceptions : list Exception) (page limit : option Z)
  : ExceptionsPage :=
  let startIndex := nanMul (nanSub page (Some 1)) limit in
  let paginatedItems :=
    slice allExceptions startIndex (nanAdd startIndex limit) in
  {| pg_total := count allExceptions;
     pg_page := page;
     pg_limit := limit;
     pg_items := paginatedItems |}.

Definition exceptionsPage (allExceptions : list Exception)
           (pageParam limitParam : option string) : ExceptionsPage :=
  let page := parseInt10 (paramOr pageParam "1") in
  let limit := parseInt10 (paramOr limitParam "20") in
  pageOf allExceptions page limit.

End Route.

(* ================================================================== *)
(** * Notions used in the statements *)
(* ================================================================== *)

(** The grouping loop for an arbitrary key: what [groupByEmployee] is
    for the employee identifier and what [processSheetData] runs for the
    date key. *)
Definition groupFold (key : RawPunchRecord -> string)
           (l : list RawPunchRecord) (m : JS.Map (list RawPunchRecord))
  : JS.Map (list RawPunchRecord) :=
  fold_left (fun m r => pushTo m (key r) r) l m.

(** The records whose key is [k]. *)
Definition keyIs (key : RawPunchRecord -> string) (k : string)
           (r : RawPunchRecord) : bool :=
  String.eqb (key r) k.

(** The date key under which [processSheetData] files a record. *)
Definition dateKeyOf (tz : Z) (r : RawPunchRecord) : string :=
  formatDateKey tz (timestamp r).

(** A closed shift does not end before it starts and has a duration that
    is not negative; an open shift has no duration. *)
Definition shiftWellFormed (s : Shift) : Prop :=
  match shiftEnd s with
  | Some e =>
      shiftStart s <= e
      /\ exists minutes, durationMinutes s = Some minutes /\ 0 <= minutes
  | None => durationMinutes s = None
  end.

(** The exception type that goes with each note template. *)
Definition typeOfNote (n : Note) : ExceptionType :=
  match n with
  | LateArrivalBy _ => OpenSession
  | OpenSessionFor _ => OpenSession
  | PunchOutWithoutPrecedingIn => PunchOutWithoutIn
  | DistanceExceeds _ => LocationBreach
  end.

(** An exception carries the type of the rule that wrote its note, and
    is open. *)
Definition ruleTyped (e : Exception) : Prop :=
  exc_type e = typeOfNote (notes e) /\ status e = st_open.

Definition allRuleTyped (st : ExcState) : Prop := Forall ruleTyped (fst st).

(** Two spellings that differ only by letter case or by white space:
    white space may stand anywhere in either of them, and the other
    characters agree up to case. *)
Inductive sameSpelling : string -> string -> Prop :=
  | same_empty : sameSpelling EmptyString EmptyString
  | same_space_left c a b :
      JS.isWhiteSpace c = true -> sameSpelling a b ->
      sameSpelling (String c a) b
  | same_space_right c a b :
      JS.isWhiteSpace c = true -> sameSpelling a b ->
      sameSpelling a (String c b)
  | same_letter c d a b :
      JS.charToUpper c = JS.charToUpper d -> sameSpelling a b ->
      sameSpelling (String c a) (String d b).

Definition notSpace (c : ascii) : bool := negb (JS.isWhiteSpace c).

(** Every character of [s] passes [f]. *)
Fixpoint sall (f : ascii -> bool) (s : string) : bool :=
  match s with
  | EmptyString => true
  | String c s' => f c && sall f s'
  end.

(** The repair of the known typo, on text already in upper case. *)
Definition repairUpper (u : string) : string :=
  if JS.startsWith "LYLB" u then ("AYLB" ++ JS.sdrop 4 u)%string else u.

(** Empty, or starting with a character that is not white space. *)
Definition headNotSpace (s : string) : bool :=
  match s with
  | EmptyString => true
  | String c _ => negb (JS.isWhiteSpace c)
  end.

(** A field that [trim] leaves as it is. *)
Definition trimmed (v : string) : Prop := JS.trim v = v.

(** The keys of a list in the order in which each first appears. *)
Fixpoint firstAppearance (ids : list string) : list string :=
  match ids with
  | [] => []
  | x :: rest =>
      x :: filter (fun y => negb (String.eqb y x)) (firstAppearance rest)
  end.

(** The entries whose total is [h], compared as doubles are ([==]). *)
Definition tiedAt (h : float) (w : EmployeeWorkload) : bool :=
  PrimFloat.eqb (totalHours w) h.

(** The entries with paired hours. *)
Definition hasHours (w : EmployeeWorkload) : bool :=
  PrimFloat.ltb PrimFloat.zero (totalHours w).

(** Membership in a list of keys. *)
Definition memb (y : string) (ks : list string) : bool :=
  existsb (String.eqb y) ks.

(** The session rules read position by position, each position on its
    own: a punch in that no punch out follows is an open session and is
    checked against the thresholds; a punch in that some punch out follows
    raises nothing; a punch out is checked for a punch in before it. *)
Definition sessionStep (cfg : Config) (now : Z) (employee : Employee)
           (empId : string) (sorted : list RawPunchRecord) (i : nat)
           (punch : RawPunchRecord) (st : ExcState) : ExcState :=
  if isPunchIn punch then
    if existsb isPunchOut (skipn (i + 1) sorted) then st
    else onOpenSession cfg now employee empId punch st
  else onPunchOut employee empId sorted i punch st.

(** One pass over the positions from [i] on; [rest] is the part of
    [sorted] from index [i]. *)
Fixpoint sessionPass (cfg : Config) (now : Z) (employee : Employee)
         (empId : string) (sorted : list RawPunchRecord) (i : nat)
         (rest : list RawPunchRecord) (st : ExcState) : ExcState :=
  match rest with
  | [] => st
  | punch :: rest' =>
      sessionPass cfg now employee empId sorted (S i) rest'
        (sessionStep cfg now employee empId sorted i punch st)
  end.

(** The entry that [processSheetData] puts into the employee index for
    the first record of an employee. *)
Definition indexedEmployee (record : RawPunchRecord) : Employee :=
  {| emp_id := employeeId record;
     emp_name := if JS.truthy (name record) then name record
                 else employeeId record |}.

(** The exception the open-session rule pushes for [punch] at or beyond
    the critical threshold. *)
Definition criticalOpenSession (now : Z) (employee : Employee)
           (empId : string) (punch : RawPunchRecord) (exceptionId : Z)
  : Exception :=
  {| exc_id := exceptionIdOf exceptionId;
     exc_employeeId := empId;
     exc_name := emp_name employee;
     exc_type := OpenSession;
     severity := sev_critical;
     status := st_open;
     exc_timestamp := timestamp punch;
     locationText := locationTextOf punch;
     distance := distanceMeters punch;
     notes := OpenSessionFor (JS.Math_round (hoursOpenOf now punch)) |}.

Definition isCriticalOpenSession (empId : string) (e : Exception) : bool :=
  String.eqb (exc_employeeId e) empId
  && match exc_type e with OpenSession => true | _ => false end
  && severity_eqb (severity e) sev_critical.

(** The records stamped [t]. *)
Definition sameTimestamp (t : Z) (r : RawPunchRecord) : bool :=
  timestamp r =? t.

(** What a [Map] of arrays holds under a key whose records are [l]: no
    entry when there are none. *)
Definition grouped (l : list RawPunchRecord) : option (list RawPunchRecord) :=
  match l with [] => None | _ :: _ => Some l end.

(** A name that is neither empty nor the identifier itself. *)
Definition goodName (id : string) (r : RawPunchRecord) : bool :=
  JS.truthy (name r) && negb (String.eqb (name r) id).

(** The first good name among [recs], the identifier when there is
    none. *)
Definition bestName (id : string) (recs : list RawPunchRecord) : string :=
  match find (goodName id) recs with
  | Some r => name r
  | None => id
  end.

(** [updateEmployees] seen from one key: what happens to the entry of the
    record's employee. *)
Definition updateEntry (entry : option Employee) (record : RawPunchRecord)
  : option Employee :=
  match entry with
  | None =>
      Some {| emp_id := employeeId record;
              emp_name := if JS.truthy (name record) then name record
                          else employeeId record |}
  | Some e =>
      if negb (JS.truthy (emp_name e)) && JS.truthy (name record)
      then Some {| emp_id := emp_id e; emp_name := name record |}
      else if String.eqb (emp_name e) (emp_id e) && JS.truthy (name record)
      then Some {| emp_id := emp_id e; emp_name := name record |}
      else Some e
  end.

(** A field wrapped in double quotes, and fields joined by commas: the
    way a sheet exports a line. *)
Definition quoteField (f : string) : string :=
  String "034" (f ++ String "034" EmptyString).

Fixpoint joinComma (fields : list string) : string :=
  match fields with
  | [] => EmptyString
  | [f] => f
  | f :: rest => (f ++ String "," (joinComma rest))%string
  end.

Definition notQuote (c : ascii) : bool := negb (Ascii.eqb c "034").

Definition notComma (c : ascii) : bool := negb (Ascii.eqb c ",").

(** A field that survives the line parser: trimmed and without a double
    quote. *)
Definition plainField (f : string) : Prop :=
  trimmed f /\ sall notQuote f = true.

(** The header cells as [parseCSV] reads them off the first line. *)
Definition headersOf (csvText : string) : list string :=
  match splitLines csvText EmptyString with
  | header :: _ =>
      map (fun h => JS.trim (JS.toLowerCase h)) (parseCSVLine header)
  | [] => []
  end.

(** The lines of a sheet after the header that are not blank. *)
Definition dataLines (csvText : string) : list string :=
  filter (fun l => JS.truthy (JS.trim l))
         (tl (splitLines csvText EmptyString)).

(** Between [lo] and [hi] characters, all decimal digits. *)
Definition digitsOf (lo hi : nat) (s : string) : Prop :=
  sall JS.isDigit s = true /\ (lo <= String.length s <= hi)%nat.

(** A timestamp as the sheet writes it: [DD/MM/YYYY HH:MM], with [:SS]
    when [second] is given. *)
Definition ddmmText (day month year hour minute : string)
           (second : option string) : string :=
  (day ++ "/" ++ month ++ "/" ++ year ++ " " ++ hour ++ ":" ++ minute
   ++ match second with
      | Some s => ":" ++ s
      | None => EmptyString
      end)%string.

(** The punch-ins of a chronological list that no punch-out follows. *)
Fixpoint unansweredIns (l : list RawPunchRecord) : nat :=
  match l with
  | [] => 0%nat
  | p :: rest =>
      if existsb isPunchOut (p :: rest) then unansweredIns rest
      else S (unansweredIns rest)
  end.

(** The events of employee [id] in chronological order. *)
Definition chronologicalOf (id : string) (punches : list RawPunchRecord)
  : list RawPunchRecord :=
  sortByTimestamp (filter (keyIs employeeId id) punches).

(** The events of local hour [h]. *)
Definition inHour (tz : Z) (h : Z) (p : RawPunchRecord) : bool :=
  JS.getHours tz (timestamp p) =? h.

(** The row of the hourly chart for hour [h]: its label and the
    punch-ins and punch-outs of that hour. *)
Definition hourRow (tz : Z) (dayPunches : list RawPunchRecord) (h : Z)
  : HourlyActivity :=
  {| hour := hourLabel h;
     punchIn := count (filter (fun p => isPunchIn p && inHour tz h p) dayPunches);
     punchOut :=
       count (filter (fun p => isPunchOut p && inHour tz h p) dayPunches) |}.

(** The hours 06 to 22. *)
Definition chartHours : list Z := map Z.of_nat (seq 6 17).

(** Shift [a] comes after shift [b] without overlap: it starts no
    earlier than [b] starts and than [b] ends, and after an open shift
    only open shifts come. *)
Definition shiftAfter (b a : Shift) : Prop :=
  shiftStart b <= shiftStart a
  /\ match shiftEnd b with
     | Some e => e <= shiftStart a
     | None => shiftEnd a = None
     end.

(** A shift made of the events of a list: open from a punch-in, or
    closed from a punch-in and a punch-out that is not earlier. *)
Definition shiftOf (cfg : Config) (events : list RawPunchRecord) (s : Shift)
  : Prop :=
  exists p, In p events /\ isPunchIn p = true
    /\ (s = openShift cfg p
        \/ exists q, In q events /\ isPunchOut q = true
                     /\ timestamp p <= timestamp q
                     /\ s = closedShift cfg p q).

(** [data.punchesByEmployee.get(employeeId) || []] *)
Definition eventsOf (data : ProcessedData) (employeeId : string)
  : list RawPunchRecord :=
  match JS.Map_get (punchesByEmployee data) employeeId with
  | Some l => l
  | None => []
  end.

(** The shifts so far do not overlap, and they lie before everything
    from the cursor on. *)
Definition settled (sorted : list RawPunchRecord) (i : nat)
           (shifts : list Shift) : Prop :=
  StronglySorted shiftAfter shifts
  /\ Forall (fun s =>
       forall m p, (i <= m)%nat -> nth_error sorted m = Some p ->
         shiftStart s <= timestamp p
         /\ match shiftEnd s with
            | Some e => e <= timestamp p
            | None => isPunchOut p = false
            end) shifts.

(** The identifiers of the first [n] exceptions: [EXC00001],
    [EXC00002], ... *)
Definition exceptionIds (n : nat) : list string :=
  map (fun k => exceptionIdOf (Z.of_nat k)) (seq 1 n).

(** Exception [e] points at event [p]: its employee, time, distance and
    place are those of [p]. *)
Definition raisedBy (p : RawPunchRecord) (e : Exception) : Prop :=
  exc_employeeId e = employeeId p
  /\ exc_timestamp e = timestamp p
  /\ distance e = distanceMeters p
  /\ locationText e = locationTextOf p.

(** Critical before warning, and within one severity the most recent
    first. *)
Definition ranksBefore (a b : Exception) : Prop :=
  (severity a = sev_warning -> severity b = sev_warning)
  /\ (severity a = severity b -> exc_timestamp b <= exc_timestamp a).

(** The state of the exception scan is numbered consecutively from 1. *)
Definition numbered (st : ExcState) : Prop :=
  snd st = 1 + Z.of_nat (List.length (fst st))
  /\ map exc_id (fst st) = exceptionIds (List.length (fst st)).

(** The four grounds on which an exception is raised at [punch], an
    event of the employee's chronological list [sorted]; each fixes the
    type, the severity and the note. *)

(** Late arrival: [punch] is the first punch-in of the list and comes
    after the start of work plus the grace period. *)
Definition lateRule (tz : Z) (cfg : Config) (sorted : list RawPunchRecord)
           (punch : RawPunchRecord) (ty : ExceptionType)
           (sev : ExceptionSeverity) (note : Note) : Prop :=
  find isPunchIn sorted = Some punch
  /\ lateThreshold cfg < punchMinutesOf tz punch
  /\ ty = OpenSession
  /\ note = LateArrivalBy
              (punchMinutesOf tz punch
               - (WORK_START_HOUR cfg * 60 + WORK_START_MINUTE cfg))
  /\ sev = (if 60 <? punchMinutesOf tz punch
                     - (WORK_START_HOUR cfg * 60 + WORK_START_MINUTE cfg)
            then sev_critical else sev_warning).

(** Open session: a punch-in that no punch-out follows, open for the
    warning time or longer. *)
Definition openRule (cfg : Config) (now : Z) (sorted : list RawPunchRecord)
           (punch : RawPunchRecord) (ty : ExceptionType)
           (sev : ExceptionSeverity) (note : Note) : Prop :=
  exists i, nth_error sorted i = Some punch
    /\ isPunchIn punch = true
    /\ existsb isPunchOut (skipn (i + 1) sorted) = false
    /\ (OPEN_SESSION_WARNING_HOURS cfg <= hoursOpenOf now punch)%Q
    /\ ty = OpenSession
    /\ note = OpenSessionFor (JS.Math_round (hoursOpenOf now punch))
    /\ sev = (if Qle_bool (OPEN_SESSION_CRITICAL_HOURS cfg)
                          (hoursOpenOf now punch)
              then sev_critical else sev_warning).

(** Punch-out without punch-in: a punch-out with no punch-in before
    it. *)
Definition strayOutRule (sorted : list RawPunchRecord)
           (punch : RawPunchRecord) (ty : ExceptionType)
           (sev : ExceptionSeverity) (note : Note) : Prop :=
  exists i, nth_error sorted i = Some punch
    /\ isPunchOut punch = true
    /\ existsb isPunchIn (firstn i sorted) = false
    /\ ty = PunchOutWithoutIn
    /\ sev = sev_warning
    /\ note = PunchOutWithoutPrecedingIn.

(** Location breach: a distance above the warning threshold. *)
Definition breachRule (cfg : Config) (punch : RawPunchRecord)
           (ty : ExceptionType) (sev : ExceptionSeverity) (note : Note)
  : Prop :=
  exists d, distanceMeters punch = Some d
    /\ (DISTANCE_THRESHOLD_WARNING cfg < d)%Q
    /\ ty = LocationBreach
    /\ note = DistanceExceeds d
    /\ sev = (if JS.Qgtb d 200 then sev_critical else sev_warning).

Definition justified (tz : Z) (cfg : Config) (now : Z)
           (sorted : list RawPunchRecord) (punch : RawPunchRecord)
           (ty : ExceptionType) (sev : ExceptionSeverity) (note : Note)
  : Prop :=
  lateRule tz cfg sorted punch ty sev note
  \/ openRule cfg now sorted punch ty sev note
  \/ strayOutRule sorted punch ty sev note
  \/ breachRule cfg punch ty sev note.

Definition isLocationBreach (e : Exception) : bool :=
  match exc_type e with LocationBreach => true | _ => false end.

(** The location entry that [calculateLatestLocations] writes for an
    employee whose most recent event is [latest], read at [coords]. *)
Definition locationEntry (cfg : Config) (empId : string) (employee : Employee)
           (latest : RawPunchRecord) (coords : Q * Q) : EmployeeLocation :=
  {| loc_employeeId := empId;
     loc_name := emp_name employee;
     lat := fst coords;
     long := snd coords;
     loc_status := complianceStatusOf cfg (distanceMeters latest);
     loc_timestamp := timestamp latest;
     loc_distance := distanceMeters latest |}.

(** The events of employee [id] in the chronological list of the
    repository. *)
Definition employeeEvents (data : ProcessedData) (id : string)
  : list RawPunchRecord :=
  filter (keyIs employeeId id) (punches data).

(** The entry that [getUniqueLocations] writes for the punch that
    introduces a place. *)
Definition placeOf (cfg : Config) (parseFloat : string -> option Q)
           (punch : RawPunchRecord) : Location :=
  {| locationId := JS.toUpperCase (underscoreRuns false (manualLocation punch));
     place_name := manualLocation punch;
     place_lat := match parseCoordinates parseFloat (location punch) with
                  | Some c => fst c
                  | None => 0%Q
                  end;
     place_long := match parseCoordinates parseFloat (location punch) with
                   | Some c => snd c
                   | None => 0%Q
                   end;
     distanceThreshold := DISTANCE_THRESHOLD_COMPLIANT cfg |}.

(** The first punch at the place called [placeName]. *)
Definition firstAt (placeName : string) (punches : list RawPunchRecord)
  : option RawPunchRecord :=
  find (fun p => String.eqb (manualLocation p) placeName) punches.

(** The workload entry of employee [empId], known to the index as
    [employee], for the events [empPunches]. *)
Definition workloadOf (empId : string) (employee : Employee)
           (empPunches : list RawPunchRecord) : EmployeeWorkload :=
  {| wl_employeeId := empId;
     wl_name := emp_name employee;
     totalHours :=
       roundToTenth (fst (Ieee.calculateWorkingHours empPunches)) |}.

(** The exceptions by the note they carry. *)
Definition isLateArrival (e : Exception) : bool :=
  match notes e with LateArrivalBy _ => true | _ => false end.

Definition isOpenSessionNote (e : Exception) : bool :=
  match notes e with OpenSessionFor _ => true | _ => false end.

Definition isStrayPunchOut (e : Exception) : bool :=
  match notes e with PunchOutWithoutPrecedingIn => true | _ => false end.

Definition isDistanceNote (e : Exception) : bool :=
  match notes e with DistanceExceeds _ => true | _ => false end.

(** The first punch-in of a list is late. *)
Definition lateFirst (tz : Z) (cfg : Config) (sorted : list RawPunchRecord)
  : bool :=
  match find isPunchIn sorted with
  | Some firstIn => lateThreshold cfg <? punchMinutesOf tz firstIn
  | None => false
  end.

(** ** Doubles *)

(** A number with the sign bit clear: [+0], a double above zero or
    [+Infinity]. *)
Definition signClear (x : spec_float) : bool :=
  match x with
  | S754_nan => false
  | S754_zero s | S754_infinity s | S754_finite s _ _ => negb s
  end.

Definition isNumber (x : spec_float) : bool :=
  match x with S754_nan => false | _ => true end.

(** The place of a double in the order of the doubles: the two zeros
    share a place, a finite double stands by its exponent and then its
    mantissa, and the infinities are at the ends. *)
Definition rank (x : spec_float) : Z :=
  match x with
  | S754_zero _ | S754_nan => 0
  | S754_finite s m e => cond_Zopp s ((e - emin) * 2 ^ prec + Zpos m)
  | S754_infinity s => cond_Zopp s ((emax - emin + 1) * 2 ^ prec)
  end.

(** A result that is a number and carries the sign [s]. *)
Definition signed (s : bool) (x : spec_float) : Prop :=
  match x with
  | S754_nan => False
  | S754_zero s' | S754_infinity s' | S754_finite s' _ _ => s' = s
  end.

Definition nonZero (x : spec_float) : Prop :=
  match x with
  | S754_finite _ _ _ | S754_infinity _ => True
  | _ => False
  end.

Definition nonNegative (f : float) : bool := signClear (Prim2SF f).

(** A finite double above zero. *)
Definition positiveFinite (c : float) : Prop :=
  exists m e, Prim2SF c = S754_finite false m e.

(* ================================================================== *)
(** * Sample events *)
(* ================================================================== *)

(** Events in the style of the unit tests' [createMockPunch], on a host
    running in UTC. *)
Module Samples.

Definition utc : Z := 0.

(** An event of 29 January 2026 at [h]:[mi]. *)
Definition punch (id nm : string) (ty : PunchType) (h mi : Z)
           (dist : option Q) : RawPunchRecord :=
  {| name := nm;
     employeeId := id;
     punchType := ty;
     location := "28.6139, 77.2090";
     timestamp := JS.Date_local utc 2026 0 29 h mi 0;
     manualLocation := "Office HQ";
     distanceMeters := dist |}.

Definition testDate : string := "2026-01-29".

(** Noon of the next day. *)
Definition nextNoon : Z := JS.Date_local utc 2026 0 30 12 0 0.

(** An event of the day before [testDate]. *)
Definition yesterdayIn : RawPunchRecord :=
  {| name := "John Doe";
     employeeId := "EMP001";
     punchType := PunchIn;
     location := "28.6139, 77.2090";
     timestamp := JS.Date_local utc 2026 0 28 9 0 0;
     manualLocation := "Office HQ";
     distanceMeters := Some 25%Q |}.

End Samples.

Module RowSamples.

(** The columns in the order of the sheet: name, employee id, punch
    type, location, timestamp, manual location, distance. *)
Definition sheetColumns : ColumnMap :=
  {| col_name := 0; col_employeeId := 1; col_punchType := 2;
     col_location := 3; col_timestamp := 4; col_manualLocation := 5;
     col_distance := 6 |}.

Definition noDate (s : string) : option Z := None.
Definition distance25 (s : string) : option Q := Some 25%Q.

Definition namedLine : string :=
  "John Doe, emp 001 ,Punch In,,29/01/2026 09:00:00,Office HQ,25".

Definition namelessLine : string :=
  ", emp 001 ,Punch In,,29/01/2026 09:00:00,Office HQ,25".

Definition namedRecord : RawPunchRecord :=
  {| name := "John Doe";
     employeeId := "EMP001";
     punchType := PunchIn;
     location := "";
     timestamp := JS.Date_local Samples.utc 2026 0 29 9 0 0;
     manualLocation := "Office HQ";
     distanceMeters := Some 25%Q |}.

End RowSamples.

Module WorkloadSamples.
Import Samples.

Definition janeIn := punch "EMP002" "Jane" PunchIn 9 0 None.
Definition johnIn := punch "EMP001" "John" PunchIn 9 5 None.
Definition janeOut := punch "EMP002" "Jane" PunchOut 17 0 None.
Definition johnOut := punch "EMP001" "John" PunchOut 17 5 None.
Definition bobIn := punch "EMP003" "Bob" PunchIn 10 0 None.

(** Two arrivals at the same minute. *)
Definition johnIn9 := punch "EMP001" "John" PunchIn 9 0 None.
Definition johnOut17 := punch "EMP001" "John" PunchOut 17 0 None.

Definition tiedDay : list RawPunchRecord :=
  [janeIn; johnIn9; janeOut; johnOut17; bobIn].

Definition tiedDayReordered : list RawPunchRecord :=
  [johnIn9; janeIn; janeOut; johnOut17; bobIn].

Definition topOf (records : list RawPunchRecord) (limit : Z)
  : list EmployeeWorkload :=
  calculateTopWorkload utc nextNoon (processSheetData utc nextNoon records)
    (Some testDate) limit.

(** Bob at [seconds] past 09:00. *)
Definition bobAt (ty : PunchType) (seconds : Z) : RawPunchRecord :=
  {| name := "Bob";
     employeeId := "EMP003";
     punchType := ty;
     location := "28.6139, 77.2090";
     timestamp := JS.Date_local utc 2026 0 29 9 0 0 + 1000 * seconds;
     manualLocation := "Office HQ";
     distanceMeters := None |}.

(** Three shifts of 69, 247 and 584 seconds: a quarter of an hour. *)
Definition quarterHourDay : list RawPunchRecord :=
  [bobAt PunchIn 0; bobAt PunchOut 69;
   bobAt PunchIn 100; bobAt PunchOut 347;
   bobAt PunchIn 400; bobAt PunchOut 984].

End WorkloadSamples.

Module SessionSamples.
Import Samples.

Definition bob : Employee := {| emp_id := "EMP003"; emp_name := "Bob" |}.

(** On time, no punch out. *)
Definition bobIn9 := punch "EMP003" "Bob" PunchIn 9 0 (Some 25%Q).

(** Thirty minutes late, no punch out. *)
Definition bobIn930 := punch "EMP003" "Bob" PunchIn 9 30 (Some 25%Q).

(** Two and a half hours late, no punch out. *)
Definition bobIn1130 := punch "EMP003" "Bob" PunchIn 11 30 (Some 25%Q).

(** The same day at 10:30 and at 16:00. *)
Definition sameDay1030 : Z := JS.Date_local utc 2026 0 29 10 30 0.
Definition sameDay16 : Z := JS.Date_local utc 2026 0 29 16 0 0.

Definition exceptionsAt (now : Z) (records : list RawPunchRecord)
  : list Exception :=
  calculateExceptions utc CONFIG now (processSheetData utc now records)
    (Some testDate).

(** The repository of a day on which Bob punches in at 09:00 only. *)
Definition bobDay : ProcessedData :=
  processSheetData utc sameDay16 [bobIn9].

End SessionSamples.

Module SheetSamples.

(** A sheet with a name, an identifier and a timestamp column only. *)
Definition threeColumns : string :=
  ("Name,Employee ID,Timestamp" ++ String "010"
   "Jane, emp 2 ,29/01/2026 09:00:00")%string.

End SheetSamples.

(* ================================================================== *)
(** * Properties of the built-ins *)
(* ================================================================== *)

Module JSFacts.
Import JS.

(** ** Sorting *)

Section SortFacts.
Context {A : Type} (after : A -> A -> bool).

Lemma insert_perm (x : A) (l : list A) :
  Permutation (x :: l) (insert after x l).
Proof.
  induction l as [|y l IH]; simpl; [reflexivity|].
  destruct (after x y); [|reflexivity].
  rewrite perm_swap. now apply perm_skip.
Qed.

Lemma sort_perm (l : list A) : Permutation l (sort after l).
Proof.
  induction l as [|x l IH]; simpl; [constructor|].
  rewrite <- insert_perm. now apply perm_skip.
Qed.

Lemma sort_length (l : list A) : List.length (sort after l) = List.length l.
Proof. symmetry. apply Permutation_length, sort_perm. Qed.

Lemma sort_In (l : list A) (x : A) : In x (sort after l) <-> In x l.
Proof.
  split; apply Permutation_in; [symmetry|]; apply sort_perm.
Qed.

Lemma sort_Forall (P : A -> Prop) (l : list A) :
  Forall P l -> Forall P (sort after l).
Proof.
  intros H. eapply Permutation_Forall; [apply sort_perm|exact H].
Qed.

(** An array already in order is left as it is. *)
Lemma sort_of_sorted (l : list A) :
  StronglySorted (before after) l -> sort after l = l.
Proof.
  induction 1 as [|x l Hs IH Hx]; [reflexivity|].
  simpl. rewrite IH. destruct l as [|y l]; [reflexivity|].
  simpl. inversion Hx as [|? ? Hxy _]; subst. now rewrite Hxy.
Qed.

(** A comparator that orders: it never puts each of two elements after
    the other, and staying in front is transitive. *)
Hypothesis after_asym : forall a b, after a b = true -> after b a = false.
Hypothesis before_trans : forall a b c, before after a b -> before after b c -> before after a c.

Lemma insert_sorted (x : A) (l : list A) :
  StronglySorted (before after) l -> StronglySorted (before after) (insert after x l).
Proof.
  induction l as [|y l IH]; simpl; intros Hs.
  - constructor; [constructor|constructor].
  - inversion Hs as [|? ? Hl Hy]; subst.
    destruct (after x y) eqn:E.
    + constructor; [now apply IH|].
      eapply Permutation_Forall; [apply insert_perm|].
      constructor; [now apply after_asym|exact Hy].
    + constructor; [exact Hs|].
      constructor; [exact E|].
      eapply Forall_impl; [|exact Hy].
      intros z Hz. now apply before_trans with y.
Qed.

Lemma sort_sorted (l : list A) : StronglySorted (before after) (sort after l).
Proof.
  induction l as [|x l IH]; simpl; [constructor|now apply insert_sorted].
Qed.

(** The sort is stable: the elements of any class that a passing
    element never jumps over keep their order. *)
Lemma insert_filter (P : A -> bool) (x : A) (l : list A) :
  (forall y, In y l -> after x y = true -> P x = true -> P y = false) ->
  filter P (insert after x l) = filter P (x :: l).
Proof.
  induction l as [|y l IH]; intros H; [reflexivity|].
  simpl. destruct (after x y) eqn:E; [|reflexivity].
  simpl. rewrite IH by (intros z Hz; apply H; now right).
  simpl. destruct (P x) eqn:Px; [|reflexivity].
  now rewrite (H y (or_introl eq_refl) E eq_refl).
Qed.

Lemma sort_stable (P : A -> bool) (l : list A) :
  (forall x y, after x y = true -> P x = true -> P y = false) ->
  filter P (sort after l) = filter P l.
Proof.
  intros H. induction l as [|x l IH]; [reflexivity|].
  simpl sort. rewrite insert_filter by (intros y _; apply H).
  simpl. now rewrite IH.
Qed.
End SortFacts.

(** Two sorted arrangements of the same elements coincide when no two
    distinct elements tie. *)
Lemma sorted_perm_unique {A} (R : A -> A -> Prop) (l1 l2 : list A) :
  (forall a b, In a l1 -> In b l1 -> R a b -> R b a -> a = b) ->
  StronglySorted R l1 -> StronglySorted R l2 -> Permutation l1 l2 ->
  l1 = l2.
Proof.
  revert l2. induction l1 as [|a t1 IH]; intros l2 Hanti H1 H2 Hp.
  - now apply Permutation_nil in Hp.
  - destruct l2 as [|b t2];
      [symmetry in Hp; now apply Permutation_nil in Hp|].
    inversion H1 as [|? ? Ht1 Ha]; subst.
    inversion H2 as [|? ? Ht2 Hb]; subst.
    assert (Hab : a = b).
    { assert (Ia : In a (b :: t2))
        by (eapply Permutation_in; [exact Hp|now left]).
      assert (Ib : In b (a :: t1))
        by (eapply Permutation_in; [symmetry; exact Hp|now left]).
      destruct Ia as [->|Ia]; [reflexivity|].
      destruct Ib as [->|Ib]; [reflexivity|].
      rewrite Forall_forall in Ha, Hb.
      apply Hanti; [now left|now right|now apply Ha|now apply Hb]. }
    subst b. f_equal.
    apply IH; auto.
    + intros x y Hx Hy. apply Hanti; now right.
    + now apply Permutation_cons_inv in Hp.
Qed.

Lemma StronglySorted_impl {A} (R R' : A -> A -> Prop) (l : list A) :
  (forall a b, R a b -> R' a b) -> StronglySorted R l -> StronglySorted R' l.
Proof.
  intros Himp. induction 1 as [|x l Hs IH Hx]; constructor; auto.
  eapply Forall_impl; [|exact Hx]. auto.
Qed.

Lemma In_firstn {A} (n : nat) (l : list A) (x : A) :
  In x (firstn n l) -> In x l.
Proof.
  intros H. rewrite <- (firstn_skipn n l). apply in_or_app. now left.
Qed.

Lemma StronglySorted_firstn {A} (R : A -> A -> Prop) (n : nat) (l : list A) :
  StronglySorted R l -> StronglySorted R (firstn n l).
Proof.
  revert n. induction l as [|x l IH]; intros n H.
  - rewrite firstn_nil. constructor.
  - destruct n; simpl; [constructor|].
    inversion H as [|? ? Hl Hx]; subst. constructor; [now apply IH|].
    apply Forall_forall. intros y Hy.
    rewrite Forall_forall in Hx. apply Hx. eapply In_firstn; eauto.
Qed.

Lemma StronglySorted_nth {A} (R : A -> A -> Prop) (l : list A) :
  StronglySorted R l ->
  forall i j a b, (i < j)%nat ->
    nth_error l i = Some a -> nth_error l j = Some b -> R a b.
Proof.
  induction 1 as [|x l Hs IH Hx]; intros i j a b Hij Ha Hb.
  - destruct i; discriminate.
  - destruct j as [|j]; [lia|]. simpl in Hb.
    destruct i as [|i]; simpl in Ha.
    + injection Ha as <-. rewrite Forall_forall in Hx.
      apply Hx. eapply nth_error_In; eauto.
    + apply (IH i j); auto. lia.
Qed.

Lemma slice0_length {A} (l : list A) (e : Z) :
  0 <= e -> count (slice0 l e) = Z.min e (count l).
Proof.
  intros He. unfold slice0, count.
  destruct (e <? 0) eqn:E; [apply Z.ltb_lt in E; lia|].
  rewrite length_firstn. lia.
Qed.

End JSFacts.

(* ================================================================== *)
(** * Properties of the repository *)
(* ================================================================== *)

Module MapFacts.
Import JS.

Lemma Map_get_set_same {V} (m : Map V) k v : Map_get (Map_set m k v) k = Some v.
Proof.
  induction m as [|[k' v'] m IH]; simpl.
  - now rewrite String.eqb_refl.
  - destruct (String.eqb k' k) eqn:E; simpl; rewrite E; auto.
Qed.

Lemma Map_get_set_other {V} (m : Map V) k k' v :
  k <> k' -> Map_get (Map_set m k v) k' = Map_get m k'.
Proof.
  intros Hne. induction m as [|[k0 v0] m IH]; simpl.
  - destruct (String.eqb_spec k k'); [contradiction|reflexivity].
  - destruct (String.eqb_spec k0 k) as [->|]; simpl.
    + destruct (String.eqb_spec k k'); [contradiction|reflexivity].
    + destruct (String.eqb k0 k'); auto.
Qed.

Lemma Map_get_update_same {V} (m : Map V) k f :
  Map_get (Map_update m k f) k = option_map f (Map_get m k).
Proof.
  induction m as [|[k' v'] m IH]; simpl; [reflexivity|].
  destruct (String.eqb k' k) eqn:E; simpl; rewrite E; auto.
Qed.

Lemma Map_get_update_other {V} (m : Map V) k k' f :
  k <> k' -> Map_get (Map_update m k f) k' = Map_get m k'.
Proof.
  intros Hne. induction m as [|[k0 v0] m IH]; simpl; [reflexivity|].
  destruct (String.eqb_spec k0 k) as [->|]; simpl.
  - destruct (String.eqb_spec k k'); [contradiction|reflexivity].
  - destruct (String.eqb k0 k'); auto.
Qed.

Lemma Map_update_keys {V} (m : Map V) k f :
  map fst (Map_update m k f) = map fst m.
Proof.
  induction m as [|[k' v'] m IH]; simpl; [reflexivity|].
  destruct (String.eqb k' k); simpl; congruence.
Qed.

Lemma Map_get_None {V} (m : Map V) k :
  Map_get m k = None <-> ~ In k (map fst m).
Proof.
  induction m as [|[k' v'] m IH]; simpl; [tauto|].
  destruct (String.eqb_spec k' k) as [->|Hne].
  - split; [discriminate|]. intros H. exfalso. apply H. now left.
  - rewrite IH. tauto.
Qed.

Lemma Map_has_In {V} (m : Map V) k :
  Map_has m k = true <-> In k (map fst m).
Proof.
  unfold Map_has. destruct (Map_get m k) eqn:E.
  - split; [|reflexivity]. intros _.
    destruct (in_dec string_dec k (map fst m)) as [H|H]; [exact H|].
    apply Map_get_None in H. congruence.
  - split; [discriminate|]. intros H. apply Map_get_None in E. contradiction.
Qed.

Lemma Map_set_keys {V} (m : Map V) k v :
  map fst (Map_set m k v) =
  if Map_has m k then map fst m else map fst m ++ [k].
Proof.
  unfold Map_has. induction m as [|[k' v'] m IH]; simpl; [reflexivity|].
  destruct (String.eqb k' k) eqn:E; simpl; [reflexivity|].
  rewrite IH. now destruct (Map_get m k).
Qed.

Lemma Map_get_In {V} (m : Map V) k v :
  NoDup (map fst m) -> In (k, v) m -> Map_get m k = Some v.
Proof.
  induction m as [|[k' v'] m IH]; simpl; intros Hnd Hin; [contradiction|].
  inversion Hnd as [|? ? Hk Hm]; subst.
  destruct Hin as [Heq|Hin].
  - injection Heq as -> ->. now rewrite String.eqb_refl.
  - destruct (String.eqb_spec k' k) as [->|]; [|auto].
    exfalso. apply Hk. now apply (in_map fst) in Hin.
Qed.

(** ** The grouping idiom *)

Lemma pushTo_get_same m k r :
  Map_get (pushTo m k r) k =
  Some (match Map_get m k with Some l => l ++ [r] | None => [r] end).
Proof.
  unfold pushTo, Map_has. rewrite Map_get_update_same.
  destruct (Map_get m k) eqn:E; simpl.
  - now rewrite E.
  - now rewrite Map_get_set_same.
Qed.

Lemma pushTo_get_other m k k' r :
  k <> k' -> Map_get (pushTo m k r) k' = Map_get m k'.
Proof.
  intros Hne. unfold pushTo. rewrite Map_get_update_other by exact Hne.
  destruct (negb (Map_has m k)); [now apply Map_get_set_other|reflexivity].
Qed.

Lemma pushTo_keys m k r :
  map fst (pushTo m k r) = if Map_has m k then map fst m else map fst m ++ [k].
Proof.
  unfold pushTo. rewrite Map_update_keys.
  destruct (Map_has m k) eqn:E; simpl; [reflexivity|].
  rewrite Map_set_keys. now rewrite E.
Qed.

Section Grouping.
Variable key : RawPunchRecord -> string.

(** What a key holds after grouping: the records of that key, in the
    order of the input, behind what it held before. *)
Lemma groupFold_get l m k :
  Map_get (groupFold key l m) k =
  match Map_get m k, filter (keyIs key k) l with
  | None, [] => None
  | None, rs => Some rs
  | Some l0, rs => Some (l0 ++ rs)
  end.
Proof.
  revert m. unfold groupFold. induction l as [|r l IH]; intros m; simpl.
  - destruct (Map_get m k); [now rewrite app_nil_r|reflexivity].
  - rewrite IH.
    replace (keyIs key k r) with (String.eqb (key r) k) by reflexivity.
    destruct (String.eqb_spec (key r) k) as [Heq|Hne].
    + rewrite Heq, pushTo_get_same.
      destruct (Map_get m k); [now rewrite <- app_assoc|reflexivity].
    + now rewrite pushTo_get_other.
Qed.

Lemma groupFold_keys_NoDup l m :
  NoDup (map fst m) -> NoDup (map fst (groupFold key l m)).
Proof.
  revert m. unfold groupFold.
  induction l as [|r l IH]; intros m Hm; simpl; [exact Hm|].
  apply IH. rewrite pushTo_keys.
  destruct (Map_has m (key r)) eqn:E; [exact Hm|].
  apply NoDup_app; [exact Hm|repeat constructor; intros []|].
  intros x Hx [<-|[]].
  apply Map_has_In in Hx. congruence.
Qed.

Lemma groupFold_keys_In l m k :
  In k (map fst (groupFold key l m)) <-> In k (map fst m) \/ In k (map key l).
Proof.
  revert m. unfold groupFold.
  induction l as [|r l IH]; intros m; simpl; [tauto|].
  rewrite IH, pushTo_keys.
  destruct (Map_has m (key r)) eqn:E.
  - apply Map_has_In in E. split; [tauto|].
    intros [H|[<-|H]]; tauto.
  - rewrite in_app_iff. simpl. tauto.
Qed.

(** Every entry of a grouping from the empty map holds exactly the
    records of its key, and at least one. *)
Lemma groupFold_entries l k v :
  In (k, v) (groupFold key l []) -> v = filter (keyIs key k) l /\ v <> [].
Proof.
  intros Hin.
  assert (Hnd : NoDup (map fst (groupFold key l [])))
    by (apply groupFold_keys_NoDup; constructor).
  pose proof (Map_get_In _ _ _ Hnd Hin) as Hg.
  rewrite groupFold_get in Hg. simpl in Hg.
  destruct (filter (keyIs key k) l) eqn:E; [discriminate|].
  injection Hg as <-. split; [reflexivity|discriminate].
Qed.

Lemma groupFold_length l :
  List.length (groupFold key l []) = List.length (nodup string_dec (map key l)).
Proof.
  rewrite <- (length_map fst).
  apply Permutation_length, NoDup_Permutation.
  - apply groupFold_keys_NoDup. constructor.
  - apply NoDup_nodup.
  - intros k. rewrite groupFold_keys_In, nodup_In. simpl. tauto.
Qed.
End Grouping.

Lemma groupByEmployee_groupFold punches :
  groupByEmployee punches = groupFold employeeId punches [].
Proof. reflexivity. Qed.

End MapFacts.

(* ================================================================== *)
(** * Properties of the FIFO pairing loop *)
(* ================================================================== *)

Module FifoFacts.

Lemma findPunchOutIn_Some l k j out :
  findPunchOutIn l k = Some (j, out) ->
  (k <= j)%nat /\ nth_error l (j - k) = Some out /\ isPunchOut out = true /\
  forall m p, (m < j - k)%nat -> nth_error l m = Some p -> isPunchOut p = false.
Proof.
  revert k. induction l as [|p l IH]; intros k H; simpl in H; [discriminate|].
  destruct (isPunchOut p) eqn:E.
  - injection H as <- <-. rewrite Nat.sub_diag. repeat split; auto.
    intros m q Hm. lia.
  - apply IH in H. destruct H as (Hk & Hn & Ho & Hb).
    replace (j - k)%nat with (S (j - S k)) by lia.
    repeat split; auto; [lia|].
    intros [|m] q Hm Hq; simpl in Hq.
    + now injection Hq as <-.
    + apply (Hb m); auto. lia.
Qed.

Lemma findPunchOutIn_None l k :
  findPunchOutIn l k = None -> existsb isPunchOut l = false.
Proof.
  revert k. induction l as [|p l IH]; intros k H; simpl in *; [reflexivity|].
  destruct (isPunchOut p); [discriminate|]. simpl. eauto.
Qed.

Lemma nth_error_skipn {A} (l : list A) (k m : nat) :
  nth_error (skipn k l) m = nth_error l (k + m).
Proof.
  revert l. induction k as [|k IH]; intros l; [reflexivity|].
  destruct l; simpl; [now destruct m|apply IH].
Qed.

(** The search returns the first punch out at or after [k]. *)
Lemma findPunchOut_Some sorted k j out :
  findPunchOut sorted k = Some (j, out) ->
  (k <= j)%nat /\ nth_error sorted j = Some out /\ isPunchOut out = true /\
  forall m p, (k <= m < j)%nat -> nth_error sorted m = Some p ->
              isPunchOut p = false.
Proof.
  unfold findPunchOut. intros H. apply findPunchOutIn_Some in H.
  destruct H as (Hk & Hn & Ho & Hb).
  rewrite nth_error_skipn in Hn. replace (k + (j - k))%nat with j in Hn by lia.
  repeat split; auto.
  intros m p Hm Hp. apply (Hb (m - k)%nat); [lia|].
  rewrite nth_error_skipn. now replace (k + (m - k))%nat with m by lia.
Qed.

Lemma findPunchOut_None sorted k :
  findPunchOut sorted k = None -> existsb isPunchOut (skipn k sorted) = false.
Proof. apply findPunchOutIn_None. Qed.

Lemma nth_error_lt {A} (l : list A) (i : nat) (x : A) :
  nth_error l i = Some x -> (i < List.length l)%nat.
Proof. intros H. apply nth_error_Some. congruence. Qed.

Section Loop.
Context {State : Type}.
Variable onPair : RawPunchRecord -> RawPunchRecord -> State -> State.
Variable onOpen : RawPunchRecord -> State -> State.
Variable onOut : nat -> RawPunchRecord -> State -> State.
Variable sorted : list RawPunchRecord.

(** Termination: the loop leaves through its condition [i < length],
    whatever fuel is given beyond the distance to the end. *)
Lemma fifoLoop_fuel fuel1 fuel2 i st :
  (List.length sorted - i <= fuel1)%nat ->
  (List.length sorted - i <= fuel2)%nat ->
  fifoLoop onPair onOpen onOut fuel1 sorted i st =
  fifoLoop onPair onOpen onOut fuel2 sorted i st.
Proof.
  revert fuel2 i st.
  induction fuel1 as [|fuel1 IH]; intros fuel2 i st H1 H2.
  - destruct fuel2; simpl; [reflexivity|].
    destruct (nth_error sorted i) eqn:E; [|reflexivity].
    apply nth_error_lt in E. lia.
  - simpl. destruct (nth_error sorted i) as [punch|] eqn:E.
    2:{ destruct fuel2; simpl; [reflexivity|now rewrite E]. }
    pose proof (nth_error_lt _ _ _ E) as Hi.
    destruct fuel2 as [|fuel2]; [lia|]. simpl. rewrite E.
    destruct (isPunchIn punch).
    + destruct (findPunchOut sorted (i + 1)) as [[j out]|] eqn:F.
      * apply findPunchOut_Some in F. destruct F as (Hj & _).
        apply IH; lia.
      * apply IH; lia.
    + apply IH; lia.
Qed.

(** A property of the state that every body preserves holds when the
    loop ends.  A pair is always an in at [i] and an out at a later [j]. *)
Lemma fifoLoop_invariant (P : State -> Prop) :
  (forall i j punch out st,
      (i < j)%nat -> nth_error sorted i = Some punch ->
      nth_error sorted j = Some out ->
      isPunchIn punch = true -> isPunchOut out = true ->
      P st -> P (onPair punch out st)) ->
  (forall i punch st,
      nth_error sorted i = Some punch -> isPunchIn punch = true ->
      P st -> P (onOpen punch st)) ->
  (forall i punch st,
      nth_error sorted i = Some punch -> isPunchIn punch = false ->
      P st -> P (onOut i punch st)) ->
  forall fuel i st, P st -> P (fifoLoop onPair onOpen onOut fuel sorted i st).
Proof.
  intros Hpair Hopen Hout.
  induction fuel as [|fuel IH]; intros i st Hst; simpl; [exact Hst|].
  destruct (nth_error sorted i) as [punch|] eqn:E; [|exact Hst].
  destruct (isPunchIn punch) eqn:Ein.
  - destruct (findPunchOut sorted (i + 1)) as [[j out]|] eqn:F.
    + apply findPunchOut_Some in F. destruct F as (Hj & Hn & Ho & _).
      apply IH. apply (Hpair i j); auto. lia.
    + apply IH. now apply (Hopen i).
  - apply IH. now apply (Hout i).
Qed.
End Loop.

End FifoFacts.

Module RepositoryFacts.
Import JS MapFacts JSFacts.

Lemma laterThan_asym a b : laterThan a b = true -> laterThan b a = false.
Proof. unfold laterThan. intros H. apply Z.ltb_lt in H. apply Z.ltb_ge. lia. Qed.

Lemma laterThan_before_trans a b c :
  before laterThan a b -> before laterThan b c -> before laterThan a c.
Proof.
  unfold before, laterThan. rewrite !Z.ltb_ge. lia.
Qed.

(** [sortByTimestamp] puts timestamps in non-decreasing order. *)
Lemma sortByTimestamp_sorted l :
  StronglySorted (fun a b => timestamp a <= timestamp b) (sortByTimestamp l).
Proof.
  eapply StronglySorted_impl;
    [|apply (sort_sorted laterThan laterThan_asym laterThan_before_trans)].
  intros a b H. unfold before, laterThan in H. apply Z.ltb_ge in H. lia.
Qed.

(** With pairwise different timestamps the chronological order does not
    depend on the order of the input. *)
Lemma sortByTimestamp_perm l1 l2 :
  Permutation l1 l2 -> NoDup (map timestamp l1) ->
  sortByTimestamp l1 = sortByTimestamp l2.
Proof.
  intros Hp Hnd.
  apply (sorted_perm_unique (fun a b => timestamp a <= timestamp b)).
  - intros a b Ha Hb Hab Hba.
    apply sort_In in Ha, Hb.
    assert (Heq : timestamp a = timestamp b) by lia.
    clear Hab Hba Hp. induction l1 as [|x l1 IH]; [contradiction|].
    simpl in Hnd. inversion Hnd as [|? ? Hx Hl]; subst.
    destruct Ha as [->|Ha], Hb as [->|Hb]; auto.
    + exfalso. apply Hx. rewrite Heq. now apply in_map.
    + exfalso. apply Hx. rewrite <- Heq. now apply in_map.
  - apply sortByTimestamp_sorted.
  - apply sortByTimestamp_sorted.
  - unfold sortByTimestamp.
    rewrite <- (sort_perm laterThan l1), <- (sort_perm laterThan l2).
    exact Hp.
Qed.

Section Repository.
Variable tz : Z.

Lemma processRecord_punchesByDate today l acc :
  punchesByDate (fold_left (processRecord tz today) l acc) =
  groupFold (dateKeyOf tz) l (punchesByDate acc).
Proof.
  revert acc. induction l as [|r l IH]; intros acc; [reflexivity|].
  simpl. now rewrite IH.
Qed.

Lemma processRecord_punchesByEmployee today l acc :
  punchesByEmployee (fold_left (processRecord tz today) l acc) =
  groupFold employeeId l (punchesByEmployee acc).
Proof.
  revert acc. induction l as [|r l IH]; intros acc; [reflexivity|].
  simpl. now rewrite IH.
Qed.

Lemma processRecord_employees today l acc :
  employees (fold_left (processRecord tz today) l acc) =
  fold_left updateEmployees l (employees acc).
Proof.
  revert acc. induction l as [|r l IH]; intros acc; [reflexivity|].
  simpl. now rewrite IH.
Qed.

Lemma updateEmployees_keys m r :
  map fst (updateEmployees m r) =
  if Map_has m (employeeId r) then map fst m else map fst m ++ [employeeId r].
Proof.
  unfold updateEmployees, Map_has.
  destruct (Map_get m (employeeId r)) as [e|] eqn:E.
  - destruct (_ && _); [apply Map_update_keys|].
    destruct (_ && _); [apply Map_update_keys|reflexivity].
  - rewrite Map_set_keys. unfold Map_has. now rewrite E.
Qed.

Lemma updateEmployees_known l m k :
  In k (map fst m) \/ In k (map employeeId l) ->
  In k (map fst (fold_left updateEmployees l m)).
Proof.
  revert m. induction l as [|r l IH]; intros m H; simpl in *; [tauto|].
  apply IH. rewrite updateEmployees_keys.
  destruct (Map_has m (employeeId r)) eqn:E.
  - apply Map_has_In in E. destruct H as [H|[<-|H]]; auto.
  - rewrite in_app_iff. simpl. tauto.
Qed.

(** The events of one date, as [processSheetData] stores them: the
    chronologically sorted records of that date. *)
Lemma dayPunchesOf_processSheetData now records date :
  dayPunchesOf (processSheetData tz now records) date =
  filter (keyIs (dateKeyOf tz) date) (sortByTimestamp records).
Proof.
  unfold dayPunchesOf, processSheetData.
  rewrite processRecord_punchesByDate, groupFold_get. simpl.
  now destruct (filter _ _).
Qed.

(** Every employee with an event is in the employee index. *)
Lemma processSheetData_employee_known now records r :
  In r records ->
  exists e, Map_get (employees (processSheetData tz now records))
                    (employeeId r) = Some e.
Proof.
  intros Hin. unfold processSheetData. rewrite processRecord_employees. simpl.
  destruct (Map_get _ (employeeId r)) as [e|] eqn:E; [eauto|].
  apply Map_get_None in E. exfalso. apply E.
  apply updateEmployees_known. right.
  apply in_map. now apply sort_In.
Qed.
End Repository.

End RepositoryFacts.

(* ================================================================== *)
(** * Compliance classification *)
(* ================================================================== *)

Module ComplianceFacts.

Lemma Qle_bool_false (x y : Q) : Qle_bool x y = false <-> (y < x)%Q.
Proof.
  split.
  - intros H. apply Qnot_le_lt. intros Hle.
    apply Qle_bool_iff in Hle. congruence.
  - intros H. destruct (Qle_bool x y) eqn:E; [|reflexivity].
    apply Qle_bool_iff in E. exfalso. eapply Qlt_not_le; eauto.
Qed.

Lemma locations_status cfg parseFloat data loc :
  In loc (calculateLatestLocations cfg parseFloat data) ->
  loc_status loc = complianceStatusOf cfg (loc_distance loc).
Proof.
  unfold calculateLatestLocations.
  set (step := fun _ _ => _).
  assert (Hinv : forall entries acc,
             (forall l, In l acc ->
                        loc_status l = complianceStatusOf cfg (loc_distance l)) ->
             forall l, In l (fold_left step entries acc) ->
                       loc_status l = complianceStatusOf cfg (loc_distance l)).
  { induction entries as [|[empId empPunches] entries IH]; intros acc Hacc;
      [exact Hacc|].
    cbn [fold_left]. apply IH. unfold step at 1.
    destruct (JS.Map_get _ _); [|exact Hacc].
    destruct (last _ _); [|exact Hacc].
    destruct (parseCoordinates _ _); [|exact Hacc].
    intros l Hl. apply in_app_or in Hl. destruct Hl as [Hl|[<-|[]]]; auto. }
  apply Hinv. intros l [].
Qed.

End ComplianceFacts.

(** C3: the compliance status is unknown without a distance, compliant
    up to the compliant threshold, warning above it up to the warning
    threshold and breach beyond that (thresholds in their configured
    order); every entry of the latest-locations output carries the status
    of its own distance; with the default thresholds 25 is compliant, 75
    is warning and 150 is breach. *)
Theorem compliance_classification (cfg : Config) :
  (DISTANCE_THRESHOLD_COMPLIANT cfg <= DISTANCE_THRESHOLD_WARNING cfg)%Q ->
  complianceStatusOf cfg None = unknown
  /\ (forall d, (d <= DISTANCE_THRESHOLD_COMPLIANT cfg)%Q ->
                complianceStatusOf cfg (Some d) = compliant)
  /\ (forall d, (DISTANCE_THRESHOLD_COMPLIANT cfg < d)%Q ->
                (d <= DISTANCE_THRESHOLD_WARNING cfg)%Q ->
                complianceStatusOf cfg (Some d) = warning)
  /\ (forall d, (DISTANCE_THRESHOLD_WARNING cfg < d)%Q ->
                complianceStatusOf cfg (Some d) = breach)
  /\ (forall parseFloat data loc,
         In loc (calculateLatestLocations cfg parseFloat data) ->
         loc_status loc = complianceStatusOf cfg (loc_distance loc))
  /\ complianceStatusOf CONFIG (Some 25%Q) = compliant
  /\ complianceStatusOf CONFIG (Some 75%Q) = warning
  /\ complianceStatusOf CONFIG (Some 150%Q) = breach.
Proof.
  intros Hcfg. unfold complianceStatusOf.
  split; [reflexivity|].
  split.
  { intros d Hd. apply Qle_bool_iff in Hd. now rewrite Hd. }
  split.
  { intros d Hlo Hhi.
    apply ComplianceFacts.Qle_bool_false in Hlo. rewrite Hlo.
    apply Qle_bool_iff in Hhi. now rewrite Hhi. }
  split.
  { intros d Hd.
    assert (Hlo : (DISTANCE_THRESHOLD_COMPLIANT cfg < d)%Q)
      by (eapply Qle_lt_trans; eauto).
    apply ComplianceFacts.Qle_bool_false in Hlo, Hd. now rewrite Hlo, Hd. }
  split; [apply ComplianceFacts.locations_status|].
  repeat split.
Qed.

Lemma compliance_classification_witness :
  complianceStatusOf CONFIG None = unknown
  /\ complianceStatusOf CONFIG (Some 50%Q) = compliant
  /\ complianceStatusOf CONFIG (Some (101 # 2)%Q) = warning
  /\ complianceStatusOf CONFIG (Some 100%Q) = warning
  /\ complianceStatusOf CONFIG (Some (201 # 2)%Q) = breach.
Proof.
  assert (Hcfg : (DISTANCE_THRESHOLD_COMPLIANT CONFIG
                  <= DISTANCE_THRESHOLD_WARNING CONFIG)%Q)
    by (vm_compute; discriminate).
  destruct (compliance_classification CONFIG Hcfg)
    as (Hn & Hc & Hw & Hb & _).
  split; [exact Hn|].
  split; [apply Hc; vm_compute; discriminate|].
  split; [apply Hw; [reflexivity | vm_compute; discriminate]|].
  split; [apply Hw; [reflexivity | vm_compute; discriminate]|].
  apply Hb; reflexivity.
Defined.

(* ================================================================== *)
(** * KPI snapshot *)
(* ================================================================== *)

Module KPIFacts.
Import JS MapFacts RepositoryFacts.

Lemma filter_none {A} (f : A -> bool) (l : list A) :
  (forall x, In x l -> f x = false) -> filter f l = [].
Proof.
  induction l as [|x l IH]; intros H; [reflexivity|].
  simpl. rewrite (H x (or_introl eq_refl)). apply IH.
  intros y Hy. apply H. now right.
Qed.

(** A day without events gives the zero snapshot. *)
Lemma calculateKPIs_no_punches tz cfg now data dateStr :
  dayPunchesOf data (targetDateOf tz now dateStr) = [] ->
  let kpis := calculateKPIs tz cfg now data dateStr in
  activeEmployeesCount kpis = 0
  /\ (totalWorkingHoursToday kpis == 0)%Q
  /\ onSiteCompliancePct kpis = 100
  /\ exceptionsCount kpis = 0.
Proof.
  intros H. unfold calculateKPIs. rewrite H. cbn.
  repeat split.
Qed.

End KPIFacts.

(** C8: when no event of the repository falls on the queried date, the
    KPI snapshot is computed all the same and has zero active employees,
    zero total hours, 100 per cent compliance and zero exceptions. *)
Theorem kpis_of_empty_window (tz : Z) (cfg : Config) (now now' : Z)
        (records : list RawPunchRecord) (dateStr : option string) :
  (forall r, In r records ->
             formatDateKey tz (timestamp r) <> targetDateOf tz now dateStr) ->
  let kpis :=
    calculateKPIs tz cfg now (processSheetData tz now' records) dateStr in
  activeEmployeesCount kpis = 0
  /\ (totalWorkingHoursToday kpis == 0)%Q
  /\ onSiteCompliancePct kpis = 100
  /\ exceptionsCount kpis = 0.
Proof.
  intros Hnone. apply KPIFacts.calculateKPIs_no_punches.
  rewrite RepositoryFacts.dayPunchesOf_processSheetData.
  apply KPIFacts.filter_none. intros r Hr.
  apply JSFacts.sort_In in Hr. unfold keyIs.
  apply String.eqb_neq. now apply Hnone.
Qed.

Lemma kpis_of_empty_window_witness :
  let kpis :=
    calculateKPIs Samples.utc CONFIG Samples.nextNoon
      (processSheetData Samples.utc Samples.nextNoon [Samples.yesterdayIn])
      (Some Samples.testDate) in
  activeEmployeesCount kpis = 0
  /\ (totalWorkingHoursToday kpis == 0)%Q
  /\ onSiteCompliancePct kpis = 100
  /\ exceptionsCount kpis = 0.
Proof.
  apply (kpis_of_empty_window Samples.utc CONFIG Samples.nextNoon
           Samples.nextNoon [Samples.yesterdayIn] (Some Samples.testDate)).
  intros r [<-|[]]. vm_compute. discriminate.
Defined.

(* ================================================================== *)
(** * Working hours *)
(* ================================================================== *)

Module HoursFacts.
Import JS MapFacts RepositoryFacts.

Lemma truthy_append a c b : truthy (a ++ String c b)%string = true.
Proof. now destruct a. Qed.

Lemma formatDateKey_truthy tz t : truthy (formatDateKey tz t) = true.
Proof. unfold formatDateKey. apply truthy_append. Qed.

Lemma targetDateOf_key tz now t :
  targetDateOf tz now (Some (formatDateKey tz t)) = formatDateKey tz t.
Proof. unfold targetDateOf. now rewrite formatDateKey_truthy. Qed.

Lemma formatDateKey_localDay tz a b :
  localDay tz a = localDay tz b -> formatDateKey tz a = formatDateKey tz b.
Proof.
  intros H. unfold formatDateKey, getFullYear, getMonth, getDate.
  now rewrite H.
Qed.

(** A wall-clock time within the day stays on the civil date given to
    the constructor. *)
Lemma localDay_Date_local tz y mo d h mi s :
  0 <= h * 3600000 + mi * 60000 + s * 1000 < msPerDay ->
  localDay tz (Date_local tz y mo d h mi s) = localDay tz (Date_local tz y mo d 0 0 0).
Proof.
  intros Hr. unfold localDay, Date_local, msPerDay in *.
  set (D := daysFromCivil _ _ _ + (d - 1)).
  assert (H1 : (D * 86400000 + h * 3600000 + mi * 60000 + s * 1000 - tz + tz)
               / 86400000 = D).
  { symmetry.
    apply Z.div_unique with (r := h * 3600000 + mi * 60000 + s * 1000);
      [left; lia | lia]. }
  assert (H2 : (D * 86400000 + 0 * 3600000 + 0 * 60000 + 0 * 1000 - tz + tz)
               / 86400000 = D).
  { symmetry. apply Z.div_unique with (r := 0); [left; lia | lia]. }
  now rewrite H1, H2.
Qed.

Lemma pushTo_empty k r : pushTo [] k r = [(k, [r])].
Proof. unfold pushTo. simpl. now rewrite String.eqb_refl. Qed.

Lemma pushTo_head k l m r : pushTo ((k, l) :: m) k r = (k, l ++ [r]) :: m.
Proof.
  unfold pushTo, Map_has. simpl. rewrite String.eqb_refl. simpl.
  now rewrite String.eqb_refl.
Qed.

Lemma sortByTimestamp_of_sorted l :
  StronglySorted (fun a b => timestamp a <= timestamp b) l ->
  sortByTimestamp l = l.
Proof.
  intros H. apply JSFacts.sort_of_sorted.
  eapply JSFacts.StronglySorted_impl; [|exact H].
  intros a b Hab. cbv beta in Hab.
  unfold JS.before, laterThan. apply Z.ltb_ge. lia.
Qed.

Ltac chronological :=
  repeat (constructor; [|repeat (constructor; try lia)]); constructor.

Ltac run_fifo :=
  unfold fifo;
  repeat (cbn [List.length fifoLoop nth_error Nat.add skipn findPunchOutIn];
          unfold findPunchOut;
          repeat match goal with
                 | H : isPunchIn _ = _ |- _ => rewrite H
                 | H : isPunchOut _ = _ |- _ => rewrite H
                 end).

Lemma punchIn_flags p :
  punchType p = PunchIn -> isPunchIn p = true /\ isPunchOut p = false.
Proof. unfold isPunchIn, isPunchOut. now intros ->. Qed.

Lemma punchOut_flags p :
  punchType p = PunchOut -> isPunchIn p = false /\ isPunchOut p = true.
Proof. unfold isPunchIn, isPunchOut. now intros ->. Qed.

(** One employee, one in followed by one out: a single closed shift. *)
Lemma calculateWorkingHours_pair pin pout :
  punchType pin = PunchIn -> punchType pout = PunchOut ->
  employeeId pout = employeeId pin -> timestamp pin <= timestamp pout ->
  calculateWorkingHours [pin; pout] =
  (((0 + inject_Z (timestamp pout - timestamp pin) / inject_Z (1000 * 60))
    / 60)%Q, 0).
Proof.
  intros Hin Hout Hid Hts.
  apply punchIn_flags in Hin. destruct Hin as [Hin Hin'].
  apply punchOut_flags in Hout. destruct Hout as [Hout' Hout].
  unfold calculateWorkingHours, groupByEmployee.
  cbn [fold_left]. rewrite pushTo_empty, Hid, pushTo_head.
  cbn [fold_left snd app].
  rewrite sortByTimestamp_of_sorted by chronological.
  run_fifo. reflexivity.
Qed.

(** One employee, in, out, in, out: two closed shifts. *)
Lemma calculateWorkingHours_two_pairs a b c d :
  punchType a = PunchIn -> punchType b = PunchOut ->
  punchType c = PunchIn -> punchType d = PunchOut ->
  employeeId b = employeeId a -> employeeId c = employeeId a ->
  employeeId d = employeeId a ->
  timestamp a <= timestamp b -> timestamp b <= timestamp c ->
  timestamp c <= timestamp d ->
  calculateWorkingHours [a; b; c; d] =
  (((0 + inject_Z (timestamp b - timestamp a) / inject_Z (1000 * 60)
       + inject_Z (timestamp d - timestamp c) / inject_Z (1000 * 60))
    / 60)%Q, 0).
Proof.
  intros Ha Hb Hc Hd Hib Hic Hid Hab Hbc Hcd.
  apply punchIn_flags in Ha, Hc. destruct Ha as [Ha Ha'], Hc as [Hc Hc'].
  apply punchOut_flags in Hb, Hd. destruct Hb as [Hb' Hb], Hd as [Hd' Hd].
  unfold calculateWorkingHours, groupByEmployee.
  cbn [fold_left]. rewrite pushTo_empty, Hib, pushTo_head, Hic, pushTo_head.
  rewrite Hid, pushTo_head.
  cbn [fold_left snd app].
  rewrite sortByTimestamp_of_sorted by chronological.
  run_fifo. reflexivity.
Qed.

(** The same two days on doubles. *)
Lemma calculateWorkingHours_pair_ieee pin pout :
  punchType pin = PunchIn -> punchType pout = PunchOut ->
  employeeId pout = employeeId pin -> timestamp pin <= timestamp pout ->
  Ieee.calculateWorkingHours [pin; pout] =
  (PrimFloat.div
     (PrimFloat.add PrimFloat.zero
        (PrimFloat.div (Ieee.ofZ (timestamp pout - timestamp pin))
           (PrimFloat.mul (Ieee.ofZ 1000) (Ieee.ofZ 60))))
     (Ieee.ofZ 60), 0).
Proof.
  intros Hin Hout Hid Hts.
  apply punchIn_flags in Hin. destruct Hin as [Hin Hin'].
  apply punchOut_flags in Hout. destruct Hout as [Hout' Hout].
  unfold Ieee.calculateWorkingHours, groupByEmployee.
  cbn [fold_left]. rewrite pushTo_empty, Hid, pushTo_head.
  cbn [fold_left snd app].
  rewrite sortByTimestamp_of_sorted by chronological.
  run_fifo. reflexivity.
Qed.

Lemma calculateWorkingHours_two_pairs_ieee a b c d :
  punchType a = PunchIn -> punchType b = PunchOut ->
  punchType c = PunchIn -> punchType d = PunchOut ->
  employeeId b = employeeId a -> employeeId c = employeeId a ->
  employeeId d = employeeId a ->
  timestamp a <= timestamp b -> timestamp b <= timestamp c ->
  timestamp c <= timestamp d ->
  Ieee.calculateWorkingHours [a; b; c; d] =
  (PrimFloat.div
     (PrimFloat.add
        (PrimFloat.add PrimFloat.zero
           (PrimFloat.div (Ieee.ofZ (timestamp b - timestamp a))
              (PrimFloat.mul (Ieee.ofZ 1000) (Ieee.ofZ 60))))
        (PrimFloat.div (Ieee.ofZ (timestamp d - timestamp c))
           (PrimFloat.mul (Ieee.ofZ 1000) (Ieee.ofZ 60))))
     (Ieee.ofZ 60), 0).
Proof.
  intros Ha Hb Hc Hd Hib Hic Hid Hab Hbc Hcd.
  apply punchIn_flags in Ha, Hc. destruct Ha as [Ha Ha'], Hc as [Hc Hc'].
  apply punchOut_flags in Hb, Hd. destruct Hb as [Hb' Hb], Hd as [Hd' Hd].
  unfold Ieee.calculateWorkingHours, groupByEmployee.
  cbn [fold_left]. rewrite pushTo_empty, Hib, pushTo_head, Hic, pushTo_head.
  rewrite Hid, pushTo_head.
  cbn [fold_left snd app].
  rewrite sortByTimestamp_of_sorted by chronological.
  run_fifo. reflexivity.
Qed.

End HoursFacts.

Module KPIHours.
Import JS MapFacts RepositoryFacts HoursFacts.

Lemma filter_all {A} (f : A -> bool) (l : list A) :
  (forall x, In x l -> f x = true) -> filter f l = l.
Proof.
  induction l as [|x l IH]; intros H; [reflexivity|].
  simpl. rewrite (H x (or_introl eq_refl)). f_equal. apply IH.
  intros y Hy. apply H. now right.
Qed.

Lemma kpi_hours tz cfg now data dateStr :
  totalWorkingHoursToday (calculateKPIs tz cfg now data dateStr) =
  (inject_Z
     (Math_round
        (wh_totalHours
           (calculateWorkingHours
              (dayPunchesOf data (targetDateOf tz now dateStr))) * 10))
   / 10)%Q.
Proof. reflexivity. Qed.

(** The events of the queried date when the whole input lies on that
    date at pairwise different, increasing instants [l]. *)
Lemma dayPunches_of_one_day tz now now' records l t :
  Permutation records l ->
  StronglySorted (fun a b => timestamp a < timestamp b) l ->
  (forall r, In r l -> localDay tz (timestamp r) = localDay tz t) ->
  dayPunchesOf (processSheetData tz now' records)
               (targetDateOf tz now (Some (formatDateKey tz t))) = l.
Proof.
  intros Hp Hs Hday.
  rewrite targetDateOf_key, dayPunchesOf_processSheetData.
  assert (Hsort : sortByTimestamp records = l).
  { rewrite <- (sortByTimestamp_perm l records).
    - apply sortByTimestamp_of_sorted.
      eapply JSFacts.StronglySorted_impl; [|exact Hs].
      intros a b Hab. cbv beta in Hab. lia.
    - now symmetry.
    - clear Hp Hday. induction Hs as [|x l Hs IH Hx]; [constructor|].
      simpl. constructor; [|exact IH].
      rewrite in_map_iff. intros (z & Hz & Hin).
      rewrite Forall_forall in Hx. apply Hx in Hin. lia. }
  rewrite Hsort. apply filter_all. intros r Hr.
  unfold keyIs, dateKeyOf. apply String.eqb_eq.
  apply formatDateKey_localDay. now apply Hday.
Qed.

End KPIHours.

(** C4: one employee whose day holds exactly an in at 09:00 and an out
    at 17:00 (in any input order) has 8.0 total working hours in the KPI
    snapshot of that day; with in 09:00, out 12:00, in 13:00, out 17:00
    the total is 7.0.  Both hold for the exact arithmetic and for the
    arithmetic on doubles. *)
Theorem total_working_hours_examples
        (tz : Z) (cfg : Config) (now now' : Z) (y mo d : Z)
        (in9 out12 in13 out17 : RawPunchRecord)
        (records1 records2 : list RawPunchRecord) :
  punchType in9 = PunchIn -> punchType out12 = PunchOut ->
  punchType in13 = PunchIn -> punchType out17 = PunchOut ->
  employeeId out12 = employeeId in9 -> employeeId in13 = employeeId in9 ->
  employeeId out17 = employeeId in9 ->
  timestamp in9 = JS.Date_local tz y mo d 9 0 0 ->
  timestamp out12 = JS.Date_local tz y mo d 12 0 0 ->
  timestamp in13 = JS.Date_local tz y mo d 13 0 0 ->
  timestamp out17 = JS.Date_local tz y mo d 17 0 0 ->
  Permutation records1 [in9; out17] ->
  Permutation records2 [in9; out12; in13; out17] ->
  let dateStr := Some (formatDateKey tz (timestamp in9)) in
  (totalWorkingHoursToday
     (calculateKPIs tz cfg now (processSheetData tz now' records1) dateStr)
   == 8)%Q
  /\ (totalWorkingHoursToday
        (calculateKPIs tz cfg now (processSheetData tz now' records2) dateStr)
      == 7)%Q
  /\ Ieee.totalWorkingHoursToday tz now (processSheetData tz now' records1)
       dateStr = 8%float
  /\ Ieee.totalWorkingHoursToday tz now (processSheetData tz now' records2)
       dateStr = 7%float.
Proof.
  intros Ha Hb Hc Hd Hib Hic Hid Ta Tb Tc Td Hp1 Hp2 dateStr.
  subst dateStr.
  assert (Hday : forall r, In r [in9; out12; in13; out17] ->
                 JS.localDay tz (timestamp r) = JS.localDay tz (timestamp in9)).
  { intros r Hr.
    assert (Hr' : exists h, 0 <= h < 24 /\ timestamp r = JS.Date_local tz y mo d h 0 0).
    { destruct Hr as [<-|[<-|[<-|[<-|[]]]]]; eexists; (split; [|eassumption]); lia. }
    destruct Hr' as (h & Hh & ->). rewrite Ta.
    rewrite (HoursFacts.localDay_Date_local tz y mo d h 0 0)
      by (unfold JS.msPerDay; lia).
    rewrite (HoursFacts.localDay_Date_local tz y mo d 9 0 0)
      by (unfold JS.msPerDay; lia).
    reflexivity. }
  assert (Hab : timestamp out12 - timestamp in9 = 10800000)
    by (rewrite Ta, Tb; unfold JS.Date_local; lia).
  assert (Hcd : timestamp out17 - timestamp in13 = 14400000)
    by (rewrite Tc, Td; unfold JS.Date_local; lia).
  assert (Had : timestamp out17 - timestamp in9 = 28800000)
    by (rewrite Ta, Td; unfold JS.Date_local; lia).
  assert (Hbc : timestamp in13 - timestamp out12 = 3600000)
    by (rewrite Tb, Tc; unfold JS.Date_local; lia).
  assert (Hday1 :
            dayPunchesOf (processSheetData tz now' records1)
              (targetDateOf tz now (Some (formatDateKey tz (timestamp in9))))
            = [in9; out17]).
  { apply KPIHours.dayPunches_of_one_day.
    - exact Hp1.
    - repeat constructor. lia.
    - intros r [<-|[<-|[]]]; apply Hday; simpl; auto. }
  assert (Hday2 :
            dayPunchesOf (processSheetData tz now' records2)
              (targetDateOf tz now (Some (formatDateKey tz (timestamp in9))))
            = [in9; out12; in13; out17]).
  { apply KPIHours.dayPunches_of_one_day.
    - exact Hp2.
    - repeat constructor; lia.
    - exact Hday. }
  split.
  { rewrite KPIHours.kpi_hours, Hday1.
    rewrite HoursFacts.calculateWorkingHours_pair by (auto; lia).
    rewrite Had. vm_compute. reflexivity. }
  split.
  { rewrite KPIHours.kpi_hours, Hday2.
    rewrite HoursFacts.calculateWorkingHours_two_pairs by (auto; lia).
    rewrite Hab, Hcd. vm_compute. reflexivity. }
  split.
  { unfold Ieee.totalWorkingHoursToday. rewrite Hday1.
    rewrite HoursFacts.calculateWorkingHours_pair_ieee by (auto; lia).
    rewrite Had. vm_compute. reflexivity. }
  { unfold Ieee.totalWorkingHoursToday. rewrite Hday2.
    rewrite HoursFacts.calculateWorkingHours_two_pairs_ieee by (auto; lia).
    rewrite Hab, Hcd. vm_compute. reflexivity. }
Qed.

Lemma total_working_hours_examples_witness :
  let dateStr := Some Samples.testDate in
  let in9 := Samples.punch "EMP001" "John Doe" PunchIn 9 0 (Some 25%Q) in
  let out12 := Samples.punch "EMP001" "John Doe" PunchOut 12 0 (Some 25%Q) in
  let in13 := Samples.punch "EMP001" "John Doe" PunchIn 13 0 (Some 25%Q) in
  let out17 := Samples.punch "EMP001" "John Doe" PunchOut 17 0 (Some 25%Q) in
  (totalWorkingHoursToday
     (calculateKPIs Samples.utc CONFIG Samples.nextNoon
        (processSheetData Samples.utc Samples.nextNoon [out17; in9]) dateStr)
   == 8)%Q
  /\ (totalWorkingHoursToday
        (calculateKPIs Samples.utc CONFIG Samples.nextNoon
           (processSheetData Samples.utc Samples.nextNoon
              [in9; out12; in13; out17]) dateStr)
      == 7)%Q
  /\ Ieee.totalWorkingHoursToday Samples.utc Samples.nextNoon
       (processSheetData Samples.utc Samples.nextNoon [out17; in9]) dateStr
     = 8%float
  /\ Ieee.totalWorkingHoursToday Samples.utc Samples.nextNoon
       (processSheetData Samples.utc Samples.nextNoon
          [in9; out12; in13; out17]) dateStr
     = 7%float.
Proof.
  intros dateStr in9 out12 in13 out17.
  apply (total_working_hours_examples Samples.utc CONFIG Samples.nextNoon
           Samples.nextNoon 2026 0 29 in9 out12 in13 out17
           [out17; in9] [in9; out12; in13; out17]);
    try reflexivity.
  apply perm_swap.
Defined.

(* ================================================================== *)
(** * Employee shifts *)
(* ================================================================== *)

Module ShiftFacts.
Import JS.

Lemma Math_round_nonneg (n : Z) (d : positive) :
  0 <= n -> 0 <= Math_round (inject_Z n / inject_Z (Zpos d))%Q.
Proof.
  intros Hn. unfold Math_round.
  change 0 with (Qfloor 0). apply Qfloor_resp_le.
  unfold Qle, Qdiv, Qmult, Qplus, Qinv, inject_Z. simpl. nia.
Qed.

Lemma closedShift_wf cfg punch out :
  timestamp punch <= timestamp out ->
  shiftWellFormed (closedShift cfg punch out).
Proof.
  intros H. unfold shiftWellFormed, closedShift.
  cbn [shiftEnd shiftStart durationMinutes].
  split; [exact H|]. eexists. split; [reflexivity|].
  apply (Math_round_nonneg _ 60000%positive). lia.
Qed.

Lemma openShift_wf cfg punch : shiftWellFormed (openShift cfg punch).
Proof. reflexivity. Qed.

End ShiftFacts.

(** C2: every shift that the shift calculation returns is well formed: a
    closed shift never ends before it starts, and a shift without an end
    has no duration. *)
Theorem shifts_well_formed (tz : Z) (cfg : Config)
        (Date_parse : string -> option Z) (now : Z) (data : ProcessedData)
        (employeeId : string) (startDate endDate : option string) :
  Forall shiftWellFormed
    (calculateEmployeeShifts tz cfg Date_parse now data employeeId
       startDate endDate).
Proof.
  unfold calculateEmployeeShifts.
  set (sorted := sortByTimestamp _).
  apply Forall_rev. unfold fifo.
  apply (FifoFacts.fifoLoop_invariant _ _ _ sorted (Forall shiftWellFormed)).
  - intros i j punch out st Hij Hi Hj _ _ Hst.
    apply Forall_app. split; [exact Hst|].
    constructor; [|constructor].
    apply ShiftFacts.closedShift_wf.
    apply (JSFacts.StronglySorted_nth _ sorted
             (RepositoryFacts.sortByTimestamp_sorted _) i j); auto.
  - intros i punch st _ _ Hst.
    apply Forall_app. split; [exact Hst|].
    constructor; [apply ShiftFacts.openShift_wf|constructor].
  - intros i punch st _ _ Hst. exact Hst.
  - constructor.
Qed.

(* ================================================================== *)
(** * Exceptions *)
(* ================================================================== *)

Module ExceptionFacts.
Import JS.

Lemma pushException_ruleTyped employee empId ty sev punch note st :
  ty = typeOfNote note -> allRuleTyped st ->
  allRuleTyped (pushException employee empId ty sev punch note st).
Proof.
  intros Hty Hst. destruct st as [exceptions exceptionId].
  unfold allRuleTyped, pushException. cbn [fst].
  apply Forall_app. split; [exact Hst|].
  constructor; [|constructor]. split; [exact Hty|reflexivity].
Qed.

Lemma checkLateArrival_ruleTyped tz cfg employee empId sorted st :
  allRuleTyped st ->
  allRuleTyped (checkLateArrival tz cfg employee empId sorted st).
Proof.
  intros Hst. unfold checkLateArrival.
  destruct (find isPunchIn sorted); [|exact Hst].
  destruct (_ <? _); [|exact Hst].
  now apply pushException_ruleTyped.
Qed.

Lemma checkSessions_ruleTyped cfg now employee empId sorted st :
  allRuleTyped st ->
  allRuleTyped (checkSessions cfg now employee empId sorted st).
Proof.
  intros Hst. unfold checkSessions, fifo.
  apply FifoFacts.fifoLoop_invariant; auto.
  - intros i punch st' _ _ Hst'. unfold onOpenSession.
    destruct (Qle_bool _ _); [|exact Hst'].
    now apply pushException_ruleTyped.
  - intros i punch st' _ _ Hst'. unfold onPunchOut.
    destruct (negb _); [|exact Hst'].
    now apply pushException_ruleTyped.
Qed.

Lemma checkLocationBreaches_ruleTyped cfg employee empId sorted st :
  allRuleTyped st ->
  allRuleTyped (checkLocationBreaches cfg employee empId sorted st).
Proof.
  unfold checkLocationBreaches. revert st.
  induction sorted as [|punch sorted IH]; intros st Hst; [exact Hst|].
  cbn [fold_left]. apply IH.
  destruct (distanceMeters punch); [|exact Hst].
  destruct (Qgtb _ _); [|exact Hst].
  now apply pushException_ruleTyped.
Qed.

Lemma employeeExceptions_ruleTyped tz cfg now data st entry :
  allRuleTyped st ->
  allRuleTyped (employeeExceptions tz cfg now data st entry).
Proof.
  intros Hst. unfold employeeExceptions. destruct entry as [empId empPunches].
  destruct (Map_get _ _); [|exact Hst].
  apply checkLocationBreaches_ruleTyped, checkSessions_ruleTyped,
    checkLateArrival_ruleTyped, Hst.
Qed.

Lemma calculateExceptions_ruleTyped tz cfg now data dateStr :
  Forall ruleTyped (calculateExceptions tz cfg now data dateStr).
Proof.
  unfold calculateExceptions.
  set (byEmployee := groupByEmployee _).
  assert (H : forall entries st,
             allRuleTyped st ->
             allRuleTyped
               (fold_left (employeeExceptions tz cfg now data) entries st)).
  { induction entries as [|entry entries IH]; intros st Hst; [exact Hst|].
    cbn [fold_left]. apply IH. now apply employeeExceptions_ruleTyped. }
  specialize (H byEmployee ([], 1)).
  destruct (fold_left _ byEmployee _) as [exceptions n].
  apply JSFacts.sort_Forall. apply H. constructor.
Qed.

End ExceptionFacts.

(** C10: every exception of the exception calculation has one of the
    types OpenSession, PunchOutWithoutIn and LocationBreach, never
    LocationMissing, and status open; an exception with the late-arrival
    note has type OpenSession, and the late-arrival rule does emit such
    exceptions. *)
Theorem exception_types (tz : Z) (cfg : Config) (now : Z)
        (data : ProcessedData) (dateStr : option string) :
  Forall
    (fun e =>
       (exc_type e = OpenSession \/ exc_type e = PunchOutWithoutIn
        \/ exc_type e = LocationBreach)
       /\ exc_type e <> LocationMissing
       /\ (forall minutesLate,
              notes e = LateArrivalBy minutesLate -> exc_type e = OpenSession))
    (calculateExceptions tz cfg now data dateStr)
  /\ exists e,
      In e (calculateExceptions Samples.utc CONFIG Samples.nextNoon
              (processSheetData Samples.utc Samples.nextNoon
                 [Samples.punch "EMP003" "Bob" PunchIn 11 30 (Some 25%Q);
                  Samples.punch "EMP003" "Bob" PunchOut 17 0 (Some 25%Q)])
              (Some Samples.testDate))
      /\ notes e = LateArrivalBy 150 /\ exc_type e = OpenSession.
Proof.
  split.
  - eapply Forall_impl;
      [|apply ExceptionFacts.calculateExceptions_ruleTyped].
    intros e [Hty _]. rewrite Hty.
    destruct (notes e); cbn; repeat split; auto; try discriminate.
  - eexists. split; [vm_compute; left; reflexivity|]. split; reflexivity.
Qed.

(* ================================================================== *)
(** * Identifier normalisation *)
(* ================================================================== *)

Module IdFacts.
Import JS.

Ltac all_chars c :=
  destruct c as [[] [] [] [] [] [] [] []]; reflexivity.

Lemma charToUpper_idem c : charToUpper (charToUpper c) = charToUpper c.
Proof. all_chars c. Qed.

Lemma isWhiteSpace_charToUpper c :
  isWhiteSpace (charToUpper c) = isWhiteSpace c.
Proof. all_chars c. Qed.

Lemma removeWhiteSpace_trimStart s :
  removeWhiteSpace (trimStart s) = removeWhiteSpace s.
Proof.
  unfold removeWhiteSpace. induction s as [|c s IH]; [reflexivity|].
  cbn [trimStart sfilter].
  destruct (isWhiteSpace c) eqn:E; cbn [negb]; [exact IH|].
  cbn [sfilter]. now rewrite E.
Qed.

Lemma removeWhiteSpace_trimEnd s :
  removeWhiteSpace (trimEnd s) = removeWhiteSpace s.
Proof.
  unfold removeWhiteSpace. induction s as [|c s IH]; [reflexivity|].
  simpl. destruct (trimEnd s) as [|d t] eqn:E.
  - rewrite <- IH. simpl. destruct (isWhiteSpace c) eqn:Ec; simpl;
      [reflexivity|now rewrite Ec].
  - rewrite <- IH. reflexivity.
Qed.

Lemma removeWhiteSpace_trim s : removeWhiteSpace (trim s) = removeWhiteSpace s.
Proof.
  unfold trim. now rewrite removeWhiteSpace_trimEnd, removeWhiteSpace_trimStart.
Qed.

Lemma smap_sdrop f n s : smap f (sdrop n s) = sdrop n (smap f s).
Proof.
  revert s. induction n as [|n IH]; intros s; [reflexivity|].
  destruct s; simpl; auto.
Qed.

Lemma toUpperCase_idem s : toUpperCase (toUpperCase s) = toUpperCase s.
Proof.
  unfold toUpperCase. induction s as [|c s IH]; [reflexivity|].
  simpl. now rewrite charToUpper_idem, IH.
Qed.

(** The function in closed form: strip the white space, put in upper
    case, repair the typo. *)
Lemma normalizeEmployeeId_closed raw :
  normalizeEmployeeId raw = repairUpper (toUpperCase (removeWhiteSpace raw)).
Proof.
  unfold normalizeEmployeeId. destruct raw as [|c raw]; [reflexivity|].
  cbn [truthy negb]. rewrite removeWhiteSpace_trim.
  set (x := removeWhiteSpace (String c raw)).
  unfold startsWithLYLB, repairUpper.
  destruct (startsWith "LYLB" (toUpperCase x)); [|reflexivity].
  unfold toUpperCase. cbn [append smap]. now rewrite smap_sdrop.
Qed.

Lemma sall_sfilter f s : sall f (sfilter f s) = true.
Proof.
  induction s as [|c s IH]; [reflexivity|].
  simpl. destruct (f c) eqn:E; [simpl; now rewrite E|exact IH].
Qed.

Lemma sfilter_sall f s : sall f s = true -> sfilter f s = s.
Proof.
  induction s as [|c s IH]; [reflexivity|].
  simpl. intros H. apply andb_prop in H. destruct H as [Hc Hs].
  rewrite Hc. now rewrite IH.
Qed.

Lemma removeWhiteSpace_clean s :
  sall notSpace s = true -> removeWhiteSpace s = s.
Proof. exact (sfilter_sall notSpace s). Qed.

Lemma sall_removeWhiteSpace s : sall notSpace (removeWhiteSpace s) = true.
Proof. exact (sall_sfilter notSpace s). Qed.

Lemma sall_sdrop f n s : sall f s = true -> sall f (sdrop n s) = true.
Proof.
  revert s. induction n as [|n IH]; intros s H; [exact H|].
  destruct s as [|c s]; [reflexivity|].
  simpl in *. apply andb_prop in H. now apply IH.
Qed.

Lemma sall_toUpperCase s :
  sall notSpace s = true -> sall notSpace (toUpperCase s) = true.
Proof.
  induction s as [|c s IH]; [reflexivity|].
  simpl. intros H. apply andb_prop in H. destruct H as [Hc Hs].
  unfold notSpace in *. rewrite isWhiteSpace_charToUpper, Hc. now apply IH.
Qed.

Lemma sall_repairUpper u :
  sall notSpace u = true -> sall notSpace (repairUpper u) = true.
Proof.
  intros H. unfold repairUpper. destruct (startsWith "LYLB" u); [|exact H].
  cbn [append sall]. now rewrite (sall_sdrop _ 4 u H).
Qed.

Lemma toUpperCase_repairUpper u :
  toUpperCase u = u -> toUpperCase (repairUpper u) = repairUpper u.
Proof.
  intros H. unfold repairUpper. destruct (startsWith "LYLB" u); [|exact H].
  unfold toUpperCase in *. cbn [append smap]. rewrite smap_sdrop, H.
  reflexivity.
Qed.

Lemma repairUpper_idem u : repairUpper (repairUpper u) = repairUpper u.
Proof.
  destruct (startsWith "LYLB" u) eqn:E.
  - assert (H : repairUpper u = ("AYLB" ++ sdrop 4 u)%string)
      by (unfold repairUpper; now rewrite E).
    rewrite H. reflexivity.
  - assert (H : repairUpper u = u) by (unfold repairUpper; now rewrite E).
    now rewrite !H.
Qed.

Lemma sameSpelling_canonical a b :
  sameSpelling a b ->
  toUpperCase (removeWhiteSpace a) = toUpperCase (removeWhiteSpace b).
Proof.
  unfold removeWhiteSpace, toUpperCase.
  induction 1 as [|c a b Hc _ IH|c a b Hc _ IH|c d a b Hcd _ IH].
  - reflexivity.
  - simpl. now rewrite Hc.
  - simpl. now rewrite Hc.
  - simpl.
    assert (Hw : isWhiteSpace c = isWhiteSpace d).
    { rewrite <- (isWhiteSpace_charToUpper c), Hcd.
      apply isWhiteSpace_charToUpper. }
    rewrite Hw. destruct (isWhiteSpace d); simpl; [exact IH|].
    now rewrite Hcd, IH.
Qed.

End IdFacts.

(** C9: two spellings of an employee identifier that differ only by
    letter case or white space normalise to the same identifier, and
    normalising a normalised identifier returns it unchanged. *)
Theorem normalizeEmployeeId_canonical (a b : string) :
  sameSpelling a b ->
  normalizeEmployeeId a = normalizeEmployeeId b
  /\ normalizeEmployeeId (normalizeEmployeeId a) = normalizeEmployeeId a.
Proof.
  intros Hab. split.
  - rewrite !IdFacts.normalizeEmployeeId_closed.
    now rewrite (IdFacts.sameSpelling_canonical a b Hab).
  - rewrite (IdFacts.normalizeEmployeeId_closed (normalizeEmployeeId a)).
    rewrite (IdFacts.normalizeEmployeeId_closed a).
    set (u := JS.toUpperCase (JS.removeWhiteSpace a)).
    assert (Hs : sall notSpace u = true)
      by apply IdFacts.sall_toUpperCase, IdFacts.sall_removeWhiteSpace.
    assert (Hu : JS.toUpperCase u = u) by apply IdFacts.toUpperCase_idem.
    rewrite (IdFacts.removeWhiteSpace_clean _ (IdFacts.sall_repairUpper u Hs)).
    rewrite (IdFacts.toUpperCase_repairUpper u Hu).
    apply IdFacts.repairUpper_idem.
Qed.

Lemma normalizeEmployeeId_canonical_witness :
  normalizeEmployeeId " lylb 12a " = normalizeEmployeeId "LyLb12A"
  /\ normalizeEmployeeId (normalizeEmployeeId " lylb 12a ")
     = normalizeEmployeeId " lylb 12a ".
Proof.
  apply (normalizeEmployeeId_canonical " lylb 12a " "LyLb12A").
  repeat first
    [ apply same_empty
    | apply same_space_left; [reflexivity|]
    | apply same_space_right; [reflexivity|]
    | apply same_letter; [reflexivity|] ].
Defined.

(* ================================================================== *)
(** * Row normaliser *)
(* ================================================================== *)

Module RowFacts.
Import JS.

Lemma trimStart_head s : headNotSpace (trimStart s) = true.
Proof.
  induction s as [|c s IH]; [reflexivity|].
  cbn [trimStart]. destruct (isWhiteSpace c) eqn:E; [exact IH|].
  cbn [headNotSpace]. now rewrite E.
Qed.

Lemma trimStart_fixed s : headNotSpace s = true -> trimStart s = s.
Proof.
  destruct s as [|c s]; [reflexivity|].
  cbn [headNotSpace trimStart]. now destruct (isWhiteSpace c).
Qed.

Lemma trimEnd_head s : headNotSpace s = true -> headNotSpace (trimEnd s) = true.
Proof.
  destruct s as [|c s]; [reflexivity|].
  cbn [headNotSpace trimEnd]. intros H.
  destruct (trimEnd s); [|exact H].
  destruct (isWhiteSpace c) eqn:E; [discriminate|].
  cbn [headNotSpace]. now rewrite E.
Qed.

Lemma trimEnd_idem s : trimEnd (trimEnd s) = trimEnd s.
Proof.
  induction s as [|c s IH]; [reflexivity|].
  cbn [trimEnd]. destruct (trimEnd s) as [|d t] eqn:E.
  - destruct (isWhiteSpace c) eqn:Ec; [reflexivity|].
    cbn [trimEnd]. now rewrite Ec.
  - change (trimEnd (String c (String d t))) with
      (match trimEnd (String d t) with
       | EmptyString =>
           if isWhiteSpace c then EmptyString else String c EmptyString
       | String d' t' => String c (String d' t')
       end).
    now rewrite IH.
Qed.

Lemma trim_idem s : trim (trim s) = trim s.
Proof.
  unfold trim.
  rewrite (trimStart_fixed (trimEnd (trimStart s)))
    by apply trimEnd_head, trimStart_head.
  apply trimEnd_idem.
Qed.

Lemma parseCSVLine_loop_trimmed line result current inQuotes :
  Forall trimmed result ->
  Forall trimmed (parseCSVLine_loop line result current inQuotes).
Proof.
  revert result current inQuotes.
  induction line as [|char rest IH]; intros result current inQuotes Hres.
  - cbn [parseCSVLine_loop]. apply Forall_app. split; [exact Hres|].
    constructor; [apply trim_idem|constructor].
  - cbn [parseCSVLine_loop].
    destruct (Ascii.eqb char "034"); [now apply IH|].
    destruct (Ascii.eqb char "," && negb inQuotes); [|now apply IH].
    apply IH. apply Forall_app. split; [exact Hres|].
    constructor; [apply trim_idem|constructor].
Qed.

(** Every field that [parseCSVLine] returns is trimmed. *)
Lemma parseCSVLine_trimmed line : Forall trimmed (parseCSVLine line).
Proof. apply parseCSVLine_loop_trimmed. constructor. Qed.

Lemma field_cases values i :
  field values i = EmptyString \/ In (field values i) values.
Proof.
  unfold field, index. destruct (i <? 0); [now left|].
  destruct (nth_error values (Z.to_nat i)) eqn:E; [|now left].
  right. eapply nth_error_In; eauto.
Qed.

Lemma truthy_false s : truthy s = false <-> s = EmptyString.
Proof. destruct s; simpl; split; congruence. Qed.

(** A row whose name field is empty is skipped. *)
Lemma parseRow_empty_name tz Date_parse parseFloat values columnMap :
  field values (col_name columnMap) = EmptyString ->
  parseRow tz Date_parse parseFloat values columnMap = None.
Proof. intros H. unfold parseRow. now rewrite H. Qed.

(** The name of a parsed row is its trimmed, non-empty name field. *)
Lemma parseRow_name tz Date_parse parseFloat values columnMap r :
  parseRow tz Date_parse parseFloat values columnMap = Some r ->
  name r = trim (field values (col_name columnMap))
  /\ field values (col_name columnMap) <> EmptyString.
Proof.
  unfold parseRow. intros H.
  destruct (truthy (field values (col_name columnMap))) eqn:E;
    [|discriminate].
  cbn [negb orb] in H.
  destruct (_ || _); [discriminate|].
  destruct (parseTimestamp _ _ _); [|discriminate].
  injection H as <-. split; [reflexivity|].
  intros Hempty. rewrite Hempty in E. discriminate.
Qed.

Lemma parseRow_of_line_name tz Date_parse parseFloat line columnMap r :
  parseRow tz Date_parse parseFloat (parseCSVLine line) columnMap = Some r ->
  name r <> EmptyString.
Proof.
  intros H. apply parseRow_name in H. destruct H as [Hname Hne].
  destruct (field_cases (parseCSVLine line) (col_name columnMap)) as [He|Hin];
    [contradiction|].
  pose proof (parseCSVLine_trimmed line) as Ht.
  rewrite Forall_forall in Ht. apply Ht in Hin. unfold trimmed in Hin.
  congruence.
Qed.

Lemma parseCSV_rows_names tz Date_parse parseFloat lines columnMap :
  Forall (fun r => name r <> EmptyString)
         (parseCSV_rows tz Date_parse parseFloat lines columnMap).
Proof.
  induction lines as [|l lines IH]; [constructor|].
  cbn [parseCSV_rows]. destruct (negb (truthy (trim l))); [exact IH|].
  destruct (parseRow _ _ _ _ _) as [r|] eqn:E; [|exact IH].
  constructor; [|exact IH]. eapply parseRow_of_line_name; eauto.
Qed.

(** The name of a parsed row is trimmed, whatever the row was split
    by. *)
Lemma parseRow_trimmed_name tz Date_parse parseFloat values columnMap r :
  parseRow tz Date_parse parseFloat values columnMap = Some r ->
  trimmed (name r).
Proof.
  intros H. apply parseRow_name in H. destruct H as [-> _].
  apply trim_idem.
Qed.

Lemma parseCSV_rows_named tz Date_parse parseFloat lines columnMap :
  Forall (fun r => name r <> EmptyString /\ trimmed (name r))
         (parseCSV_rows tz Date_parse parseFloat lines columnMap).
Proof.
  induction lines as [|l lines IH]; [constructor|].
  cbn [parseCSV_rows]. destruct (negb (truthy (trim l))); [exact IH|].
  destruct (parseRow _ _ _ _ _) as [r|] eqn:E; [|exact IH].
  constructor; [|exact IH].
  split; [eapply parseRow_of_line_name|eapply parseRow_trimmed_name]; eauto.
Qed.

End RowFacts.

(** C7, as the code has it: a row whose name field is empty is skipped,
    whatever its identifier and timestamp, and every event that comes out
    of a line split by [parseCSVLine], hence every event of [parseCSV],
    has a name that is not empty and is trimmed. *)
Theorem parsed_rows_have_names (tz : Z) (Date_parse : string -> option Z)
        (parseFloat : string -> option Q) (line : string)
        (columnMap : ColumnMap) (r : RawPunchRecord) :
  parseRow tz Date_parse parseFloat (parseCSVLine line) columnMap = Some r ->
  (name r <> EmptyString /\ trimmed (name r))
  /\ (forall values cm,
         field values (col_name cm) = EmptyString ->
         parseRow tz Date_parse parseFloat values cm = None)
  /\ (forall csvText,
         Forall (fun r => name r <> EmptyString /\ trimmed (name r))
                (parseCSV tz Date_parse parseFloat csvText)).
Proof.
  intros H. split.
  { split; [eapply RowFacts.parseRow_of_line_name; eauto|].
    eapply RowFacts.parseRow_trimmed_name; eauto. }
  split; [apply RowFacts.parseRow_empty_name|].
  intros csvText. unfold parseCSV.
  destruct (splitLines csvText EmptyString) as [|header [|row rows]];
    try constructor.
  apply RowFacts.parseCSV_rows_named.
Qed.

Lemma parsed_rows_have_names_witness :
  name RowSamples.namedRecord <> EmptyString
  /\ trimmed (name RowSamples.namedRecord).
Proof.
  destruct (parsed_rows_have_names Samples.utc RowSamples.noDate
              RowSamples.distance25 RowSamples.namedLine
              RowSamples.sheetColumns RowSamples.namedRecord eq_refl)
    as [H _].
  exact H.
Defined.

(** C7 as stated fails: no row with an empty name field yields an event.
    The line of [RowSamples.namelessLine] has a valid identifier and a
    timestamp that parses, and is dropped, while the same line with a
    name is kept. *)
Lemma empty_name_row_is_dropped :
  ~ (exists tz Date_parse parseFloat values columnMap r,
        field values (col_name columnMap) = EmptyString
        /\ parseRow tz Date_parse parseFloat values columnMap = Some r)
  /\ normalizeEmployeeId
       (field (parseCSVLine RowSamples.namelessLine) 1) = "EMP001"
  /\ parseTimestamp Samples.utc RowSamples.noDate
       (field (parseCSVLine RowSamples.namelessLine) 4)
     = Some (JS.Date_local Samples.utc 2026 0 29 9 0 0)
  /\ parseRow Samples.utc RowSamples.noDate RowSamples.distance25
       (parseCSVLine RowSamples.namelessLine) RowSamples.sheetColumns = None
  /\ parseRow Samples.utc RowSamples.noDate RowSamples.distance25
       (parseCSVLine RowSamples.namedLine) RowSamples.sheetColumns
     = Some RowSamples.namedRecord.
Proof.
  split.
  - intros (tz & dp & pf & values & cm & r & Hname & Hrow).
    rewrite (RowFacts.parseRow_empty_name tz dp pf values cm Hname) in Hrow.
    discriminate.
  - repeat split; reflexivity.
Qed.

(* ================================================================== *)
(** * Double arithmetic *)
(* ================================================================== *)

(** What the ranking needs of IEEE doubles, from their specification
    ([SpecFloat]): rounding keeps the sign and never turns a mantissa
    above zero at a representable exponent into zero; the comparisons
    agree with [rank]; and sums, products and quotients of doubles that
    are not negative are not negative (and so are numbers). *)
Module DoubleFacts.

Lemma digits2_pos_bounds m :
  2 ^ (Zpos (digits2_pos m) - 1) <= Zpos m < 2 ^ Zpos (digits2_pos m).
Proof.
  induction m as [m IH|m IH|]; cbn [digits2_pos].
  - rewrite Pos2Z.inj_succ.
    replace (Z.succ (Zpos (digits2_pos m)) - 1)
      with (Z.succ (Zpos (digits2_pos m) - 1)) by lia.
    rewrite !Z.pow_succ_r by lia. lia.
  - rewrite Pos2Z.inj_succ.
    replace (Z.succ (Zpos (digits2_pos m)) - 1)
      with (Z.succ (Zpos (digits2_pos m) - 1)) by lia.
    rewrite !Z.pow_succ_r by lia. lia.
  - cbn. lia.
Qed.

Lemma shr_1_m mrs : 0 <= shr_m mrs -> shr_m (shr_1 mrs) = shr_m mrs / 2.
Proof.
  destruct mrs as [m r s]. cbn [shr_m]. intros H.
  destruct m as [|[p|p|]|p]; cbn [shr_1 shr_m]; try reflexivity; try lia.
  - apply (Z.div_unique _ _ _ 1); lia.
  - apply (Z.div_unique _ _ _ 0); lia.
Qed.

Lemma iter_shr_1 p : forall mrs,
  0 <= shr_m mrs ->
  shr_m (iter_pos shr_1 p mrs) = shr_m mrs / 2 ^ Zpos p.
Proof.
  induction p as [p IH|p IH|]; intros mrs H; cbn [iter_pos].
  - assert (H1 : 0 <= shr_m (shr_1 mrs))
      by (rewrite shr_1_m by exact H; apply Z.div_pos; lia).
    assert (H2 : 0 <= shr_m (iter_pos shr_1 p (shr_1 mrs)))
      by (rewrite IH by exact H1; apply Z.div_pos; [exact H1|];
          apply Z.pow_pos_nonneg; lia).
    rewrite IH, IH, shr_1_m by assumption.
    assert (Hp : 0 < 2 ^ Zpos p) by (apply Z.pow_pos_nonneg; lia).
    rewrite !Z.div_div by lia. f_equal.
    replace (Zpos p~1) with (Zpos p + Zpos p + 1) by lia.
    rewrite !Z.pow_add_r by lia. change (2 ^ 1) with 2. ring.
  - assert (H2 : 0 <= shr_m (iter_pos shr_1 p mrs))
      by (rewrite IH by exact H; apply Z.div_pos; [exact H|];
          apply Z.pow_pos_nonneg; lia).
    rewrite IH, IH by assumption.
    assert (Hp : 0 < 2 ^ Zpos p) by (apply Z.pow_pos_nonneg; lia).
    rewrite !Z.div_div by lia. f_equal.
    replace (Zpos p~0) with (Zpos p + Zpos p) by lia.
    rewrite !Z.pow_add_r by lia. ring.
  - rewrite shr_1_m by exact H. reflexivity.
Qed.

Lemma shr_record_of_loc_m m l : shr_m (shr_record_of_loc m l) = m.
Proof. now destruct l as [|[]]. Qed.

Lemma shr_fexp_nonneg m e l :
  0 <= m -> 0 <= shr_m (fst (shr_fexp prec emax m e l)).
Proof.
  intros H. unfold shr_fexp, shr.
  destruct (fexp prec emax (Zdigits2 m + e) - e) as [|p|p]; cbn [fst];
    rewrite ?iter_shr_1; rewrite ?shr_record_of_loc_m; try exact H.
  apply Z.div_pos; [exact H|]. apply Z.pow_pos_nonneg; lia.
Qed.

Lemma shr_fexp_pos m e l :
  0 < m -> emin <= e ->
  0 < shr_m (fst (shr_fexp prec emax m e l))
  /\ emin <= snd (shr_fexp prec emax m e l).
Proof.
  intros H He. unfold shr_fexp, shr.
  destruct (fexp prec emax (Zdigits2 m + e) - e) as [|p|p] eqn:E;
    cbn [fst snd]; rewrite ?shr_record_of_loc_m; try (split; [exact H|exact He]).
  rewrite iter_shr_1 by (rewrite shr_record_of_loc_m; lia).
  rewrite shr_record_of_loc_m. split; [|lia].
  destruct m as [|m|m]; try lia. cbn [Zdigits2] in E.
  pose proof (digits2_pos_bounds m) as [Hlow _].
  unfold fexp in E.
  assert (Hp : Zpos p = Zpos (digits2_pos m) - prec) by lia.
  apply Z.div_str_pos. split; [apply Z.pow_pos_nonneg; lia|].
  eapply Z.le_trans; [|exact Hlow].
  apply Z.pow_le_mono_r; [lia|]. rewrite Hp. unfold prec. lia.
Qed.

Lemma round_nearest_even_bounds m l :
  m <= round_nearest_even m l <= m + 1.
Proof.
  destruct l as [|[]]; cbn [round_nearest_even]; try lia.
  destruct (Z.even m); lia.
Qed.

Lemma binary_round_aux_signed s m e l :
  0 <= m -> signed s (binary_round_aux prec emax s m e l).
Proof.
  intros H. unfold binary_round_aux.
  pose proof (shr_fexp_nonneg m e l H) as H1.
  destruct (shr_fexp prec emax m e l) as [mrs' e'] eqn:E1. cbn [fst] in H1.
  pose proof (round_nearest_even_bounds (shr_m mrs') (loc_of_shr_record mrs'))
    as H2.
  set (m2 := round_nearest_even _ _) in *.
  pose proof (shr_fexp_nonneg m2 e' loc_Exact ltac:(lia)) as H3.
  destruct (shr_fexp prec emax m2 e' loc_Exact) as [mrs'' e''].
  cbn [fst] in H3.
  destruct (shr_m mrs'') as [|q|q]; [reflexivity| |lia].
  destruct (e'' <=? emax - prec); reflexivity.
Qed.

Lemma binary_round_aux_nonZero s m e l :
  0 < m -> emin <= e ->
  nonZero (binary_round_aux prec emax s m e l).
Proof.
  intros H He. unfold binary_round_aux.
  pose proof (shr_fexp_pos m e l H He) as [H1 He1].
  destruct (shr_fexp prec emax m e l) as [mrs' e'] eqn:E1.
  cbn [fst snd] in H1, He1.
  pose proof (round_nearest_even_bounds (shr_m mrs') (loc_of_shr_record mrs'))
    as H2.
  set (m2 := round_nearest_even _ _) in *.
  pose proof (shr_fexp_pos m2 e' loc_Exact ltac:(lia) He1) as [H3 _].
  destruct (shr_fexp prec emax m2 e' loc_Exact) as [mrs'' e''].
  cbn [fst] in H3.
  destruct (shr_m mrs'') as [|q|q]; [lia| |lia].
  destruct (e'' <=? emax - prec); exact I.
Qed.

Lemma binary_round_signed s m e : signed s (binary_round prec emax s m e).
Proof.
  unfold binary_round. destruct (shl_align _ _ _) as [mz ez].
  apply binary_round_aux_signed. lia.
Qed.

Lemma binary_round_nonZero s m e :
  emin <= e -> nonZero (binary_round prec emax s m e).
Proof.
  intros He. unfold binary_round.
  destruct (shl_align _ _ _) as [mz ez] eqn:E.
  apply binary_round_aux_nonZero; [lia|].
  unfold shl_align in E.
  destruct (_ - e); injection E as <- <-; unfold fexp; lia.
Qed.

Lemma signed_clear r : signed false r -> signClear r = true.
Proof. destruct r; cbn; intros H; now subst. Qed.

Lemma iter_xO m d : Zpos (Pos.iter xO m d) = Zpos m * 2 ^ Zpos d.
Proof.
  induction d as [|d IH] using Pos.peano_ind.
  - cbn. lia.
  - rewrite Pos.iter_succ, Pos2Z.inj_succ, Z.pow_succ_r by lia.
    rewrite Pos2Z.inj_xO, IH. ring.
Qed.

Lemma shl_align_fst m e e' :
  e' <= e -> Zpos (fst (shl_align m e e')) = Zpos m * 2 ^ (e - e').
Proof.
  intros H. unfold shl_align. destruct (e' - e) as [|d|d] eqn:E; cbn [fst].
  - replace (e - e') with 0 by lia. lia.
  - lia.
  - rewrite iter_xO. f_equal. f_equal. lia.
Qed.

(** What validity says of a mantissa and its exponent. *)
Lemma bounded_inv m e :
  bounded prec emax m e = true ->
  emin <= e <= emax - prec
  /\ Zpos m < 2 ^ prec
  /\ (emin < e -> 2 ^ (prec - 1) <= Zpos m).
Proof.
  unfold bounded, canonical_mantissa, fexp. intros H.
  apply andb_true_iff in H. destruct H as [Hc He].
  apply Z.eqb_eq in Hc. apply Z.leb_le in He.
  pose proof (digits2_pos_bounds m) as [Hlow Hhigh].
  split; [lia|]. split.
  - eapply Z.lt_le_trans; [exact Hhigh|].
    apply Z.pow_le_mono_r; lia.
  - intros Hmin.
    replace (prec - 1) with (Zpos (digits2_pos m) - 1) by lia. exact Hlow.
Qed.

Lemma rank_finite_pos m e :
  bounded prec emax m e = true -> 0 < rank (S754_finite false m e).
Proof.
  intros H. apply bounded_inv in H. destruct H as (He & _).
  cbn [rank cond_Zopp]. unfold prec, emax, SpecFloat.emin in *. lia.
Qed.

Lemma rank_finite_below m e :
  bounded prec emax m e = true ->
  rank (S754_finite false m e) < rank (S754_infinity false).
Proof.
  intros H. apply bounded_inv in H. destruct H as (He & Hm & _).
  cbn [rank cond_Zopp]. unfold prec, emax, SpecFloat.emin in *. lia.
Qed.

Lemma rank_finite_compare m1 e1 m2 e2 :
  bounded prec emax m1 e1 = true -> bounded prec emax m2 e2 = true ->
  match e1 ?= e2 with
  | Lt => Lt
  | Gt => Gt
  | Eq => Pos.compare_cont Eq m1 m2
  end = (rank (S754_finite false m1 e1) ?= rank (S754_finite false m2 e2)).
Proof.
  intros H1 H2. apply bounded_inv in H1, H2.
  destruct H1 as (He1 & Hm1 & _), H2 as (He2 & Hm2 & _).
  cbn [rank cond_Zopp]. unfold prec, emax, SpecFloat.emin in *.
  change (Pos.compare_cont Eq m1 m2) with (Zpos m1 ?= Zpos m2).
  destruct (Z.compare_spec e1 e2) as [->|Hlt|Hgt].
  - now rewrite Z.add_compare_mono_l.
  - symmetry. apply Z.compare_lt_iff. lia.
  - symmetry. apply Z.compare_gt_iff. lia.
Qed.

(** The comparison of two doubles is the comparison of their ranks. *)
Lemma SFcompare_rank x y :
  valid_binary x = true -> valid_binary y = true ->
  isNumber x = true -> isNumber y = true ->
  SFcompare x y = Some (rank x ?= rank y).
Proof.
  intros Vx Vy Nx Ny.
  destruct x as [sx|sx| |sx mx ex]; try discriminate;
    destruct y as [sy|sy| |sy my ey]; try discriminate;
    cbn [valid_binary] in Vx, Vy; cbn [SFcompare]; f_equal.
  - now destruct sy.
  - pose proof (rank_finite_pos my ey Vy) as H.
    destruct sy; cbn [rank cond_Zopp] in *; symmetry;
      [apply Z.compare_gt_iff|apply Z.compare_lt_iff]; lia.
  - now destruct sx.
  - now destruct sx, sy.
  - pose proof (rank_finite_pos my ey Vy) as H.
    pose proof (rank_finite_below my ey Vy) as H'.
    destruct sx, sy; cbn [rank cond_Zopp] in *; symmetry;
      try (apply Z.compare_gt_iff; lia); apply Z.compare_lt_iff; lia.
  - pose proof (rank_finite_pos mx ex Vx) as H.
    destruct sx; cbn [rank cond_Zopp] in *; symmetry;
      [apply Z.compare_lt_iff|apply Z.compare_gt_iff]; lia.
  - pose proof (rank_finite_pos mx ex Vx) as H.
    pose proof (rank_finite_below mx ex Vx) as H'.
    destruct sx, sy; cbn [rank cond_Zopp] in *; symmetry;
      try (apply Z.compare_gt_iff; lia); apply Z.compare_lt_iff; lia.
  - pose proof (rank_finite_pos mx ex Vx) as Hx.
    pose proof (rank_finite_pos my ey Vy) as Hy.
    pose proof (rank_finite_compare mx ex my ey Vx Vy) as Hc.
    destruct sx, sy.
    + change (rank (S754_finite true mx ex))
        with (- rank (S754_finite false mx ex)).
      change (rank (S754_finite true my ey))
        with (- rank (S754_finite false my ey)).
      rewrite Z.compare_opp, (Z.compare_antisym (rank (S754_finite false mx ex))).
      rewrite <- Hc. now destruct (ex ?= ey).
    + change (rank (S754_finite true mx ex))
        with (- rank (S754_finite false mx ex)).
      symmetry. apply Z.compare_lt_iff. lia.
    + change (rank (S754_finite true my ey))
        with (- rank (S754_finite false my ey)).
      symmetry. apply Z.compare_gt_iff. lia.
    + exact Hc.
Qed.

(** Two valid mantissas brought to the smaller exponent compare as the
    ranks do. *)
Lemma aligned_compare mx ex my ey :
  bounded prec emax mx ex = true -> bounded prec emax my ey = true ->
  (Zpos (fst (shl_align my ey (Z.min ey ex)))
   ?= Zpos (fst (shl_align mx ex (Z.min ey ex))))
  = (rank (S754_finite false my ey) ?= rank (S754_finite false mx ex)).
Proof.
  intros Vx Vy. rewrite <- (rank_finite_compare my ey mx ex Vy Vx).
  apply bounded_inv in Vx, Vy.
  destruct Vx as (Hex & Hmx & Hnx), Vy as (Hey & Hmy & Hny).
  rewrite !shl_align_fst by lia.
  change (Pos.compare_cont Eq my mx) with (Zpos my ?= Zpos mx).
  unfold prec in *. change (2 ^ (53 - 1)) with 4503599627370496 in *.
  change (2 ^ 53) with 9007199254740992 in *.
  destruct (Z.compare_spec ey ex) as [->|Hlt|Hgt].
  - rewrite Z.min_id, Z.sub_diag. change (2 ^ 0) with 1.
    now rewrite !Z.mul_1_r.
  - rewrite Z.min_l, Z.sub_diag by lia. change (2 ^ 0) with 1.
    rewrite Z.mul_1_r. apply Z.compare_lt_iff.
    assert (H2 : 2 ^ 1 <= 2 ^ (ex - ey)) by (apply Z.pow_le_mono_r; lia).
    change (2 ^ 1) with 2 in H2. specialize (Hnx ltac:(lia)). nia.
  - rewrite Z.min_r, Z.sub_diag by lia. change (2 ^ 0) with 1.
    rewrite Z.mul_1_r. apply Z.compare_gt_iff.
    assert (H2 : 2 ^ 1 <= 2 ^ (ey - ex)) by (apply Z.pow_le_mono_r; lia).
    change (2 ^ 1) with 2 in H2. specialize (Hny ltac:(lia)). nia.
Qed.

(** [0 < y - x] on doubles that are not negative: the difference is
    positive exactly when the rank of [y] is above that of [x]. *)
Lemma SFsub_positive x y :
  valid_binary x = true -> valid_binary y = true ->
  signClear x = true -> signClear y = true ->
  SFltb (S754_zero false) (SFsub prec emax y x) = (rank x <? rank y).
Proof.
  intros Vx Vy Sx Sy.
  destruct x as [sx|sx| |sx mx ex]; try discriminate;
    destruct sx; try discriminate;
    destruct y as [sy|sy| |sy my ey]; try discriminate;
    destruct sy; try discriminate;
    cbn [valid_binary] in Vx, Vy; try reflexivity.
  - pose proof (rank_finite_pos my ey Vy) as H.
    cbn [SFsub SFltb SFcompare]. symmetry. apply Z.ltb_lt. exact H.
  - pose proof (rank_finite_below my ey Vy) as H.
    cbn [SFsub SFltb SFcompare negb]. symmetry. apply Z.ltb_ge. lia.
  - pose proof (rank_finite_pos mx ex Vx) as H.
    cbn [SFsub SFltb SFcompare negb]. symmetry. apply Z.ltb_ge.
    change (rank (S754_zero false)) with 0. lia.
  - pose proof (rank_finite_below mx ex Vx) as H.
    cbn [SFsub SFltb SFcompare]. symmetry. apply Z.ltb_lt. exact H.
  - pose proof (aligned_compare mx ex my ey Vx Vy) as Hc.
    cbn [SFsub cond_Zopp]. cbv zeta.
    set (Y := Zpos (fst (shl_align my ey (Z.min ey ex)))) in *.
    set (X := Zpos (fst (shl_align mx ex (Z.min ey ex)))) in *.
    assert (Hez : emin <= Z.min ey ex).
    { apply bounded_inv in Vx, Vy. lia. }
    destruct (Y - X) as [|d|d] eqn:D; cbn [binary_normalize].
    + assert (He : (Y ?= X) = Eq) by (apply Z.compare_eq_iff; lia).
      rewrite He in Hc. symmetry in Hc. apply -> Z.compare_eq_iff in Hc.
      rewrite Hc. cbn [SFltb SFcompare]. symmetry. apply Z.ltb_irrefl.
    + assert (He : (Y ?= X) = Gt) by (apply Z.compare_gt_iff; lia).
      rewrite He in Hc. symmetry in Hc. apply -> Z.compare_gt_iff in Hc.
      pose proof (binary_round_signed false d (Z.min ey ex)) as Hs.
      pose proof (binary_round_nonZero false d (Z.min ey ex) Hez) as Hn.
      destruct (binary_round prec emax false d (Z.min ey ex))
        as [s|s| |s m e]; cbn in Hs, Hn; try contradiction; subst s;
        cbn [SFltb SFcompare]; symmetry; now apply Z.ltb_lt.
    + assert (He : (Y ?= X) = Lt) by (apply Z.compare_lt_iff; lia).
      rewrite He in Hc. symmetry in Hc. apply -> Z.compare_lt_iff in Hc.
      pose proof (binary_round_signed true d (Z.min ey ex)) as Hs.
      destruct (binary_round prec emax true d (Z.min ey ex))
        as [s|s| |s m e]; cbn in Hs; try contradiction; subst s;
        cbn [SFltb SFcompare]; symmetry; apply Z.ltb_ge; lia.
Qed.

Lemma SFadd_signClear x y :
  signClear x = true -> signClear y = true ->
  signClear (SFadd prec emax x y) = true.
Proof.
  destruct x as [sx|sx| |sx mx ex]; try discriminate;
    destruct sx; try discriminate;
    destruct y as [sy|sy| |sy my ey]; try discriminate;
    destruct sy; try discriminate; intros _ _; try reflexivity.
  cbn [SFadd cond_Zopp]. cbv zeta. cbn [Z.add binary_normalize].
  apply signed_clear, binary_round_signed.
Qed.

Lemma SFmul_signClear x m e :
  signClear x = true ->
  signClear (SFmul prec emax x (S754_finite false m e)) = true.
Proof.
  destruct x as [sx|sx| |sx mx ex]; try discriminate;
    destruct sx; try discriminate; intros _; try reflexivity.
  cbn [SFmul xorb]. apply signed_clear, binary_round_aux_signed. lia.
Qed.

Lemma SFdiv_signClear x m e :
  signClear x = true ->
  signClear (SFdiv prec emax x (S754_finite false m e)) = true.
Proof.
  destruct x as [sx|sx| |sx mx ex]; try discriminate;
    destruct sx; try discriminate; intros _; try reflexivity.
  cbn [SFdiv xorb]. unfold SFdiv_core_binary.
  set (m' := match _ - _ - _ with Zpos _ => _ | Z0 => _ | Zneg _ => _ end).
  assert (Hm : 0 <= m').
  { subst m'. destruct (_ - _ - _); try lia. apply Z.shiftl_nonneg. lia. }
  pose proof (Z.div_pos m' (Zpos m) Hm ltac:(lia)) as Hq.
  unfold Z.div in Hq. destruct (Z.div_eucl m' (Zpos m)) as [q r].
  apply signed_clear, binary_round_aux_signed. exact Hq.
Qed.

(** ** The operations of the code *)

Lemma signClear_number x : signClear x = true -> isNumber x = true.
Proof. now destruct x. Qed.

Lemma add_nonNegative x y :
  nonNegative x = true -> nonNegative y = true ->
  nonNegative (PrimFloat.add x y) = true.
Proof. unfold nonNegative. rewrite add_spec. apply SFadd_signClear. Qed.

Lemma mul_nonNegative x c :
  positiveFinite c -> nonNegative x = true ->
  nonNegative (PrimFloat.mul x c) = true.
Proof.
  intros (m & e & Hc). unfold nonNegative. rewrite mul_spec, Hc.
  apply SFmul_signClear.
Qed.

Lemma div_nonNegative x c :
  positiveFinite c -> nonNegative x = true ->
  nonNegative (PrimFloat.div x c) = true.
Proof.
  intros (m & e & Hc). unfold nonNegative. rewrite div_spec, Hc.
  apply SFdiv_signClear.
Qed.

Lemma ofZ_nonNegative z : 0 <= z -> nonNegative (Ieee.ofZ z) = true.
Proof.
  intros H. unfold Ieee.ofZ. destruct (Z.ltb_spec z 0); [lia|].
  unfold nonNegative. rewrite of_uint63_spec.
  pose proof (Uint63.to_Z_bounded (Uint63.of_Z z)) as Hb.
  destruct (Uint63.to_Z (Uint63.of_Z z)) as [|p|p]; [reflexivity| |lia].
  cbn [binary_normalize]. apply signed_clear, binary_round_signed.
Qed.

Lemma ten_positiveFinite : positiveFinite (Ieee.ofZ 10).
Proof. do 2 eexists. vm_compute. reflexivity. Qed.

Lemma sixty_positiveFinite : positiveFinite (Ieee.ofZ 60).
Proof. do 2 eexists. vm_compute. reflexivity. Qed.

Lemma minute_positiveFinite :
  positiveFinite (PrimFloat.mul (Ieee.ofZ 1000) (Ieee.ofZ 60)).
Proof. do 2 eexists. vm_compute. reflexivity. Qed.

Lemma Math_round_nonNegative f :
  nonNegative f = true -> nonNegative (Ieee.Math_round f) = true.
Proof.
  intros H. unfold Ieee.Math_round, Ieee.toQ. pose proof H as Hf.
  unfold nonNegative in H.
  destruct (Prim2SF f) as [s|s| |s m e]; try exact Hf.
  destruct s; [discriminate|].
  destruct (0 <=? e); [exact Hf|].
  cbv zeta. rewrite andb_false_r. apply ofZ_nonNegative.
  change 0 with (Qfloor 0). apply Qfloor_resp_le.
  unfold Qle, Qplus. cbn [Qnum Qden]. lia.
Qed.

(** The comparisons of the code, read on ranks. *)
Lemma ltb_sub_rank x y :
  nonNegative x = true -> nonNegative y = true ->
  PrimFloat.ltb PrimFloat.zero (PrimFloat.sub y x)
  = (rank (Prim2SF x) <? rank (Prim2SF y)).
Proof.
  unfold nonNegative. intros Hx Hy. rewrite ltb_spec, sub_spec.
  apply SFsub_positive; auto using Prim2SF_valid.
Qed.

Lemma leb_rank x y :
  isNumber (Prim2SF x) = true -> isNumber (Prim2SF y) = true ->
  PrimFloat.leb x y = (rank (Prim2SF x) <=? rank (Prim2SF y)).
Proof.
  intros Hx Hy. rewrite leb_spec. unfold SFleb, Z.leb.
  rewrite SFcompare_rank by auto using Prim2SF_valid.
  now destruct (_ ?= _).
Qed.

Lemma eqb_rank x y :
  isNumber (Prim2SF x) = true -> isNumber (Prim2SF y) = true ->
  PrimFloat.eqb x y = (rank (Prim2SF x) =? rank (Prim2SF y)).
Proof.
  intros Hx Hy. rewrite eqb_spec. unfold SFeqb.
  rewrite SFcompare_rank by auto using Prim2SF_valid.
  destruct (Z.compare_spec (rank (Prim2SF x)) (rank (Prim2SF y)))
    as [He|Hlt|Hgt]; symmetry;
    [apply Z.eqb_eq|apply Z.eqb_neq|apply Z.eqb_neq]; lia.
Qed.

Lemma eqb_number x y : PrimFloat.eqb x y = true -> isNumber (Prim2SF y) = true.
Proof.
  rewrite eqb_spec. unfold SFeqb.
  destruct (Prim2SF x), (Prim2SF y); cbn; congruence.
Qed.

End DoubleFacts.

(* ================================================================== *)
(** * Top workload *)
(* ================================================================== *)

Module WorkloadFacts.
Import JS JSFacts MapFacts RepositoryFacts.

Lemma memb_In y ks : memb y ks = true <-> In y ks.
Proof.
  unfold memb. rewrite existsb_exists. split.
  - intros (x & Hx & E). apply String.eqb_eq in E. now subst.
  - intros H. exists y. split; [exact H|apply String.eqb_refl].
Qed.

Lemma memb_false y ks : memb y ks = false <-> ~ In y ks.
Proof.
  rewrite <- memb_In. destruct (memb y ks); split; congruence.
Qed.

Lemma filter_filter {A} (P Q : A -> bool) (l : list A) :
  filter P (filter Q l) = filter (fun y => Q y && P y) l.
Proof.
  induction l as [|x l IH]; [reflexivity|].
  simpl. destruct (Q x); simpl; [destruct (P x)|]; now rewrite IH.
Qed.

(** The keys of a grouping: those already there, then the new ones in
    the order of their first appearance. *)
Lemma groupFold_keys key l m :
  map fst (groupFold key l m) =
  map fst m ++
  filter (fun y => negb (memb y (map fst m))) (firstAppearance (map key l)).
Proof.
  revert m. induction l as [|r l IH]; intros m.
  - simpl. now rewrite app_nil_r.
  - unfold groupFold in *. cbn [fold_left map firstAppearance].
    rewrite IH, pushTo_keys. cbn [filter].
    destruct (Map_has m (key r)) eqn:E.
    + assert (Hin : memb (key r) (map fst m) = true)
        by (apply memb_In, Map_has_In, E).
      rewrite Hin. cbn [negb]. f_equal.
      rewrite filter_filter. apply filter_ext. intros y.
      destruct (String.eqb_spec y (key r)) as [->|]; [|reflexivity].
      now rewrite Hin.
    + assert (Hin : memb (key r) (map fst m) = false).
      { apply memb_false. intros H. apply Map_has_In in H. congruence. }
      rewrite Hin. cbn [negb]. rewrite <- app_assoc. cbn [app]. do 2 f_equal.
      rewrite filter_filter. apply filter_ext. intros y.
      unfold memb. rewrite existsb_app. cbn [existsb].
      rewrite orb_false_r, negb_orb. apply andb_comm.
Qed.

Lemma groupByEmployee_keys punches :
  map fst (groupByEmployee punches) = firstAppearance (map employeeId punches).
Proof.
  rewrite groupByEmployee_groupFold, groupFold_keys. cbn [map app].
  apply KPIHours.filter_all. reflexivity.
Qed.

(** When every grouped employee is in the index, the workloads list has
    one entry per employee, in the order of the grouping. *)
Lemma workloadsOf_ids data entries :
  (forall k v, In (k, v) entries -> Map_get (employees data) k <> None) ->
  map wl_employeeId (workloadsOf data entries) = map fst entries.
Proof.
  unfold workloadsOf. set (step := fun _ _ => _).
  assert (H : forall entries acc,
             (forall k v, In (k, v) entries ->
                          Map_get (employees data) k <> None) ->
             map wl_employeeId (fold_left step entries acc) =
             map wl_employeeId acc ++ map fst entries).
  { clear entries. induction entries as [|[k v] entries IH]; intros acc Hk.
    - simpl. now rewrite app_nil_r.
    - cbn [fold_left]. rewrite IH by (intros k' v' Hin; eapply Hk; right; eauto).
      unfold step.
      destruct (Map_get (employees data) k) eqn:E.
      + rewrite map_app, <- app_assoc. reflexivity.
      + exfalso. eapply Hk; [left; reflexivity|exact E]. }
  intros Hk. now rewrite H.
Qed.

Lemma Qgtb_true x y : Qgtb x y = true <-> (y < x)%Q.
Proof.
  unfold Qgtb. rewrite negb_true_iff. apply ComplianceFacts.Qle_bool_false.
Qed.

(** *** Sorting a list whose elements all satisfy [good], by a comparator
    that orders the elements that do *)
Section SortOn.
Context {A : Type} (after : A -> A -> bool) (good : A -> Prop).
Hypothesis after_asym :
  forall a b, good a -> good b -> after a b = true -> after b a = false.
Hypothesis before_trans :
  forall a b c, good a -> good b -> good c ->
                before after a b -> before after b c -> before after a c.

Lemma insert_sorted_on (x : A) (l : list A) :
  good x -> Forall good l ->
  StronglySorted (before after) l ->
  StronglySorted (before after) (insert after x l).
Proof.
  intros Gx. induction l as [|y l IH]; simpl; intros Hg Hs.
  - constructor; constructor.
  - inversion Hs as [|? ? Hl Hy]; subst.
    inversion Hg as [|? ? Gy Gl]; subst.
    destruct (after x y) eqn:E.
    + constructor; [now apply IH|].
      eapply Permutation_Forall; [apply insert_perm|].
      constructor; [now apply after_asym|exact Hy].
    + constructor; [exact Hs|]. constructor; [exact E|].
      rewrite Forall_forall in *. intros z Hz.
      apply before_trans with y; auto.
Qed.

Lemma sort_sorted_on (l : list A) :
  Forall good l -> StronglySorted (before after) (sort after l).
Proof.
  induction l as [|x l IH]; simpl; intros Hg; [constructor|].
  inversion Hg; subst. apply insert_sorted_on; auto.
  now apply sort_Forall.
Qed.

Lemma sort_stable_on (P : A -> bool) (l : list A) :
  (forall x y, good x -> good y ->
               after x y = true -> P x = true -> P y = false) ->
  Forall good l -> filter P (sort after l) = filter P l.
Proof.
  intros H. induction l as [|x l IH]; intros Hg; [reflexivity|].
  inversion Hg as [|? ? Gx Gl]; subst.
  simpl sort. rewrite insert_filter.
  - simpl. now rewrite IH.
  - intros y Hy. apply H; [exact Gx|].
    apply sort_In in Hy. rewrite Forall_forall in Gl. auto.
Qed.
End SortOn.

Lemma StronglySorted_on {A} (good : A -> Prop) (R R' : A -> A -> Prop)
      (l : list A) :
  (forall a b, good a -> good b -> R a b -> R' a b) ->
  Forall good l -> StronglySorted R l -> StronglySorted R' l.
Proof.
  intros H Hg Hs. induction Hs as [|x l Hs IH Hx]; [constructor|].
  inversion Hg; subst. constructor; [auto|].
  rewrite Forall_forall in *. intros y Hy. apply H; auto.
Qed.

(** *** The hours of an entry are never negative *)

Local Abbreviation hoursStep :=
  (fun (acc : float * Z) (entry : string * list RawPunchRecord) =>
     fifo
       (fun punch out '(totalMinutes, openSessions) =>
          (PrimFloat.add totalMinutes
             (PrimFloat.div (Ieee.ofZ (timestamp out - timestamp punch))
                (PrimFloat.mul (Ieee.ofZ 1000) (Ieee.ofZ 60))),
           openSessions))
       (fun _ '(totalMinutes, openSessions) =>
          (totalMinutes, openSessions + 1))
       (fun _ _ acc => acc)
       (sortByTimestamp (snd entry)) acc).

Lemma hoursStep_nonNegative entry acc :
  nonNegative (fst acc) = true ->
  nonNegative (fst (hoursStep acc entry)) = true.
Proof.
  intros Hacc. unfold fifo.
  apply (FifoFacts.fifoLoop_invariant _ _ _ _
           (fun st => nonNegative (fst st) = true)); [| | |exact Hacc].
  - intros i j punch out [a b] Hij Hi Hj _ _ Hst. cbn [fst] in *.
    apply DoubleFacts.add_nonNegative; [exact Hst|].
    apply DoubleFacts.div_nonNegative;
      [apply DoubleFacts.minute_positiveFinite|].
    apply DoubleFacts.ofZ_nonNegative.
    pose proof (StronglySorted_nth _ _
                  (sortByTimestamp_sorted (snd entry))
                  i j punch out Hij Hi Hj) as Hle.
    cbv beta in Hle. lia.
  - now intros i punch [a b] _ _ Hst.
  - now intros i punch st _ _ Hst.
Qed.

Lemma calculateWorkingHours_nonNegative punches :
  nonNegative (fst (Ieee.calculateWorkingHours punches)) = true.
Proof.
  unfold Ieee.calculateWorkingHours. cbv zeta.
  assert (H : forall entries acc,
             nonNegative (fst acc) = true ->
             nonNegative (fst (fold_left hoursStep entries acc)) = true).
  { induction entries as [|entry entries IH]; intros acc Hacc; [exact Hacc|].
    cbn [fold_left]. apply IH. now apply hoursStep_nonNegative. }
  specialize (H (groupByEmployee punches) (PrimFloat.zero, 0) eq_refl).
  destruct (fold_left _ _ _) as [totalMinutes openSessions].
  cbn [fst] in *.
  apply DoubleFacts.div_nonNegative;
    [apply DoubleFacts.sixty_positiveFinite|exact H].
Qed.

Lemma roundToTenth_nonNegative x :
  nonNegative x = true -> nonNegative (roundToTenth x) = true.
Proof.
  intros H. unfold roundToTenth.
  apply DoubleFacts.div_nonNegative;
    [apply DoubleFacts.ten_positiveFinite|].
  apply DoubleFacts.Math_round_nonNegative.
  apply DoubleFacts.mul_nonNegative;
    [apply DoubleFacts.ten_positiveFinite|exact H].
Qed.

(** Every entry of the workloads list is the entry of an employee of
    the grouping who is in the index. *)
Lemma workloadsOf_sound data (P : EmployeeWorkload -> Prop) entries :
  (forall k v employee,
      In (k, v) entries -> Map_get (employees data) k = Some employee ->
      P (workloadOf k employee v)) ->
  Forall P (workloadsOf data entries).
Proof.
  unfold workloadsOf. set (step := fun _ _ => _).
  assert (H : forall entries acc,
             Forall P acc ->
             (forall k v employee,
                 In (k, v) entries ->
                 Map_get (employees data) k = Some employee ->
                 P (workloadOf k employee v)) ->
             Forall P (fold_left step entries acc)).
  { clear entries. induction entries as [|[k v] entries IH];
      intros acc Hacc HP; [exact Hacc|].
    cbn [fold_left]. apply IH; [|intros; eapply HP; eauto; now right].
    unfold step.
    destruct (Map_get (employees data) k) as [employee|] eqn:Ee;
      [|exact Hacc].
    apply Forall_app. split; [exact Hacc|].
    constructor; [|constructor]. apply (HP k v employee); auto. now left. }
  intros HP. apply H; [constructor|exact HP].
Qed.

Lemma workloadsOf_nonNegative data entries :
  Forall (fun w => nonNegative (totalHours w) = true)
         (workloadsOf data entries).
Proof.
  apply workloadsOf_sound. intros k v employee _ _.
  cbn [workloadOf totalHours].
  apply roundToTenth_nonNegative, calculateWorkingHours_nonNegative.
Qed.

(** *** The comparator on hours that are not negative *)

Lemma fewerHours_rank a b :
  nonNegative (totalHours a) = true -> nonNegative (totalHours b) = true ->
  fewerHours a b
  = (rank (Prim2SF (totalHours a)) <? rank (Prim2SF (totalHours b))).
Proof. apply DoubleFacts.ltb_sub_rank. Qed.

Lemma fewerHours_asym a b :
  nonNegative (totalHours a) = true -> nonNegative (totalHours b) = true ->
  fewerHours a b = true -> fewerHours b a = false.
Proof.
  intros Ha Hb. rewrite !fewerHours_rank by assumption.
  rewrite Z.ltb_lt, Z.ltb_ge. lia.
Qed.

Lemma fewerHours_before_trans a b c :
  nonNegative (totalHours a) = true -> nonNegative (totalHours b) = true ->
  nonNegative (totalHours c) = true ->
  before fewerHours a b -> before fewerHours b c -> before fewerHours a c.
Proof.
  intros Ha Hb Hc. unfold before. rewrite !fewerHours_rank by assumption.
  rewrite !Z.ltb_ge. lia.
Qed.

(** An entry that may stay in front has at least the hours of the one
    behind. *)
Lemma fewerHours_before a b :
  nonNegative (totalHours a) = true -> nonNegative (totalHours b) = true ->
  before fewerHours a b ->
  PrimFloat.leb (totalHours b) (totalHours a) = true.
Proof.
  intros Ha Hb. unfold before. rewrite fewerHours_rank by assumption.
  rewrite DoubleFacts.leb_rank by now apply DoubleFacts.signClear_number.
  rewrite Z.ltb_ge, Z.leb_le. lia.
Qed.

(** Entries that tie are never put after one another. *)
Lemma fewerHours_keeps_ties h x y :
  nonNegative (totalHours x) = true -> nonNegative (totalHours y) = true ->
  fewerHours x y = true -> tiedAt h x = true -> tiedAt h y = false.
Proof.
  unfold tiedAt. intros Hx Hy Hxy Htie.
  pose proof (DoubleFacts.eqb_number _ _ Htie) as Hh.
  rewrite fewerHours_rank in Hxy by assumption.
  rewrite DoubleFacts.eqb_rank in *
    by (try exact Hh; now apply DoubleFacts.signClear_number).
  apply Z.ltb_lt in Hxy. apply Z.eqb_eq in Htie. apply Z.eqb_neq. lia.
Qed.

(** The ranked list is in order and keeps the order of ties. *)
Lemma ranking_sorted data entries :
  StronglySorted
    (fun a b => PrimFloat.leb (totalHours b) (totalHours a) = true)
    (sort fewerHours (workloadsOf data entries)).
Proof.
  set (good := fun w => nonNegative (totalHours w) = true).
  apply (StronglySorted_on good (before fewerHours)).
  - intros a b. apply fewerHours_before.
  - apply sort_Forall, workloadsOf_nonNegative.
  - apply (sort_sorted_on fewerHours good).
    + intros a b. apply fewerHours_asym.
    + intros a b c. apply fewerHours_before_trans.
    + apply workloadsOf_nonNegative.
Qed.

Lemma ranking_stable data entries h :
  filter (tiedAt h) (sort fewerHours (workloadsOf data entries))
  = filter (tiedAt h) (workloadsOf data entries).
Proof.
  apply (sort_stable_on fewerHours
           (fun w => nonNegative (totalHours w) = true)).
  - intros x y. apply fewerHours_keeps_ties.
  - apply workloadsOf_nonNegative.
Qed.

Lemma processSheetData_perm tz now records records' :
  sortByTimestamp records = sortByTimestamp records' ->
  processSheetData tz now records = processSheetData tz now records'.
Proof. unfold processSheetData. now intros ->. Qed.

Lemma dayPunches_known tz now now' records dateStr k v :
  In (k, v)
     (groupByEmployee
        (dayPunchesOf (processSheetData tz now' records)
                      (targetDateOf tz now dateStr))) ->
  Map_get (employees (processSheetData tz now' records)) k <> None.
Proof.
  intros Hin. apply (in_map fst) in Hin. cbn [fst] in Hin.
  rewrite groupByEmployee_groupFold in Hin.
  apply groupFold_keys_In in Hin. destruct Hin as [[]|Hin].
  apply in_map_iff in Hin. destruct Hin as (r & <- & Hr).
  rewrite dayPunchesOf_processSheetData in Hr.
  apply filter_In in Hr. destruct Hr as [Hr _]. apply sort_In in Hr.
  destruct (processSheetData_employee_known tz now' records r Hr) as [e He].
  congruence.
Qed.

End WorkloadFacts.

(** C1, as the code has it, for every list of events and every limit
    that is not negative: the top-workload output is in non-increasing
    order of total hours (the tenth-rounded doubles of the code); its
    length is the minimum of the limit and the number of distinct
    employees with an event on the day, paired or not; the ranked
    employees are those of the day in the order of their first event in
    the chronological list, and entries with equal hours keep that order
    (no tie-break by identifier); and reordering an input whose timestamps
    are pairwise different leaves the output unchanged. *)
Theorem top_workload_ranking (tz : Z) (now now' : Z)
        (records : list RawPunchRecord) (dateStr : option string)
        (limit : Z) :
  0 <= limit ->
  let data := processSheetData tz now' records in
  let dayPunches := dayPunchesOf data (targetDateOf tz now dateStr) in
  let workloads := workloadsOf data (groupByEmployee dayPunches) in
  let top := calculateTopWorkload tz now data dateStr limit in
  StronglySorted
    (fun a b => PrimFloat.leb (totalHours b) (totalHours a) = true) top
  /\ count top = Z.min limit (distinctCount (map employeeId dayPunches))
  /\ map wl_employeeId workloads = firstAppearance (map employeeId dayPunches)
  /\ (forall h, exists rest,
         filter (tiedAt h) workloads = filter (tiedAt h) top ++ rest)
  /\ (forall records',
         Permutation records records' ->
         NoDup (map timestamp records) ->
         calculateTopWorkload tz now (processSheetData tz now' records')
           dateStr limit = top).
Proof.
  intros Hlimit data dayPunches workloads top.
  assert (Hids : map wl_employeeId workloads
                 = map fst (groupByEmployee dayPunches)).
  { apply WorkloadFacts.workloadsOf_ids. intros k v Hin.
    eapply WorkloadFacts.dayPunches_known; eauto. }
  assert (Htop : top = JS.slice0 (JS.sort fewerHours workloads) limit)
    by reflexivity.
  split.
  { rewrite Htop. unfold JS.slice0.
    apply JSFacts.StronglySorted_firstn.
    apply WorkloadFacts.ranking_sorted. }
  split.
  { rewrite Htop, JSFacts.slice0_length by exact Hlimit.
    f_equal. unfold distinctCount, count. f_equal.
    rewrite JSFacts.sort_length, <- (length_map wl_employeeId), Hids.
    rewrite length_map, MapFacts.groupByEmployee_groupFold.
    apply MapFacts.groupFold_length. }
  split.
  { rewrite Hids. apply WorkloadFacts.groupByEmployee_keys. }
  split.
  { intros h. rewrite Htop. unfold JS.slice0.
    set (n := Z.to_nat _).
    exists (filter (tiedAt h) (skipn n (JS.sort fewerHours workloads))).
    rewrite <- filter_app, firstn_skipn.
    symmetry. apply WorkloadFacts.ranking_stable. }
  { intros records' Hperm Hnodup. unfold top, data.
    rewrite (WorkloadFacts.processSheetData_perm tz now' records' records);
      [reflexivity|].
    symmetry. now apply RepositoryFacts.sortByTimestamp_perm. }
Qed.

Lemma top_workload_ranking_witness :
  let records := [WorkloadSamples.janeIn; WorkloadSamples.johnIn;
                  WorkloadSamples.janeOut; WorkloadSamples.johnOut;
                  WorkloadSamples.bobIn] in
  let records' := [WorkloadSamples.johnIn; WorkloadSamples.janeIn;
                   WorkloadSamples.janeOut; WorkloadSamples.johnOut;
                   WorkloadSamples.bobIn] in
  map wl_employeeId (WorkloadSamples.topOf records 2) = ["EMP002"; "EMP001"]
  /\ count (WorkloadSamples.topOf records 2) = 2
  /\ WorkloadSamples.topOf records' 2 = WorkloadSamples.topOf records 2.
Proof.
  intros records records'.
  assert (Hnodup : NoDup (map timestamp records)).
  { vm_compute. repeat constructor; simpl; intuition discriminate. }
  destruct (top_workload_ranking Samples.utc Samples.nextNoon Samples.nextNoon
              records (Some Samples.testDate) 2 ltac:(lia))
    as (_ & Hlen & _ & _ & Hperm).
  split; [vm_compute; reflexivity|]. split; [exact Hlen|].
  exact (Hperm records' (perm_swap _ _ _) Hnodup).
Defined.

(** C1 as stated fails on a day where Jane (EMP002) and John (EMP001)
    arrive at the same minute and both work eight hours, and Bob (EMP003)
    only punches in: the two tied entries come out in the order of the
    input, EMP002 before EMP001 for one order of the input and the other
    way round for the other, so the tie is not broken by identifier and
    reordering changes the output; and the output has three entries though
    only two employees have paired hours. *)
Lemma top_workload_counterexample :
  Permutation WorkloadSamples.tiedDay WorkloadSamples.tiedDayReordered
  /\ map wl_employeeId (WorkloadSamples.topOf WorkloadSamples.tiedDay 10)
     = ["EMP002"; "EMP001"; "EMP003"]
  /\ map wl_employeeId
       (WorkloadSamples.topOf WorkloadSamples.tiedDayReordered 10)
     = ["EMP001"; "EMP002"; "EMP003"]
  /\ map totalHours (WorkloadSamples.topOf WorkloadSamples.tiedDay 10)
     = [8; 8; 0]%float
  /\ WorkloadSamples.topOf WorkloadSamples.tiedDayReordered 10
     <> WorkloadSamples.topOf WorkloadSamples.tiedDay 10
  /\ count (WorkloadSamples.topOf WorkloadSamples.tiedDay 10) = 3
  /\ count (filter hasHours (WorkloadSamples.topOf WorkloadSamples.tiedDay 10))
     = 2.
Proof.
  split; [apply perm_swap|].
  split; [vm_compute; reflexivity|]. split; [vm_compute; reflexivity|].
  split; [vm_compute; reflexivity|].
  split; [intros H; apply (f_equal (map wl_employeeId)) in H;
          vm_compute in H; discriminate|].
  split; vm_compute; reflexivity.
Qed.

(* ================================================================== *)
(** * Open sessions *)
(* ================================================================== *)

Module SessionFacts.
Import FifoFacts.

Lemma skipn_nth {A} (l : list A) (i : nat) (x : A) :
  nth_error l i = Some x -> skipn i l = x :: skipn (S i) l.
Proof.
  revert l. induction i as [|i IH]; intros [|y l] H; try discriminate.
  - now injection H as ->.
  - simpl in H. cbn [skipn]. now apply IH.
Qed.

Lemma existsb_nth_skipn {A} (f : A -> bool) (l : list A) (k j : nat) (x : A) :
  nth_error l j = Some x -> f x = true -> (k <= j)%nat ->
  existsb f (skipn k l) = true.
Proof.
  intros Hn Hf Hk. apply existsb_exists. exists x. split; [|exact Hf].
  apply (nth_error_In _ (j - k)). rewrite nth_error_skipn.
  now replace (k + (j - k))%nat with j by lia.
Qed.

Lemma existsb_nth_firstn {A} (f : A -> bool) (l : list A) (i j : nat) (x : A) :
  nth_error l i = Some x -> f x = true -> (i < j)%nat ->
  existsb f (firstn j l) = true.
Proof.
  intros Hn Hf Hij. apply existsb_exists. exists x. split; [|exact Hf].
  apply (nth_error_In _ i). rewrite nth_error_firstn.
  apply Nat.ltb_lt in Hij. now rewrite Hij.
Qed.

Lemma isPunchIn_not_out p : isPunchIn p = negb (isPunchOut p).
Proof. unfold isPunchIn, isPunchOut. now destruct (punchType p). Qed.

Section Pass.
Variable cfg : Config.
Variable now : Z.
Variable employee : Employee.
Variable empId : string.
Variable sorted : list RawPunchRecord.

Lemma sessionPass_skip d : forall i st,
  (forall m p st', (i <= m < i + d)%nat -> nth_error sorted m = Some p ->
                   sessionStep cfg now employee empId sorted m p st' = st') ->
  (i + d <= List.length sorted)%nat ->
  sessionPass cfg now employee empId sorted i (skipn i sorted) st =
  sessionPass cfg now employee empId sorted (i + d) (skipn (i + d) sorted) st.
Proof.
  induction d as [|d IH]; intros i st Hid Hlen.
  - now rewrite Nat.add_0_r.
  - destruct (nth_error sorted i) as [p|] eqn:E.
    2:{ apply nth_error_None in E. lia. }
    rewrite (skipn_nth _ _ _ E). cbn [sessionPass].
    rewrite (Hid i p st) by (auto; lia).
    replace (i + S d)%nat with (S i + d)%nat by lia.
    apply IH; [|lia].
    intros m q st' Hm Hq. apply Hid; [lia|exact Hq].
Qed.

(** The loop of [calculateExceptions] does what the pass over all
    positions does: the positions it jumps over raise nothing. *)
Lemma checkSessions_loop fuel : forall i st,
  (List.length sorted - i <= fuel)%nat ->
  fifoLoop (fun _ _ st => st)
           (onOpenSession cfg now employee empId)
           (onPunchOut employee empId sorted)
           fuel sorted i st =
  sessionPass cfg now employee empId sorted i (skipn i sorted) st.
Proof.
  induction fuel as [|fuel IH]; intros i st Hf.
  - cbn [fifoLoop]. now rewrite skipn_all2 by lia.
  - cbn [fifoLoop]. destruct (nth_error sorted i) as [punch|] eqn:E.
    2:{ apply nth_error_None in E. now rewrite skipn_all2 by lia. }
    pose proof (nth_error_lt _ _ _ E) as Hi.
    rewrite (skipn_nth _ _ _ E). cbn [sessionPass].
    unfold sessionStep at 1.
    destruct (isPunchIn punch) eqn:Ein.
    + destruct (findPunchOut sorted (i + 1)) as [[j out]|] eqn:F.
      * apply findPunchOut_Some in F. destruct F as (Hj & Hn & Ho & Hb).
        pose proof (nth_error_lt _ _ _ Hn) as Hjl.
        rewrite (existsb_nth_skipn isPunchOut sorted (i + 1) j out Hn Ho Hj).
        rewrite IH by lia.
        replace (j + 1)%nat with (S i + (j - i))%nat by lia.
        symmetry. apply sessionPass_skip; [|lia].
        intros m p st' Hm Hp. unfold sessionStep.
        destruct (Nat.eq_dec m j) as [->|Hne].
        -- assert (p = out) by congruence. subst p.
           rewrite isPunchIn_not_out, Ho. cbn [negb]. unfold onPunchOut.
           now rewrite (existsb_nth_firstn isPunchIn sorted i j punch E Ein)
             by lia.
        -- assert (Hp' : isPunchOut p = false)
             by (apply (Hb m); [lia|exact Hp]).
           rewrite isPunchIn_not_out, Hp'. cbn [negb].
           now rewrite (existsb_nth_skipn isPunchOut sorted (m + 1) j out Hn Ho)
             by lia.
      * apply findPunchOut_None in F. rewrite F.
        rewrite IH by lia. now rewrite Nat.add_1_r.
    + rewrite IH by lia. now rewrite Nat.add_1_r.
Qed.

Lemma checkSessions_pass st :
  checkSessions cfg now employee empId sorted st =
  sessionPass cfg now employee empId sorted 0 sorted st.
Proof. unfold checkSessions, fifo. now rewrite checkSessions_loop by lia. Qed.
End Pass.

(** A day whose only event is one punch in, on time and without a
    location breach: the exceptions are those of the open-session rule. *)
Lemma lone_in_day tz now now' punch :
  dayPunchesOf (processSheetData tz now' [punch])
    (targetDateOf tz now (Some (formatDateKey tz (timestamp punch))))
  = [punch].
Proof.
  apply KPIHours.dayPunches_of_one_day.
  - reflexivity.
  - repeat constructor.
  - intros r [<-|[]]. reflexivity.
Qed.

Lemma lone_in_employees tz now' punch :
  employees (processSheetData tz now' [punch])
  = [(employeeId punch, indexedEmployee punch)].
Proof. reflexivity. Qed.

Lemma lone_in_exceptions tz cfg now now' punch :
  punchType punch = PunchIn ->
  punchMinutesOf tz punch <= lateThreshold cfg ->
  distanceAbove (DISTANCE_THRESHOLD_WARNING cfg) punch = false ->
  calculateExceptions tz cfg now (processSheetData tz now' [punch])
    (Some (formatDateKey tz (timestamp punch)))
  = JS.sort exceptionAfter
      (fst (onOpenSession cfg now (indexedEmployee punch) (employeeId punch)
              punch ([], 1))).
Proof.
  intros Hin Hlate Hnear.
  apply HoursFacts.punchIn_flags in Hin. destruct Hin as [Hin Hin'].
  apply Z.ltb_ge in Hlate.
  unfold calculateExceptions. rewrite lone_in_day.
  unfold groupByEmployee. cbn [fold_left].
  rewrite HoursFacts.pushTo_empty. cbn [fold_left].
  unfold employeeExceptions. rewrite lone_in_employees.
  cbn [JS.Map_get]. rewrite String.eqb_refl.
  change (sortByTimestamp [punch]) with [punch].
  unfold checkLateArrival. cbn [find]. rewrite Hin, Hlate.
  unfold checkSessions. HoursFacts.run_fifo.
  unfold checkLocationBreaches. cbn [fold_left].
  unfold distanceAbove in Hnear.
  destruct (distanceMeters punch) as [d|]; [rewrite Hnear|];
    now destruct (onOpenSession _ _ _ _ _ _).
Qed.

End SessionFacts.

(** C5, as the code has it: the session loop of the exception calculation
    treats each position of an employee's day on its own, and at a punch
    in that no punch out follows the open-session rule pushes nothing when
    the elapsed time is below the warning threshold, and exactly one
    exception, of type OpenSession and severity critical, when it has
    reached the critical threshold (thresholds in their configured order).
    Exceptions of the other rules are not counted here.  When the punch in
    is on time, has no location breach and is the only event of the day,
    these are all the exceptions of the day: none below the warning
    threshold, exactly the one critical OpenSession exception from the
    critical threshold on. *)
Theorem open_session_rule (cfg : Config) (now : Z) (employee : Employee)
        (empId : string) (sorted : list RawPunchRecord) (i : nat)
        (punch : RawPunchRecord) (exceptions : list Exception)
        (exceptionId : Z) :
  nth_error sorted i = Some punch ->
  punchType punch = PunchIn ->
  (forall j later, (i < j)%nat -> nth_error sorted j = Some later ->
                   punchType later = PunchIn) ->
  (forall st, checkSessions cfg now employee empId sorted st
              = sessionPass cfg now employee empId sorted 0 sorted st)
  /\ ((hoursOpenOf now punch < OPEN_SESSION_WARNING_HOURS cfg)%Q ->
      sessionStep cfg now employee empId sorted i punch
        (exceptions, exceptionId) = (exceptions, exceptionId))
  /\ ((OPEN_SESSION_WARNING_HOURS cfg <= OPEN_SESSION_CRITICAL_HOURS cfg)%Q ->
      (OPEN_SESSION_CRITICAL_HOURS cfg <= hoursOpenOf now punch)%Q ->
      sessionStep cfg now employee empId sorted i punch
        (exceptions, exceptionId)
      = (exceptions ++ [criticalOpenSession now employee empId punch exceptionId],
         exceptionId + 1))
  /\ (forall tz now',
         punchMinutesOf tz punch <= lateThreshold cfg ->
         distanceAbove (DISTANCE_THRESHOLD_WARNING cfg) punch = false ->
         let ofDay :=
           calculateExceptions tz cfg now (processSheetData tz now' [punch])
             (Some (formatDateKey tz (timestamp punch))) in
         ((hoursOpenOf now punch < OPEN_SESSION_WARNING_HOURS cfg)%Q ->
          ofDay = [])
         /\ ((OPEN_SESSION_WARNING_HOURS cfg
              <= OPEN_SESSION_CRITICAL_HOURS cfg)%Q ->
             (OPEN_SESSION_CRITICAL_HOURS cfg <= hoursOpenOf now punch)%Q ->
             ofDay = [criticalOpenSession now (indexedEmployee punch)
                        (employeeId punch) punch 1])).
Proof.
  intros Hi Hin Hlater.
  split; [apply SessionFacts.checkSessions_pass|].
  assert (Hstep : forall st,
             sessionStep cfg now employee empId sorted i punch st
             = onOpenSession cfg now employee empId punch st).
  { intros st. unfold sessionStep.
    destruct (HoursFacts.punchIn_flags punch Hin) as [Hin' _].
    rewrite Hin'.
    destruct (existsb isPunchOut (skipn (i + 1) sorted)) eqn:E; [|reflexivity].
    apply existsb_exists in E. destruct E as (out & Hout & Ho).
    apply In_nth_error in Hout. destruct Hout as [k Hk].
    rewrite FifoFacts.nth_error_skipn in Hk.
    apply Hlater in Hk; [|lia].
    apply HoursFacts.punchIn_flags in Hk. destruct Hk as [_ Hk]. congruence. }
  assert (Hyoung : forall e id st,
             (hoursOpenOf now punch < OPEN_SESSION_WARNING_HOURS cfg)%Q ->
             onOpenSession cfg now e id punch st = st).
  { intros e id st H. unfold onOpenSession.
    apply ComplianceFacts.Qle_bool_false in H. now rewrite H. }
  assert (Hold : forall e id excs n,
             (OPEN_SESSION_WARNING_HOURS cfg
              <= OPEN_SESSION_CRITICAL_HOURS cfg)%Q ->
             (OPEN_SESSION_CRITICAL_HOURS cfg <= hoursOpenOf now punch)%Q ->
             onOpenSession cfg now e id punch (excs, n)
             = (excs ++ [criticalOpenSession now e id punch n], n + 1)).
  { intros e id excs n Hcfg H. unfold onOpenSession.
    assert (Hwarn : (OPEN_SESSION_WARNING_HOURS cfg <= hoursOpenOf now punch)%Q)
      by (eapply Qle_trans; eauto).
    apply Qle_bool_iff in Hwarn, H. now rewrite Hwarn, H. }
  rewrite !Hstep.
  split; [apply Hyoung|]. split; [apply Hold|].
  intros tz now' Hlate Hnear ofDay. subst ofDay.
  rewrite (SessionFacts.lone_in_exceptions tz cfg now now' punch Hin Hlate Hnear).
  split.
  - intros H. now rewrite Hyoung.
  - intros Hcfg H. now rewrite Hold.
Qed.

Lemma open_session_rule_witness :
  sessionStep CONFIG SessionSamples.sameDay16 SessionSamples.bob "EMP003"
    [SessionSamples.bobIn9] 0 SessionSamples.bobIn9 ([], 1) = ([], 1)
  /\ sessionStep CONFIG Samples.nextNoon SessionSamples.bob "EMP003"
       [SessionSamples.bobIn9] 0 SessionSamples.bobIn9 ([], 1)
     = ([criticalOpenSession Samples.nextNoon SessionSamples.bob "EMP003"
           SessionSamples.bobIn9 1], 2)
  /\ SessionSamples.exceptionsAt SessionSamples.sameDay16
       [SessionSamples.bobIn9] = []
  /\ SessionSamples.exceptionsAt Samples.nextNoon [SessionSamples.bobIn9]
     = [criticalOpenSession Samples.nextNoon SessionSamples.bob "EMP003"
          SessionSamples.bobIn9 1].
Proof.
  assert (Hlast : forall j later, (0 < j)%nat ->
             nth_error [SessionSamples.bobIn9] j = Some later ->
             punchType later = PunchIn).
  { intros [|[|j]] later Hj Hn; [lia|discriminate|discriminate]. }
  destruct (open_session_rule CONFIG SessionSamples.sameDay16
              SessionSamples.bob "EMP003" [SessionSamples.bobIn9] 0%nat
              SessionSamples.bobIn9 [] 1 eq_refl eq_refl Hlast)
    as (_ & Hyoung & _ & Hday16).
  destruct (open_session_rule CONFIG Samples.nextNoon
              SessionSamples.bob "EMP003" [SessionSamples.bobIn9] 0%nat
              SessionSamples.bobIn9 [] 1 eq_refl eq_refl Hlast)
    as (_ & _ & Hold & Hday).
  split; [apply Hyoung; vm_compute; reflexivity|].
  split; [apply Hold; vm_compute; discriminate|].
  split.
  - apply (Hday16 Samples.utc SessionSamples.sameDay16);
      [vm_compute; discriminate|reflexivity|vm_compute; reflexivity].
  - apply (Hday Samples.utc Samples.nextNoon);
      [vm_compute; discriminate|reflexivity| |]; vm_compute; discriminate.
Defined.

(** C5 as stated fails.  A punch in at 11:30 without a punch out, read at
    noon of the next day, gives the employee two exceptions of type
    OpenSession and severity critical, one from the late-arrival rule and
    one from the open-session rule.  A punch in at 09:30 without a punch
    out, read one hour later, is below the warning threshold and still
    raises an exception, the late arrival. *)
Lemma open_session_counterexample :
  count (filter (isCriticalOpenSession "EMP003")
           (SessionSamples.exceptionsAt Samples.nextNoon
              [SessionSamples.bobIn1130])) = 2
  /\ map notes (SessionSamples.exceptionsAt Samples.nextNoon
                  [SessionSamples.bobIn1130])
     = [LateArrivalBy 150; OpenSessionFor 25]
  /\ (hoursOpenOf SessionSamples.sameDay1030 SessionSamples.bobIn930
      < OPEN_SESSION_WARNING_HOURS CONFIG)%Q
  /\ map notes (SessionSamples.exceptionsAt SessionSamples.sameDay1030
                  [SessionSamples.bobIn930])
     = [LateArrivalBy 30]
  /\ map exc_type (SessionSamples.exceptionsAt SessionSamples.sameDay1030
                     [SessionSamples.bobIn930])
     = [OpenSession].
Proof.
  repeat split; vm_compute; reflexivity.
Qed.

(* ================================================================== *)
(** * Repeated derivations *)
(* ================================================================== *)

Module ClockFacts.
Import RepositoryFacts.

(** The clock read by [processSheetData] only decides [todayPunches]. *)
Lemma processSheetData_clock tz now1 now2 records :
  punchesByDate (processSheetData tz now1 records)
  = punchesByDate (processSheetData tz now2 records)
  /\ employees (processSheetData tz now1 records)
     = employees (processSheetData tz now2 records)
  /\ punchesByEmployee (processSheetData tz now1 records)
     = punchesByEmployee (processSheetData tz now2 records).
Proof.
  unfold processSheetData.
  rewrite !processRecord_punchesByDate, !processRecord_employees,
    !processRecord_punchesByEmployee.
  repeat split.
Qed.

Lemma targetDateOf_given tz now date :
  date <> EmptyString -> targetDateOf tz now (Some date) = date.
Proof. destruct date; [contradiction|reflexivity]. Qed.

Lemma dayPunchesOf_ext d1 d2 date :
  punchesByDate d1 = punchesByDate d2 ->
  dayPunchesOf d1 date = dayPunchesOf d2 date.
Proof. unfold dayPunchesOf. now intros ->. Qed.

Lemma workloadsOf_ext d1 d2 byEmployee :
  employees d1 = employees d2 ->
  workloadsOf d1 byEmployee = workloadsOf d2 byEmployee.
Proof. unfold workloadsOf. now intros ->. Qed.

Lemma employeeExceptions_ext tz cfg now d1 d2 :
  employees d1 = employees d2 ->
  employeeExceptions tz cfg now d1 = employeeExceptions tz cfg now d2.
Proof. unfold employeeExceptions. now intros ->. Qed.

End ClockFacts.

(** C6, as the code has it: for a fixed list of events and a fixed query
    window (an explicit date; for the shift history an explicit end date,
    or no window at all), the KPI snapshot apart from its timestamp, the
    hourly activity, the top workload, the latest locations and the
    employee shifts are the same whenever they are computed; the
    exceptions are the same for runs that read the same clock value. *)
Theorem derivations_repeatable
        (tz : Z) (cfg : Config) (parseFloat : string -> option Q)
        (Date_parse : string -> option Z) (records : list RawPunchRecord)
        (built1 built2 now1 now2 : Z) (date : string) (limit : Z)
        (employeeId : string) (startDate endDate : option string) :
  date <> EmptyString ->
  given endDate = true \/ given startDate = false ->
  let data1 := processSheetData tz built1 records in
  let data2 := processSheetData tz built2 records in
  let kpis1 := calculateKPIs tz cfg now1 data1 (Some date) in
  let kpis2 := calculateKPIs tz cfg now2 data2 (Some date) in
  (activeEmployeesCount kpis1 = activeEmployeesCount kpis2
   /\ totalWorkingHoursToday kpis1 = totalWorkingHoursToday kpis2
   /\ onSiteCompliancePct kpis1 = onSiteCompliancePct kpis2
   /\ exceptionsCount kpis1 = exceptionsCount kpis2)
  /\ calculateHourlyActivity tz now1 data1 (Some date)
     = calculateHourlyActivity tz now2 data2 (Some date)
  /\ calculateTopWorkload tz now1 data1 (Some date) limit
     = calculateTopWorkload tz now2 data2 (Some date) limit
  /\ calculateLatestLocations cfg parseFloat data1
     = calculateLatestLocations cfg parseFloat data2
  /\ calculateEmployeeShifts tz cfg Date_parse now1 data1 employeeId
       startDate endDate
     = calculateEmployeeShifts tz cfg Date_parse now2 data2 employeeId
         startDate endDate
  /\ calculateExceptions tz cfg now1 data1 (Some date)
     = calculateExceptions tz cfg now1 data2 (Some date).
Proof.
  intros Hdate Hwindow data1 data2 kpis1 kpis2.
  destruct (ClockFacts.processSheetData_clock tz built1 built2 records)
    as (Hd & He & Hp).
  fold data1 data2 in Hd, He, Hp.
  assert (Hday : forall now now',
             dayPunchesOf data1 (targetDateOf tz now (Some date))
             = dayPunchesOf data2 (targetDateOf tz now' (Some date))).
  { intros now now'. rewrite !ClockFacts.targetDateOf_given by exact Hdate.
    now apply ClockFacts.dayPunchesOf_ext. }
  split.
  { unfold kpis1, kpis2, calculateKPIs.
    cbn [activeEmployeesCount totalWorkingHoursToday onSiteCompliancePct
         exceptionsCount].
    rewrite (Hday now1 now2). repeat split. }
  split.
  { unfold calculateHourlyActivity. now rewrite (Hday now1 now2). }
  split.
  { unfold calculateTopWorkload. rewrite (Hday now1 now2).
    now rewrite (ClockFacts.workloadsOf_ext data1 data2 _ He). }
  split.
  { unfold calculateLatestLocations. now rewrite He, Hp. }
  split.
  { unfold calculateEmployeeShifts. rewrite Hp.
    destruct Hwindow as [Hend|Hstart].
    - destruct endDate as [e|]; [|discriminate].
      cbn [given] in Hend. cbn [dateOr]. now rewrite Hend.
    - destruct (given endDate) eqn:Hend.
      + destruct endDate as [e|]; [|discriminate].
        cbn [given] in Hend. cbn [dateOr]. now rewrite Hend.
      + rewrite Hstart. reflexivity. }
  { unfold calculateExceptions. rewrite (Hday now1 now1).
    now rewrite (ClockFacts.employeeExceptions_ext tz cfg now1 data1 data2 He). }
Qed.

Lemma derivations_repeatable_witness :
  let records := [SessionSamples.bobIn9] in
  let data1 := processSheetData Samples.utc SessionSamples.sameDay16 records in
  let data2 := processSheetData Samples.utc Samples.nextNoon records in
  calculateTopWorkload Samples.utc SessionSamples.sameDay16 data1
    (Some Samples.testDate) 10
  = calculateTopWorkload Samples.utc Samples.nextNoon data2
      (Some Samples.testDate) 10
  /\ calculateEmployeeShifts Samples.utc CONFIG RowSamples.noDate
       SessionSamples.sameDay16 data1 "EMP003" None None
     = calculateEmployeeShifts Samples.utc CONFIG RowSamples.noDate
         Samples.nextNoon data2 "EMP003" None None
  /\ calculateExceptions Samples.utc CONFIG SessionSamples.sameDay16 data1
       (Some Samples.testDate)
     = calculateExceptions Samples.utc CONFIG SessionSamples.sameDay16 data2
         (Some Samples.testDate).
Proof.
  intros records data1 data2.
  assert (Hdate : Samples.testDate <> EmptyString) by discriminate.
  destruct (derivations_repeatable Samples.utc CONFIG RowSamples.distance25
              RowSamples.noDate records SessionSamples.sameDay16
              Samples.nextNoon SessionSamples.sameDay16 Samples.nextNoon
              Samples.testDate 10 "EMP003" None None Hdate
              (or_intror eq_refl))
    as (_ & _ & Htop & _ & Hshifts & Hexc).
  split; [exact Htop|]. split; [exact Hshifts|exact Hexc].
Defined.

(** C6 as stated fails for the exceptions: on the same events and the
    same date, a punch in at 09:00 without a punch out raises nothing when
    the derivation runs at 16:00 and a critical open session when it runs
    at noon of the next day. *)
Lemma exceptions_depend_on_clock :
  calculateExceptions Samples.utc CONFIG SessionSamples.sameDay16
    SessionSamples.bobDay (Some Samples.testDate) = []
  /\ map (fun e => (exc_type e, severity e, notes e))
       (calculateExceptions Samples.utc CONFIG Samples.nextNoon
          SessionSamples.bobDay (Some Samples.testDate))
     = [(OpenSession, sev_critical, OpenSessionFor 27)]
  /\ calculateExceptions Samples.utc CONFIG SessionSamples.sameDay16
       SessionSamples.bobDay (Some Samples.testDate)
     <> calculateExceptions Samples.utc CONFIG Samples.nextNoon
          SessionSamples.bobDay (Some Samples.testDate).
Proof.
  assert (H16 : calculateExceptions Samples.utc CONFIG SessionSamples.sameDay16
                  SessionSamples.bobDay (Some Samples.testDate) = [])
    by (vm_compute; reflexivity).
  split; [exact H16|]. split; [vm_compute; reflexivity|].
  rewrite H16. intros H. apply (f_equal (@List.length _)) in H.
  vm_compute in H. discriminate.
Qed.

(* ================================================================== *)
(** * Further properties of the repository *)
(* ================================================================== *)

Module IndexFacts.
Import JS JSFacts MapFacts RepositoryFacts.

Lemma StronglySorted_filter {A} (R : A -> A -> Prop) (f : A -> bool) l :
  StronglySorted R l -> StronglySorted R (filter f l).
Proof.
  induction 1 as [|x l Hs IH Hx]; [constructor|].
  simpl. destruct (f x); [|exact IH].
  constructor; [exact IH|].
  rewrite Forall_forall in *. intros y Hy. apply filter_In in Hy.
  now apply Hx.
Qed.

Lemma processRecord_punches tz today l acc :
  punches (fold_left (processRecord tz today) l acc) = punches acc.
Proof.
  revert acc. induction l as [|r l IH]; intros acc; [reflexivity|].
  simpl. now rewrite IH.
Qed.

Lemma processRecord_todayPunches tz today l acc :
  todayPunches (fold_left (processRecord tz today) l acc) =
  todayPunches acc ++ filter (keyIs (dateKeyOf tz) today) l.
Proof.
  revert acc. induction l as [|r l IH]; intros acc.
  - simpl. now rewrite app_nil_r.
  - cbn [fold_left filter]. rewrite IH. cbn [processRecord todayPunches].
    unfold keyIs at 2, dateKeyOf.
    destruct (String.eqb _ today); [now rewrite <- app_assoc|reflexivity].
Qed.

Lemma grouped_get key l k :
  Map_get (groupFold key l []) k = grouped (filter (keyIs key k) l).
Proof.
  rewrite groupFold_get. cbn [Map_get]. now destruct (filter _ l).
Qed.

(** ** The employee index, key by key *)

Lemma updateEmployees_get m r k :
  Map_get (updateEmployees m r) k =
  if String.eqb (employeeId r) k then updateEntry (Map_get m k) r
  else Map_get m k.
Proof.
  unfold updateEmployees, updateEntry.
  destruct (String.eqb_spec (employeeId r) k) as [<-|Hne].
  - destruct (Map_get m (employeeId r)) as [e|] eqn:E.
    + destruct (_ && _).
      * rewrite Map_get_update_same, E. reflexivity.
      * destruct (_ && _); [|exact E].
        rewrite Map_get_update_same, E. reflexivity.
    + apply Map_get_set_same.
  - destruct (Map_get m (employeeId r)) as [e|] eqn:E.
    + destruct (_ && _); [now apply Map_get_update_other|].
      destruct (_ && _); [now apply Map_get_update_other|reflexivity].
    + now apply Map_get_set_other.
Qed.

Lemma updateEmployees_fold l m k :
  Map_get (fold_left updateEmployees l m) k =
  fold_left updateEntry (filter (keyIs employeeId k) l) (Map_get m k).
Proof.
  revert m. induction l as [|r l IH]; intros m; [reflexivity|].
  cbn [fold_left filter]. rewrite IH, updateEmployees_get.
  unfold keyIs at 2. now destruct (String.eqb (employeeId r) k).
Qed.

Lemma find_none_name id recs :
  find (goodName id) recs = None -> bestName id recs = id.
Proof. unfold bestName. now intros ->. Qed.

(** An entry with a good name is left alone; an entry that only holds
    the identifier takes the first good name that comes. *)
Lemma updateEntry_fold id recs : forall e,
  (forall r, In r recs -> employeeId r = id) ->
  emp_id e = id ->
  emp_name e = id \/ (truthy (emp_name e) = true /\ emp_name e <> id) ->
  fold_left updateEntry recs (Some e) =
  Some {| emp_id := id;
          emp_name := if truthy (emp_name e) && negb (String.eqb (emp_name e) id)
                      then emp_name e else bestName id recs |}.
Proof.
  induction recs as [|r recs IH]; intros [eid ename] Hrecs Hid Hname;
    cbn [emp_id emp_name] in *; subst eid.
  - cbn [fold_left]. unfold bestName. cbn [find]. f_equal.
    destruct Hname as [->|[Ht Hne]].
    + now destruct (truthy id && _).
    + apply String.eqb_neq in Hne. now rewrite Ht, Hne.
  - cbn [fold_left]. unfold updateEntry at 2. cbn [emp_id emp_name].
    assert (Hrecs' : forall x, In x recs -> employeeId x = id)
      by (intros x Hx; apply Hrecs; now right).
    destruct Hname as [->|[Ht Hne]].
    + (* the entry holds the identifier *)
      rewrite String.eqb_refl. cbn [negb andb]. rewrite andb_false_r.
      unfold bestName. cbn [find]. unfold goodName at 1.
      destruct (truthy (name r)) eqn:Hr.
      * assert (Hset : forall (b : bool) (x : option Employee),
                   (if b then x else x) = x) by now intros [].
        rewrite Hset. clear Hset. cbn [andb].
        destruct (String.eqb_spec (name r) id) as [Heq|Hne].
        -- rewrite Heq. cbn [negb].
           rewrite (IH {| emp_id := id; emp_name := id |}); auto.
           cbn [emp_name]. rewrite String.eqb_refl, andb_false_r. reflexivity.
        -- cbn [negb].
           rewrite (IH {| emp_id := id; emp_name := name r |});
             [|exact Hrecs'|reflexivity|right; now split].
           cbn [emp_name]. apply String.eqb_neq in Hne. now rewrite Hr, Hne.
      * rewrite !andb_false_r. cbn [andb].
        rewrite (IH {| emp_id := id; emp_name := id |}); auto.
        cbn [emp_name]. rewrite String.eqb_refl, andb_false_r. reflexivity.
    + (* the entry has a good name *)
      rewrite Ht. cbn [negb andb].
      apply String.eqb_neq in Hne. rewrite Hne. cbn [andb negb].
      rewrite (IH {| emp_id := id; emp_name := ename |});
        [|exact Hrecs'|reflexivity
         |right; split; [exact Ht|now apply String.eqb_neq]].
      cbn [emp_name]. now rewrite Ht, Hne.
Qed.

Lemma employee_entry id recs :
  (forall r, In r recs -> employeeId r = id) ->
  fold_left updateEntry recs None =
  option_map (fun group => {| emp_id := id; emp_name := bestName id group |})
             (grouped recs).
Proof.
  destruct recs as [|r recs]; intros Hrecs; [reflexivity|].
  cbn [fold_left grouped option_map]. unfold updateEntry at 2.
  assert (Hr : employeeId r = id) by (apply Hrecs; now left).
  rewrite Hr.
  rewrite (updateEntry_fold id recs); cbn [emp_id emp_name]; auto.
  - f_equal. f_equal. unfold bestName. cbn [find]. unfold goodName at 2.
    destruct (truthy (name r)) eqn:Ht; cbn [andb].
    + rewrite ?Ht. cbn [andb]. now destruct (negb (String.eqb (name r) id)).
    + rewrite String.eqb_refl. cbn [negb]. rewrite andb_false_r. reflexivity.
  - intros x Hx. apply Hrecs. now right.
  - destruct (truthy (name r)) eqn:Ht; [|now left].
    destruct (String.eqb_spec (name r) id); [now left|right; now split].
Qed.

End IndexFacts.

(** X1: the list [punches] of the repository holds the input records in
    chronological order, records with the same timestamp in the order of
    the input, and [todayPunches] holds those of them that fall on the
    day of the clock. *)
Theorem repository_punches_chronological (tz now : Z)
        (records : list RawPunchRecord) :
  let data := processSheetData tz now records in
  Permutation records (punches data)
  /\ StronglySorted (fun a b => timestamp a <= timestamp b) (punches data)
  /\ (forall t, filter (sameTimestamp t) (punches data)
                = filter (sameTimestamp t) records)
  /\ todayPunches data
     = filter (keyIs (dateKeyOf tz) (formatDateKey tz now)) (punches data).
Proof.
  intros data. unfold data, processSheetData.
  rewrite IndexFacts.processRecord_punches,
    IndexFacts.processRecord_todayPunches.
  cbn [punches todayPunches app].
  split; [apply JSFacts.sort_perm|].
  split; [apply RepositoryFacts.sortByTimestamp_sorted|].
  split; [|reflexivity].
  intros t. apply JSFacts.sort_stable.
  intros x y Hxy Hx. unfold laterThan in Hxy. unfold sameTimestamp in *.
  apply Z.ltb_lt in Hxy. apply Z.eqb_eq in Hx. apply Z.eqb_neq. lia.
Qed.

(** X2: each of the two indexes of the repository holds, under a key,
    exactly the records of that key in chronological order, and has no
    entry for a key without records; the employees are listed in the
    order of their first event. *)
Theorem repository_indexes (tz now : Z) (records : list RawPunchRecord)
        (id date : string) :
  let data := processSheetData tz now records in
  let sorted := sortByTimestamp records in
  JS.Map_get (punchesByEmployee data) id
  = grouped (filter (keyIs employeeId id) sorted)
  /\ JS.Map_get (punchesByDate data) date
     = grouped (filter (keyIs (dateKeyOf tz) date) sorted)
  /\ map fst (punchesByEmployee data)
     = firstAppearance (map employeeId sorted)
  /\ NoDup (map fst (punchesByEmployee data))
  /\ NoDup (map fst (punchesByDate data))
  /\ Forall (fun entry =>
               StronglySorted (fun a b => timestamp a <= timestamp b)
                              (snd entry))
            (punchesByEmployee data ++ punchesByDate data).
Proof.
  intros data sorted. unfold data, processSheetData.
  rewrite RepositoryFacts.processRecord_punchesByEmployee,
    RepositoryFacts.processRecord_punchesByDate.
  cbn [punchesByEmployee punchesByDate]. fold sorted.
  split; [apply IndexFacts.grouped_get|].
  split; [apply IndexFacts.grouped_get|].
  split.
  { rewrite WorkloadFacts.groupFold_keys. cbn [map app].
    apply KPIHours.filter_all. reflexivity. }
  split; [apply MapFacts.groupFold_keys_NoDup; constructor|].
  split; [apply MapFacts.groupFold_keys_NoDup; constructor|].
  apply Forall_app. split; apply Forall_forall; intros [k v] Hin;
    apply MapFacts.groupFold_entries in Hin; destruct Hin as [-> _];
    apply IndexFacts.StronglySorted_filter,
      RepositoryFacts.sortByTimestamp_sorted.
Qed.

(** X3: the employee index has an entry exactly for the employees with a
    record, and the name it keeps is the first name, in chronological
    order, that is neither empty nor the identifier itself; when no record
    has such a name the entry holds the identifier. *)
Theorem employee_index_names (tz now : Z) (records : list RawPunchRecord)
        (id : string) :
  JS.Map_get (employees (processSheetData tz now records)) id
  = option_map
      (fun group => {| emp_id := id; emp_name := bestName id group |})
      (grouped (filter (keyIs employeeId id) (sortByTimestamp records))).
Proof.
  unfold processSheetData.
  rewrite RepositoryFacts.processRecord_employees. cbn [employees].
  rewrite IndexFacts.updateEmployees_fold. cbn [JS.Map_get].
  apply IndexFacts.employee_entry.
  intros r Hr. apply filter_In in Hr. destruct Hr as [_ Hr].
  now apply String.eqb_eq in Hr.
Qed.

(* ================================================================== *)
(** * Further properties of the row normaliser *)
(* ================================================================== *)

Module LineFacts.
Import JS.

Lemma sapp_nil_r (s : string) : (s ++ EmptyString)%string = s.
Proof. induction s as [|c s IH]; simpl; congruence. Qed.

Lemma sapp_assoc (a b c : string) :
  ((a ++ b) ++ c)%string = (a ++ (b ++ c))%string.
Proof. induction a as [|x a IH]; simpl; congruence. Qed.

(** Characters that are not quotes, and not commas unless inside quotes,
    are collected into the current field. *)
Lemma loop_chars s : forall rest result current inQuotes,
  sall notQuote s = true ->
  inQuotes = true \/ sall notComma s = true ->
  parseCSVLine_loop (s ++ rest) result current inQuotes =
  parseCSVLine_loop rest result (current ++ s) inQuotes.
Proof.
  induction s as [|c s IH]; intros rest result current inQuotes Hq Hc.
  - cbn [append]. now rewrite sapp_nil_r.
  - cbn [sall] in Hq. apply andb_prop in Hq. destruct Hq as [Hcq Hq].
    cbn [append parseCSVLine_loop].
    unfold notQuote in Hcq. apply negb_true_iff in Hcq. rewrite Hcq.
    assert (Hsep : Ascii.eqb c "," && negb inQuotes = false).
    { destruct Hc as [->|Hc]; [apply andb_false_r|].
      cbn [sall] in Hc. apply andb_prop in Hc. destruct Hc as [Hc _].
      unfold notComma in Hc. apply negb_true_iff in Hc. now rewrite Hc. }
    rewrite Hsep. rewrite IH; [now rewrite sapp_assoc|exact Hq|].
    destruct Hc as [Hc|Hc]; [now left|right].
    cbn [sall] in Hc. now apply andb_prop in Hc.
Qed.

Lemma loop_quoted f rest result current :
  sall notQuote f = true ->
  parseCSVLine_loop (quoteField f ++ rest) result current false =
  parseCSVLine_loop rest result (current ++ f) false.
Proof.
  intros Hq. unfold quoteField. cbn [append parseCSVLine_loop Ascii.eqb].
  change (Ascii.eqb "034" "034") with true. cbv iota. cbn [negb].
  rewrite sapp_assoc. rewrite loop_chars; [|exact Hq|now left].
  cbn [append parseCSVLine_loop]. change (Ascii.eqb "034" "034") with true.
  reflexivity.
Qed.

Lemma loop_quoted_fields fields : forall result,
  fields <> [] -> Forall plainField fields ->
  parseCSVLine_loop (joinComma (map quoteField fields)) result EmptyString false
  = result ++ fields.
Proof.
  induction fields as [|f fields IH]; intros result Hne Hok; [congruence|].
  inversion Hok as [|? ? [Hf Hq] Hrest]; subst.
  destruct fields as [|g fields].
  - cbn [map joinComma].
    rewrite <- (sapp_nil_r (quoteField f)), loop_quoted by exact Hq.
    cbn [parseCSVLine_loop append]. now rewrite Hf.
  - change (joinComma (map quoteField (f :: g :: fields)))
      with (quoteField f ++ String "," (joinComma (map quoteField (g :: fields))))%string.
    rewrite loop_quoted by exact Hq.
    cbn [parseCSVLine_loop append].
    change (Ascii.eqb "," "034") with false.
    change (Ascii.eqb "," ",") with true. cbn [andb negb]. cbv iota.
    rewrite Hf, IH by (auto; discriminate).
    now rewrite <- app_assoc.
Qed.

Lemma loop_plain_fields fields : forall result,
  fields <> [] -> Forall plainField fields ->
  Forall (fun f => sall notComma f = true) fields ->
  parseCSVLine_loop (joinComma fields) result EmptyString false
  = result ++ fields.
Proof.
  induction fields as [|f fields IH]; intros result Hne Hok Hcomma;
    [congruence|].
  inversion Hok as [|? ? [Hf Hq] Hrest]; subst.
  inversion Hcomma as [|? ? Hc Hcrest]; subst.
  destruct fields as [|g fields].
  - cbn [joinComma].
    rewrite <- (sapp_nil_r f) at 1. rewrite loop_chars; [|exact Hq|now right].
    cbn [parseCSVLine_loop append]. now rewrite Hf.
  - change (joinComma (f :: g :: fields))
      with (f ++ String "," (joinComma (g :: fields)))%string.
    rewrite loop_chars; [|exact Hq|now right].
    cbn [parseCSVLine_loop append].
    change (Ascii.eqb "," "034") with false.
    change (Ascii.eqb "," ",") with true. cbn [andb negb]. cbv iota.
    rewrite Hf, IH by (auto; discriminate).
    now rewrite <- app_assoc.
Qed.

End LineFacts.

(** X4: [parseCSVLine] reads back the fields of an exported line.  Fields
    that are trimmed and hold no double quote come back unchanged from
    the line that wraps each in double quotes and joins them with commas,
    commas inside the fields included; when the fields hold no comma
    either, they also come back from the line that joins them without
    quotes. *)
Theorem csv_line_round_trip (fields : list string) :
  fields <> [] ->
  Forall plainField fields ->
  parseCSVLine (joinComma (map quoteField fields)) = fields
  /\ (Forall (fun f => sall notComma f = true) fields ->
      parseCSVLine (joinComma fields) = fields).
Proof.
  intros Hne Hok. unfold parseCSVLine. split.
  - now rewrite LineFacts.loop_quoted_fields.
  - intros Hcomma. now rewrite LineFacts.loop_plain_fields.
Qed.

Lemma csv_line_round_trip_witness :
  parseCSVLine (joinComma (map quoteField ["Doe, John"; ""; "28.6, 77.2"]))
  = ["Doe, John"; ""; "28.6, 77.2"]
  /\ (Forall (fun f => sall notComma f = true)
             ["Doe, John"; ""; "28.6, 77.2"] ->
      parseCSVLine (joinComma ["Doe, John"; ""; "28.6, 77.2"])
      = ["Doe, John"; ""; "28.6, 77.2"]).
Proof.
  apply (csv_line_round_trip ["Doe, John"; ""; "28.6, 77.2"]).
  - discriminate.
  - repeat constructor.
Defined.

Module ParserFacts.
Import JS.

Lemma repairUpper_empty u : repairUpper u = EmptyString <-> u = EmptyString.
Proof.
  unfold repairUpper. destruct (startsWith "LYLB" u) eqn:E.
  - split; [discriminate|]. intros ->. discriminate E.
  - tauto.
Qed.

Lemma removeWhiteSpace_empty s :
  removeWhiteSpace s = EmptyString <-> sall isWhiteSpace s = true.
Proof.
  unfold removeWhiteSpace. induction s as [|c s IH]; [tauto|].
  cbn [sfilter sall]. destruct (isWhiteSpace c); cbn [negb andb];
    [exact IH|split; discriminate].
Qed.

Lemma normalizeEmployeeId_empty raw :
  normalizeEmployeeId raw = EmptyString <-> sall isWhiteSpace raw = true.
Proof.
  rewrite IdFacts.normalizeEmployeeId_closed, repairUpper_empty.
  rewrite <- removeWhiteSpace_empty.
  unfold toUpperCase. destruct (removeWhiteSpace raw); cbn [smap];
    split; congruence.
Qed.

Lemma normalizeEmployeeId_spaces raw :
  sall notSpace (normalizeEmployeeId raw) = true.
Proof.
  rewrite IdFacts.normalizeEmployeeId_closed.
  apply IdFacts.sall_repairUpper, IdFacts.sall_toUpperCase,
    IdFacts.sall_removeWhiteSpace.
Qed.

Lemma normalizeEmployeeId_upper raw :
  toUpperCase (normalizeEmployeeId raw) = normalizeEmployeeId raw.
Proof.
  rewrite IdFacts.normalizeEmployeeId_closed.
  apply IdFacts.toUpperCase_repairUpper, IdFacts.toUpperCase_idem.
Qed.

Lemma startsWith_repairUpper u : startsWith "LYLB" (repairUpper u) = false.
Proof.
  unfold repairUpper. destruct (startsWith "LYLB" u) eqn:E;
    [reflexivity|exact E].
Qed.

Lemma normalizeEmployeeId_idem raw :
  normalizeEmployeeId (normalizeEmployeeId raw) = normalizeEmployeeId raw.
Proof.
  rewrite (IdFacts.normalizeEmployeeId_closed (normalizeEmployeeId raw)).
  rewrite (IdFacts.removeWhiteSpace_clean _ (normalizeEmployeeId_spaces raw)).
  rewrite normalizeEmployeeId_upper.
  rewrite IdFacts.normalizeEmployeeId_closed.
  apply IdFacts.repairUpper_idem.
Qed.

Section Rows.
Variable tz : Z.
Variable Date_parse : string -> option Z.
Variable parseFloat : string -> option Q.

Lemma rows_forall (P : RawPunchRecord -> Prop) cm :
  (forall values r,
      parseRow tz Date_parse parseFloat values cm = Some r -> P r) ->
  forall lines, Forall P (parseCSV_rows tz Date_parse parseFloat lines cm).
Proof.
  intros HP lines. induction lines as [|l rest IH]; [constructor|].
  cbn [parseCSV_rows]. cbv zeta.
  destruct (negb (truthy (trim l))); [exact IH|].
  destruct (parseRow _ _ _ _ _) as [r|] eqn:E; [|exact IH].
  constructor; [eapply HP; eauto|exact IH].
Qed.

Lemma rows_nil cm :
  (forall values, parseRow tz Date_parse parseFloat values cm = None) ->
  forall lines, parseCSV_rows tz Date_parse parseFloat lines cm = [].
Proof.
  intros HP lines. induction lines as [|l rest IH]; [reflexivity|].
  cbn [parseCSV_rows]. cbv zeta.
  destruct (negb (truthy (trim l))); [exact IH|]. now rewrite HP.
Qed.

Lemma rows_length cm lines :
  (List.length (parseCSV_rows tz Date_parse parseFloat lines cm)
   <= List.length (filter (fun l => truthy (trim l)) lines))%nat.
Proof.
  induction lines as [|l rest IH]; [apply Nat.le_refl|].
  cbn [parseCSV_rows filter]. cbv zeta.
  destruct (truthy (trim l)); cbn [negb]; [|exact IH].
  destruct (parseRow _ _ _ _ _); cbn [List.length]; lia.
Qed.

Lemma parseCSV_cases csvText :
  parseCSV tz Date_parse parseFloat csvText = []
  \/ parseCSV tz Date_parse parseFloat csvText =
     parseCSV_rows tz Date_parse parseFloat
       (tl (splitLines csvText EmptyString)) (columnMapOf (headersOf csvText)).
Proof.
  unfold parseCSV, headersOf.
  destruct (splitLines csvText EmptyString) as [|header [|row rows]];
    [now left|now left|now right].
Qed.

Lemma parseCSV_forall (P : RawPunchRecord -> Prop) csvText :
  (forall values r,
      parseRow tz Date_parse parseFloat values
               (columnMapOf (headersOf csvText)) = Some r -> P r) ->
  Forall P (parseCSV tz Date_parse parseFloat csvText).
Proof.
  intros HP. destruct (parseCSV_cases csvText) as [-> | ->];
    [constructor|now apply rows_forall].
Qed.

Lemma field_absent values i : i = -1 -> field values i = EmptyString.
Proof. intros ->. reflexivity. Qed.

Lemma parseRow_fields values cm r :
  parseRow tz Date_parse parseFloat values cm = Some r ->
  truthy (field values (col_name cm)) = true
  /\ truthy (field values (col_timestamp cm)) = true
  /\ name r = trim (field values (col_name cm))
  /\ employeeId r = normalizeEmployeeId (field values (col_employeeId cm))
  /\ employeeId r <> EmptyString
  /\ punchType r =
     (if includes "out" (toLowerCase (field values (col_punchType cm)))
      then PunchOut else PunchIn)
  /\ location r = field values (col_location cm)
  /\ manualLocation r = field values (col_manualLocation cm)
  /\ distanceMeters r =
     (if truthy (field values (col_distance cm))
      then parseFloat (field values (col_distance cm)) else None).
Proof.
  unfold parseRow.
  destruct (truthy (field values (col_name cm))); [|discriminate].
  destruct (truthy (normalizeEmployeeId (field values (col_employeeId cm))))
    eqn:Eid; [|discriminate].
  destruct (truthy (field values (col_timestamp cm))); cbn [negb orb];
    [|discriminate].
  destruct (parseTimestamp _ _ _); [|discriminate].
  intros [= <-]. cbn. repeat split.
  intros Hid. rewrite Hid in Eid. discriminate.
Qed.

End Rows.

Lemma indexOf_spec headers x : forall i,
  (indexOf headers x i = -1 /\ ~ In x headers)
  \/ (exists n, indexOf headers x i = i + Z.of_nat n
                /\ nth_error headers n = Some x
                /\ forall m, (m < n)%nat -> nth_error headers m <> Some x).
Proof.
  induction headers as [|h headers IH]; intros i; [left; split; auto|].
  cbn [indexOf]. destruct (String.eqb h x) eqn:E.
  - apply String.eqb_eq in E. subst h. right. exists 0%nat.
    split; [cbn; lia|]. split; [reflexivity|]. intros m Hm. lia.
  - apply String.eqb_neq in E.
    destruct (IH (i + 1)) as [[Hi Hn] | [n [Hi [Hn Hfirst]]]].
    + left. split; [exact Hi|]. intros [H|H]; [congruence|auto].
    + right. exists (S n). split; [lia|]. split; [exact Hn|].
      intros [|m] Hm; cbn [nth_error]; [congruence|]. apply Hfirst. lia.
Qed.

End ParserFacts.

(** X5: the shape of a normalised employee ID.  It holds no white
    space, is in upper case, never starts with the misspelt prefix LYLB in
    any letter case, and is empty exactly when the raw text is empty or
    all white space. *)
Theorem normalized_id_shape (raw : string) :
  let id := normalizeEmployeeId raw in
  sall notSpace id = true
  /\ JS.toUpperCase id = id
  /\ startsWithLYLB id = false
  /\ (id = EmptyString <-> sall JS.isWhiteSpace raw = true).
Proof.
  cbv zeta. split; [apply ParserFacts.normalizeEmployeeId_spaces|].
  split; [apply ParserFacts.normalizeEmployeeId_upper|].
  split; [|apply ParserFacts.normalizeEmployeeId_empty].
  unfold startsWithLYLB. rewrite ParserFacts.normalizeEmployeeId_upper.
  rewrite IdFacts.normalizeEmployeeId_closed.
  apply ParserFacts.startsWith_repairUpper.
Qed.

(** X6: what [parseCSV] hands on.  Every record has an employee ID that
    is not empty and is already in normal form (normalising it again
    changes nothing), and a name without surrounding white space; and
    there is at most one record per non-blank line after the header. *)
Theorem parsed_records_normalised (tz : Z) (Date_parse : string -> option Z)
        (parseFloat : string -> option Q) (csvText : string) :
  let records := parseCSV tz Date_parse parseFloat csvText in
  Forall (fun r => employeeId r <> EmptyString
                   /\ normalizeEmployeeId (employeeId r) = employeeId r
                   /\ trimmed (name r)) records
  /\ (List.length records <= List.length (dataLines csvText))%nat.
Proof.
  cbv zeta. split.
  - apply ParserFacts.parseCSV_forall. intros values r Hr.
    apply ParserFacts.parseRow_fields in Hr.
    destruct Hr as (_ & _ & Hname & Hid & Hne & _).
    split; [exact Hne|]. split.
    + rewrite Hid. apply ParserFacts.normalizeEmployeeId_idem.
    + unfold trimmed. rewrite Hname. apply RowFacts.trim_idem.
  - destruct (ParserFacts.parseCSV_cases tz Date_parse parseFloat csvText)
      as [-> | ->]; [apply Nat.le_0_l|].
    apply ParserFacts.rows_length.
Qed.

(** X7: [findColumnIndex] returns [-1] exactly when no synonym, in lower
    case, is among the headers.  Otherwise it returns the position of the
    first occurrence of the first synonym that is among them: earlier
    synonyms are absent, and the header does not occur at a smaller
    position. *)
Theorem findColumnIndex_spec (headers possibleNames : list string) :
  let i := findColumnIndex headers possibleNames in
  (i = -1
   /\ Forall (fun n => ~ In (JS.toLowerCase n) headers) possibleNames)
  \/ (exists earlier n later,
        possibleNames = earlier ++ n :: later
        /\ Forall (fun p => ~ In (JS.toLowerCase p) headers) earlier
        /\ 0 <= i < Z.of_nat (List.length headers)
        /\ JS.index headers i = Some (JS.toLowerCase n)
        /\ forall j, 0 <= j < i ->
                     JS.index headers j <> Some (JS.toLowerCase n)).
Proof.
  cbv zeta. induction possibleNames as [|n rest IH].
  - left. split; [reflexivity|constructor].
  - cbn [findColumnIndex]. cbv zeta.
    destruct (ParserFacts.indexOf_spec headers (JS.toLowerCase n) 0)
      as [[Hi Hn] | [k [Hi [Hk Hfirst]]]].
    + rewrite Hi. cbn [Z.eqb negb].
      destruct IH as [[Hr Hall] | (earlier & x & later & Hsplit & Hpre & Hrest)].
      * left. split; [exact Hr|]. now constructor.
      * right. exists (n :: earlier), x, later.
        split; [now rewrite Hsplit|]. split; [now constructor|exact Hrest].
    + rewrite Hi. cbn [Z.add].
      assert (Hlen : (k < List.length headers)%nat)
        by (apply nth_error_Some; congruence).
      replace (Z.of_nat k =? -1) with false by (symmetry; apply Z.eqb_neq; lia).
      cbn [negb]. right. exists [], n, rest.
      split; [reflexivity|]. split; [constructor|]. split; [lia|].
      unfold JS.index. split.
      * replace (Z.of_nat k <? 0) with false by (symmetry; apply Z.ltb_ge; lia).
        now rewrite Nat2Z.id.
      * intros j Hj.
        replace (j <? 0) with false by (symmetry; apply Z.ltb_ge; lia).
        apply Hfirst. lia.
Qed.

(** X8: what a missing column does.  When the header has no column for
    the name, the employee ID or the timestamp (the column index is
    [-1]), [parseCSV] returns no record at all.  A missing punch-type
    column makes every record a Punch In; a missing distance column
    leaves every distance absent; missing location columns leave the
    location texts empty. *)
Theorem missing_columns (tz : Z) (Date_parse : string -> option Z)
        (parseFloat : string -> option Q) (csvText : string) :
  let cm := columnMapOf (headersOf csvText) in
  let records := parseCSV tz Date_parse parseFloat csvText in
  (col_name cm = -1 \/ col_employeeId cm = -1 \/ col_timestamp cm = -1 ->
   records = [])
  /\ (col_punchType cm = -1 ->
      Forall (fun r => punchType r = PunchIn) records)
  /\ (col_distance cm = -1 ->
      Forall (fun r => distanceMeters r = None) records)
  /\ (col_location cm = -1 ->
      Forall (fun r => location r = EmptyString) records)
  /\ (col_manualLocation cm = -1 ->
      Forall (fun r => manualLocation r = EmptyString) records).
Proof.
  cbv zeta. split; [|repeat split].
  - intros H.
    destruct (ParserFacts.parseCSV_cases tz Date_parse parseFloat csvText)
      as [-> | ->]; [reflexivity|].
    apply ParserFacts.rows_nil. intros values.
    destruct (parseRow tz Date_parse parseFloat values
                (columnMapOf (headersOf csvText))) as [r|] eqn:E;
      [|reflexivity].
    apply ParserFacts.parseRow_fields in E.
    destruct E as (Hname & Htime & _ & Hid & Hne & _).
    destruct H as [H | [H | H]].
    + rewrite (ParserFacts.field_absent values _ H) in Hname. discriminate.
    + rewrite (ParserFacts.field_absent values _ H) in Hid.
      now contradiction Hne.
    + rewrite (ParserFacts.field_absent values _ H) in Htime. discriminate.
  - intros H. apply ParserFacts.parseCSV_forall. intros values r Hr.
    apply ParserFacts.parseRow_fields in Hr.
    destruct Hr as (_ & _ & _ & _ & _ & Hr & _).
    now rewrite Hr, (ParserFacts.field_absent values _ H).
  - intros H. apply ParserFacts.parseCSV_forall. intros values r Hr.
    apply ParserFacts.parseRow_fields in Hr.
    destruct Hr as (_ & _ & _ & _ & _ & _ & _ & _ & Hr).
    now rewrite Hr, (ParserFacts.field_absent values _ H).
  - intros H. apply ParserFacts.parseCSV_forall. intros values r Hr.
    apply ParserFacts.parseRow_fields in Hr.
    destruct Hr as (_ & _ & _ & _ & _ & _ & Hr & _).
    now rewrite Hr, (ParserFacts.field_absent values _ H).
  - intros H. apply ParserFacts.parseCSV_forall. intros values r Hr.
    apply ParserFacts.parseRow_fields in Hr.
    destruct Hr as (_ & _ & _ & _ & _ & _ & _ & Hr & _).
    now rewrite Hr, (ParserFacts.field_absent values _ H).
Qed.

Lemma missing_columns_witness :
  Forall (fun r => punchType r = PunchIn)
         (parseCSV Samples.utc RowSamples.noDate RowSamples.distance25
            SheetSamples.threeColumns)
  /\ Forall (fun r => distanceMeters r = None)
            (parseCSV Samples.utc RowSamples.noDate RowSamples.distance25
               SheetSamples.threeColumns).
Proof.
  destruct (missing_columns Samples.utc RowSamples.noDate RowSamples.distance25
              SheetSamples.threeColumns) as (_ & Htype & Hdistance & _).
  split; [apply Htype|apply Hdistance]; reflexivity.
Defined.

Module TimestampFacts.
Import JS.
Local Open Scope string_scope.

Lemma digit_notSpace c : isDigit c = true -> isWhiteSpace c = false.
Proof.
  destruct c as [[] [] [] [] [] [] [] []]; intros H;
    solve [reflexivity | discriminate H].
Qed.

Lemma ddmmMatch_at s m : ddmmMatchAt s = Some m -> ddmmMatch s = Some m.
Proof. intros H. destruct s; cbn [ddmmMatch]; now rewrite H. Qed.

(** One or two digits, as characters. *)
Lemma digitsOf_1_2 s :
  digitsOf 1 2 s ->
  (exists a, s = String a EmptyString /\ isDigit a = true)
  \/ (exists a b, s = String a (String b EmptyString)
                  /\ isDigit a = true /\ isDigit b = true).
Proof.
  intros [Hd Hl]. destruct s as [|a [|b [|c s]]]; cbn in Hl; try lia.
  - left. exists a. cbn [sall] in Hd. rewrite andb_true_r in Hd. auto.
  - right. exists a, b. cbn [sall] in Hd. rewrite andb_true_r in Hd.
    apply andb_prop in Hd. destruct Hd. auto.
Qed.

Lemma digitsOf_2 s :
  digitsOf 2 2 s ->
  exists a b, s = String a (String b EmptyString)
              /\ isDigit a = true /\ isDigit b = true.
Proof.
  intros [Hd Hl]. destruct s as [|a [|b [|c s]]]; cbn in Hl; try lia.
  exists a, b. cbn [sall] in Hd. rewrite andb_true_r in Hd.
  apply andb_prop in Hd. destruct Hd. auto.
Qed.

Lemma digitsOf_4 s :
  digitsOf 4 4 s ->
  exists a b c d, s = String a (String b (String c (String d EmptyString)))
              /\ isDigit a = true /\ isDigit b = true
              /\ isDigit c = true /\ isDigit d = true.
Proof.
  intros [Hd Hl]. destruct s as [|a [|b [|c [|d [|e s]]]]]; cbn in Hl; try lia.
  exists a, b, c, d. cbn [sall] in Hd. rewrite andb_true_r in Hd.
  apply andb_prop in Hd. destruct Hd as [Ha Hd].
  apply andb_prop in Hd. destruct Hd as [Hb Hd].
  apply andb_prop in Hd. destruct Hd as [Hc Hd]. auto 10.
Qed.

(** One or two digits followed by a character that is not a digit. *)
Lemma digits1or2_then {T} s sep rest (k : string -> string -> option T) :
  digitsOf 1 2 s -> isDigit sep = false ->
  k s (String sep rest) <> None ->
  digits1or2 (s ++ String sep rest) k = k s (String sep rest).
Proof.
  intros Hs Hsep Hk.
  destruct (digitsOf_1_2 s Hs) as [(a & -> & Ha) | (a & b & -> & Ha & Hb)];
    cbn [append digits1or2]; rewrite ?Ha, ?Hb, ?Hsep; [reflexivity|].
  destruct (k (String a (String b EmptyString)) (String sep rest));
    [reflexivity|congruence].
Qed.

Lemma digitsExactly_2 {T} s rest (k : string -> string -> option T) :
  digitsOf 2 2 s ->
  digitsExactly 2 EmptyString (s ++ rest) k = k s rest.
Proof.
  intros Hs. destruct (digitsOf_2 s Hs) as (a & b & -> & Ha & Hb).
  cbn [append digitsExactly]. now rewrite Ha, Hb.
Qed.

Lemma digitsExactly_4 {T} s rest (k : string -> string -> option T) :
  digitsOf 4 4 s ->
  digitsExactly 4 EmptyString (s ++ rest) k = k s rest.
Proof.
  intros Hs.
  destruct (digitsOf_4 s Hs) as (a & b & c & d & -> & Ha & Hb & Hc & Hd).
  cbn [append digitsExactly]. now rewrite Ha, Hb, Hc, Hd.
Qed.

(** One blank before a digit. *)
Lemma spaces1_one {T} s rest (k : string -> option T) :
  digitsOf 1 2 s ->
  spaces1 (String " " (s ++ rest)) k = k (s ++ rest).
Proof.
  intros Hs. cbn [spaces1]. change (isWhiteSpace " ") with true. cbv iota.
  assert (Hnone : spaces1 (s ++ rest) k = None).
  { destruct (digitsOf_1_2 s Hs) as [(a & -> & Ha) | (a & b & -> & Ha & Hb)];
      cbn [append spaces1]; now rewrite (digit_notSpace a Ha). }
  now rewrite Hnone.
Qed.

Lemma optionalSeconds_text second :
  match second with Some s => digitsOf 2 2 s | None => True end ->
  optionalSeconds
    match second with
    | Some s => (":" ++ s)%string
    | None => EmptyString
    end = second.
Proof.
  destruct second as [s|]; [|reflexivity]. intros Hs.
  destruct (digitsOf_2 s Hs) as (a & b & -> & Ha & Hb).
  unfold optionalSeconds. cbn. now rewrite Ha, Hb.
Qed.

Lemma isoPrefix_ddmm s rest :
  digitsOf 1 2 s -> isoPrefix (s ++ String "/" rest) = false.
Proof.
  intros Hs. unfold isoPrefix.
  destruct (digitsOf_1_2 s Hs) as [(a & -> & Ha) | (a & b & -> & Ha & Hb)];
    cbn [append digitsExactly]; rewrite ?Ha, ?Hb;
    change (isDigit "/") with false; reflexivity.
Qed.

Lemma ddmmMatchAt_text day month year hour minute second :
  digitsOf 1 2 day -> digitsOf 1 2 month -> digitsOf 4 4 year ->
  digitsOf 1 2 hour -> digitsOf 2 2 minute ->
  match second with Some s => digitsOf 2 2 s | None => True end ->
  ddmmMatchAt (ddmmText day month year hour minute second)
  = Some (day, month, year, hour, minute, second).
Proof.
  intros Hday Hmonth Hyear Hhour Hminute Hsecond.
  unfold ddmmMatchAt, ddmmText.
  assert (Hlast :
    digits1or2 (hour ++ ":" ++ minute
                ++ match second with
                   | Some s => ":" ++ s
                   | None => EmptyString
                   end)%string
      (fun hour0 s7 =>
         literal ":" s7 (fun s8 =>
         digitsExactly 2 EmptyString s8 (fun minute0 s9 =>
         Some (day, month, year, hour0, minute0, optionalSeconds s9))))
    = Some (day, month, year, hour, minute, second)).
  { change (":" ++ minute ++ ?x)%string with (String ":" (minute ++ x)).
    assert (Hk : literal ":" (String ":" (minute ++
                   match second with
                   | Some s => (":" ++ s)%string
                   | None => EmptyString
                   end))
               (fun s8 => digitsExactly 2 EmptyString s8 (fun minute0 s9 =>
                  Some (day, month, year, hour, minute0, optionalSeconds s9)))
             = Some (day, month, year, hour, minute, second)).
    { cbn [literal]. change (Ascii.eqb ":" ":") with true. cbv iota.
      rewrite digitsExactly_2 by exact Hminute.
      now rewrite optionalSeconds_text. }
    rewrite digits1or2_then; [exact Hk|exact Hhour|reflexivity|].
    cbv beta. rewrite Hk. discriminate. }
  assert (Hyearpart :
    literal "/" (String "/" (year ++ " " ++ hour ++ ":" ++ minute
                ++ match second with
                   | Some s => ":" ++ s
                   | None => EmptyString
                   end))%string
      (fun s4 =>
         digitsExactly 4 EmptyString s4 (fun year0 s5 =>
         spaces1 s5 (fun s6 =>
         digits1or2 s6 (fun hour0 s7 =>
         literal ":" s7 (fun s8 =>
         digitsExactly 2 EmptyString s8 (fun minute0 s9 =>
         Some (day, month, year0, hour0, minute0, optionalSeconds s9)))))))
    = Some (day, month, year, hour, minute, second)).
  { cbn [literal]. change (Ascii.eqb "/" "/") with true. cbv iota.
    rewrite digitsExactly_4 by exact Hyear.
    change (" " ++ hour ++ ?x)%string with (String " " (hour ++ x)).
    rewrite spaces1_one by exact Hhour. exact Hlast. }
  assert (Hmonthpart :
    literal "/" (String "/" (month ++ "/" ++ year ++ " " ++ hour ++ ":"
                ++ minute
                ++ match second with
                   | Some s => ":" ++ s
                   | None => EmptyString
                   end))%string
      (fun s2 =>
         digits1or2 s2 (fun month0 s3 =>
         literal "/" s3 (fun s4 =>
         digitsExactly 4 EmptyString s4 (fun year0 s5 =>
         spaces1 s5 (fun s6 =>
         digits1or2 s6 (fun hour0 s7 =>
         literal ":" s7 (fun s8 =>
         digitsExactly 2 EmptyString s8 (fun minute0 s9 =>
         Some (day, month0, year0, hour0, minute0, optionalSeconds s9)))))))))
    = Some (day, month, year, hour, minute, second)).
  { cbn [literal]. change (Ascii.eqb "/" "/") with true. cbv iota.
    change ("/" ++ year ++ ?x)%string with (String "/" (year ++ x)).
    rewrite digits1or2_then; [exact Hyearpart|exact Hmonth|reflexivity|].
    cbv beta. rewrite Hyearpart. discriminate. }
  change ("/" ++ month ++ ?x)%string with (String "/" (month ++ x)).
  rewrite digits1or2_then; [exact Hmonthpart|exact Hday|reflexivity|].
  cbv beta. rewrite Hmonthpart. discriminate.
Qed.

End TimestampFacts.

(** X9: [parseTimestamp] on the sheet's own format.  For a text
    [D/M/YYYY H:MM] or [D/M/YYYY H:MM:SS] (day, month and hour of one or
    two digits), the result is the local date built from the numbers
    read, with seconds 0 when they are not given, provided the day is
    1..31 and the month 1..12; otherwise the text is rejected, whatever
    the built-in date parser would make of it. *)
Theorem parseTimestamp_sheet_format (tz : Z) (Date_parse : string -> option Z)
        (day month year hour minute : string) (second : option string) :
  digitsOf 1 2 day -> digitsOf 1 2 month -> digitsOf 4 4 year ->
  digitsOf 1 2 hour -> digitsOf 2 2 minute ->
  match second with Some s => digitsOf 2 2 s | None => True end ->
  let d := numberOfDigits 0 day in
  let m := numberOfDigits 0 month in
  parseTimestamp tz Date_parse (ddmmText day month year hour minute second)
  = if (1 <=? d) && (d <=? 31) && (1 <=? m) && (m <=? 12)
    then Some (JS.Date_local tz (numberOfDigits 0 year) (m - 1) d
                 (numberOfDigits 0 hour) (numberOfDigits 0 minute)
                 match second with
                 | Some s => numberOfDigits 0 s
                 | None => 0
                 end)
    else None.
Proof.
  intros Hday Hmonth Hyear Hhour Hminute Hsecond d m.
  unfold parseTimestamp.
  assert (Htruthy : JS.truthy (ddmmText day month year hour minute second)
                    = true).
  { unfold ddmmText.
    destruct (TimestampFacts.digitsOf_1_2 day Hday)
      as [(a & -> & _) | (a & b & -> & _)]; reflexivity. }
  rewrite Htruthy. cbn [negb].
  rewrite (TimestampFacts.ddmmMatch_at _ _
             (TimestampFacts.ddmmMatchAt_text day month year hour minute
                second Hday Hmonth Hyear Hhour Hminute Hsecond)).
  fold d m.
  destruct ((1 <=? d) && (d <=? 31) && (1 <=? m) && (m <=? 12)).
  - destruct second; reflexivity.
  - unfold parseTimestamp_iso, ddmmText.
    change ("/" ++ month ++ ?x)%string with (String "/" (month ++ x)).
    now rewrite TimestampFacts.isoPrefix_ddmm.
Qed.

Lemma parseTimestamp_sheet_format_witness :
  parseTimestamp 19800000 (fun _ => None)
    (ddmmText "29" "1" "2026" "9" "05" None)
  = Some (JS.Date_local 19800000 2026 0 29 9 5 0).
Proof.
  apply (parseTimestamp_sheet_format 19800000 (fun _ => None)
           "29" "1" "2026" "9" "05" None);
    try (split; [reflexivity|cbn; lia]).
  exact I.
Defined.

(* ================================================================== *)
(** * Further properties of the pairing loop and the KPIs *)
(* ================================================================== *)

Module PairingFacts.
Import JS JSFacts MapFacts FifoFacts.

Lemma list_sum_cons x l : list_sum (x :: l) = (x + list_sum l)%nat.
Proof. reflexivity. Qed.

Lemma entries_by_key {V} (f : string -> V) (m : Map V) :
  (forall k v, In (k, v) m -> v = f k) ->
  m = map (fun k => (k, f k)) (map fst m).
Proof.
  induction m as [|[k v] m IH]; intros H; [reflexivity|].
  cbn [map fst]. rewrite <- IH by (intros; apply H; now right).
  now rewrite (H k v (or_introl eq_refl)).
Qed.

(** The grouping by employee, entry by entry. *)
Lemma groupByEmployee_entries punches :
  groupByEmployee punches =
  map (fun id => (id, filter (keyIs employeeId id) punches))
      (firstAppearance (map employeeId punches)).
Proof.
  rewrite <- WorkloadFacts.groupByEmployee_keys.
  apply entries_by_key. intros k v Hin.
  rewrite groupByEmployee_groupFold in Hin.
  now apply groupFold_entries in Hin.
Qed.

Lemma unansweredIns_skip l : forall n out,
  nth_error l n = Some out -> isPunchOut out = true ->
  unansweredIns l = unansweredIns (skipn (S n) l).
Proof.
  induction l as [|p l IH]; intros n out Hn Hout; [now destruct n|].
  assert (He : existsb isPunchOut (p :: l) = true).
  { apply existsb_exists. exists out. split; [|exact Hout].
    eapply nth_error_In; eauto. }
  cbn [unansweredIns]. rewrite He.
  destruct n as [|n]; [reflexivity|]. cbn [nth_error] in Hn.
  cbn [skipn]. now apply (IH n out).
Qed.

Lemma unansweredIns_no_out l :
  existsb isPunchOut l = false -> unansweredIns l = List.length l.
Proof.
  induction l as [|p l IH]; intros H; [reflexivity|].
  cbn [unansweredIns List.length]. rewrite H.
  cbn [existsb] in H. apply orb_false_iff in H. now rewrite IH.
Qed.

Lemma unansweredIns_le l :
  (unansweredIns l <= List.length (filter isPunchIn l))%nat.
Proof.
  induction l as [|p l IH]; [apply Nat.le_refl|].
  cbn [unansweredIns filter].
  destruct (existsb isPunchOut (p :: l)) eqn:E.
  - destruct (isPunchIn p); cbn [List.length]; lia.
  - cbn [existsb] in E. apply orb_false_iff in E. destruct E as [Ep _].
    rewrite SessionFacts.isPunchIn_not_out, Ep. cbn [negb List.length]. lia.
Qed.

Lemma filter_Permutation {A} (f : A -> bool) (l l' : list A) :
  Permutation l l' -> Permutation (filter f l) (filter f l').
Proof.
  induction 1 as [|x l l' _ IH|x y l|l l' l'' _ IH1 _ IH2].
  - constructor.
  - cbn [filter]. destruct (f x); [now constructor|exact IH].
  - cbn [filter]. destruct (f x), (f y); try reflexivity. apply perm_swap.
  - now transitivity (filter f l').
Qed.

(** What the loop adds to a counter that only the open branch
    increments. *)
Section Opens.
Context {State : Type}.
Variable onPair : RawPunchRecord -> RawPunchRecord -> State -> State.
Variable onOpen : RawPunchRecord -> State -> State.
Variable onOut : nat -> RawPunchRecord -> State -> State.
Variable opens : State -> Z.
Hypothesis opens_pair : forall p out st, opens (onPair p out st) = opens st.
Hypothesis opens_open : forall p st, opens (onOpen p st) = opens st + 1.
Hypothesis opens_out : forall i p st, opens (onOut i p st) = opens st.
Variable sorted : list RawPunchRecord.

Lemma fifoLoop_opens fuel : forall i st,
  (List.length sorted - i <= fuel)%nat ->
  opens (fifoLoop onPair onOpen onOut fuel sorted i st) =
  opens st + Z.of_nat (unansweredIns (skipn i sorted)).
Proof.
  induction fuel as [|fuel IH]; intros i st Hfuel.
  - rewrite skipn_all2 by lia. cbn. lia.
  - cbn [fifoLoop]. destruct (nth_error sorted i) as [punch|] eqn:E.
    2:{ apply nth_error_None in E. rewrite skipn_all2 by lia. cbn. lia. }
    pose proof (nth_error_lt _ _ _ E) as Hi.
    rewrite (SessionFacts.skipn_nth _ _ _ E). cbn [unansweredIns].
    rewrite Nat.add_1_r.
    destruct (isPunchIn punch) eqn:Ein.
    + destruct (findPunchOut sorted (S i)) as [[j out]|] eqn:F.
      * apply findPunchOut_Some in F. destruct F as (Hj & Hn & Ho & _).
        rewrite IH, opens_pair by lia.
        assert (He : existsb isPunchOut (punch :: skipn (S i) sorted) = true).
        { cbn [existsb].
          rewrite (SessionFacts.existsb_nth_skipn isPunchOut sorted (S i) j out)
            by auto.
          apply orb_true_r. }
        rewrite He.
        rewrite (unansweredIns_skip (skipn (S i) sorted) (j - S i) out);
          [|rewrite nth_error_skipn; now replace (S i + (j - S i))%nat with j by lia
           |exact Ho].
        rewrite skipn_skipn.
        now replace (S (j - S i) + S i)%nat with (j + 1)%nat by lia.
      * apply findPunchOut_None in F.
        assert (He : existsb isPunchOut (punch :: skipn (S i) sorted) = false).
        { cbn [existsb]. rewrite F.
          rewrite SessionFacts.isPunchIn_not_out in Ein.
          apply negb_true_iff in Ein. now rewrite Ein. }
        rewrite He, IH, opens_open by lia. lia.
    + assert (He : existsb isPunchOut (punch :: skipn (S i) sorted) = true).
      { cbn [existsb]. rewrite SessionFacts.isPunchIn_not_out in Ein.
        apply negb_false_iff in Ein. now rewrite Ein. }
      rewrite He, IH, opens_out by lia. reflexivity.
Qed.
End Opens.

Lemma Qdiv_nonneg n d :
  0 <= n -> 0 < d -> (0 <= inject_Z n / inject_Z d)%Q.
Proof.
  intros Hn Hd. apply Qle_shift_div_l.
  - unfold Qlt. cbn. lia.
  - rewrite Qmult_0_l. unfold Qle. cbn. lia.
Qed.

Lemma Qplus_nonneg a b : (0 <= a -> 0 <= b -> 0 <= a + b)%Q.
Proof.
  intros Ha Hb. apply (Qle_trans _ (0 + 0)); [discriminate|].
  now apply Qplus_le_compat.
Qed.

(** One employee's turn in [calculateWorkingHours]. *)
Lemma hours_turn group acc :
  let r :=
    fifo
      (fun punch out '(totalMinutes, openSessions) =>
         let duration := timestamp out - timestamp punch in
         (totalMinutes + inject_Z duration / inject_Z (1000 * 60),
          openSessions)%Q)
      (fun _ '(totalMinutes, openSessions) =>
         (totalMinutes, openSessions + 1))
      (fun _ _ acc => acc)
      (sortByTimestamp group) acc in
  snd r = snd acc + Z.of_nat (unansweredIns (sortByTimestamp group))
  /\ ((0 <= fst acc)%Q -> (0 <= fst r)%Q)
  /\ (existsb isPunchOut group = false -> fst r = fst acc).
Proof.
  cbv zeta. unfold fifo. split; [|split].
  - rewrite (fifoLoop_opens _ _ _ snd); try lia; try reflexivity.
    + now intros p out [a b].
    + now intros p [a b].
  - intros Hacc.
    apply (fifoLoop_invariant _ _ _ _ (fun st => (0 <= fst st)%Q));
      [| | |exact Hacc].
    + intros i j punch out [a b] Hij Hi Hj _ _ Hst. cbn [fst] in *.
      apply Qplus_nonneg; [exact Hst|].
      apply Qdiv_nonneg; [|reflexivity].
      pose proof (StronglySorted_nth _ _
                    (RepositoryFacts.sortByTimestamp_sorted group)
                    i j punch out Hij Hi Hj) as Hle.
      cbv beta in Hle. lia.
    + now intros i punch [a b] _ _ Hst.
    + now intros i punch st _ _ Hst.
  - intros Hno.
    apply (fifoLoop_invariant _ _ _ _ (fun st => fst st = fst acc));
      [| | |reflexivity].
    + intros i j punch out st _ _ Hj _ Hout _. exfalso.
      apply nth_error_In in Hj. apply sort_In in Hj.
      assert (He : existsb isPunchOut group = true)
        by (apply existsb_exists; eauto).
      congruence.
    + now intros i punch [a b] _ _ Hst.
    + now intros i punch st _ _ Hst.
Qed.

Lemma hours_turns (m : Map (list RawPunchRecord)) : forall acc,
  let r :=
    fold_left
      (fun acc entry =>
         let sorted := sortByTimestamp (snd entry) in
         fifo
           (fun punch out '(totalMinutes, openSessions) =>
              let duration := timestamp out - timestamp punch in
              (totalMinutes + inject_Z duration / inject_Z (1000 * 60),
               openSessions)%Q)
           (fun _ '(totalMinutes, openSessions) =>
              (totalMinutes, openSessions + 1))
           (fun _ _ acc => acc)
           sorted acc)
      m acc in
  snd r = snd acc
          + Z.of_nat (list_sum (map (fun entry =>
                                       unansweredIns (sortByTimestamp (snd entry)))
                                    m))
  /\ ((0 <= fst acc)%Q -> (0 <= fst r)%Q)
  /\ (Forall (fun entry => existsb isPunchOut (snd entry) = false) m ->
      fst r = fst acc).
Proof.
  induction m as [|entry m IH]; intros acc; cbv zeta.
  - cbn. split; [lia|]. split; auto.
  - cbn [fold_left map]. rewrite ?list_sum_cons.
    destruct (hours_turn (snd entry) acc) as (Hs & Hf & Hn).
    cbv zeta in Hs, Hf, Hn.
    match goal with
    | |- context [fold_left ?step m ?acc1] =>
        destruct (IH acc1) as (Hs' & Hf' & Hn')
    end.
    cbv zeta in Hs', Hf', Hn'.
    split; [|split].
    + rewrite Hs', Hs. lia.
    + intros Hacc. apply Hf', Hf, Hacc.
    + intros Hall. inversion Hall as [|? ? He Hm]; subst.
      rewrite Hn' by exact Hm. now apply Hn.
Qed.

Lemma list_sum_le {A} (f g : A -> nat) (l : list A) :
  (forall x, In x l -> (f x <= g x)%nat) ->
  (list_sum (map f l) <= list_sum (map g l))%nat.
Proof.
  induction l as [|x l IH]; intros H; [apply Nat.le_refl|].
  cbn [map]. rewrite ?list_sum_cons.
  pose proof (H x (or_introl eq_refl)).
  assert (list_sum (map f l) <= list_sum (map g l))%nat
    by (apply IH; intros; apply H; now right).
  lia.
Qed.

Lemma list_sum_ext {A} (f g : A -> nat) (l : list A) :
  (forall x, In x l -> f x = g x) ->
  list_sum (map f l) = list_sum (map g l).
Proof.
  induction l as [|x l IH]; intros H; [reflexivity|].
  cbn [map]. rewrite ?list_sum_cons. rewrite (H x (or_introl eq_refl)).
  rewrite IH; [reflexivity|]. intros; apply H; now right.
Qed.

(** The sizes of the groups add up to the size of the input. *)
Lemma update_total (P : RawPunchRecord -> bool) k r :
  forall m : Map (list RawPunchRecord),
  Map_has m k = true ->
  list_sum (map (fun e => List.length (filter P (snd e)))
                (Map_update m k (fun arr => arr ++ [r]))) =
  (list_sum (map (fun e => List.length (filter P (snd e))) m)
   + List.length (filter P [r]))%nat.
Proof.
  unfold Map_has. induction m as [|[k' v] m IH]; intros Hhas; [discriminate|].
  cbn [Map_update Map_get] in *. destruct (String.eqb k' k).
  - cbn [map snd]. rewrite ?list_sum_cons. rewrite filter_app, length_app. lia.
  - cbn [map snd]. rewrite ?list_sum_cons. rewrite IH by exact Hhas. lia.
Qed.

Lemma set_total (P : RawPunchRecord -> bool) k :
  forall m : Map (list RawPunchRecord),
  Map_has m k = false ->
  list_sum (map (fun e => List.length (filter P (snd e))) (Map_set m k [])) =
  list_sum (map (fun e => List.length (filter P (snd e))) m).
Proof.
  unfold Map_has. induction m as [|[k' v] m IH]; intros Hhas; [reflexivity|].
  cbn [Map_set Map_get] in *. destruct (String.eqb k' k); [discriminate|].
  cbn [map snd]. rewrite ?list_sum_cons. now rewrite IH.
Qed.

Lemma pushTo_total (P : RawPunchRecord -> bool) m k r :
  list_sum (map (fun e => List.length (filter P (snd e))) (pushTo m k r)) =
  (list_sum (map (fun e => List.length (filter P (snd e))) m)
   + List.length (filter P [r]))%nat.
Proof.
  unfold pushTo. destruct (Map_has m k) eqn:E; cbn [negb].
  - now apply update_total.
  - rewrite update_total, set_total; [reflexivity|exact E|].
    unfold Map_has. now rewrite Map_get_set_same.
Qed.

Lemma groupFold_total (P : RawPunchRecord -> bool) key l : forall m,
  list_sum (map (fun e => List.length (filter P (snd e))) (groupFold key l m)) =
  (list_sum (map (fun e => List.length (filter P (snd e))) m)
   + List.length (filter P l))%nat.
Proof.
  unfold groupFold. induction l as [|r l IH]; intros m;
    [cbn [fold_left filter List.length]; lia|].
  cbn [fold_left]. rewrite IH, pushTo_total.
  change (r :: l) with ([r] ++ l). rewrite filter_app, length_app. lia.
Qed.

Lemma calculateWorkingHours_facts (punches : list RawPunchRecord) :
  let wh := calculateWorkingHours punches in
  (0 <= wh_totalHours wh)%Q
  /\ wh_openSessions wh =
     Z.of_nat
       (list_sum (map (fun id => unansweredIns (chronologicalOf id punches))
                      (firstAppearance (map employeeId punches))))
  /\ 0 <= wh_openSessions wh <= count (filter isPunchIn punches)
  /\ (existsb isPunchOut punches = false ->
      (wh_totalHours wh == 0)%Q /\ wh_openSessions wh = count punches).
Proof.
  cbv zeta. unfold calculateWorkingHours.
  destruct (hours_turns (groupByEmployee punches) (0%Q, 0))
    as (Hs & Hf & Hn).
  cbv zeta in Hs, Hf, Hn.
  match type of Hs with
  | snd ?r = _ => set (result := r) in *
  end.
  destruct result as [totalMinutes openSessions] eqn:Er.
  cbn [fst snd wh_totalHours wh_openSessions] in *.
  assert (Hsum : openSessions =
    Z.of_nat
      (list_sum (map (fun id => unansweredIns (chronologicalOf id punches))
                     (firstAppearance (map employeeId punches))))).
  { rewrite Hs, groupByEmployee_entries, map_map. reflexivity. }
  assert (Hgroups : forall P,
    list_sum (map (fun e => List.length (filter P (snd e)))
                  (groupByEmployee punches))
    = List.length (filter P punches)).
  { intros P. rewrite groupByEmployee_groupFold.
    now rewrite groupFold_total. }
  split; [|split; [exact Hsum|split]].
  - apply Qle_shift_div_l; [reflexivity|]. rewrite Qmult_0_l.
    apply Hf. discriminate.
  - rewrite Hs. split; [lia|]. unfold count.
    rewrite <- (Hgroups isPunchIn). apply inj_le. cbn [Z.add].
    apply list_sum_le. intros e _.
    etransitivity; [apply unansweredIns_le|].
    apply Nat.eq_le_incl, Permutation_length.
    apply filter_Permutation. symmetry.
    apply sort_perm.
  - intros Hno.
    assert (Hin : forall e, In e (groupByEmployee punches) ->
                            existsb isPunchOut (snd e) = false).
    { intros [k v] He. rewrite groupByEmployee_groupFold in He.
      apply groupFold_entries in He. destruct He as [-> _].
      cbn [snd]. destruct (existsb isPunchOut (filter _ punches)) eqn:E;
        [|reflexivity].
      apply existsb_exists in E. destruct E as (p & Hp & Hout).
      apply filter_In in Hp. destruct Hp as [Hp _].
      assert (existsb isPunchOut punches = true)
        by (apply existsb_exists; eauto).
      congruence. }
    split.
    + rewrite Hn by (apply Forall_forall; exact Hin). reflexivity.
    + rewrite Hs. unfold count. cbn [Z.add]. f_equal.
      transitivity (List.length (filter (fun _ => true) punches));
        [|f_equal; apply KPIHours.filter_all; reflexivity].
      rewrite <- (Hgroups (fun _ => true)).
      apply list_sum_ext. intros e He.
      rewrite unansweredIns_no_out.
      * unfold sortByTimestamp. rewrite sort_length.
        symmetry. f_equal. apply KPIHours.filter_all. reflexivity.
      * destruct (existsb isPunchOut (sortByTimestamp (snd e))) eqn:E;
          [|reflexivity].
        apply existsb_exists in E. destruct E as (p & Hp & Hout).
        apply sort_In in Hp.
        assert (existsb isPunchOut (snd e) = true)
          by (apply existsb_exists; eauto).
        rewrite Hin in H by exact He. discriminate.
Qed.

End PairingFacts.

(** X10: what [calculateWorkingHours] returns for any list of events.
    The total is not negative.  The number of open sessions is, summed
    over the employees, the number of punch-ins in the employee's
    chronological list that no punch-out follows; so it is at most the
    number of punch-ins.  Without any punch-out the total is zero and
    every event is an open session. *)
Theorem working_hours_structure (punches : list RawPunchRecord) :
  let wh := calculateWorkingHours punches in
  (0 <= wh_totalHours wh)%Q
  /\ wh_openSessions wh =
     Z.of_nat
       (list_sum (map (fun id => unansweredIns (chronologicalOf id punches))
                      (firstAppearance (map employeeId punches))))
  /\ 0 <= wh_openSessions wh <= count (filter isPunchIn punches)
  /\ (existsb isPunchOut punches = false ->
      (wh_totalHours wh == 0)%Q /\ wh_openSessions wh = count punches).
Proof. exact (PairingFacts.calculateWorkingHours_facts punches). Qed.

Lemma working_hours_structure_witness :
  (wh_totalHours
     (calculateWorkingHours [WorkloadSamples.janeIn; WorkloadSamples.johnIn])
   == 0)%Q
  /\ wh_openSessions
       (calculateWorkingHours [WorkloadSamples.janeIn; WorkloadSamples.johnIn])
     = count [WorkloadSamples.janeIn; WorkloadSamples.johnIn].
Proof.
  destruct (working_hours_structure
              [WorkloadSamples.janeIn; WorkloadSamples.johnIn])
    as (_ & _ & _ & H).
  apply H. reflexivity.
Defined.

Module KPIBounds.
Import JS.

Lemma Math_round_lower lo x : (inject_Z lo <= x)%Q -> lo <= Math_round x.
Proof.
  intros H. unfold Math_round.
  rewrite <- (Qfloor_Z lo). apply Qfloor_resp_le.
  apply (Qle_trans _ x); [exact H|].
  rewrite <- (Qplus_0_r x) at 1. apply Qplus_le_compat;
    [apply Qle_refl|discriminate].
Qed.

Lemma Math_round_upper hi x : (x <= inject_Z hi)%Q -> Math_round x <= hi.
Proof.
  intros H. unfold Math_round.
  apply (Z.le_trans _ (Qfloor (inject_Z hi + (1 # 2)))).
  - apply Qfloor_resp_le. apply Qplus_le_compat; [exact H|apply Qle_refl].
  - unfold Qfloor, inject_Z, Qplus. cbn [Qnum Qden].
    change (Z.pos (1 * 2)) with 2. Z.div_mod_to_equations. lia.
Qed.

Lemma percent_range c n :
  0 <= c <= n -> 0 < n ->
  0 <= Math_round (inject_Z c / inject_Z n * 100)%Q <= 100.
Proof.
  intros Hc Hn.
  assert (Hpos : (0 < inject_Z n)%Q) by (unfold Qlt; cbn; lia).
  split.
  - apply Math_round_lower. apply Qmult_le_0_compat; [|discriminate].
    apply Qle_shift_div_l; [exact Hpos|]. rewrite Qmult_0_l.
    unfold Qle. cbn. lia.
  - apply Math_round_upper.
    apply (Qle_trans _ (1 * 100)); [|discriminate].
    apply Qmult_le_compat_r; [|discriminate].
    apply Qle_shift_div_r; [exact Hpos|]. rewrite Qmult_1_l.
    unfold Qle. cbn. lia.
Qed.

Lemma nodup_length_le (l : list string) :
  (List.length (nodup string_dec l) <= List.length l)%nat.
Proof.
  induction l as [|x l IH]; [apply Nat.le_refl|].
  cbn [nodup]. destruct (in_dec string_dec x l); cbn [List.length]; lia.
Qed.

Lemma filter_length_le {A} (f : A -> bool) (l : list A) :
  (List.length (filter f l) <= List.length l)%nat.
Proof.
  induction l as [|x l IH]; [apply Nat.le_refl|].
  cbn [filter]. destruct (f x); cbn [List.length]; lia.
Qed.

(** The keys of [firstPunchByEmployee]: distinct employees of the
    list. *)
Lemma firstPunch_keys l : forall m : Map RawPunchRecord,
  NoDup (map fst m) ->
  let m' :=
    fold_left
      (fun m punch =>
         if negb (Map_has m (employeeId punch))
         then Map_set m (employeeId punch) punch else m)
      l m in
  NoDup (map fst m')
  /\ forall k, In k (map fst m') -> In k (map fst m) \/ In k (map employeeId l).
Proof.
  induction l as [|p l IH]; intros m Hm; cbv zeta.
  - cbn. auto.
  - cbn [fold_left map].
    destruct (Map_has m (employeeId p)) eqn:E; cbn [negb].
    + destruct (IH m Hm) as [Hnd Hin]. split; [exact Hnd|].
      intros k Hk. destruct (Hin k Hk); cbn; auto.
    + assert (Hkeys : map fst (Map_set m (employeeId p) p)
                      = map fst m ++ [employeeId p])
        by (rewrite MapFacts.Map_set_keys; now rewrite E).
      assert (Hnd' : NoDup (map fst (Map_set m (employeeId p) p))).
      { rewrite Hkeys. apply NoDup_app; [exact Hm|repeat constructor; auto|].
        intros k Hk [<-|[]].
        apply MapFacts.Map_has_In in Hk. congruence. }
      destruct (IH _ Hnd') as [Hnd Hin]. split; [exact Hnd|].
      intros k Hk. destruct (Hin k Hk) as [H|H]; [|cbn; auto].
      rewrite Hkeys in H. apply in_app_or in H.
      destruct H as [H|[<-|[]]]; cbn; auto.
Qed.

Lemma late_fold (late : RawPunchRecord -> bool) (m : Map RawPunchRecord) :
  forall c,
  c <= fold_left (fun lateCount entry =>
                    if late (snd entry) then lateCount + 1 else lateCount)
                 m c
    <= c + count m.
Proof.
  unfold count. induction m as [|e m IH]; intros c; [cbn; lia|].
  cbn [fold_left List.length]. destruct (late (snd e)).
  - specialize (IH (c + 1)). lia.
  - specialize (IH c). lia.
Qed.

Lemma countLateArrivals_range tz cfg punches :
  0 <= countLateArrivals tz cfg punches
    <= distinctCount (map employeeId (filter isPunchIn punches)).
Proof.
  unfold countLateArrivals, firstPunchByEmployee. cbv zeta.
  match goal with
  | |- _ <= fold_left _ ?m 0 <= _ => set (first := m)
  end.
  pose proof (late_fold (fun p => lateThreshold cfg <? punchMinutesOf tz p)
                first 0) as Hfold. cbv beta in Hfold.
  split; [lia|].
  apply (Z.le_trans _ (count first)); [lia|].
  destruct (firstPunch_keys (filter isPunchIn punches) [] (NoDup_nil _))
    as [Hnd Hin]. fold first in Hnd, Hin.
  unfold distinctCount, count. apply inj_le.
  rewrite <- (length_map fst first).
  apply NoDup_incl_length; [exact Hnd|].
  intros k Hk. apply nodup_In. destruct (Hin k Hk) as [[]|H]. exact H.
Qed.

End KPIBounds.

(** X11: ranges of the KPI figures, for any repository and date.  The
    number of active employees is at most the number of punch-ins of the
    day; the total hours are not negative; the on-site percentage lies
    between 0 and 100, and is 100 when no event of the day carries a
    distance; the late arrivals counted are at most the active employees;
    the exception count is not negative. *)
Theorem kpi_ranges (tz : Z) (cfg : Config) (now : Z) (data : ProcessedData)
        (dateStr : option string) :
  let kpis := calculateKPIs tz cfg now data dateStr in
  let dayPunches := dayPunchesOf data (targetDateOf tz now dateStr) in
  0 <= activeEmployeesCount kpis <= count (filter isPunchIn dayPunches)
  /\ (0 <= totalWorkingHoursToday kpis)%Q
  /\ 0 <= onSiteCompliancePct kpis <= 100
  /\ (filter hasDistance dayPunches = [] -> onSiteCompliancePct kpis = 100)
  /\ 0 <= countLateArrivals tz cfg dayPunches <= activeEmployeesCount kpis
  /\ 0 <= exceptionsCount kpis.
Proof.
  cbv zeta. unfold calculateKPIs.
  cbn [activeEmployeesCount totalWorkingHoursToday onSiteCompliancePct
       exceptionsCount].
  set (dayPunches := dayPunchesOf data (targetDateOf tz now dateStr)).
  destruct (PairingFacts.calculateWorkingHours_facts dayPunches)
    as (Hhours & _ & Hopen & _).
  cbv zeta in Hhours, Hopen.
  pose proof (KPIBounds.countLateArrivals_range tz cfg dayPunches) as Hlate.
  split; [|split; [|split; [|split; [|split]]]].
  - unfold distinctCount, count. split; [lia|]. apply inj_le.
    etransitivity; [apply KPIBounds.nodup_length_le|].
    now rewrite length_map.
  - apply (PairingFacts.Qdiv_nonneg _ 10); [|reflexivity].
    apply (KPIBounds.Math_round_lower 0).
    apply Qmult_le_0_compat; [exact Hhours|discriminate].
  - destruct (0 <? count (filter hasDistance dayPunches)) eqn:E; [|lia].
    apply Z.ltb_lt in E. apply KPIBounds.percent_range; [|exact E].
    unfold count. split; [lia|]. apply inj_le, KPIBounds.filter_length_le.
  - intros ->. reflexivity.
  - exact Hlate.
  - unfold count. lia.
Qed.

Lemma kpi_ranges_witness :
  onSiteCompliancePct
    (calculateKPIs Samples.utc CONFIG Samples.nextNoon
       (processSheetData Samples.utc Samples.nextNoon [WorkloadSamples.bobIn])
       (Some Samples.testDate))
  = 100.
Proof.
  destruct (kpi_ranges Samples.utc CONFIG Samples.nextNoon
              (processSheetData Samples.utc Samples.nextNoon
                 [WorkloadSamples.bobIn])
              (Some Samples.testDate)) as (_ & _ & _ & H & _).
  apply H. vm_compute. reflexivity.
Defined.

(* ================================================================== *)
(** * Hourly activity in closed form *)
(* ================================================================== *)

Module HourlyFacts.
Import JS MapFacts.

Lemma update_as_map {V} (m : Map V) k (f : V -> V) :
  NoDup (map fst m) ->
  Map_update m k f =
  map (fun e => if String.eqb (fst e) k then (fst e, f (snd e)) else e) m.
Proof.
  induction m as [|[k' v] m IH]; intros Hnd; [reflexivity|].
  cbn [map fst] in Hnd. inversion Hnd as [|? ? Hk Hm]; subst.
  cbn [Map_update map fst snd]. destruct (String.eqb k' k) eqn:E.
  - f_equal. apply String.eqb_eq in E. subst k'.
    rewrite <- (map_id m) at 1. apply map_ext_in. intros [k'' v'] Hin.
    cbn [fst snd]. destruct (String.eqb k'' k) eqn:E'; [|reflexivity].
    apply String.eqb_eq in E'. subst k''. exfalso. apply Hk.
    change k with (fst (k, v')). now apply in_map.
  - f_equal. now apply IH.
Qed.

(** The events counted under a label. *)
Lemma hourly_fold tz l : forall m : Map (Z * Z),
  NoDup (map fst m) ->
  fold_left
    (fun hourlyMap punch =>
       Map_update hourlyMap (hourLabel (getHours tz (timestamp punch)))
         (fun entry =>
            if isPunchIn punch then (fst entry + 1, snd entry)
            else (fst entry, snd entry + 1)))
    l m
  = map (fun e =>
           (fst e,
            (fst (snd e)
             + count (filter (fun p =>
                        isPunchIn p
                        && String.eqb (fst e)
                             (hourLabel (getHours tz (timestamp p)))) l),
             snd (snd e)
             + count (filter (fun p =>
                        isPunchOut p
                        && String.eqb (fst e)
                             (hourLabel (getHours tz (timestamp p)))) l))))
        m.
Proof.
  induction l as [|p l IH]; intros m Hnd.
  - cbn [fold_left filter]. rewrite <- (map_id m) at 1.
    apply map_ext. intros [k [a b]]. unfold count. cbn. f_equal. f_equal; lia.
  - cbn [fold_left]. cbv zeta.
    rewrite IH by (now rewrite Map_update_keys).
    rewrite update_as_map by exact Hnd. rewrite map_map.
    apply map_ext. intros [k [a b]]. cbn [fst snd filter].
    rewrite SessionFacts.isPunchIn_not_out.
    destruct (String.eqb k (hourLabel (getHours tz (timestamp p))));
      destruct (isPunchOut p); cbn [negb andb fst snd];
      unfold count; cbn [List.length]; f_equal; f_equal; lia.
Qed.

Lemma filter_map_keys {V W} (q : string -> bool) (g : string * V -> string * W)
      (m : list (string * V)) :
  (forall e, fst (g e) = fst e) ->
  filter (fun e => q (fst e)) (map g m) = map g (filter (fun e => q (fst e)) m).
Proof.
  intros Hg. induction m as [|e m IH]; [reflexivity|].
  cbn [map filter]. rewrite Hg. destruct (q (fst e)); cbn [map]; now rewrite IH.
Qed.

Lemma initial_keys : NoDup (map fst initialHourlyMap).
Proof.
  apply (NoDup_map_inv (fun s => leadingDigits 0 s)).
  vm_compute. repeat (constructor; [cbn; intuition discriminate|]).
  constructor.
Qed.

Lemma initial_chart :
  filter (fun e : string * (Z * Z) =>
            (6 <=? leadingDigits 0 (fst e)) && (leadingDigits 0 (fst e) <=? 22))
         initialHourlyMap
  = map (fun h => (hourLabel h, (0, 0))) chartHours.
Proof. vm_compute. reflexivity. Qed.

Lemma hour_known h : 0 <= h < 24 -> In h (map Z.of_nat (seq 0 24)).
Proof.
  intros H. rewrite <- (Z2Nat.id h) by lia. apply in_map, in_seq. lia.
Qed.

(** Two hours have the same label only when they are equal. *)
Lemma hourLabel_eqb h g :
  0 <= h < 24 -> 0 <= g < 24 ->
  String.eqb (hourLabel h) (hourLabel g) = (g =? h).
Proof.
  intros Hh Hg.
  assert (Hall :
    forallb (fun a =>
      forallb (fun b =>
        Bool.eqb (String.eqb (hourLabel a) (hourLabel b)) (b =? a))
        (map Z.of_nat (seq 0 24)))
      (map Z.of_nat (seq 0 24)) = true) by (vm_compute; reflexivity).
  rewrite forallb_forall in Hall. specialize (Hall h (hour_known h Hh)).
  rewrite forallb_forall in Hall. specialize (Hall g (hour_known g Hg)).
  now apply Bool.eqb_prop in Hall.
Qed.

Lemma getHours_range tz t : 0 <= getHours tz t < 24.
Proof. unfold getHours. apply Z.mod_pos_bound. lia. Qed.

Lemma chartHours_range h : In h chartHours -> 0 <= h < 24.
Proof.
  unfold chartHours. intros H. apply in_map_iff in H.
  destruct H as (n & <- & Hn). apply in_seq in Hn. lia.
Qed.

End HourlyFacts.

(** X12: the hourly chart in closed form.  Whatever the events, the
    result has the seventeen rows 06:00 to 22:00 in this order, and the
    row of an hour counts the punch-ins and the punch-outs of the day
    whose local hour it is; events before 06:00 or from 23:00 on are in
    no row. *)
Theorem hourly_activity_rows (tz : Z) (now : Z) (data : ProcessedData)
        (dateStr : option string) :
  calculateHourlyActivity tz now data dateStr
  = map (hourRow tz (dayPunchesOf data (targetDateOf tz now dateStr)))
        chartHours.
Proof.
  unfold calculateHourlyActivity. cbv zeta.
  set (dayPunches := dayPunchesOf data (targetDateOf tz now dateStr)).
  rewrite (HourlyFacts.hourly_fold tz dayPunches initialHourlyMap
             HourlyFacts.initial_keys).
  rewrite (HourlyFacts.filter_map_keys
             (fun k => (6 <=? leadingDigits 0 k) && (leadingDigits 0 k <=? 22)))
    by reflexivity.
  rewrite HourlyFacts.initial_chart. rewrite !map_map.
  apply map_ext_in. intros h Hh. apply HourlyFacts.chartHours_range in Hh.
  cbn [fst snd]. unfold hourRow. f_equal.
  - cbn [Z.add]. f_equal. apply filter_ext. intros p. f_equal. unfold inHour.
    apply HourlyFacts.hourLabel_eqb; [exact Hh|apply HourlyFacts.getHours_range].
  - cbn [Z.add]. f_equal. apply filter_ext. intros p. f_equal. unfold inHour.
    apply HourlyFacts.hourLabel_eqb; [exact Hh|apply HourlyFacts.getHours_range].
Qed.

(* ================================================================== *)
(** * Order of the shifts *)
(* ================================================================== *)

Module ShiftOrder.
Import JS JSFacts FifoFacts.

(** An invariant that follows the cursor of the pairing loop. *)
Section At.
Context {State : Type}.
Variable onPair : RawPunchRecord -> RawPunchRecord -> State -> State.
Variable onOpen : RawPunchRecord -> State -> State.
Variable onOut : nat -> RawPunchRecord -> State -> State.
Variable sorted : list RawPunchRecord.
Variable P : nat -> State -> Prop.
Hypothesis P_pair : forall i j punch out st,
  (i < j)%nat -> nth_error sorted i = Some punch ->
  nth_error sorted j = Some out ->
  isPunchIn punch = true -> isPunchOut out = true ->
  P i st -> P (j + 1) (onPair punch out st).
Hypothesis P_open : forall i punch st,
  nth_error sorted i = Some punch -> isPunchIn punch = true ->
  existsb isPunchOut (skipn (i + 1) sorted) = false ->
  P i st -> P (i + 1) (onOpen punch st).
Hypothesis P_out : forall i punch st,
  nth_error sorted i = Some punch -> isPunchIn punch = false ->
  P i st -> P (i + 1) (onOut i punch st).

Lemma fifoLoop_invariant_at fuel : forall i st,
  P i st -> exists i', P i' (fifoLoop onPair onOpen onOut fuel sorted i st).
Proof.
  induction fuel as [|fuel IH]; intros i st Hst; cbn [fifoLoop]; [eauto|].
  destruct (nth_error sorted i) as [punch|] eqn:E; [|eauto].
  destruct (isPunchIn punch) eqn:Ein.
  - destruct (findPunchOut sorted (i + 1)) as [[j out]|] eqn:F.
    + apply findPunchOut_Some in F. destruct F as (Hj & Hn & Ho & _).
      apply IH. apply (P_pair i j); auto. lia.
    + apply IH. apply P_open; auto. now apply findPunchOut_None.
  - apply IH. now apply P_out.
Qed.
End At.

Lemma StronglySorted_snoc {A} (R : A -> A -> Prop) (l : list A) (x : A) :
  StronglySorted R l -> Forall (fun y => R y x) l ->
  StronglySorted R (l ++ [x]).
Proof.
  induction 1 as [|a l Hl IH Ha]; intros Hx; cbn [app].
  - repeat constructor.
  - inversion Hx as [|? ? Hax Hlx]; subst. constructor; [now apply IH|].
    apply Forall_app. split; [exact Ha|now constructor].
Qed.

Lemma StronglySorted_rev {A} (R : A -> A -> Prop) (l : list A) :
  StronglySorted R l -> StronglySorted (fun a b => R b a) (rev l).
Proof.
  induction 1 as [|a l Hl IH Ha]; cbn [rev]; [constructor|].
  apply StronglySorted_snoc; [exact IH|]. now apply Forall_rev.
Qed.

Section Shifts.
Variable cfg : Config.
Variable sorted : list RawPunchRecord.
Hypothesis chronological :
  StronglySorted (fun a b => timestamp a <= timestamp b) sorted.

Lemma settled_later i j shifts :
  (i <= j)%nat -> settled sorted i shifts -> settled sorted j shifts.
Proof.
  intros Hij [Hs Hf]. split; [exact Hs|].
  eapply Forall_impl; [|exact Hf]. intros s H m p Hm. apply H. lia.
Qed.

Lemma shifts_settled fuel i shifts :
  settled sorted i shifts ->
  StronglySorted shiftAfter
    (fifoLoop
       (fun punch shiftEnd shifts => shifts ++ [closedShift cfg punch shiftEnd])
       (fun punch shifts => shifts ++ [openShift cfg punch])
       (fun _ _ shifts => shifts)
       fuel sorted i shifts).
Proof.
  intros Hst.
  destruct (fifoLoop_invariant_at
              (fun punch shiftEnd shifts =>
                 shifts ++ [closedShift cfg punch shiftEnd])
              (fun punch shifts => shifts ++ [openShift cfg punch])
              (fun _ _ shifts => shifts)
              sorted (settled sorted)) with (fuel := fuel) (i := i) (st := shifts)
    as [i' [H _]]; [| | |exact Hst|exact H].
  - intros a j punch out st Haj Ha Hj Hin Hout [Hs Hf]. split.
    + apply StronglySorted_snoc; [exact Hs|].
      eapply Forall_impl; [|exact Hf]. intros s H.
      destruct (H a punch (Nat.le_refl a) Ha) as [Hstart Hend].
      split; [exact Hstart|]. cbn [closedShift shiftStart].
      destruct (H j out (Nat.lt_le_incl _ _ Haj) Hj) as [_ Hno].
      destruct (shiftEnd s); [exact Hend|congruence].
    + apply Forall_app. split.
      * eapply Forall_impl; [|exact Hf]. intros s H m p Hm. apply H. lia.
      * constructor; [|constructor]. intros m p Hm Hp.
        cbn [closedShift shiftStart shiftEnd].
        pose proof (StronglySorted_nth _ _ chronological a m punch p
                      ltac:(lia) Ha Hp) as H1.
        pose proof (StronglySorted_nth _ _ chronological j m out p
                      ltac:(lia) Hj Hp) as H2.
        cbv beta in H1, H2. lia.
  - intros a punch st Ha Hin Hno [Hs Hf]. split.
    + apply StronglySorted_snoc; [exact Hs|].
      eapply Forall_impl; [|exact Hf]. intros s H.
      destruct (H a punch (Nat.le_refl a) Ha) as [Hstart Hend].
      split; [exact Hstart|]. cbn [openShift shiftStart shiftEnd].
      destruct (shiftEnd s); [exact Hend|reflexivity].
    + apply Forall_app. split.
      * eapply Forall_impl; [|exact Hf]. intros s H m p Hm. apply H. lia.
      * constructor; [|constructor]. intros m p Hm Hp.
        cbn [openShift shiftStart shiftEnd]. split.
        -- pose proof (StronglySorted_nth _ _ chronological a m punch p
                         ltac:(lia) Ha Hp) as H1.
           cbv beta in H1. lia.
        -- destruct (isPunchOut p) eqn:E; [|reflexivity].
           rewrite (SessionFacts.existsb_nth_skipn isPunchOut sorted
                      (a + 1) m p Hp E Hm) in Hno.
           discriminate.
  - intros a punch st _ _ H. apply (settled_later a); [lia|exact H].
Qed.
End Shifts.

(** Every shift is made of a punch-in and, when closed, of a punch-out
    of the list. *)
Lemma shifts_from_events cfg sorted :
  StronglySorted (fun a b => timestamp a <= timestamp b) sorted ->
  Forall (shiftOf cfg sorted)
    (fifo
       (fun punch shiftEnd shifts => shifts ++ [closedShift cfg punch shiftEnd])
       (fun punch shifts => shifts ++ [openShift cfg punch])
       (fun _ _ shifts => shifts)
       sorted []).
Proof.
  intros Hsorted. unfold fifo.
  apply (fifoLoop_invariant _ _ _ _ (Forall (shiftOf cfg sorted)));
    [| | |constructor].
  - intros i j punch out st Hij Hi Hj Hin Hout Hst.
    apply Forall_app. split; [exact Hst|]. constructor; [|constructor].
    exists punch. split; [eapply nth_error_In; eauto|]. split; [exact Hin|].
    right. exists out. split; [eapply nth_error_In; eauto|].
    split; [exact Hout|]. split; [|reflexivity].
    apply (StronglySorted_nth _ _ Hsorted i j punch out Hij Hi Hj).
  - intros i punch st Hi Hin Hst.
    apply Forall_app. split; [exact Hst|]. constructor; [|constructor].
    exists punch. split; [eapply nth_error_In; eauto|]. split; [exact Hin|].
    now left.
  - intros i punch st _ _ Hst. exact Hst.
Qed.

Lemma shiftOf_incl cfg l l' s :
  (forall p, In p l -> In p l') -> shiftOf cfg l s -> shiftOf cfg l' s.
Proof.
  intros Hincl (p & Hp & Hin & H). exists p. split; [auto|].
  split; [exact Hin|]. destruct H as [H | (q & Hq & Hrest)]; [now left|].
  right. exists q. split; auto.
Qed.

End ShiftOrder.

(** X13: the list of an employee's shifts, for any repository and any
    date range.  The shifts come most recent first and do not overlap: a
    shift starts no earlier than every shift listed after it starts and
    ends, and a shift that is still open is listed before every closed
    one.  Every shift is made of a punch-in of the employee and, when
    closed, of a punch-out of the employee that is not earlier.  An
    employee without events has no shift. *)
Theorem shifts_ordered (tz : Z) (cfg : Config)
        (Date_parse : string -> option Z) (now : Z) (data : ProcessedData)
        (employeeId : string) (startDate endDate : option string) :
  let shifts :=
    calculateEmployeeShifts tz cfg Date_parse now data employeeId
      startDate endDate in
  StronglySorted (fun a b => shiftAfter b a) shifts
  /\ Forall (shiftOf cfg (eventsOf data employeeId)) shifts
  /\ (eventsOf data employeeId = [] -> shifts = []).
Proof.
  cbv zeta. unfold calculateEmployeeShifts. fold (eventsOf data employeeId).
  cbv zeta.
  set (filtered :=
         if given startDate || given endDate
         then filter _ (eventsOf data employeeId)
         else eventsOf data employeeId).
  assert (Hincl : forall p, In p (sortByTimestamp filtered) ->
                            In p (eventsOf data employeeId)).
  { intros p Hp. apply JSFacts.sort_In in Hp. subst filtered.
    destruct (given startDate || given endDate); [|exact Hp].
    now apply filter_In in Hp. }
  split; [|split].
  - apply ShiftOrder.StronglySorted_rev. unfold fifo.
    apply ShiftOrder.shifts_settled.
    + apply RepositoryFacts.sortByTimestamp_sorted.
    + split; constructor.
  - apply Forall_rev.
    eapply Forall_impl;
      [|apply ShiftOrder.shifts_from_events,
          RepositoryFacts.sortByTimestamp_sorted].
    intros s. now apply ShiftOrder.shiftOf_incl.
  - intros Hnone. subst filtered. rewrite Hnone.
    now destruct (given startDate || given endDate).
Qed.

Lemma shifts_ordered_witness :
  calculateEmployeeShifts Samples.utc CONFIG RowSamples.noDate
    Samples.nextNoon SessionSamples.bobDay "EMP999" None None = [].
Proof.
  destruct (shifts_ordered Samples.utc CONFIG RowSamples.noDate
              Samples.nextNoon SessionSamples.bobDay "EMP999" None None)
    as (_ & _ & H).
  apply H. vm_compute. reflexivity.
Defined.

(* ================================================================== *)
(** * Order, numbering and grounds of the exceptions *)
(* ================================================================== *)

Module ExceptionOrder.
Import JS JSFacts MapFacts FifoFacts.

Lemma exceptionAfter_before a b :
  before exceptionAfter a b <-> ranksBefore a b.
Proof.
  unfold before, exceptionAfter, ranksBefore.
  destruct (severity a), (severity b); cbn [severity_eqb negb];
    rewrite ?Z.ltb_ge; split; intros H;
    try (split; [intros; congruence|intros; try congruence; lia]);
    try (destruct H as [H1 H2]);
    try (specialize (H2 eq_refl); lia);
    try (specialize (H1 eq_refl); discriminate);
    try reflexivity; try discriminate; lia.
Qed.

Lemma exceptionAfter_asym a b :
  exceptionAfter a b = true -> exceptionAfter b a = false.
Proof.
  unfold exceptionAfter.
  destruct (severity a), (severity b); cbn [severity_eqb negb];
    rewrite ?Z.ltb_lt, ?Z.ltb_ge; intros H; try reflexivity;
    try discriminate; lia.
Qed.

Lemma exceptionAfter_before_trans a b c :
  before exceptionAfter a b -> before exceptionAfter b c ->
  before exceptionAfter a c.
Proof.
  unfold before, exceptionAfter.
  destruct (severity a), (severity b), (severity c);
    cbn [severity_eqb negb]; rewrite ?Z.ltb_ge; intros H1 H2;
    try reflexivity; try discriminate; lia.
Qed.

(** What the three rules of one employee preserve: a property of the
    state that survives pushing an exception raised on one of the
    grounds. *)
Section Pushes.
Variable tz : Z.
Variable cfg : Config.
Variable now : Z.
Variable employee : Employee.
Variable empId : string.
Variable sorted : list RawPunchRecord.
Variable P : ExcState -> Prop.
Hypothesis P_late : forall ty sev punch note st,
  In punch sorted -> lateRule tz cfg sorted punch ty sev note -> P st ->
  P (pushException employee empId ty sev punch note st).
Hypothesis P_session : forall ty sev punch note st,
  In punch sorted ->
  openRule cfg now sorted punch ty sev note
  \/ strayOutRule sorted punch ty sev note ->
  P st -> P (pushException employee empId ty sev punch note st).
Hypothesis P_breach : forall ty sev punch note st,
  In punch sorted -> breachRule cfg punch ty sev note -> P st ->
  P (pushException employee empId ty sev punch note st).

Lemma checkLateArrival_pushes st :
  P st -> P (checkLateArrival tz cfg employee empId sorted st).
Proof.
  intros Hst. unfold checkLateArrival.
  destruct (find isPunchIn sorted) as [firstIn|] eqn:E; [|exact Hst].
  pose proof (find_some _ _ E) as [Hin _]. cbv zeta.
  destruct (lateThreshold cfg <? punchMinutesOf tz firstIn) eqn:El;
    [|exact Hst].
  apply P_late; [exact Hin| |exact Hst].
  unfold lateRule. apply Z.ltb_lt in El. auto.
Qed.

Lemma checkSessions_pushes st :
  P st -> P (checkSessions cfg now employee empId sorted st).
Proof.
  intros Hst. unfold checkSessions, fifo.
  destruct (ShiftOrder.fifoLoop_invariant_at
              (fun _ _ st => st)
              (onOpenSession cfg now employee empId)
              (onPunchOut employee empId sorted)
              sorted (fun _ => P))
    with (fuel := List.length sorted) (i := 0%nat) (st := st)
    as [i' H]; [| | |exact Hst|exact H].
  - intros; assumption.
  - intros i punch st' Hi Hin Hno Hst'. unfold onOpenSession. cbv zeta.
    destruct (Qle_bool (OPEN_SESSION_WARNING_HOURS cfg)
                       (hoursOpenOf now punch)) eqn:Ew; [|exact Hst'].
    apply P_session; [eapply nth_error_In; eauto| |exact Hst'].
    left. exists i. apply Qle_bool_iff in Ew. auto 10.
  - intros i punch st' Hi Hin Hst'. unfold onPunchOut. cbv zeta.
    destruct (existsb isPunchIn (firstn i sorted)) eqn:Ep; cbn [negb];
      [exact Hst'|].
    apply P_session; [eapply nth_error_In; eauto| |exact Hst'].
    right. exists i. rewrite SessionFacts.isPunchIn_not_out in Hin.
    apply negb_false_iff in Hin. auto 10.
Qed.

Lemma checkLocationBreaches_pushes st :
  P st -> P (checkLocationBreaches cfg employee empId sorted st).
Proof.
  unfold checkLocationBreaches.
  assert (Hgen : forall l st,
    (forall p, In p l -> In p sorted) -> P st ->
    P (fold_left
         (fun st punch =>
            match distanceMeters punch with
            | Some d =>
                if Qgtb d (DISTANCE_THRESHOLD_WARNING cfg) then
                  pushException employee empId LocationBreach
                    (if Qgtb d 200 then sev_critical else sev_warning)
                    punch (DistanceExceeds d) st
                else st
            | None => st
            end) l st)).
  { induction l as [|p l IH]; intros st0 Hl Hst0; [exact Hst0|].
    cbn [fold_left]. apply IH; [intros; apply Hl; now right|].
    destruct (distanceMeters p) as [d|] eqn:Ed; [|exact Hst0].
    destruct (Qgtb d (DISTANCE_THRESHOLD_WARNING cfg)) eqn:Eg; [|exact Hst0].
    apply P_breach; [apply Hl; now left| |exact Hst0].
    exists d. apply WorkloadFacts.Qgtb_true in Eg. auto. }
  apply Hgen. auto.
Qed.
End Pushes.

Lemma employeeExceptions_pushes tz cfg now data (P : ExcState -> Prop)
      st k v :
  (forall employee ty sev punch note st,
      In punch v ->
      justified tz cfg now (sortByTimestamp v) punch ty sev note ->
      P st -> P (pushException employee k ty sev punch note st)) ->
  P st -> P (employeeExceptions tz cfg now data st (k, v)).
Proof.
  intros Hpush Hst. unfold employeeExceptions.
  destruct (Map_get (employees data) k) as [employee|]; [|exact Hst].
  cbv zeta.
  assert (Hp : forall ty sev punch note st,
             In punch (sortByTimestamp v) ->
             justified tz cfg now (sortByTimestamp v) punch ty sev note ->
             P st -> P (pushException employee k ty sev punch note st)).
  { intros ty sev punch note st0 Hin. apply Hpush. now apply sort_In in Hin. }
  unfold justified in Hp.
  apply (checkLocationBreaches_pushes cfg); [intros; apply Hp; auto|].
  apply (checkSessions_pushes cfg now);
    [intros ty sev punch note st0 Hin [H|H]; apply Hp; auto|].
  apply (checkLateArrival_pushes tz cfg); [intros; apply Hp; auto|exact Hst].
Qed.

Lemma exceptions_pushes tz cfg now data (P : ExcState -> Prop) entries :
  forall st,
  (forall k v, In (k, v) entries ->
     forall employee ty sev punch note st,
       In punch v ->
       justified tz cfg now (sortByTimestamp v) punch ty sev note ->
       P st -> P (pushException employee k ty sev punch note st)) ->
  P st -> P (fold_left (employeeExceptions tz cfg now data) entries st).
Proof.
  induction entries as [|[k v] entries IH]; intros st Hpush Hst; [exact Hst|].
  cbn [fold_left]. apply IH; [intros; eapply Hpush; eauto; now right|].
  apply employeeExceptions_pushes; [|exact Hst].
  apply Hpush. now left.
Qed.

Lemma numbered_push employee empId ty sev punch note st :
  numbered st -> numbered (pushException employee empId ty sev punch note st).
Proof.
  destruct st as [exceptions exceptionId]. unfold numbered, pushException.
  cbn [fst snd]. intros [Hid Hids]. rewrite length_app. cbn [List.length].
  split; [lia|].
  rewrite map_app, Hids. unfold exceptionIds.
  rewrite Nat.add_1_r, seq_S, map_app. cbn [map exc_id]. subst exceptionId.
  do 3 f_equal. lia.
Qed.

(** ** Counting the location breaches *)

Lemma breaches_push employee empId ty sev punch note st :
  List.length (filter isLocationBreach
                 (fst (pushException employee empId ty sev punch note st)))
  = (List.length (filter isLocationBreach (fst st))
     + match ty with LocationBreach => 1 | _ => 0 end)%nat.
Proof.
  destruct st as [exceptions exceptionId]. cbn [pushException fst].
  rewrite filter_app, length_app. f_equal.
  unfold isLocationBreach. cbn [filter exc_type]. now destruct ty.
Qed.

Section Count.
Variable tz : Z.
Variable cfg : Config.
Variable now : Z.
Variable employee : Employee.
Variable empId : string.

Lemma checkLocationBreaches_count l : forall st,
  List.length (filter isLocationBreach
                 (fst (checkLocationBreaches cfg employee empId l st)))
  = (List.length (filter isLocationBreach (fst st))
     + List.length (filter (distanceAbove (DISTANCE_THRESHOLD_WARNING cfg)) l))%nat.
Proof.
  unfold checkLocationBreaches.
  induction l as [|p l IH]; intros st; [cbn; lia|].
  cbn [fold_left filter]. rewrite IH. unfold distanceAbove at 2.
  destruct (distanceMeters p) as [d|]; [|lia].
  destruct (Qgtb d (DISTANCE_THRESHOLD_WARNING cfg)); [|lia].
  rewrite breaches_push. cbn [List.length]. lia.
Qed.

Lemma employee_count sorted st :
  List.length
    (filter isLocationBreach
       (fst (checkLocationBreaches cfg employee empId sorted
               (checkSessions cfg now employee empId sorted
                  (checkLateArrival tz cfg employee empId sorted st)))))
  = (List.length (filter isLocationBreach (fst st))
     + List.length
         (filter (distanceAbove (DISTANCE_THRESHOLD_WARNING cfg)) sorted))%nat.
Proof.
  rewrite checkLocationBreaches_count. f_equal.
  apply (checkSessions_pushes cfg now employee empId sorted
           (fun st' => List.length (filter isLocationBreach (fst st'))
                       = List.length (filter isLocationBreach (fst st)))).
  - intros ty sev punch note st0 _ [H|H] Hst0; rewrite breaches_push, Hst0.
    + destruct H as (i & _ & _ & _ & _ & -> & _). lia.
    + destruct H as (i & _ & _ & _ & -> & _). lia.
  - apply (checkLateArrival_pushes tz cfg employee empId sorted
             (fun st' => List.length (filter isLocationBreach (fst st'))
                         = List.length (filter isLocationBreach (fst st))));
      [|reflexivity].
    intros ty sev punch note st0 _ (_ & _ & -> & _) Hst0.
    rewrite breaches_push, Hst0. lia.
Qed.
End Count.

Lemma exceptions_count tz cfg now data entries : forall st,
  (forall k v, In (k, v) entries -> Map_get (employees data) k <> None) ->
  List.length
    (filter isLocationBreach
       (fst (fold_left (employeeExceptions tz cfg now data) entries st)))
  = (List.length (filter isLocationBreach (fst st))
     + list_sum
         (map (fun e =>
                 List.length
                   (filter (distanceAbove (DISTANCE_THRESHOLD_WARNING cfg))
                           (snd e)))
              entries))%nat.
Proof.
  induction entries as [|[k v] entries IH]; intros st Hknown; [cbn; lia|].
  cbn [fold_left map snd]. rewrite PairingFacts.list_sum_cons.
  rewrite IH by (intros k0 v0 Hin; apply (Hknown k0 v0); now right).
  unfold employeeExceptions.
  destruct (Map_get (employees data) k) as [employee|] eqn:E;
    [|exfalso; now apply (Hknown k v (or_introl eq_refl))].
  cbv zeta. rewrite employee_count.
  rewrite (Permutation_length
             (PairingFacts.filter_Permutation _ _ _
                (Permutation_sym (sort_perm laterThan v)))).
  lia.
Qed.

Lemma breaches_of_day (tz : Z) (cfg : Config) (now now' : Z)
        (records : list RawPunchRecord) (dateStr : option string) :
  let data := processSheetData tz now' records in
  let dayPunches := dayPunchesOf data (targetDateOf tz now dateStr) in
  count (filter isLocationBreach (calculateExceptions tz cfg now data dateStr))
  = count (filter (distanceAbove (DISTANCE_THRESHOLD_WARNING cfg))
                  (filter hasDistance dayPunches)).
Proof.
  cbv zeta. unfold calculateExceptions. cbv zeta.
  set (data := processSheetData tz now' records).
  set (dayPunches := dayPunchesOf data (targetDateOf tz now dateStr)).
  pose proof (exceptions_count tz cfg now data
                (groupByEmployee dayPunches) ([], 1)) as Hcount.
  destruct (fold_left _ _ _) as [exceptions exceptionId].
  cbn [fst filter List.length Nat.add] in Hcount.
  unfold count. f_equal.
  rewrite (Permutation_length
             (PairingFacts.filter_Permutation isLocationBreach _ _
                (Permutation_sym (sort_perm exceptionAfter exceptions)))).
  rewrite Hcount by (intros k v; apply WorkloadFacts.dayPunches_known).
  rewrite groupByEmployee_groupFold, PairingFacts.groupFold_total.
  cbn [map]. change (list_sum []) with 0%nat. cbn [Nat.add]. f_equal.
  rewrite WorkloadFacts.filter_filter. apply filter_ext. intros p.
  unfold hasDistance, distanceAbove. now destruct (distanceMeters p).
Qed.

End ExceptionOrder.

(** X14: the exception list, for any repository and date.  It is
    ordered: critical exceptions before warnings, and within one severity
    the most recent first.  Its identifiers are EXC00001, EXC00002, ...
    up to the number of exceptions, each used once (they number the
    exceptions in the order in which the rules found them, not in the
    order of the list). *)
Theorem exceptions_ordered (tz : Z) (cfg : Config) (now : Z)
        (data : ProcessedData) (dateStr : option string) :
  let exceptions := calculateExceptions tz cfg now data dateStr in
  StronglySorted ranksBefore exceptions
  /\ Permutation (map exc_id exceptions)
                 (exceptionIds (List.length exceptions)).
Proof.
  cbv zeta. unfold calculateExceptions. cbv zeta.
  set (dayPunches := dayPunchesOf data (targetDateOf tz now dateStr)).
  set (final := fold_left (employeeExceptions tz cfg now data)
                          (groupByEmployee dayPunches) ([], 1)).
  assert (Hnum : numbered final).
  { apply ExceptionOrder.exceptions_pushes.
    - intros. now apply ExceptionOrder.numbered_push.
    - split; reflexivity. }
  unfold numbered in Hnum.
  destruct final as [exceptions exceptionId]. cbn [fst snd] in *.
  split.
  - eapply JSFacts.StronglySorted_impl;
      [|apply (JSFacts.sort_sorted exceptionAfter
                 ExceptionOrder.exceptionAfter_asym
                 ExceptionOrder.exceptionAfter_before_trans)].
    intros a b. apply ExceptionOrder.exceptionAfter_before.
  - rewrite JSFacts.sort_length. destruct Hnum as [_ <-].
    apply Permutation_map. symmetry. apply JSFacts.sort_perm.
Qed.

(** X20: every exception has a ground.  Each exception of the list
    carries the employee, time, distance and place of an event of the
    day, and was raised at that event on one of four grounds, which fixes
    its type, severity and note: the event is the employee's first
    punch-in of the day and is late; or it is a punch-in that no
    punch-out follows, open for the warning time or longer; or it is a
    punch-out with no punch-in before it; or its distance is above the
    warning threshold. *)
Theorem exceptions_justified (tz : Z) (cfg : Config) (now : Z)
        (data : ProcessedData) (dateStr : option string) :
  let dayPunches := dayPunchesOf data (targetDateOf tz now dateStr) in
  Forall
    (fun e =>
       exists punch,
         In punch dayPunches
         /\ raisedBy punch e
         /\ justified tz cfg now
              (chronologicalOf (exc_employeeId e) dayPunches) punch
              (exc_type e) (severity e) (notes e))
    (calculateExceptions tz cfg now data dateStr).
Proof.
  cbv zeta. unfold calculateExceptions. cbv zeta.
  set (dayPunches := dayPunchesOf data (targetDateOf tz now dateStr)).
  set (grounded := fun e =>
         exists punch,
           In punch dayPunches
           /\ raisedBy punch e
           /\ justified tz cfg now
                (chronologicalOf (exc_employeeId e) dayPunches) punch
                (exc_type e) (severity e) (notes e)).
  assert (Hfrom :
    Forall grounded
      (fst (fold_left (employeeExceptions tz cfg now data)
                      (groupByEmployee dayPunches) ([], 1)))).
  { apply (ExceptionOrder.exceptions_pushes tz cfg now data
             (fun st => Forall grounded (fst st))); [|constructor].
    intros k v Hkv employee ty sev punch note [exceptions exceptionId]
           Hin Hrule Hst.
    cbn [pushException fst] in *. apply Forall_app. split; [exact Hst|].
    constructor; [|constructor].
    rewrite MapFacts.groupByEmployee_groupFold in Hkv.
    apply MapFacts.groupFold_entries in Hkv. destruct Hkv as [Hv _].
    subst v. apply filter_In in Hin. destruct Hin as [Hday Hkey].
    exists punch. split; [exact Hday|].
    unfold keyIs in Hkey. apply String.eqb_eq in Hkey.
    split; [unfold raisedBy; cbn; auto|].
    cbn [exc_employeeId exc_type severity notes]. exact Hrule. }
  destruct (fold_left _ _ _) as [exceptions exceptionId]. cbn [fst] in Hfrom.
  apply JSFacts.sort_Forall. exact Hfrom.
Qed.

(** X21: the location breaches of the list are those of the KPI.  For a
    repository built from the records, the number of location-breach
    exceptions in the list is the number of events of the day whose
    distance is above the warning threshold, which is the location-breach
    part of the KPI's exception count. *)
Theorem breach_exceptions_count (tz : Z) (cfg : Config) (now now' : Z)
        (records : list RawPunchRecord) (dateStr : option string) :
  let data := processSheetData tz now' records in
  let dayPunches := dayPunchesOf data (targetDateOf tz now dateStr) in
  count (filter isLocationBreach (calculateExceptions tz cfg now data dateStr))
  = count (filter (distanceAbove (DISTANCE_THRESHOLD_WARNING cfg))
                  (filter hasDistance dayPunches)).
Proof.
  exact (ExceptionOrder.breaches_of_day tz cfg now now' records dateStr).
Qed.

(* ================================================================== *)
(** * Latest locations *)
(* ================================================================== *)

Module LatestFacts.
Import JS JSFacts MapFacts.

Local Abbreviation latestStep cfg parseFloat data :=
  (fun locations (entry : string * list RawPunchRecord) =>
     let '(empId, empPunches) := entry in
     match Map_get (employees data) empId with
     | None => locations
     | Some employee =>
         match last (map Some empPunches) None with
         | None => locations
         | Some latest =>
             match parseCoordinates parseFloat (location latest) with
             | None => locations
             | Some coords =>
                 locations ++
                   [{| loc_employeeId := empId;
                       loc_name := emp_name employee;
                       lat := fst coords;
                       long := snd coords;
                       loc_status :=
                         complianceStatusOf cfg (distanceMeters latest);
                       loc_timestamp := timestamp latest;
                       loc_distance := distanceMeters latest |}]
             end
         end
     end).

Lemma last_Some {A} (l : list A) (x : A) :
  last (map Some l) None = Some x <-> exists earlier, l = earlier ++ [x].
Proof.
  split.
  - induction l as [|a l IH]; [discriminate|].
    destruct l as [|b l].
    + cbn. intros [= <-]. now exists [].
    + intros H. destruct (IH H) as [earlier ->]. now exists (a :: earlier).
  - intros [earlier ->]. rewrite map_app. cbn [map]. now rewrite last_last.
Qed.

Lemma StronglySorted_last {A} (R : A -> A -> Prop) (l : list A) (x : A) :
  StronglySorted R (l ++ [x]) -> Forall (fun y => R y x) l.
Proof.
  induction l as [|a l IH]; intros H; [constructor|].
  cbn [app] in H. inversion H as [|? ? Hs Hf]; subst.
  apply Forall_app in Hf. destruct Hf as [_ Hx].
  inversion Hx; subst. constructor; auto.
Qed.

Section Fold.
Variable cfg : Config.
Variable parseFloat : string -> option Q.
Variable data : ProcessedData.

(** Every entry written comes from a group, its employee, the last
    event of the group and the coordinates read from it. *)
Lemma latest_sound (Q : EmployeeLocation -> Prop) entries : forall acc,
  Forall Q acc ->
  (forall k v employee latest coords,
      In (k, v) entries -> Map_get (employees data) k = Some employee ->
      last (map Some v) None = Some latest ->
      parseCoordinates parseFloat (location latest) = Some coords ->
      Q (locationEntry cfg k employee latest coords)) ->
  Forall Q (fold_left (latestStep cfg parseFloat data) entries acc).
Proof.
  induction entries as [|[k v] entries IH]; intros acc Hacc HQ; [exact Hacc|].
  cbn [fold_left]. apply IH; [|intros; eapply HQ; eauto; now right].
  destruct (Map_get (employees data) k) as [employee|] eqn:Ee; [|exact Hacc].
  destruct (last (map Some v) None) as [latest|] eqn:El; [|exact Hacc].
  destruct (parseCoordinates parseFloat (location latest)) as [coords|] eqn:Ec;
    [|exact Hacc].
  apply Forall_app. split; [exact Hacc|]. constructor; [|constructor].
  apply (HQ k v employee latest coords); auto. now left.
Qed.

Lemma latest_distinct entries : forall acc,
  NoDup (map loc_employeeId acc ++ map fst entries) ->
  NoDup (map loc_employeeId
           (fold_left (latestStep cfg parseFloat data) entries acc)).
Proof.
  induction entries as [|[k v] entries IH]; intros acc Hnd.
  - cbn [fold_left]. cbn [map] in Hnd. now rewrite app_nil_r in Hnd.
  - cbn [fold_left]. apply IH. cbn [map fst] in Hnd.
    pose proof (NoDup_remove_1 _ _ _ Hnd) as Hskip.
    destruct (Map_get (employees data) k) as [employee|]; [|exact Hskip].
    destruct (last (map Some v) None) as [latest|]; [|exact Hskip].
    destruct (parseCoordinates parseFloat (location latest)) as [coords|];
      [|exact Hskip].
    rewrite map_app. cbn [map loc_employeeId]. now rewrite <- app_assoc.
Qed.

Lemma latest_keeps entries : forall acc x,
  In x acc -> In x (fold_left (latestStep cfg parseFloat data) entries acc).
Proof.
  induction entries as [|[k v] entries IH]; intros acc x Hx; [exact Hx|].
  cbn [fold_left]. apply IH.
  destruct (Map_get (employees data) k) as [employee|]; [|exact Hx].
  destruct (last (map Some v) None) as [latest|]; [|exact Hx].
  destruct (parseCoordinates parseFloat (location latest)) as [coords|];
    [|exact Hx].
  apply in_or_app. now left.
Qed.

Lemma latest_complete entries : forall acc k v employee latest coords,
  In (k, v) entries -> Map_get (employees data) k = Some employee ->
  last (map Some v) None = Some latest ->
  parseCoordinates parseFloat (location latest) = Some coords ->
  In (locationEntry cfg k employee latest coords)
     (fold_left (latestStep cfg parseFloat data) entries acc).
Proof.
  induction entries as [|[k' v'] entries IH];
    intros acc k v employee latest coords Hin He Hl Hc; [destruct Hin|].
  cbn [fold_left]. destruct Hin as [[= -> ->]|Hin]; [|eapply IH; eauto].
  rewrite He, Hl, Hc. apply latest_keeps. apply in_or_app. right. now left.
Qed.
End Fold.

(** The groups of the employee index of a repository. *)
Lemma repository_group tz now records k v :
  In (k, v) (punchesByEmployee (processSheetData tz now records)) ->
  v = employeeEvents (processSheetData tz now records) k /\ v <> [].
Proof.
  unfold employeeEvents, processSheetData.
  rewrite RepositoryFacts.processRecord_punchesByEmployee,
    IndexFacts.processRecord_punches.
  cbn [punchesByEmployee punches]. apply groupFold_entries.
Qed.

Lemma repository_keys tz now records :
  NoDup (map fst (punchesByEmployee (processSheetData tz now records))).
Proof.
  unfold processSheetData.
  rewrite RepositoryFacts.processRecord_punchesByEmployee.
  cbn [punchesByEmployee]. apply groupFold_keys_NoDup. constructor.
Qed.

Lemma repository_entry tz now records k :
  employeeEvents (processSheetData tz now records) k <> [] ->
  In (k, employeeEvents (processSheetData tz now records) k)
     (punchesByEmployee (processSheetData tz now records)).
Proof.
  intros Hne.
  assert (Hget : Map_get (punchesByEmployee (processSheetData tz now records)) k
                 = Some (employeeEvents (processSheetData tz now records) k)).
  { unfold employeeEvents, processSheetData.
    rewrite RepositoryFacts.processRecord_punchesByEmployee,
      IndexFacts.processRecord_punches.
    cbn [punchesByEmployee punches]. rewrite IndexFacts.grouped_get.
    unfold employeeEvents, processSheetData in Hne.
    rewrite IndexFacts.processRecord_punches in Hne. cbn [punches] in Hne.
    now destruct (filter _ _). }
  clear Hne. revert Hget.
  generalize (employeeEvents (processSheetData tz now records) k).
  generalize (punchesByEmployee (processSheetData tz now records)).
  intros m v. induction m as [|[k' v'] m IH]; [discriminate|].
  cbn [Map_get]. destruct (String.eqb k' k) eqn:E.
  - apply String.eqb_eq in E. subst k'. intros [= ->]. now left.
  - intros H. right. now apply IH.
Qed.

Lemma repository_punches tz now records :
  punches (processSheetData tz now records) = sortByTimestamp records.
Proof.
  unfold processSheetData. now rewrite IndexFacts.processRecord_punches.
Qed.

End LatestFacts.

(** X15: the latest locations of a repository built from [records].
    There is at most one entry per employee.  Every entry belongs to an
    employee's most recent event: the last of the employee's events in
    the chronological list, which no event of the employee is later than;
    the entry carries that event's time and distance, the coordinates
    read from its location text, and the status of its distance.  And an
    employee whose most recent event has readable coordinates has an
    entry, so an employee is left out only when that one event has
    none. *)
Theorem latest_locations (tz : Z) (cfg : Config)
        (parseFloat : string -> option Q) (now : Z)
        (records : list RawPunchRecord) :
  let data := processSheetData tz now records in
  let locations := calculateLatestLocations cfg parseFloat data in
  NoDup (map loc_employeeId locations)
  /\ Forall
       (fun loc =>
          exists earlier latest employee coords,
            employeeEvents data (loc_employeeId loc) = earlier ++ [latest]
            /\ (forall r, In r records ->
                          employeeId r = loc_employeeId loc ->
                          timestamp r <= timestamp latest)
            /\ JS.Map_get (employees data) (loc_employeeId loc) = Some employee
            /\ parseCoordinates parseFloat (location latest) = Some coords
            /\ loc = locationEntry cfg (loc_employeeId loc) employee latest
                       coords)
       locations
  /\ (forall id earlier latest,
         employeeEvents data id = earlier ++ [latest] ->
         parseCoordinates parseFloat (location latest) <> None ->
         In id (map loc_employeeId locations)).
Proof.
  cbv zeta. unfold calculateLatestLocations.
  set (data := processSheetData tz now records).
  split; [|split].
  - apply LatestFacts.latest_distinct. cbn [map app].
    apply LatestFacts.repository_keys.
  - apply LatestFacts.latest_sound; [constructor|].
    intros k v employee latest coords Hin He Hl Hc.
    apply LatestFacts.repository_group in Hin. destruct Hin as [Hv _].
    apply LatestFacts.last_Some in Hl. destruct Hl as [earlier Hl].
    exists earlier, latest, employee, coords. cbn [locationEntry loc_employeeId].
    fold data in Hv. rewrite <- Hv.
    split; [exact Hl|]. split; [|auto].
    intros r Hr Hid.
    assert (Hrv : In r v).
    { rewrite Hv. unfold employeeEvents. apply filter_In. split.
      - unfold data. rewrite LatestFacts.repository_punches.
        now apply JSFacts.sort_In.
      - unfold keyIs. now apply String.eqb_eq. }
    assert (Hsorted : StronglySorted (fun a b => timestamp a <= timestamp b) v).
    { rewrite Hv. unfold employeeEvents, data.
      rewrite LatestFacts.repository_punches.
      apply IndexFacts.StronglySorted_filter,
        RepositoryFacts.sortByTimestamp_sorted. }
    rewrite Hl in Hrv, Hsorted. apply in_app_or in Hrv.
    destruct Hrv as [Hrv|[<-|[]]]; [|lia].
    apply LatestFacts.StronglySorted_last in Hsorted.
    rewrite Forall_forall in Hsorted. now apply Hsorted.
  - intros id earlier latest Hev Hc.
    destruct (parseCoordinates parseFloat (location latest)) as [coords|] eqn:Ec;
      [|congruence].
    assert (Hne : employeeEvents data id <> [])
      by (rewrite Hev; now destruct earlier).
    pose proof (LatestFacts.repository_entry tz now records id Hne) as Hin.
    fold data in Hin.
    assert (Hlatest : In latest records /\ employeeId latest = id).
    { assert (H : In latest (employeeEvents data id))
        by (rewrite Hev; apply in_or_app; right; now left).
      unfold employeeEvents in H. apply filter_In in H. destruct H as [H1 H2].
      unfold data in H1. rewrite LatestFacts.repository_punches in H1.
      apply JSFacts.sort_In in H1. split; [exact H1|].
      unfold keyIs in H2. now apply String.eqb_eq in H2. }
    destruct Hlatest as [Hrec Hid].
    destruct (RepositoryFacts.processSheetData_employee_known tz now records
                latest Hrec) as [employee He].
    rewrite Hid in He. fold data in He.
    assert (Hl : last (map Some (employeeEvents data id)) None = Some latest)
      by (apply LatestFacts.last_Some; eauto).
    pose proof (LatestFacts.latest_complete cfg parseFloat data
                  (punchesByEmployee data) [] id _ employee latest coords
                  Hin He Hl Ec) as Hloc.
    apply (in_map loc_employeeId) in Hloc. exact Hloc.
Qed.

Lemma latest_locations_witness :
  In "EMP003"
     (map loc_employeeId
        (calculateLatestLocations CONFIG RowSamples.distance25
           (processSheetData Samples.utc Samples.nextNoon
              [SessionSamples.bobIn9]))).
Proof.
  destruct (latest_locations Samples.utc CONFIG RowSamples.distance25
              Samples.nextNoon [SessionSamples.bobIn9]) as (_ & _ & H).
  apply (H "EMP003" [] SessionSamples.bobIn9).
  - vm_compute. reflexivity.
  - vm_compute. discriminate.
Defined.

(* ================================================================== *)
(** * Unique locations *)
(* ================================================================== *)

Module PlaceFacts.
Import JS MapFacts.

Local Abbreviation placeStep cfg parseFloat :=
  (fun (locationMap : Map Location) (punch : RawPunchRecord) =>
     if truthy (manualLocation punch)
        && negb (Map_has locationMap (manualLocation punch))
     then
       Map_set locationMap (manualLocation punch)
         {| locationId :=
              toUpperCase (underscoreRuns false (manualLocation punch));
            place_name := manualLocation punch;
            place_lat :=
              match parseCoordinates parseFloat (location punch) with
              | Some c => fst c
              | None => 0%Q
              end;
            place_long :=
              match parseCoordinates parseFloat (location punch) with
              | Some c => snd c
              | None => 0%Q
              end;
            distanceThreshold := DISTANCE_THRESHOLD_COMPLIANT cfg |}
     else locationMap).

Lemma firstAppearance_NoDup l : NoDup (firstAppearance l).
Proof.
  induction l as [|x l IH]; [constructor|].
  cbn [firstAppearance]. constructor.
  - intros H. apply filter_In in H. destruct H as [_ H].
    now rewrite String.eqb_refl in H.
  - now apply NoDup_filter.
Qed.

Section Places.
Variable cfg : Config.
Variable parseFloat : string -> option Q.

Lemma places_keys l : forall m,
  map fst (fold_left (placeStep cfg parseFloat) l m) =
  map fst m ++
  filter (fun y => negb (memb y (map fst m)))
         (firstAppearance (filter truthy (map manualLocation l))).
Proof.
  induction l as [|p l IH]; intros m.
  - cbn. now rewrite app_nil_r.
  - cbn [fold_left map filter].
    destruct (truthy (manualLocation p)) eqn:Et; cbn [andb]; [|apply IH].
    cbn [firstAppearance filter].
    destruct (Map_has m (manualLocation p)) eqn:E; cbn [negb].
    + rewrite IH.
      assert (Hin : memb (manualLocation p) (map fst m) = true)
        by (apply WorkloadFacts.memb_In, Map_has_In, E).
      rewrite Hin. cbn [negb]. f_equal.
      rewrite WorkloadFacts.filter_filter. apply filter_ext. intros y.
      destruct (String.eqb_spec y (manualLocation p)) as [->|]; [|reflexivity].
      now rewrite Hin.
    + cbv zeta. rewrite IH, Map_set_keys, E.
      assert (Hin : memb (manualLocation p) (map fst m) = false).
      { apply WorkloadFacts.memb_false. intros H. apply Map_has_In in H.
        congruence. }
      rewrite Hin. cbn [negb]. rewrite <- app_assoc. cbn [app]. do 2 f_equal.
      rewrite WorkloadFacts.filter_filter. apply filter_ext. intros y.
      unfold memb. rewrite existsb_app. cbn [existsb].
      rewrite orb_false_r, negb_orb. apply andb_comm.
Qed.

Lemma places_get l : forall m k,
  Map_get (fold_left (placeStep cfg parseFloat) l m) k =
  match Map_get m k with
  | Some v => Some v
  | None =>
      if truthy k then option_map (placeOf cfg parseFloat) (firstAt k l)
      else None
  end.
Proof.
  unfold firstAt. induction l as [|p l IH]; intros m k.
  - cbn. destruct (Map_get m k); [reflexivity|now destruct (truthy k)].
  - cbn [fold_left find]. rewrite IH.
    destruct (String.eqb_spec (manualLocation p) k) as [Hk|Hk].
    + subst k. unfold Map_has.
      destruct (Map_get m (manualLocation p)) as [v|] eqn:E.
      * rewrite andb_false_r. now rewrite E.
      * rewrite andb_true_r.
        destruct (truthy (manualLocation p)) eqn:Et; [|now rewrite E].
        cbv zeta. now rewrite Map_get_set_same.
    + destruct (truthy (manualLocation p)
                && negb (Map_has m (manualLocation p))); [|reflexivity].
      cbv zeta. now rewrite Map_get_set_other.
Qed.
End Places.

Lemma underscoreRuns_spaces s : forall inRun,
  sall notSpace (underscoreRuns inRun s) = true.
Proof.
  induction s as [|c s IH]; intros inRun; [reflexivity|].
  cbn [underscoreRuns]. destruct (isWhiteSpace c) eqn:E.
  - destruct inRun; [apply IH|]. cbn [sall]. now rewrite IH.
  - cbn [sall]. unfold notSpace at 1. now rewrite E, IH.
Qed.

End PlaceFacts.

(** X16: the places of [getUniqueLocations].  Their names are the
    non-empty manual locations of the events, each once, in the order in
    which they first appear.  The entry of a place is written from the
    first event at that place: its coordinates are read from that event's
    location text (0, 0 when unreadable), whatever later events say.  The
    identifier of a place holds no white space and is in upper case. *)
Theorem unique_locations (cfg : Config) (parseFloat : string -> option Q)
        (data : ProcessedData) :
  let places := getUniqueLocations cfg parseFloat data in
  map place_name places
  = firstAppearance (filter JS.truthy (map manualLocation (punches data)))
  /\ NoDup (map place_name places)
  /\ Forall (fun place =>
               exists punch,
                 firstAt (place_name place) (punches data) = Some punch
                 /\ place = placeOf cfg parseFloat punch
                 /\ sall notSpace (locationId place) = true
                 /\ JS.toUpperCase (locationId place) = locationId place)
            places.
Proof.
  cbv zeta. unfold getUniqueLocations. cbv zeta.
  match goal with
  | |- context [fold_left ?f (punches data) []] =>
      set (locationMap := fold_left f (punches data) [])
  end.
  assert (Hkeys : map fst locationMap
                  = firstAppearance
                      (filter JS.truthy (map manualLocation (punches data)))).
  { unfold locationMap. rewrite PlaceFacts.places_keys. cbn [map app].
    apply KPIHours.filter_all. reflexivity. }
  assert (Hnd : NoDup (map fst locationMap))
    by (rewrite Hkeys; apply PlaceFacts.firstAppearance_NoDup).
  assert (Hentries : forall k v, In (k, v) locationMap ->
            exists punch, firstAt k (punches data) = Some punch
                          /\ v = placeOf cfg parseFloat punch
                          /\ manualLocation punch = k).
  { intros k v Hin.
    pose proof (MapFacts.Map_get_In locationMap k v Hnd Hin) as Hget.
    unfold locationMap in Hget. rewrite PlaceFacts.places_get in Hget.
    cbn [JS.Map_get] in Hget.
    destruct (JS.truthy k); [|discriminate].
    destruct (firstAt k (punches data)) as [punch|] eqn:Ef; [|discriminate].
    injection Hget as <-. exists punch. split; [reflexivity|].
    split; [reflexivity|].
    unfold firstAt in Ef. apply find_some in Ef. destruct Ef as [_ Ef].
    now apply String.eqb_eq in Ef. }
  assert (Hnames : map place_name (map snd locationMap) = map fst locationMap).
  { rewrite map_map. apply map_ext_in. intros [k v] Hin.
    destruct (Hentries k v Hin) as (punch & _ & -> & Hk). exact Hk. }
  split; [now rewrite Hnames|]. split; [now rewrite Hnames|].
  apply Forall_forall. intros place Hplace. apply in_map_iff in Hplace.
  destruct Hplace as ([k v] & <- & Hin). cbn [snd].
  destruct (Hentries k v Hin) as (punch & Hfirst & -> & Hk).
  exists punch. cbn [placeOf place_name locationId]. rewrite Hk.
  split; [exact Hfirst|]. split; [reflexivity|]. split.
  - apply IdFacts.sall_toUpperCase, PlaceFacts.underscoreRuns_spaces.
  - apply IdFacts.toUpperCase_idem.
Qed.

(* ================================================================== *)
(** * Pagination of the exceptions endpoint *)
(* ================================================================== *)

Module RouteFacts.
Import Route.

Lemma firstn_over {A} (n : nat) (l : list A) :
  firstn (Nat.min n (List.length l)) l = firstn n l.
Proof.
  destruct (Nat.le_ge_cases n (List.length l)) as [H|H].
  - now rewrite Nat.min_l.
  - rewrite Nat.min_r by exact H. rewrite firstn_all.
    symmetry. now apply firstn_all2.
Qed.

Lemma firstn_plus {A} (a b : nat) : forall l : list A,
  firstn (a + b) l = firstn a l ++ firstn b (skipn a l).
Proof.
  induction a as [|a IH]; intros l; [reflexivity|].
  destruct l as [|x l]; [cbn [skipn]; now rewrite !firstn_nil|].
  cbn [Nat.add firstn skipn app]. now rewrite IH.
Qed.

(** A slice between two indexes that are not negative. *)
Lemma slice_window {A} (l : list A) (start len : Z) :
  0 <= start -> 0 <= len ->
  slice l (Some start) (Some (start + len)) =
  firstn (Z.to_nat len) (skipn (Z.to_nat start) l).
Proof.
  intros Hs Hl. unfold slice. cbv zeta.
  replace (start <? 0) with false by (symmetry; apply Z.ltb_ge; lia).
  replace (start + len <? 0) with false by (symmetry; apply Z.ltb_ge; lia).
  destruct (Z.le_gt_cases (Z.of_nat (List.length l)) start) as [Hout|Hin].
  - rewrite Z.min_r by lia.
    rewrite !(skipn_all2 l) by lia. now rewrite !firstn_nil.
  - rewrite (Z.min_l start) by lia.
    rewrite <- (firstn_over (Z.to_nat len)). f_equal.
    rewrite length_skipn. lia.
Qed.

Lemma slice_nan {A} (l : list A) : slice l None None = [].
Proof. unfold slice. cbv zeta. now rewrite Z.sub_diag. Qed.

Lemma pageOf_items all page limit :
  1 <= page -> 0 <= limit ->
  pg_items (pageOf all (Some page) (Some limit)) =
  firstn (Z.to_nat limit) (skipn (Z.to_nat ((page - 1) * limit)) all).
Proof.
  intros Hp Hl. unfold pageOf. cbn [pg_items nanSub nanMul nanAdd].
  apply slice_window; nia.
Qed.

End RouteFacts.

(** X17: one page of exceptions.  For a page number from 1 on and a
    limit that is not negative, the items are the [limit] exceptions that
    follow the first [(page - 1) * limit] (fewer at the end of the list,
    none beyond it), and the total is the length of the whole list. *)
Theorem exceptions_page_window (allExceptions : list Exception)
        (page limit : Z) :
  1 <= page -> 0 <= limit ->
  let response := Route.pageOf allExceptions (Some page) (Some limit) in
  Route.pg_items response
  = firstn (Z.to_nat limit)
           (skipn (Z.to_nat ((page - 1) * limit)) allExceptions)
  /\ count (Route.pg_items response) <= limit
  /\ Route.pg_total response = count allExceptions.
Proof.
  intros Hp Hl. cbv zeta. rewrite RouteFacts.pageOf_items by assumption.
  split; [reflexivity|]. split; [|reflexivity].
  unfold count. rewrite length_firstn. lia.
Qed.

Lemma exceptions_page_window_witness :
  Route.pg_items
    (Route.pageOf
       (SessionSamples.exceptionsAt Samples.nextNoon [SessionSamples.bobIn1130])
       (Some 2) (Some 1))
  = firstn 1
      (skipn 1
         (SessionSamples.exceptionsAt Samples.nextNoon
            [SessionSamples.bobIn1130])).
Proof.
  destruct (exceptions_page_window
              (SessionSamples.exceptionsAt Samples.nextNoon
                 [SessionSamples.bobIn1130]) 2 1) as [H _]; [lia|lia|].
  exact H.
Defined.

(** X18: the pages tile the list.  For a limit of at least 1, the items
    of the pages 1 to [n], one after the other, are the first
    [n * limit] exceptions: no exception is skipped and none is shown
    twice. *)
Theorem exceptions_pages_tile (allExceptions : list Exception)
        (limit : Z) (n : nat) :
  1 <= limit ->
  List.concat (map (fun page =>
                 Route.pg_items
                   (Route.pageOf allExceptions (Some (Z.of_nat page))
                      (Some limit)))
              (seq 1 n))
  = firstn (n * Z.to_nat limit) allExceptions.
Proof.
  intros Hl. induction n as [|n IH]; [reflexivity|].
  rewrite seq_S, map_app, concat_app, IH. cbn [map List.concat Nat.add].
  rewrite app_nil_r, RouteFacts.pageOf_items by lia.
  replace (Z.to_nat ((Z.of_nat (S n) - 1) * limit))
    with (n * Z.to_nat limit)%nat by nia.
  rewrite <- RouteFacts.firstn_plus. f_equal. lia.
Qed.

Lemma exceptions_pages_tile_witness :
  List.concat (map (fun page =>
                 Route.pg_items
                   (Route.pageOf
                      (SessionSamples.exceptionsAt Samples.nextNoon
                         [SessionSamples.bobIn1130])
                      (Some (Z.of_nat page)) (Some 1)))
              (seq 1 2))
  = firstn (2 * Z.to_nat 1)
      (SessionSamples.exceptionsAt Samples.nextNoon [SessionSamples.bobIn1130]).
Proof.
  apply (exceptions_pages_tile
           (SessionSamples.exceptionsAt Samples.nextNoon
              [SessionSamples.bobIn1130]) 1 2).
  lia.
Defined.

(** X19: parameters that are missing or unusable.  Without the [page]
    and [limit] parameters, or with empty ones, the endpoint answers with
    page 1 and limit 20.  A page or a limit that is not a number, and
    page 0, give no items, whatever the list. *)
Theorem exceptions_page_defaults (allExceptions : list Exception)
        (page limit : option Z) :
  Route.exceptionsPage allExceptions None None
  = Route.pageOf allExceptions (Some 1) (Some 20)
  /\ Route.exceptionsPage allExceptions (Some EmptyString) (Some EmptyString)
     = Route.pageOf allExceptions (Some 1) (Some 20)
  /\ Route.pg_items (Route.pageOf allExceptions None limit) = []
  /\ Route.pg_items (Route.pageOf allExceptions page None) = []
  /\ Route.pg_items (Route.pageOf allExceptions (Some 0) limit) = [].
Proof.
  split; [reflexivity|]. split; [reflexivity|].
  split; [apply RouteFacts.slice_nan|].
  split; [destruct page; apply RouteFacts.slice_nan|].
  destruct limit as [limit|]; [|apply RouteFacts.slice_nan].
  unfold Route.pageOf, Route.slice.
  cbn [Route.pg_items Route.nanSub Route.nanMul Route.nanAdd]. cbv zeta.
  replace ((0 - 1) * limit + limit) with 0 by lia.
  cbn [Z.ltb Z.compare]. rewrite Z.min_l by lia.
  match goal with
  | |- firstn (Z.to_nat (0 - ?from)) _ = _ =>
      assert (Hfrom : 0 <= from)
        by (destruct (Z.ltb_spec ((0 - 1) * limit) 0); lia);
      replace (Z.to_nat (0 - from)) with 0%nat by lia
  end.
  reflexivity.
Qed.

(* ================================================================== *)
(** * Entries of the workload ranking *)
(* ================================================================== *)

Module RankingFacts.
Import JS JSFacts MapFacts.

Local Abbreviation workloadStep data :=
  (fun workloads (entry : string * list RawPunchRecord) =>
     let '(empId, empPunches) := entry in
     match Map_get (employees data) empId with
     | None => workloads
     | Some employee =>
         let wh := Ieee.calculateWorkingHours empPunches in
         workloads ++
           [{| wl_employeeId := empId;
               wl_name := emp_name employee;
               totalHours := roundToTenth (fst wh) |}]
     end).

Lemma workloads_distinct data entries : forall acc,
  NoDup (map wl_employeeId acc ++ map fst entries) ->
  NoDup (map wl_employeeId (fold_left (workloadStep data) entries acc)).
Proof.
  induction entries as [|[k v] entries IH]; intros acc Hnd.
  - cbn [fold_left]. cbn [map] in Hnd. now rewrite app_nil_r in Hnd.
  - cbn [fold_left]. apply IH. cbn [map fst] in Hnd.
    destruct (Map_get (employees data) k) as [employee|];
      [|exact (NoDup_remove_1 _ _ _ Hnd)].
    cbv zeta. rewrite map_app. cbn [map wl_employeeId].
    now rewrite <- app_assoc.
Qed.

Lemma NoDup_firstn {A} (n : nat) (l : list A) :
  NoDup l -> NoDup (firstn n l).
Proof.
  intros H. rewrite <- (firstn_skipn n l) in H.
  now apply NoDup_app_remove_r in H.
Qed.

(** The rounding is that of the doubles: the three shifts of
    [quarterHourDay] last 900 seconds, their minutes add up to a double
    just below a quarter of an hour, and the entry shows 0.2 where exact
    arithmetic would give 0.3. *)
Lemma quarter_hour_entry :
  fst (Ieee.calculateWorkingHours WorkloadSamples.quarterHourDay)
  = 0x1.fffffffffffffp-3%float
  /\ map totalHours (WorkloadSamples.topOf WorkloadSamples.quarterHourDay 10)
     = [0x1.999999999999ap-3%float]
  /\ (wh_totalHours (calculateWorkingHours WorkloadSamples.quarterHourDay)
      == 1 # 4)%Q.
Proof. vm_compute. repeat split; reflexivity. Qed.

(** A double that is not negative is at least zero, as [<=] on doubles
    has it. *)
Lemma leb_zero x :
  nonNegative x = true -> PrimFloat.leb PrimFloat.zero x = true.
Proof.
  unfold nonNegative. rewrite leb_spec.
  change (Prim2SF PrimFloat.zero) with (S754_zero false).
  destruct (Prim2SF x) as [s|s| |s m e]; try discriminate;
    destruct s; try discriminate; reflexivity.
Qed.

End RankingFacts.

(** X22: the entries of the workload ranking, for any repository, date
    and limit.  No employee appears twice.  Every entry belongs to an
    employee with an event on the day who is in the employee index; its
    name is the name in the index, and its hours are the working hours of
    that employee's events of the day, computed and rounded to a tenth in
    the double arithmetic of the code; they are a number, and at least
    zero. *)
Theorem top_workload_entries (tz : Z) (now : Z) (data : ProcessedData)
        (dateStr : option string) (limit : Z) :
  let dayPunches := dayPunchesOf data (targetDateOf tz now dateStr) in
  let top := calculateTopWorkload tz now data dateStr limit in
  NoDup (map wl_employeeId top)
  /\ Forall
       (fun w =>
          exists employee,
            JS.Map_get (employees data) (wl_employeeId w) = Some employee
            /\ In (wl_employeeId w) (map employeeId dayPunches)
            /\ w = workloadOf (wl_employeeId w) employee
                     (filter (keyIs employeeId (wl_employeeId w)) dayPunches)
            /\ PrimFloat.leb PrimFloat.zero (totalHours w) = true)
       top.
Proof.
  cbv zeta. unfold calculateTopWorkload, JS.slice0. cbv zeta.
  set (dayPunches := dayPunchesOf data (targetDateOf tz now dateStr)).
  match goal with
  | |- context [firstn ?k _] => generalize k
  end.
  intros k. split.
  - rewrite <- firstn_map. apply RankingFacts.NoDup_firstn.
    eapply Permutation_NoDup;
      [apply Permutation_map, JSFacts.sort_perm|].
    unfold workloadsOf.
    apply RankingFacts.workloads_distinct. cbn [map app].
    rewrite MapFacts.groupByEmployee_groupFold.
    apply MapFacts.groupFold_keys_NoDup. constructor.
  - apply Forall_forall. intros w Hw. apply JSFacts.In_firstn in Hw.
    apply JSFacts.sort_In in Hw. revert w Hw. apply Forall_forall.
    apply WorkloadFacts.workloadsOf_sound.
    intros id v employee Hin He.
    rewrite MapFacts.groupByEmployee_groupFold in Hin.
    pose proof (MapFacts.groupFold_entries _ _ _ _ Hin) as [Hv Hne].
    exists employee. cbn [workloadOf wl_employeeId totalHours].
    split; [exact He|]. split; [|split].
    + apply (in_map fst) in Hin. cbn [fst] in Hin.
      apply MapFacts.groupFold_keys_In in Hin. destruct Hin as [[]|Hin].
      exact Hin.
    + now rewrite <- Hv.
    + apply RankingFacts.leb_zero, WorkloadFacts.roundToTenth_nonNegative.
      apply WorkloadFacts.calculateWorkingHours_nonNegative.
Qed.

(* ================================================================== *)
(** * Query parameters and coordinates *)
(* ================================================================== *)

Module TextFacts.
Import JS.
Local Open Scope string_scope.

Lemma digit_not_sign c :
  isDigit c = true -> Ascii.eqb c "-" = false /\ Ascii.eqb c "+" = false.
Proof.
  destruct c as [[] [] [] [] [] [] [] []]; intros H;
    solve [split; reflexivity | discriminate H].
Qed.

Lemma digitValue_nonneg c : isDigit c = true -> 0 <= digitValue c.
Proof.
  destruct c as [[] [] [] [] [] [] [] []]; intros H;
    solve [discriminate H | vm_compute; discriminate].
Qed.

Lemma leadingDigits_all s : forall acc,
  sall isDigit s = true -> leadingDigits acc s = numberOfDigits acc s.
Proof.
  induction s as [|c s IH]; intros acc H; [reflexivity|].
  cbn [sall] in H. apply andb_prop in H. destruct H as [Hc Hs].
  cbn [leadingDigits numberOfDigits]. rewrite Hc. now apply IH.
Qed.

Lemma numberOfDigits_nonneg s : forall acc,
  0 <= acc -> sall isDigit s = true -> 0 <= numberOfDigits acc s.
Proof.
  induction s as [|c s IH]; intros acc Hacc H; [exact Hacc|].
  cbn [sall] in H. apply andb_prop in H. destruct H as [Hc Hs].
  cbn [numberOfDigits]. apply IH; [|exact Hs].
  pose proof (digitValue_nonneg c Hc). lia.
Qed.

(** *** Integers below 2^53 are doubles *)

Lemma digits2_pos_iter_xO m d :
  Zpos (digits2_pos (Pos.iter xO m d)) = Zpos (digits2_pos m) + Zpos d.
Proof.
  induction d as [|d IH] using Pos.peano_ind.
  - cbn [Pos.iter digits2_pos]. lia.
  - rewrite Pos.iter_succ. cbn [digits2_pos].
    rewrite !Pos2Z.inj_succ, IH. lia.
Qed.

(** A mantissa already in canonical form is not rounded. *)
Lemma binary_round_aux_canonical sign m e :
  bounded prec emax m e = true ->
  binary_round_aux prec emax sign (Zpos m) e loc_Exact
  = S754_finite sign m e.
Proof.
  unfold bounded, canonical_mantissa. intros H.
  apply andb_true_iff in H. destruct H as [Hc He]. apply Z.eqb_eq in Hc.
  unfold binary_round_aux, shr_fexp.
  cbn [Zdigits2 shr_record_of_loc]. rewrite Hc, Z.sub_diag.
  cbn [shr shr_m loc_of_shr_record round_nearest_even Zdigits2
       shr_record_of_loc].
  rewrite Hc, Z.sub_diag. cbn [shr shr_m]. now rewrite He.
Qed.

Lemma binary_round_small sign p :
  Zpos p < 2 ^ prec ->
  exists m e,
    binary_round prec emax sign p 0 = S754_finite sign m e
    /\ e <= 0 /\ Zpos m = Zpos p * 2 ^ (- e).
Proof.
  intros Hp. pose proof (DoubleFacts.digits2_pos_bounds p) as [Hlow _].
  assert (Hd : Zpos (digits2_pos p) <= prec).
  { destruct (Z.le_gt_cases (Zpos (digits2_pos p)) prec) as [|Hgt];
      [assumption|exfalso].
    assert (2 ^ prec <= 2 ^ (Zpos (digits2_pos p) - 1))
      by (apply Z.pow_le_mono_r; lia).
    lia. }
  unfold binary_round. rewrite Z.add_0_r.
  assert (He : fexp prec emax (Zpos (digits2_pos p))
               = Zpos (digits2_pos p) - prec).
  { unfold fexp, SpecFloat.emin, prec, emax in *. lia. }
  set (e := fexp prec emax (Zpos (digits2_pos p))) in *.
  assert (Ha : exists mz,
             shl_align p 0 e = (mz, e)
             /\ Zpos mz = Zpos p * 2 ^ (- e)
             /\ Zpos (digits2_pos mz) = Zpos (digits2_pos p) - e).
  { unfold shl_align. rewrite Z.sub_0_r.
    destruct e as [|d|d] eqn:Ee; [|lia|].
    - exists p. split; [reflexivity|]. cbn. lia.
    - exists (Pos.iter xO p d). split; [reflexivity|].
      rewrite DoubleFacts.iter_xO, digits2_pos_iter_xO. cbn [Z.opp]. lia. }
  destruct Ha as (mz & -> & Hmz & Hdz).
  exists mz, e. split; [|split; [lia|exact Hmz]].
  apply binary_round_aux_canonical.
  unfold bounded, canonical_mantissa. apply andb_true_iff. split.
  - apply Z.eqb_eq. rewrite Hdz.
    replace (Zpos (digits2_pos p) - e + e) with (Zpos (digits2_pos p)) by lia.
    reflexivity.
  - apply Z.leb_le. unfold prec, emax in *. lia.
Qed.

Lemma nearestDouble_exact n :
  0 <= n < 2 ^ prec -> Route.nearestDouble n = Some n.
Proof.
  intros [Hlow Hhigh]. unfold Route.nearestDouble.
  destruct n as [|p|p]; [reflexivity| |lia].
  cbn [binary_normalize].
  destruct (binary_round_small false p Hhigh) as (m & e & -> & He & Hm).
  cbv zeta. f_equal. rewrite Hm.
  destruct (Z.leb_spec 0 e) as [H0|H0].
  - replace e with 0 by lia. cbn. lia.
  - apply Z.div_mul. apply Z.pow_nonzero; lia.
Qed.

(** Past 2^53 the digits are rounded: the odd number 2^53 + 1 is read as
    2^53. *)
Lemma parseInt10_rounds :
  Route.parseInt10 "9007199254740993" = Some 9007199254740992.
Proof. vm_compute. reflexivity. Qed.

Lemma parseInt10_digits s :
  s <> EmptyString -> sall isDigit s = true ->
  Route.parseInt10 s = Route.nearestDouble (numberOfDigits 0 s).
Proof.
  intros Hne Hd. destruct s as [|c s]; [congruence|].
  pose proof Hd as Hall.
  cbn [sall] in Hd. apply andb_prop in Hd. destruct Hd as [Hc _].
  unfold Route.parseInt10. cbn [trimStart].
  rewrite (TimestampFacts.digit_notSpace c Hc).
  destruct (digit_not_sign c Hc) as [-> ->]. rewrite Hc.
  now rewrite leadingDigits_all.
Qed.

Lemma paramOr_given s fallback :
  s <> EmptyString -> Route.paramOr (Some s) fallback = s.
Proof. destruct s; [congruence|reflexivity]. Qed.

Lemma splitComma_plain s : forall current,
  sall notComma s = true -> splitComma s current = [current ++ s].
Proof.
  induction s as [|c s IH]; intros current H.
  - cbn [splitComma]. now rewrite LineFacts.sapp_nil_r.
  - cbn [sall] in H. apply andb_prop in H. destruct H as [Hc Hs].
    unfold notComma in Hc. apply negb_true_iff in Hc.
    cbn [splitComma]. rewrite Hc, IH by exact Hs.
    now rewrite LineFacts.sapp_assoc.
Qed.

Lemma splitComma_field s rest : forall current,
  sall notComma s = true ->
  splitComma (s ++ String "," rest) current
  = (current ++ s) :: splitComma rest EmptyString.
Proof.
  induction s as [|c s IH]; intros current H.
  - cbn [append splitComma]. change (Ascii.eqb "," ",") with true.
    cbv iota. now rewrite LineFacts.sapp_nil_r.
  - cbn [sall] in H. apply andb_prop in H. destruct H as [Hc Hs].
    unfold notComma in Hc. apply negb_true_iff in Hc.
    cbn [append splitComma]. rewrite Hc, IH by exact Hs.
    now rewrite LineFacts.sapp_assoc.
Qed.

End TextFacts.

(** X23: query parameters written in decimal digits that spell numbers
    below 2^53 are read as these numbers, which are not negative (a
    longer number is rounded to the nearest double); the response is then
    the page for these numbers. *)
Theorem exceptions_page_query (allExceptions : list Exception)
        (pageText limitText : string) :
  pageText <> EmptyString -> limitText <> EmptyString ->
  sall JS.isDigit pageText = true -> sall JS.isDigit limitText = true ->
  numberOfDigits 0 pageText < 2 ^ 53 ->
  numberOfDigits 0 limitText < 2 ^ 53 ->
  Route.exceptionsPage allExceptions (Some pageText) (Some limitText)
  = Route.pageOf allExceptions (Some (numberOfDigits 0 pageText))
      (Some (numberOfDigits 0 limitText))
  /\ 0 <= numberOfDigits 0 pageText
  /\ 0 <= numberOfDigits 0 limitText.
Proof.
  intros Hp Hl Hpd Hld Hpb Hlb. unfold Route.exceptionsPage. cbv zeta.
  assert (Hp0 : 0 <= numberOfDigits 0 pageText)
    by (apply TextFacts.numberOfDigits_nonneg; auto; lia).
  assert (Hl0 : 0 <= numberOfDigits 0 limitText)
    by (apply TextFacts.numberOfDigits_nonneg; auto; lia).
  rewrite !TextFacts.paramOr_given by assumption.
  rewrite !TextFacts.parseInt10_digits by assumption.
  rewrite !TextFacts.nearestDouble_exact by (split; assumption).
  split; [reflexivity|]. split; assumption.
Qed.

Lemma exceptions_page_query_witness :
  Route.exceptionsPage
    (SessionSamples.exceptionsAt Samples.nextNoon [SessionSamples.bobIn1130])
    (Some "2") (Some "1")
  = Route.pageOf
      (SessionSamples.exceptionsAt Samples.nextNoon [SessionSamples.bobIn1130])
      (Some (numberOfDigits 0 "2")) (Some (numberOfDigits 0 "1")).
Proof.
  destruct (exceptions_page_query
              (SessionSamples.exceptionsAt Samples.nextNoon
                 [SessionSamples.bobIn1130]) "2" "1") as [H _];
    [discriminate|discriminate|reflexivity|reflexivity
    |reflexivity|reflexivity|].
  exact H.
Defined.

(** X24: how [parseCoordinates] reads a location text.  A text without
    a comma has no coordinates.  In a text with a comma, the first two
    comma-separated parts, trimmed, are the latitude and the longitude,
    provided both are numbers; whatever follows a second comma is
    ignored. *)
Theorem parseCoordinates_parts (parseFloat : string -> option Q)
        (a b tail : string) :
  sall notComma a = true -> sall notComma b = true ->
  let read :=
    match parseFloat (JS.trim a), parseFloat (JS.trim b) with
    | Some lat, Some long => Some (lat, long)
    | _, _ => None
    end in
  parseCoordinates parseFloat a = None
  /\ parseCoordinates parseFloat (a ++ String "," b)%string = read
  /\ parseCoordinates parseFloat
       (a ++ String "," (b ++ String "," tail))%string = read.
Proof.
  intros Ha Hb. cbv zeta. unfold parseCoordinates. split; [|split].
  - destruct (JS.truthy a); [|reflexivity]. cbn [negb].
    now rewrite TextFacts.splitComma_plain.
  - rewrite HoursFacts.truthy_append. cbn [negb].
    rewrite TextFacts.splitComma_field by exact Ha.
    now rewrite TextFacts.splitComma_plain.
  - rewrite HoursFacts.truthy_append. cbn [negb].
    rewrite !TextFacts.splitComma_field by assumption. reflexivity.
Qed.

Lemma parseCoordinates_parts_witness :
  parseCoordinates RowSamples.distance25 "28.6" = None
  /\ parseCoordinates RowSamples.distance25 "28.6, 77.2"
     = Some (25%Q, 25%Q)
  /\ parseCoordinates RowSamples.distance25 "28.6, 77.2,12"
     = Some (25%Q, 25%Q).
Proof.
  apply (parseCoordinates_parts RowSamples.distance25 "28.6" " 77.2" "12");
    reflexivity.
Defined.

(* ================================================================== *)
(** * The exception list against the KPI count *)
(* ================================================================== *)

Module ConsistencyFacts.
Import JS JSFacts MapFacts FifoFacts.

Lemma count_push (g : Note -> bool) employee empId ty sev punch note st :
  List.length (filter (fun e => g (notes e))
                 (fst (pushException employee empId ty sev punch note st)))
  = (List.length (filter (fun e => g (notes e)) (fst st))
     + if g note then 1 else 0)%nat.
Proof.
  destruct st as [exceptions exceptionId]. cbn [pushException fst].
  rewrite filter_app, length_app. f_equal.
  cbn [filter notes]. now destruct (g note).
Qed.

Lemma Map_get_Some_In {V} (m : Map V) k v :
  Map_get m k = Some v -> In (k, v) m.
Proof.
  induction m as [|[k' v'] m IH]; [discriminate|].
  cbn [Map_get]. destruct (String.eqb k' k) eqn:E.
  - apply String.eqb_eq in E. subst k'. intros [= ->]. now left.
  - intros H. right. now apply IH.
Qed.

Lemma find_filter_swap {A} (P Q : A -> bool) (l : list A) :
  find P (filter Q l) = find Q (filter P l).
Proof.
  induction l as [|x l IH]; [reflexivity|].
  cbn [filter]. destruct (Q x) eqn:Eq, (P x) eqn:Ep; cbn [find];
    rewrite ?Eq, ?Ep; auto.
Qed.

(** Two duplicate-free lists with the same members have the same
    length. *)
Lemma same_members_length (l1 l2 : list string) :
  NoDup l1 -> NoDup l2 -> (forall k, In k l1 <-> In k l2) ->
  List.length l1 = List.length l2.
Proof.
  intros H1 H2 H. apply Permutation_length. now apply NoDup_Permutation.
Qed.

Lemma NoDup_keys_filter {V} (f : string * V -> bool) (m : Map V) :
  NoDup (map fst m) -> NoDup (map fst (filter f m)).
Proof.
  induction m as [|e m IH]; intros H; [constructor|].
  cbn [map] in H. inversion H as [|? ? Hk Hm]; subst.
  cbn [filter]. destruct (f e); [|now apply IH].
  cbn [map]. constructor; [|now apply IH].
  intros Hin. apply Hk. apply in_map_iff in Hin.
  destruct Hin as (e' & He' & Hin). apply filter_In in Hin.
  rewrite <- He'. apply in_map. tauto.
Qed.

(** ** The late arrivals of the list *)

Section Late.
Variable tz : Z.
Variable cfg : Config.
Variable now : Z.

Lemma checkLateArrival_late employee empId sorted st :
  List.length (filter isLateArrival
                 (fst (checkLateArrival tz cfg employee empId sorted st)))
  = (List.length (filter isLateArrival (fst st))
     + if lateFirst tz cfg sorted then 1 else 0)%nat.
Proof.
  unfold checkLateArrival, lateFirst.
  destruct (find isPunchIn sorted) as [firstIn|]; [|lia]. cbv zeta.
  destruct (lateThreshold cfg <? punchMinutesOf tz firstIn); [|lia].
  apply (count_push (fun n => match n with LateArrivalBy _ => true
                                      | _ => false end)).
Qed.

Lemma employee_late employee empId sorted st :
  List.length
    (filter isLateArrival
       (fst (checkLocationBreaches cfg employee empId sorted
               (checkSessions cfg now employee empId sorted
                  (checkLateArrival tz cfg employee empId sorted st)))))
  = (List.length (filter isLateArrival (fst st))
     + if lateFirst tz cfg sorted then 1 else 0)%nat.
Proof.
  rewrite <- (checkLateArrival_late employee empId sorted st).
  set (st1 := checkLateArrival tz cfg employee empId sorted st).
  apply (ExceptionOrder.checkLocationBreaches_pushes cfg employee empId sorted
           (fun st' => List.length (filter isLateArrival (fst st'))
                       = List.length (filter isLateArrival (fst st1)))).
  - intros ty sev punch note st0 _ (d & _ & _ & _ & -> & _) Hst0.
    unfold isLateArrival.
    rewrite (count_push (fun n => match n with LateArrivalBy _ => true
                                          | _ => false end)).
    fold isLateArrival. rewrite Hst0. lia.
  - apply (ExceptionOrder.checkSessions_pushes cfg now employee empId sorted
             (fun st' => List.length (filter isLateArrival (fst st'))
                         = List.length (filter isLateArrival (fst st1))));
      [|reflexivity].
    intros ty sev punch note st0 _ [H|H] Hst0; unfold isLateArrival;
      rewrite (count_push (fun n => match n with LateArrivalBy _ => true
                                            | _ => false end));
      fold isLateArrival; rewrite Hst0.
    + destruct H as (i & _ & _ & _ & _ & _ & -> & _). lia.
    + destruct H as (i & _ & _ & _ & _ & _ & ->). lia.
Qed.

Lemma exceptions_late data entries : forall st,
  (forall k v, In (k, v) entries -> Map_get (employees data) k <> None) ->
  List.length
    (filter isLateArrival
       (fst (fold_left (employeeExceptions tz cfg now data) entries st)))
  = (List.length (filter isLateArrival (fst st))
     + List.length
         (filter (fun e => lateFirst tz cfg (sortByTimestamp (snd e)))
                 entries))%nat.
Proof.
  induction entries as [|[k v] entries IH]; intros st Hknown; [cbn; lia|].
  cbn [fold_left filter snd].
  rewrite IH by (intros k0 v0 Hin; apply (Hknown k0 v0); now right).
  unfold employeeExceptions.
  destruct (Map_get (employees data) k) as [employee|] eqn:E;
    [|exfalso; now apply (Hknown k v (or_introl eq_refl))].
  cbv zeta. rewrite employee_late.
  destruct (lateFirst tz cfg (sortByTimestamp v)); cbn [List.length]; lia.
Qed.

Lemma late_count (late : RawPunchRecord -> bool) (m : Map RawPunchRecord) :
  forall c,
  fold_left (fun lateCount entry =>
               if late (snd entry) then lateCount + 1 else lateCount)
            m c
  = c + Z.of_nat (List.length (filter (fun e => late (snd e)) m)).
Proof.
  induction m as [|e m IH]; intros c; [cbn; lia|].
  cbn [fold_left filter]. rewrite IH.
  destruct (late (snd e)); cbn [List.length]; lia.
Qed.

Lemma firstPunch_get l : forall (m : Map RawPunchRecord) k,
  Map_get
    (fold_left
       (fun m punch =>
          if negb (Map_has m (employeeId punch))
          then Map_set m (employeeId punch) punch else m)
       l m) k
  = match Map_get m k with
    | Some p => Some p
    | None => find (keyIs employeeId k) l
    end.
Proof.
  induction l as [|p l IH]; intros m k.
  - cbn. now destruct (Map_get m k).
  - cbn [fold_left find]. rewrite IH. unfold keyIs at 2, Map_has.
    destruct (String.eqb_spec (employeeId p) k) as [Hk|Hk].
    + subst k. destruct (Map_get m (employeeId p)) eqn:E; cbn [negb].
      * now rewrite E.
      * now rewrite Map_get_set_same.
    + destruct (Map_get m (employeeId p)); cbn [negb]; [reflexivity|].
      now rewrite Map_get_set_other.
Qed.
End Late.

(** ** The open sessions of the list *)

Section OpensLe.
Context {State : Type}.
Variable onPair : RawPunchRecord -> RawPunchRecord -> State -> State.
Variable onOpen : RawPunchRecord -> State -> State.
Variable onOut : nat -> RawPunchRecord -> State -> State.
Variable opens : State -> nat.
Hypothesis opens_pair : forall p out st, opens (onPair p out st) = opens st.
Hypothesis opens_open : forall p st, (opens (onOpen p st) <= opens st + 1)%nat.
Hypothesis opens_out : forall i p st, opens (onOut i p st) = opens st.
Variable sorted : list RawPunchRecord.

Lemma fifoLoop_opens_le fuel : forall i st,
  (List.length sorted - i <= fuel)%nat ->
  (opens (fifoLoop onPair onOpen onOut fuel sorted i st)
   <= opens st + unansweredIns (skipn i sorted))%nat.
Proof.
  induction fuel as [|fuel IH]; intros i st Hfuel.
  - cbn [fifoLoop]. lia.
  - cbn [fifoLoop]. destruct (nth_error sorted i) as [punch|] eqn:E; [|lia].
    pose proof (nth_error_lt _ _ _ E) as Hi.
    rewrite (SessionFacts.skipn_nth _ _ _ E). cbn [unansweredIns].
    rewrite Nat.add_1_r.
    destruct (isPunchIn punch) eqn:Ein.
    + destruct (findPunchOut sorted (S i)) as [[j out]|] eqn:F.
      * apply findPunchOut_Some in F. destruct F as (Hj & Hn & Ho & _).
        etransitivity; [apply IH; lia|]. rewrite opens_pair.
        assert (He : existsb isPunchOut (punch :: skipn (S i) sorted) = true).
        { cbn [existsb].
          rewrite (SessionFacts.existsb_nth_skipn isPunchOut sorted (S i) j out)
            by auto.
          apply orb_true_r. }
        rewrite He.
        rewrite (PairingFacts.unansweredIns_skip (skipn (S i) sorted)
                   (j - S i) out);
          [|rewrite nth_error_skipn;
            now replace (S i + (j - S i))%nat with j by lia
           |exact Ho].
        rewrite skipn_skipn.
        now replace (S (j - S i) + S i)%nat with (j + 1)%nat by lia.
      * apply findPunchOut_None in F.
        assert (He : existsb isPunchOut (punch :: skipn (S i) sorted) = false).
        { cbn [existsb]. rewrite F.
          rewrite SessionFacts.isPunchIn_not_out in Ein.
          apply negb_true_iff in Ein. now rewrite Ein. }
        rewrite He. etransitivity; [apply IH; lia|].
        pose proof (opens_open punch st). lia.
    + assert (He : existsb isPunchOut (punch :: skipn (S i) sorted) = true).
      { cbn [existsb]. rewrite SessionFacts.isPunchIn_not_out in Ein.
        apply negb_false_iff in Ein. now rewrite Ein. }
      rewrite He. etransitivity; [apply IH; lia|]. now rewrite opens_out.
Qed.
End OpensLe.

Section Open.
Variable tz : Z.
Variable cfg : Config.
Variable now : Z.

Lemma checkSessions_open employee empId sorted st :
  (List.length (filter isOpenSessionNote
                  (fst (checkSessions cfg now employee empId sorted st)))
   <= List.length (filter isOpenSessionNote (fst st))
      + unansweredIns sorted)%nat.
Proof.
  unfold checkSessions, fifo.
  apply (fifoLoop_opens_le _ _ _
           (fun st => List.length (filter isOpenSessionNote (fst st))));
    [reflexivity| | |lia].
  - intros p st0. unfold onOpenSession. cbv zeta.
    destruct (Qle_bool _ _); [|lia]. unfold isOpenSessionNote.
    rewrite (count_push (fun n => match n with OpenSessionFor _ => true
                                          | _ => false end)).
    lia.
  - intros i p st0. unfold onPunchOut. cbv zeta.
    destruct (negb _); [|reflexivity]. unfold isOpenSessionNote.
    rewrite (count_push (fun n => match n with OpenSessionFor _ => true
                                          | _ => false end)).
    lia.
Qed.

Lemma employee_open employee empId sorted st :
  (List.length
     (filter isOpenSessionNote
        (fst (checkLocationBreaches cfg employee empId sorted
                (checkSessions cfg now employee empId sorted
                   (checkLateArrival tz cfg employee empId sorted st)))))
   <= List.length (filter isOpenSessionNote (fst st))
      + unansweredIns sorted)%nat.
Proof.
  set (st1 := checkLateArrival tz cfg employee empId sorted st).
  set (st2 := checkSessions cfg now employee empId sorted st1).
  assert (H1 : List.length (filter isOpenSessionNote (fst st1))
               = List.length (filter isOpenSessionNote (fst st))).
  { apply (ExceptionOrder.checkLateArrival_pushes tz cfg employee empId sorted
             (fun st' => List.length (filter isOpenSessionNote (fst st'))
                         = List.length (filter isOpenSessionNote (fst st))));
      [|reflexivity].
    intros ty sev punch note st0 _ (_ & _ & _ & -> & _) Hst0.
    unfold isOpenSessionNote.
    rewrite (count_push (fun n => match n with OpenSessionFor _ => true
                                          | _ => false end)).
    fold isOpenSessionNote. rewrite Hst0. lia. }
  assert (H3 : List.length
                 (filter isOpenSessionNote
                    (fst (checkLocationBreaches cfg employee empId sorted st2)))
               = List.length (filter isOpenSessionNote (fst st2))).
  { apply (ExceptionOrder.checkLocationBreaches_pushes cfg employee empId
             sorted
             (fun st' => List.length (filter isOpenSessionNote (fst st'))
                         = List.length (filter isOpenSessionNote (fst st2))));
      [|reflexivity].
    intros ty sev punch note st0 _ (d & _ & _ & _ & -> & _) Hst0.
    unfold isOpenSessionNote.
    rewrite (count_push (fun n => match n with OpenSessionFor _ => true
                                          | _ => false end)).
    fold isOpenSessionNote. rewrite Hst0. lia. }
  rewrite H3, <- H1. apply checkSessions_open.
Qed.

Lemma exceptions_open data entries : forall st,
  (List.length
     (filter isOpenSessionNote
        (fst (fold_left (employeeExceptions tz cfg now data) entries st)))
   <= List.length (filter isOpenSessionNote (fst st))
      + list_sum (map (fun e => unansweredIns (sortByTimestamp (snd e)))
                      entries))%nat.
Proof.
  induction entries as [|[k v] entries IH]; intros st; [cbn; lia|].
  cbn [fold_left map snd]. rewrite PairingFacts.list_sum_cons.
  etransitivity; [apply IH|].
  unfold employeeExceptions.
  destruct (Map_get (employees data) k) as [employee|]; [|lia].
  cbv zeta. pose proof (employee_open employee k (sortByTimestamp v) st). lia.
Qed.
End Open.

(** Every exception carries one of the four notes. *)
Lemma notes_partition (l : list Exception) :
  List.length l
  = (List.length (filter isLateArrival l)
     + List.length (filter isOpenSessionNote l)
     + List.length (filter isStrayPunchOut l)
     + List.length (filter isDistanceNote l))%nat.
Proof.
  induction l as [|e l IH]; [reflexivity|].
  cbn [filter List.length].
  unfold isLateArrival at 1, isOpenSessionNote at 1, isStrayPunchOut at 1,
    isDistanceNote at 1.
  destruct (notes e); cbn [List.length]; lia.
Qed.

Lemma distance_notes tz cfg now data dateStr :
  filter isDistanceNote (calculateExceptions tz cfg now data dateStr)
  = filter isLocationBreach (calculateExceptions tz cfg now data dateStr).
Proof.
  pose proof (ExceptionFacts.calculateExceptions_ruleTyped tz cfg now data
                dateStr) as H.
  induction (calculateExceptions tz cfg now data dateStr) as [|e l IH];
    [reflexivity|].
  inversion H as [|? ? [He _] Hl]; subst. cbn [filter].
  rewrite (IH Hl). unfold isDistanceNote, isLocationBreach. rewrite He.
  now destruct (notes e).
Qed.

End ConsistencyFacts.

Module KPIConsistency.
Import JS JSFacts MapFacts.

Section Day.
Variable tz : Z.
Variable cfg : Config.
Variable day : list RawPunchRecord.
Hypothesis chronological :
  StronglySorted (fun a b => timestamp a <= timestamp b) day.

Lemma group_sorted k :
  sortByTimestamp (filter (keyIs employeeId k) day)
  = filter (keyIs employeeId k) day.
Proof.
  apply HoursFacts.sortByTimestamp_of_sorted.
  now apply IndexFacts.StronglySorted_filter.
Qed.

(** The employees whose first punch-in is late, read off the groups of
    the exception scan. *)
Lemma late_groups k :
  In k (map fst
          (filter (fun e => lateFirst tz cfg (sortByTimestamp (snd e)))
                  (groupByEmployee day)))
  <-> lateFirst tz cfg (filter (keyIs employeeId k) day) = true.
Proof.
  rewrite groupByEmployee_groupFold. split.
  - intros H. apply in_map_iff in H. destruct H as ([k' v] & Hk & Hin).
    cbn [fst] in Hk. subst k'. apply filter_In in Hin.
    destruct Hin as [Hin Hlate]. cbn [snd] in Hlate.
    apply groupFold_entries in Hin. destruct Hin as [-> _].
    now rewrite group_sorted in Hlate.
  - intros H.
    assert (Hne : filter (keyIs employeeId k) day <> []).
    { intros E. rewrite E in H. discriminate. }
    pose proof (IndexFacts.grouped_get employeeId day k) as Hget.
    destruct (filter (keyIs employeeId k) day) as [|p v] eqn:E;
      [congruence|].
    cbn [grouped] in Hget. apply ConsistencyFacts.Map_get_Some_In in Hget.
    apply in_map_iff. exists (k, p :: v). split; [reflexivity|].
    apply filter_In. split; [exact Hget|]. cbn [snd].
    rewrite <- E, group_sorted, E. exact H.
Qed.

(** The same employees, read off the map of first punch-ins of the
    KPI. *)
Lemma late_first_punches k :
  In k (map fst
          (filter (fun e => lateThreshold cfg <? punchMinutesOf tz (snd e))
                  (firstPunchByEmployee (filter isPunchIn day))))
  <-> lateFirst tz cfg (filter (keyIs employeeId k) day) = true.
Proof.
  unfold lateFirst, firstPunchByEmployee.
  rewrite ConsistencyFacts.find_filter_swap.
  pose proof (ConsistencyFacts.firstPunch_get (filter isPunchIn day) [] k)
    as Hget.
  cbn [Map_get] in Hget. rewrite <- Hget. clear Hget.
  destruct (KPIBounds.firstPunch_keys (filter isPunchIn day) []
              (NoDup_nil _)) as [Hnd _].
  cbv zeta in Hnd.
  match type of Hnd with
  | NoDup (map fst ?m) => set (first := m) in *
  end.
  split.
  - intros H. apply in_map_iff in H. destruct H as ([k' p] & Hk & Hin).
    cbn [fst] in Hk. subst k'. apply filter_In in Hin.
    destruct Hin as [Hin Hlate]. cbn [snd] in Hlate.
    now rewrite (Map_get_In first k p Hnd Hin).
  - intros H. destruct (Map_get first k) as [p|] eqn:E; [|discriminate].
    apply ConsistencyFacts.Map_get_Some_In in E.
    apply in_map_iff. exists (k, p). split; [reflexivity|].
    apply filter_In. split; [exact E|exact H].
Qed.

Lemma late_groups_count :
  List.length
    (filter (fun e => lateFirst tz cfg (sortByTimestamp (snd e)))
            (groupByEmployee day))
  = List.length
      (filter (fun e => lateThreshold cfg <? punchMinutesOf tz (snd e))
              (firstPunchByEmployee (filter isPunchIn day))).
Proof.
  rewrite <- (length_map fst (filter _ (groupByEmployee day))).
  rewrite <- (length_map fst (filter _ (firstPunchByEmployee _))).
  apply ConsistencyFacts.same_members_length.
  - apply ConsistencyFacts.NoDup_keys_filter.
    rewrite groupByEmployee_groupFold. apply groupFold_keys_NoDup.
    constructor.
  - apply ConsistencyFacts.NoDup_keys_filter.
    destruct (KPIBounds.firstPunch_keys (filter isPunchIn day) []
                (NoDup_nil _)) as [Hnd _].
    exact Hnd.
  - intros k. rewrite late_groups, late_first_punches. reflexivity.
Qed.
End Day.

Lemma exceptions_against_kpi_facts tz cfg now now' records dateStr :
  let data := processSheetData tz now' records in
  let dayPunches := dayPunchesOf data (targetDateOf tz now dateStr) in
  let exceptions := calculateExceptions tz cfg now data dateStr in
  let kpis := calculateKPIs tz cfg now data dateStr in
  count (filter isLateArrival exceptions) = countLateArrivals tz cfg dayPunches
  /\ count (filter isOpenSessionNote exceptions)
     <= wh_openSessions (calculateWorkingHours dayPunches)
  /\ count exceptions
     <= exceptionsCount kpis + count (filter isStrayPunchOut exceptions).
Proof.
  cbv zeta.
  set (data := processSheetData tz now' records).
  set (dayPunches := dayPunchesOf data (targetDateOf tz now dateStr)).
  assert (Hsorted : StronglySorted (fun a b => timestamp a <= timestamp b)
                                   dayPunches).
  { unfold dayPunches, data.
    rewrite RepositoryFacts.dayPunchesOf_processSheetData.
    apply IndexFacts.StronglySorted_filter,
      RepositoryFacts.sortByTimestamp_sorted. }
  assert (Hlate : count (filter isLateArrival
                           (calculateExceptions tz cfg now data dateStr))
                  = countLateArrivals tz cfg dayPunches).
  { unfold calculateExceptions. cbv zeta. fold dayPunches.
    pose proof (ConsistencyFacts.exceptions_late tz cfg now data
                  (groupByEmployee dayPunches) ([], 1)) as Hcount.
    destruct (fold_left _ _ _) as [exceptions exceptionId].
    cbn [fst filter List.length Nat.add] in Hcount.
    unfold count.
    rewrite (Permutation_length
               (PairingFacts.filter_Permutation isLateArrival _ _
                  (Permutation_sym (sort_perm exceptionAfter exceptions)))).
    rewrite Hcount by (intros k v; apply WorkloadFacts.dayPunches_known).
    rewrite (late_groups_count tz cfg dayPunches Hsorted).
    unfold countLateArrivals. cbv zeta.
    rewrite (ConsistencyFacts.late_count
               (fun p => lateThreshold cfg <? punchMinutesOf tz p)).
    lia. }
  assert (Hopen : count (filter isOpenSessionNote
                           (calculateExceptions tz cfg now data dateStr))
                  <= wh_openSessions (calculateWorkingHours dayPunches)).
  { unfold calculateExceptions. cbv zeta. fold dayPunches.
    pose proof (ConsistencyFacts.exceptions_open tz cfg now data
                  (groupByEmployee dayPunches) ([], 1)) as Hcount.
    destruct (fold_left _ _ _) as [exceptions exceptionId].
    cbn [fst filter List.length Nat.add] in Hcount.
    unfold count.
    rewrite (Permutation_length
               (PairingFacts.filter_Permutation isOpenSessionNote _ _
                  (Permutation_sym (sort_perm exceptionAfter exceptions)))).
    destruct (PairingFacts.calculateWorkingHours_facts dayPunches)
      as (_ & -> & _).
    apply inj_le. etransitivity; [exact Hcount|].
    rewrite PairingFacts.groupByEmployee_entries, map_map.
    apply Nat.le_refl. }
  split; [exact Hlate|]. split; [exact Hopen|].
  pose proof (ExceptionOrder.breaches_of_day tz cfg now now' records dateStr)
    as Hbreach.
  cbv zeta in Hbreach. fold data dayPunches in Hbreach.
  unfold count at 1.
  rewrite (ConsistencyFacts.notes_partition
             (calculateExceptions tz cfg now data dateStr)).
  rewrite ConsistencyFacts.distance_notes.
  unfold calculateKPIs. cbn [exceptionsCount]. fold dayPunches.
  unfold count in *. lia.
Qed.

End KPIConsistency.

(** X25: the exception list against the exception count of the KPIs,
    for a repository built from the records.  The late-arrival
    exceptions of the list are as many as the late arrivals the KPI
    counts.  The open-session exceptions are at most the open sessions
    the KPI counts, which include those younger than the warning time.
    So the list is never longer than the KPI count plus the punch-outs
    without punch-in, which only the list shows. *)
Theorem exceptions_against_kpi (tz : Z) (cfg : Config) (now now' : Z)
        (records : list RawPunchRecord) (dateStr : option string) :
  let data := processSheetData tz now' records in
  let dayPunches := dayPunchesOf data (targetDateOf tz now dateStr) in
  let exceptions := calculateExceptions tz cfg now data dateStr in
  let kpis := calculateKPIs tz cfg now data dateStr in
  count (filter isLateArrival exceptions) = countLateArrivals tz cfg dayPunches
  /\ count (filter isOpenSessionNote exceptions)
     <= wh_openSessions (calculateWorkingHours dayPunches)
  /\ count exceptions
     <= exceptionsCount kpis + count (filter isStrayPunchOut exceptions).
Proof.
  exact (KPIConsistency.exceptions_against_kpi_facts tz cfg now now' records
           dateStr).
Qed.
